(** * tinyjson: a shallow embedding of the parser, the pools and the printer

    The development follows [tinyJson.h] and [tinyJson.cpp].

    - A [char] is a [Z] in [0, 256); a [char *] into the document's buffer is
      an offset, [None] being [nullptr].
    - The intrusive child chain ([_firstChild], [_next], ..., [_lastChild]) of
      a node is the list of its children in chain order; [InsertEndChild]
      appends to it.
    - A dereference of [nullptr] and a read outside the buffer are undefined
      behaviour in C++; the model stops there with [Crash].
    - The header only compiles with [DEBUG] defined ([_nUntracked] and
      [SetTracked] are used outside the conditional blocks), so the model is
      the [DEBUG] build. *)

From Stdlib Require Import ZArith List Bool Ascii String Lia.
Import ListNotations.

Local Open Scope Z_scope.
Set Warnings "-register-all".

(** ** Characters and C strings *)

Definition ch (a : ascii) : Z := Z.of_nat (nat_of_ascii a).

Definition NUL : Z := 0.
Definition DQUOTE : Z := 34.
Definition BACKSLASH : Z := 92.

Definition cstr (s : string) : list Z := map ch (list_ascii_of_string s).

(** [quoted s] is the text of [s] between two double quotes. *)
Definition quoted (s : string) : list Z := DQUOTE :: cstr s ++ [DQUOTE].

Definition ptr := option nat.

Definition ptr_add (p : ptr) (n : nat) : ptr :=
  match p with
  | Some i => Some (i + n)%nat
  | None => None
  end.

(** ** Outcomes: a returned value, undefined behaviour, or no more fuel *)

Inductive Fault : Type :=
| NullDeref
| OutOfBounds (i : nat).

Inductive result (A : Type) : Type :=
| Ok (a : A)
| Crash (f : Fault)
| OutOfFuel.

Arguments Ok {A} a.
Arguments Crash {A} f.
Arguments OutOfFuel {A}.

(** ** <ctype.h> in the "C" locale *)

Definition isspace (c : Z) : bool :=
  (c =? 32) || ((9 <=? c) && (c <=? 13)).

Definition isdigit (c : Z) : bool := (48 <=? c) && (c <=? 57).

Definition isxdigit (c : Z) : bool :=
  isdigit c || ((97 <=? c) && (c <=? 102)) || ((65 <=? c) && (c <=? 70)).

Definition isalpha (c : Z) : bool :=
  ((97 <=? c) && (c <=? 122)) || ((65 <=? c) && (c <=? 90)).

Definition tolower (c : Z) : Z :=
  if (65 <=? c) && (c <=? 90) then c + 32 else c.

(** ** JsonError *)

Inductive JsonError : Type :=
| JSON_NO_ERROR
| JSON_ERROR_FILE_NOT_FOUND
| JSON_ERROR_FILE_COULD_NOT_BE_OPENED
| JSON_ERROR_FILE_READ_ERROR
| JSON_ERROR_MEM_POOL_ERROR
| JSON_ERROR_OBJECT_MISMATCH
| JSON_ERROR_PARSING_OBJECT
| JSON_ERROR_ARRAY_MISMATCH
| JSON_ERROR_PARSING_ELEMENT
| JSON_ERROR_PARSING_NUMBER
| JSON_ERROR_PARSING_STRING
| JSON_ERROR_PARSING_RESERVED
| JSON_ERROR_PARSING
| JSON_ERROR_EMPTY_DOCUMENT.

Definition JsonError_eqb (a b : JsonError) : bool :=
  match a, b with
  | JSON_NO_ERROR, JSON_NO_ERROR
  | JSON_ERROR_FILE_NOT_FOUND, JSON_ERROR_FILE_NOT_FOUND
  | JSON_ERROR_FILE_COULD_NOT_BE_OPENED, JSON_ERROR_FILE_COULD_NOT_BE_OPENED
  | JSON_ERROR_FILE_READ_ERROR, JSON_ERROR_FILE_READ_ERROR
  | JSON_ERROR_MEM_POOL_ERROR, JSON_ERROR_MEM_POOL_ERROR
  | JSON_ERROR_OBJECT_MISMATCH, JSON_ERROR_OBJECT_MISMATCH
  | JSON_ERROR_PARSING_OBJECT, JSON_ERROR_PARSING_OBJECT
  | JSON_ERROR_ARRAY_MISMATCH, JSON_ERROR_ARRAY_MISMATCH
  | JSON_ERROR_PARSING_ELEMENT, JSON_ERROR_PARSING_ELEMENT
  | JSON_ERROR_PARSING_NUMBER, JSON_ERROR_PARSING_NUMBER
  | JSON_ERROR_PARSING_STRING, JSON_ERROR_PARSING_STRING
  | JSON_ERROR_PARSING_RESERVED, JSON_ERROR_PARSING_RESERVED
  | JSON_ERROR_PARSING, JSON_ERROR_PARSING
  | JSON_ERROR_EMPTY_DOCUMENT, JSON_ERROR_EMPTY_DOCUMENT => true
  | _, _ => false
  end.

(** ** JsonUtil *)

Module JsonUtil.

Definition IsUTF8Continuation (p : Z) : Z := Z.land p 128.

Definition IsWhiteSpace (p : Z) : bool :=
  (IsUTF8Continuation p =? 0) && isspace p.

(** The loop of [SkipWhiteSpace], run over the bytes from [*p] on; [p] is
    the offset of the first of them.  Running off the end of the memory is
    a read out of bounds. *)
Fixpoint SkipWhiteSpace_loop (rest : list Z) (p : nat) : result nat :=
  match rest with
  | [] => Crash (OutOfBounds p)
  | c :: rest' =>
      if IsWhiteSpace c then SkipWhiteSpace_loop rest' (S p) else Ok p
  end.

Definition SkipWhiteSpace (mem : list Z) (p : ptr) : result ptr :=
  match p with
  | None => Ok None
  | Some i =>
      match SkipWhiteSpace_loop (skipn i mem) i with
      | Ok j => Ok (Some j)
      | Crash f => Crash f
      | OutOfFuel => OutOfFuel
      end
  end.

End JsonUtil.

(** ** MemPoolT

    Nodes are values here, so of a pool only its accounting is kept: the
    chunk free list and the block table decide which address [Alloc] hands
    out, never how many chunks are live. *)

Record MemPoolT : Type := mkMemPoolT {
  _currentAllocs : Z;
  _nAllocs : Z;
  _maxAllocs : Z;
  _nUntracked : Z
}.

Module MemPool.

Definition init : MemPoolT := mkMemPoolT 0 0 0 0.

Definition CurrentAllocs (p : MemPoolT) : Z := _currentAllocs p.

Definition Untracked (p : MemPoolT) : Z := _nUntracked p.

Definition Alloc (p : MemPoolT) : MemPoolT :=
  let cur := _currentAllocs p + 1 in
  mkMemPoolT cur
             (_nAllocs p + 1)
             (if _maxAllocs p <? cur then cur else _maxAllocs p)
             (_nUntracked p + 1).

Definition Free (p : MemPoolT) : MemPoolT :=
  mkMemPoolT (_currentAllocs p - 1) (_nAllocs p) (_maxAllocs p) (_nUntracked p).

Definition SetTracked (p : MemPoolT) : MemPoolT :=
  mkMemPoolT (_currentAllocs p) (_nAllocs p) (_maxAllocs p) (_nUntracked p - 1).

End MemPool.

(** ** The C library's [strncmp] and [strtod]

    Modelled from the C standard (7.21.4.4 and 7.20.1.3, "C" locale): these
    are functions of the platform, not of this repository.  Both work on the
    bytes from the argument pointer on. *)

(** [strncmp s1 s2 n] with [s1] in memory at offset [p] and [s2] a literal
    (its terminating NUL is the [hd] default).  The code only tests the
    result against zero. *)
Fixpoint strncmp (s1 s2 : list Z) (p n : nat) : result Z :=
  match n with
  | O => Ok 0
  | S n' =>
      match s1 with
      | [] => Crash (OutOfBounds p)
      | c1 :: r1 =>
          let c2 := hd NUL s2 in
          if c1 =? c2
          then if c1 =? NUL then Ok 0 else strncmp r1 (tl s2) (S p) n'
          else Ok (c1 - c2)
      end
  end.

Module Strtod.

(** Length of the longest prefix whose bytes all satisfy [f]. *)
Fixpoint span (f : Z -> bool) (l : list Z) : nat :=
  match l with
  | c :: r => if f c then S (span f r) else O
  | [] => O
  end.

Fixpoint prefix_nocase (lit l : list Z) : bool :=
  match lit, l with
  | [], _ => true
  | a :: lit', c :: l' => (tolower c =? a) && prefix_nocase lit' l'
  | _ :: _, [] => false
  end.

Definition sign_len (l : list Z) : nat :=
  match l with
  | c :: _ => if (c =? ch "+") || (c =? ch "-") then 1%nat else 0%nat
  | [] => 0%nat
  end.

(** Optional exponent part: the marker, an optional sign and at least one
    decimal digit; 0 when there is none. *)
Definition exponent_len (marker : Z) (l : list Z) : nat :=
  match l with
  | c :: r =>
      if tolower c =? marker then
        let s := sign_len r in
        let d := span isdigit (skipn s r) in
        if (d =? 0)%nat then 0%nat else (1 + s + d)%nat
      else 0%nat
  | [] => 0%nat
  end.

(** Digits optionally containing one decimal point, with at least one digit;
    0 when there is no digit. *)
Definition mantissa_len (digit : Z -> bool) (l : list Z) : nat :=
  let d1 := span digit l in
  match skipn d1 l with
  | c :: r =>
      if c =? ch "." then
        let d2 := span digit r in
        if (d1 + d2 =? 0)%nat then 0%nat else (d1 + 1 + d2)%nat
      else d1
  | [] => d1
  end.

Definition decimal_len (l : list Z) : nat :=
  let m := mantissa_len isdigit l in
  if (m =? 0)%nat then 0%nat else (m + exponent_len (ch "e") (skipn m l))%nat.

Definition hex_len (l : list Z) : nat :=
  match l with
  | c0 :: cx :: r =>
      if (c0 =? ch "0") && (tolower cx =? ch "x") then
        let m := mantissa_len isxdigit r in
        if (m =? 0)%nat then 0%nat
        else (2 + m + exponent_len (ch "p") (skipn m r))%nat
      else 0%nat
  | _ => 0%nat
  end.

Definition inf_len (l : list Z) : nat :=
  if prefix_nocase (cstr "infinity") l then 8%nat
  else if prefix_nocase (cstr "inf") l then 3%nat
  else 0%nat.

Definition is_nchar (c : Z) : bool := isdigit c || isalpha c || (c =? ch "_").

Definition nan_len (l : list Z) : nat :=
  if prefix_nocase (cstr "nan") l then
    match skipn 3 l with
    | c :: r =>
        if c =? ch "(" then
          let k := span is_nchar r in
          match skipn k r with
          | c' :: _ => if c' =? ch ")" then (3 + 1 + k + 1)%nat else 3%nat
          | [] => 3%nat
          end
        else 3%nat
    | [] => 3%nat
    end
  else 0%nat.

(** The subject sequence after the sign: the longest of the accepted forms. *)
Definition body_len (l : list Z) : nat :=
  let h := hex_len l in
  if negb (h =? 0)%nat then h else
  let d := decimal_len l in
  if negb (d =? 0)%nat then d else
  let i := inf_len l in
  if negb (i =? 0)%nat then i else nan_len l.

(** [consumed nptr] is [endptr - nptr]: 0 when no conversion is performed. *)
Definition consumed (nptr : list Z) : nat :=
  let w := span isspace nptr in
  let r := skipn w nptr in
  let s := sign_len r in
  let b := body_len (skipn s r) in
  if (b =? 0)%nat then 0%nat else (w + s + b)%nat.

End Strtod.

(** A [float] is kept as the text it was converted from: its binary value is
    the platform's rounding of that text. *)
Inductive c_float : Type :=
| float_zero                      (* the literal 0.0f *)
| float_strtod (text : list Z).   (* (float)strtod(text, ...) *)

Inductive c_int : Type :=
| int_zero                        (* the literal 0 *)
| int_of_float (f : c_float).     (* (int)f *)

Definition strtod (nptr : list Z) : c_float * nat :=
  let n := Strtod.consumed nptr in
  (float_strtod (firstn n nptr), n).

(** ** Nodes *)

Record StrPair : Type := mkStrPair {
  _start : ptr;
  _end : ptr
}.

Module JsonReserved.

Inductive Type_ : Type :=
| RESERVED
| RESERVED_NULL
| RESERVED_TRUE
| RESERVED_FALSE.

End JsonReserved.

(** A node with the fields of its class; the three container classes carry
    their child chain.  [_document] and [_parent] are the context a node is
    reached from, and [_memPool] is determined by the class (see [Identify]
    and [CreatElement]): [pool_of] below. *)
Inductive JsonNode : Type :=
| JsonReserved (_type : JsonReserved.Type_)
| JsonNumber (_valueFloat : c_float) (_valueInt : c_int)
| JsonString (_str : StrPair)
| JsonElement (children : list JsonNode)
| JsonObject (children : list JsonNode)
| JsonArray (children : list JsonNode).

(** The six pools of a document, named after their node class. *)
Inductive Variant : Type :=
| VObject | VArray | VElement | VNumber | VString | VReserved.

Definition pool_of (node : JsonNode) : Variant :=
  match node with
  | JsonReserved _ => VReserved
  | JsonNumber _ _ => VNumber
  | JsonString _ => VString
  | JsonElement _ => VElement
  | JsonObject _ => VObject
  | JsonArray _ => VArray
  end.

Definition Variant_eqb (a b : Variant) : bool :=
  match a, b with
  | VObject, VObject | VArray, VArray | VElement, VElement
  | VNumber, VNumber | VString, VString | VReserved, VReserved => true
  | _, _ => false
  end.

Definition FirstChildren (node : JsonNode) : list JsonNode :=
  match node with
  | JsonElement cs | JsonObject cs | JsonArray cs => cs
  | _ => []
  end.

(** ** JsonDocument

    [doc_children] is the document's own child chain ([_firstChild] to
    [_lastChild], as for any node).  [SetError_calls] is a
    history variable, not a member of the class: the error codes [SetError]
    was called with since [InitDocument], oldest first.  No operation reads
    it. *)
Record JsonDocument : Type := mkJsonDocument {
  doc_children : list JsonNode;
  _errorID : JsonError;
  _errorStr1 : ptr;
  _errorStr2 : ptr;
  _charBuffer : option (list Z);
  _objectPool : MemPoolT;
  _arrayPool : MemPoolT;
  _elementPool : MemPoolT;
  _numberPool : MemPoolT;
  _stringPool : MemPoolT;
  _reservedPool : MemPoolT;
  SetError_calls : list JsonError
}.

Definition pool (v : Variant) (d : JsonDocument) : MemPoolT :=
  match v with
  | VObject => _objectPool d
  | VArray => _arrayPool d
  | VElement => _elementPool d
  | VNumber => _numberPool d
  | VString => _stringPool d
  | VReserved => _reservedPool d
  end.

Definition with_pool (v : Variant) (f : MemPoolT -> MemPoolT) (d : JsonDocument)
  : JsonDocument :=
  let 'mkJsonDocument cs e s1 s2 buf po pa pe pn ps pr log := d in
  match v with
  | VObject => mkJsonDocument cs e s1 s2 buf (f po) pa pe pn ps pr log
  | VArray => mkJsonDocument cs e s1 s2 buf po (f pa) pe pn ps pr log
  | VElement => mkJsonDocument cs e s1 s2 buf po pa (f pe) pn ps pr log
  | VNumber => mkJsonDocument cs e s1 s2 buf po pa pe (f pn) ps pr log
  | VString => mkJsonDocument cs e s1 s2 buf po pa pe pn (f ps) pr log
  | VReserved => mkJsonDocument cs e s1 s2 buf po pa pe pn ps (f pr) log
  end.

Definition with_children (cs : list JsonNode) (d : JsonDocument) : JsonDocument :=
  let 'mkJsonDocument _ e s1 s2 buf po pa pe pn ps pr log := d in
  mkJsonDocument cs e s1 s2 buf po pa pe pn ps pr log.

Definition with_buffer (buf : option (list Z)) (d : JsonDocument) : JsonDocument :=
  let 'mkJsonDocument cs e s1 s2 _ po pa pe pn ps pr log := d in
  mkJsonDocument cs e s1 s2 buf po pa pe pn ps pr log.

(** The constructor [JsonDocument::JsonDocument()]. *)
Definition JsonDocument_new : JsonDocument :=
  mkJsonDocument [] JSON_NO_ERROR None None None
                 MemPool.init MemPool.init MemPool.init
                 MemPool.init MemPool.init MemPool.init [].

(** ** The monad of the parser: the document as state, [result] as outcome *)

Definition M (A : Type) : Type := JsonDocument -> result (A * JsonDocument).

Definition ret {A} (a : A) : M A := fun d => Ok (a, d).

Definition bind {A B} (m : M A) (k : A -> M B) : M B :=
  fun d =>
    match m d with
    | Ok (a, d') => k a d'
    | Crash f => Crash f
    | OutOfFuel => OutOfFuel
    end.

Definition out_of_fuel {A} : M A := fun _ => OutOfFuel.

Definition modify (f : JsonDocument -> JsonDocument) : M unit :=
  fun d => Ok (tt, f d).

Declare Scope json_scope.
Delimit Scope json_scope with json.

Notation "x <- m ;; k" := (bind m (fun x => k))
  (at level 61, m at next level, right associativity) : json_scope.
Notation "' pat <- m ;; k" := (bind m (fun x => match x with pat => k end))
  (at level 61, pat pattern, m at next level, right associativity) : json_scope.
Notation "m ;;; k" := (bind m (fun _ => k))
  (at level 61, right associativity) : json_scope.

Local Open Scope json_scope.

(** A computation of the C library, which leaves the document alone. *)
Definition lift {A} (r : result A) : M A :=
  fun d =>
    match r with
    | Ok a => Ok (a, d)
    | Crash f => Crash f
    | OutOfFuel => OutOfFuel
    end.

(** [*p] for a pointer into [_charBuffer]. *)
Definition deref (p : ptr) : M Z :=
  fun d =>
    match p, _charBuffer d with
    | Some i, Some buf =>
        match nth_error buf i with
        | Some c => Ok (c, d)
        | None => Crash (OutOfBounds i)
        end
    | _, _ => Crash NullDeref
    end.

(** The bytes from [p] on, for the library functions that scan them. *)
Definition bytes_from (p : ptr) : M (list Z) :=
  fun d =>
    match p, _charBuffer d with
    | Some i, Some buf =>
        match skipn i buf with
        | [] => Crash (OutOfBounds i)
        | l => Ok (l, d)
        end
    | _, _ => Crash NullDeref
    end.

Fixpoint list_set (l : list Z) (i : nat) (v : Z) : list Z :=
  match l, i with
  | [], _ => []
  | _ :: r, O => v :: r
  | c :: r, S i' => c :: list_set r i' v
  end.

(** [*p = v]; every store of the parser follows a successful read of [*p]. *)
Definition store (p : nat) (v : Z) : M unit :=
  fun d =>
    match _charBuffer d with
    | Some buf =>
        if (p <? List.length buf)%nat
        then Ok (tt, with_buffer (Some (list_set buf p v)) d)
        else Crash (OutOfBounds p)
    | None => Crash NullDeref
    end.

Definition SkipWhiteSpace (p : ptr) : M ptr :=
  fun d =>
    match p, _charBuffer d with
    | None, _ => Ok (None, d)
    | Some _, None => Crash NullDeref
    | Some _, Some buf => lift (JsonUtil.SkipWhiteSpace buf p) d
    end.

Definition Alloc (v : Variant) : M unit := modify (with_pool v MemPool.Alloc).
Definition SetTracked (v : Variant) : M unit := modify (with_pool v MemPool.SetTracked).

(** ** JsonNode: InsertEndChild, DeleteNode, DeleteChildren *)

Definition InsertEndChild (this : list JsonNode) (node : JsonNode)
  : M (list JsonNode) :=
  SetTracked (pool_of node) ;;;
  ret (this ++ [node]).

(** [DeleteNode(node)]: the destructor deletes the children, first to last,
    then the chunk goes back to the node's pool. *)
Fixpoint DeleteNode_pools (node : JsonNode) (d : JsonDocument) : JsonDocument :=
  let DeleteChildren :=
    fix DeleteChildren (cs : list JsonNode) (d : JsonDocument) : JsonDocument :=
      match cs with
      | [] => d
      | c :: cs' => DeleteChildren cs' (DeleteNode_pools c d)
      end in
  let d' :=
    match node with
    | JsonElement cs | JsonObject cs | JsonArray cs => DeleteChildren cs d
    | _ => d
    end in
  with_pool (pool_of node) MemPool.Free d'.

Definition DeleteNode (node : JsonNode) : M unit := modify (DeleteNode_pools node).

Definition DeleteChildren_pools (cs : list JsonNode) (d : JsonDocument)
  : JsonDocument :=
  fold_left (fun d c => DeleteNode_pools c d) cs d.

(** ** JsonDocument: InitDocument, SetError, Identify, CreatElement *)

Definition InitDocument (d : JsonDocument) : JsonDocument :=
  let 'mkJsonDocument cs _ _ _ _ po pa pe pn ps pr _ := d in
  mkJsonDocument cs JSON_NO_ERROR None None None po pa pe pn ps pr [].

Definition SetError_doc (error : JsonError) (str1 str2 : ptr) (d : JsonDocument)
  : JsonDocument :=
  let 'mkJsonDocument cs e s1 s2 buf po pa pe pn ps pr log := d in
  if JsonError_eqb e JSON_NO_ERROR
  then mkJsonDocument cs error str1 str2 buf po pa pe pn ps pr (log ++ [error])
  else mkJsonDocument cs e s1 s2 buf po pa pe pn ps pr (log ++ [error]).

Definition SetError (error : JsonError) (str1 str2 : ptr) : M unit :=
  modify (SetError_doc error str1 str2).

Definition Identify (json : ptr) : M (ptr * option JsonNode) :=
  json <- SkipWhiteSpace json ;;
  match json with
  | None => ret (json, None)
  | Some _ =>
      c <- deref json ;;
      if c =? NUL then ret (json, None)
      else if (c =? ch "n") || (c =? ch "t") || (c =? ch "f") then
        Alloc VReserved ;;;
        ret (json, Some (JsonReserved JsonReserved.RESERVED))
      else if c =? DQUOTE then
        Alloc VString ;;;
        ret (ptr_add json 1, Some (JsonString (mkStrPair None None)))
      else if c =? ch "{" then
        Alloc VObject ;;;
        ret (ptr_add json 1, Some (JsonObject []))
      else if c =? ch "[" then
        Alloc VArray ;;;
        ret (ptr_add json 1, Some (JsonArray []))
      else if (c =? ch "-") || isdigit c then
        Alloc VNumber ;;;
        ret (json, Some (JsonNumber float_zero int_zero))
      else ret (json, None)
  end.

Definition CreatElement : M JsonNode :=
  Alloc VElement ;;;
  ret (JsonElement []).

(** ** ParseDeep of the leaf classes *)

Definition is_zero (r : Z) : bool := r =? 0.

Definition JsonReserved_ParseDeep (_type : JsonReserved.Type_) (json : ptr)
  : M (JsonReserved.Type_ * ptr) :=
  s <- bytes_from json ;;
  let p := match json with Some i => i | None => O end in
  let cmp lit n : M Z := lift (strncmp s lit p n) in
  r <- cmp (cstr "null") 4%nat ;;
  if is_zero r then ret (JsonReserved.RESERVED_NULL, ptr_add json 4)
  else
    r <- cmp (cstr "true") 4%nat ;;
    if is_zero r then ret (JsonReserved.RESERVED_TRUE, ptr_add json 4)
    else
      r <- cmp (cstr "false") 5%nat ;;
      if is_zero r then ret (JsonReserved.RESERVED_FALSE, ptr_add json 5)
      else
        SetError JSON_ERROR_PARSING_RESERVED None None ;;;
        ret (_type, None).

Definition JsonNumber_ParseDeep (this : c_float * c_int) (json : ptr)
  : M (c_float * c_int * ptr) :=
  json <- SkipWhiteSpace json ;;
  match json with
  | None => ret (this, None)
  | Some _ =>
      s <- bytes_from json ;;
      let '(n, len) := strtod s in
      if negb (len =? 0)%nat then ret (n, int_of_float n, ptr_add json len)
      else
        SetError JSON_ERROR_OBJECT_MISMATCH None None ;;;
        ret (this, None)
  end.

(** The scan loop of [JsonString::ParseDeep] over the bytes from [*ptr] on:
    it stops at a double quote or a NUL, and steps over the byte that
    follows a backslash without looking at it.  The counter [len] is only
    tested after its increment, which is non-zero on any buffer shorter than
    2^31 bytes, and is left out. *)
Fixpoint JsonString_scan (rest : list Z) (ptr : nat) : result nat :=
  match rest with
  | [] => Crash (OutOfBounds ptr)
  | c :: rest1 =>
      if (c =? DQUOTE) || (c =? NUL) then Ok ptr
      else if c =? BACKSLASH then
        match rest1 with
        | [] => Crash (OutOfBounds (ptr + 2))
        | _ :: rest2 => JsonString_scan rest2 (ptr + 2)
        end
      else JsonString_scan rest1 (ptr + 1)
  end.

Definition JsonString_ParseDeep (_str : StrPair) (json : ptr)
  : M (StrPair * ptr) :=
  s <- bytes_from json ;;
  let start := match json with Some i => i | None => O end in
  p <- lift (JsonString_scan s start) ;;
  c <- deref (Some p) ;;
  if c =? NUL then
    SetError JSON_ERROR_PARSING_STRING None None ;;;
    ret (_str, None)
  else
    store p NUL ;;;
    ret (mkStrPair json (Some p), Some (p + 1)%nat).

(** ** ParseDeep of the container classes and of JsonNode

    The bodies take the calls they make back into the parser as arguments:
    [NodeParseDeep this json] is [JsonNode::ParseDeep] run on a node whose
    child chain is [this] (it returns the extended chain), [ParseDeep] is
    the virtual call [node->ParseDeep(json)] (it returns the node as the
    call leaves it), and [loop] is the next iteration of a [while]. *)

Section Bodies.

Variable NodeParseDeep : list JsonNode -> ptr -> M (list JsonNode * ptr).
Variable ParseDeep : JsonNode -> ptr -> M (JsonNode * ptr).

(** One turn of the [while] of [JsonNode::ParseDeep]. *)
Definition JsonNode_ParseDeep_body
    (loop : list JsonNode -> ptr -> M (list JsonNode * ptr))
    (this : list JsonNode) (json : ptr) : M (list JsonNode * ptr) :=
  match json with
  | None => ret (this, json)
  | Some _ =>
      c <- deref json ;;
      if c =? NUL then ret (this, json)
      else
        '(json, node) <- Identify json ;;
        match json, node with
        | Some _, Some node =>
            '(node, r) <- ParseDeep node json ;;
            json <- SkipWhiteSpace r ;;
            match json with
            | None =>
                SetTracked (pool_of node) ;;;
                DeleteNode node ;;;
                SetError JSON_ERROR_PARSING None None ;;;
                ret (this, None)
            | Some _ =>
                this <- InsertEndChild this node ;;
                loop this json
            end
        | _, _ => ret (this, json)
        end
  end.

Definition JsonElement_ParseDeep (this : list JsonNode) (json : ptr)
  : M (list JsonNode * ptr) :=
  let failed this :=
    SetError JSON_ERROR_PARSING_ELEMENT None None ;;;
    ret (this, None) in
  c <- deref json ;;
  if negb (c =? DQUOTE) then failed this
  else
    (* key *)
    '(this, r) <- NodeParseDeep this json ;;
    json <- SkipWhiteSpace r ;;
    match json with
    | None => failed this
    | Some _ =>
        c <- deref json ;;
        if negb (c =? ch ":") then failed this
        else
          let json := ptr_add json 1 in
          (* value *)
          '(this, r) <- NodeParseDeep this json ;;
          json <- SkipWhiteSpace r ;;
          match json with
          | None => failed this
          | Some _ => ret (this, json)
          end
    end.

Definition JsonObject_ParseElement (this : list JsonNode) (json : ptr)
  : M (list JsonNode * ptr) :=
  node <- CreatElement ;;
  '(node, r) <- ParseDeep node json ;;
  json <- SkipWhiteSpace r ;;
  match json with
  | None =>
      SetTracked (pool_of node) ;;;
      DeleteNode node ;;;
      SetError JSON_ERROR_PARSING_ELEMENT None None ;;;
      ret (this, None)
  | Some _ =>
      this <- InsertEndChild this node ;;
      ret (this, json)
  end.

(** [JsonObject::ParseDeep] from its [while] on; [*json] is read with no
    test of [json] against [nullptr]. *)
Definition JsonObject_ParseDeep_while
    (loop : list JsonNode -> ptr -> M (list JsonNode * ptr))
    (this : list JsonNode) (json : ptr) : M (list JsonNode * ptr) :=
  c <- deref json ;;
  if c =? ch "," then
    let json := ptr_add json 1 in
    '(this, json) <- JsonObject_ParseElement this json ;;
    match json with
    | None =>
        SetError JSON_ERROR_OBJECT_MISMATCH None None ;;;
        ret (this, None)
    | Some _ => loop this json
    end
  else if c =? ch "}" then ret (this, ptr_add json 1)
  else
    SetError JSON_ERROR_OBJECT_MISMATCH None None ;;;
    ret (this, None).

Definition JsonObject_ParseDeep
    (loop : list JsonNode -> ptr -> M (list JsonNode * ptr))
    (this : list JsonNode) (json : ptr) : M (list JsonNode * ptr) :=
  json <- SkipWhiteSpace json ;;
  match json with
  | None =>
      SetError JSON_ERROR_OBJECT_MISMATCH None None ;;;
      ret (this, None)
  | Some _ =>
      c <- deref json ;;
      if c =? NUL then
        SetError JSON_ERROR_OBJECT_MISMATCH None None ;;;
        ret (this, None)
      else if c =? ch "}" then ret (this, ptr_add json 1)
      else
        '(this, json) <- JsonObject_ParseElement this json ;;
        loop this json
  end.

(** [JsonArray::ParseDeep] from its [while] on. *)
Definition JsonArray_ParseDeep_while
    (loop : list JsonNode -> ptr -> M (list JsonNode * ptr))
    (this : list JsonNode) (json : ptr) : M (list JsonNode * ptr) :=
  c <- deref json ;;
  if c =? ch "," then
    let json := ptr_add json 1 in
    '(this, r) <- NodeParseDeep this json ;;
    json <- SkipWhiteSpace r ;;
    match json with
    | None =>
        SetError JSON_ERROR_ARRAY_MISMATCH None None ;;;
        ret (this, None)
    | Some _ =>
        c <- deref json ;;
        if c =? NUL then
          SetError JSON_ERROR_ARRAY_MISMATCH None None ;;;
          ret (this, None)
        else loop this json
    end
  else if c =? ch "]" then ret (this, ptr_add json 1)
  else
    SetError JSON_ERROR_ARRAY_MISMATCH None None ;;;
    ret (this, None).

Definition JsonArray_ParseDeep
    (loop : list JsonNode -> ptr -> M (list JsonNode * ptr))
    (this : list JsonNode) (json : ptr) : M (list JsonNode * ptr) :=
  json <- SkipWhiteSpace json ;;
  match json with
  | None =>
      SetError JSON_ERROR_ARRAY_MISMATCH None None ;;;
      ret (this, None)
  | Some _ =>
      c <- deref json ;;
      if c =? NUL then
        SetError JSON_ERROR_ARRAY_MISMATCH None None ;;;
        ret (this, None)
      else if c =? ch "]" then ret (this, ptr_add json 1)
      else
        '(this, r) <- NodeParseDeep this json ;;
        json <- SkipWhiteSpace r ;;
        match json with
        | None => ret (this, None)
        | Some _ => loop this json
        end
  end.

End Bodies.

(** The four recursive entry points, tied on a fuel that every call and
    every loop turn decrements. *)
Fixpoint NodeParseDeep (fuel : nat) (this : list JsonNode) (json : ptr)
  {struct fuel} : M (list JsonNode * ptr) :=
  match fuel with
  | O => out_of_fuel
  | S fuel' =>
      JsonNode_ParseDeep_body (ParseDeep fuel') (NodeParseDeep fuel') this json
  end
with ParseDeep (fuel : nat) (node : JsonNode) (json : ptr)
  {struct fuel} : M (JsonNode * ptr) :=
  match fuel with
  | O => out_of_fuel
  | S fuel' =>
      match node with
      | JsonReserved t =>
          '(t, r) <- JsonReserved_ParseDeep t json ;;
          ret (JsonReserved t, r)
      | JsonNumber f i =>
          '(f, i, r) <- JsonNumber_ParseDeep (f, i) json ;;
          ret (JsonNumber f i, r)
      | JsonString sp =>
          '(sp, r) <- JsonString_ParseDeep sp json ;;
          ret (JsonString sp, r)
      | JsonElement this =>
          '(this, r) <- JsonElement_ParseDeep (NodeParseDeep fuel') this json ;;
          ret (JsonElement this, r)
      | JsonObject this =>
          '(this, r) <- JsonObject_ParseDeep (ParseDeep fuel')
                          (ObjectWhile fuel') this json ;;
          ret (JsonObject this, r)
      | JsonArray this =>
          '(this, r) <- JsonArray_ParseDeep (NodeParseDeep fuel')
                          (ArrayWhile fuel') this json ;;
          ret (JsonArray this, r)
      end
  end
with ObjectWhile (fuel : nat) (this : list JsonNode) (json : ptr)
  {struct fuel} : M (list JsonNode * ptr) :=
  match fuel with
  | O => out_of_fuel
  | S fuel' =>
      JsonObject_ParseDeep_while (ParseDeep fuel') (ObjectWhile fuel') this json
  end
with ArrayWhile (fuel : nat) (this : list JsonNode) (json : ptr)
  {struct fuel} : M (list JsonNode * ptr) :=
  match fuel with
  | O => out_of_fuel
  | S fuel' =>
      JsonArray_ParseDeep_while (NodeParseDeep fuel') (ArrayWhile fuel') this json
  end.

(** ** JsonDocument::Parse

    [json] is the caller's memory from the argument pointer on ([None] for
    [nullptr]); [len] is [None] for the default argument [(size_t)(-1)]. *)

Fixpoint strlen_from (s : list Z) (p : nat) : result nat :=
  match s with
  | [] => Crash (OutOfBounds p)
  | c :: r => if c =? NUL then Ok p else strlen_from r (S p)
  end.

Definition strlen (s : list Z) : result nat := strlen_from s O.

Definition read_mem (mem : list Z) (p : nat) : result Z :=
  match nth_error mem p with
  | Some c => Ok c
  | None => Crash (OutOfBounds p)
  end.

(** [new char[len + 1]], [memcpy] of [len] bytes and the final NUL. *)
Definition copy_buffer (mem : list Z) (len : nat) : result (list Z) :=
  if (len <=? List.length mem)%nat then Ok (firstn len mem ++ [NUL])
  else Crash (OutOfBounds (List.length mem)).

(** Enough fuel for every buffer: see [Parse_fuel_suffices]. *)
Definition parse_fuel (buf : list Z) : nat := (3 * List.length buf + 3)%nat.

Definition Parse (json : option (list Z)) (len : option nat) : M JsonError :=
  let returned : M JsonError := fun d => Ok (_errorID d, d) in
  modify (fun d => with_children [] (DeleteChildren_pools (doc_children d) d)) ;;;
  modify InitDocument ;;;
  match json with
  | None =>
      SetError JSON_ERROR_EMPTY_DOCUMENT None None ;;;
      returned
  | Some mem =>
      c <- lift (read_mem mem 0) ;;
      if c =? NUL then
        SetError JSON_ERROR_EMPTY_DOCUMENT None None ;;;
        returned
      else
        len <- lift (match len with
                     | None => strlen mem
                     | Some n => Ok n
                     end) ;;
        buf <- lift (copy_buffer mem len) ;;
        modify (with_buffer (Some buf)) ;;;
        j <- lift (JsonUtil.SkipWhiteSpace mem (Some O)) ;;
        c <- lift (read_mem mem (match j with Some i => i | None => O end)) ;;
        if c =? NUL then
          SetError JSON_ERROR_EMPTY_DOCUMENT None None ;;;
          returned
        else
          '(this, _) <- NodeParseDeep (parse_fuel buf) [] (Some O) ;;
          modify (with_children this) ;;;
          returned
  end.

(** [doc.Parse(text)] on a fresh document, [text] being the characters of a
    NUL-terminated string. *)
Definition ParseText (text : list Z) : result (JsonError * JsonDocument) :=
  Parse (Some (text ++ [NUL])) None JsonDocument_new.

(** ** JsonVisitor and Accept

    A visited node is seen with the links the printer follows from it:
    [Parent()] and [PreviousSibling()]. *)

Inductive Owner : Type :=
| OwnerDocument
| OwnerNode (node : JsonNode).

Record Links : Type := mkLinks {
  Parent : option Owner;
  PreviousSibling : option JsonNode
}.

Definition ToElement (node : JsonNode) : option JsonNode :=
  match node with
  | JsonElement _ => Some node
  | _ => None
  end.

Definition Owner_ToElement (o : Owner) : option JsonNode :=
  match o with
  | OwnerDocument => None
  | OwnerNode node => ToElement node
  end.

(** The interface [JsonVisitor], over the visitor's own state [S]. *)
Class JsonVisitor (S : Type) : Type := {
  VisitEnter_Object : Links -> JsonNode -> S -> bool * S;
  VisitExit_Object : Links -> JsonNode -> S -> bool * S;
  VisitEnter_Array : Links -> JsonNode -> S -> bool * S;
  VisitExit_Array : Links -> JsonNode -> S -> bool * S;
  VisitEnter_Element : Links -> JsonNode -> S -> bool * S;
  VisitExit_Element : Links -> JsonNode -> S -> bool * S;
  Visit_Number : Links -> JsonNode -> S -> bool * S;
  Visit_String : Links -> JsonNode -> S -> bool * S;
  Visit_Reserved : Links -> JsonNode -> S -> bool * S
}.

Section Accept.

Context {S : Type} {visitor : JsonVisitor S}.

Fixpoint Accept (links : Links) (node : JsonNode) (s : S) : bool * S :=
  let visit_children :=
    fix visit_children (prev : option JsonNode) (cs : list JsonNode) (s : S) : S :=
      match cs with
      | [] => s
      | c :: cs' =>
          let '(continue, s') :=
            Accept (mkLinks (Some (OwnerNode node)) prev) c s in
          if continue then visit_children (Some c) cs' s' else s'
      end in
  match node with
  | JsonReserved _ => Visit_Reserved links node s
  | JsonNumber _ _ => Visit_Number links node s
  | JsonString _ => Visit_String links node s
  | JsonElement cs =>
      let '(enter, s1) := VisitEnter_Element links node s in
      VisitExit_Element links node (if enter then visit_children None cs s1 else s1)
  | JsonObject cs =>
      let '(enter, s1) := VisitEnter_Object links node s in
      VisitExit_Object links node (if enter then visit_children None cs s1 else s1)
  | JsonArray cs =>
      let '(enter, s1) := VisitEnter_Array links node s in
      VisitExit_Array links node (if enter then visit_children None cs s1 else s1)
  end.

Fixpoint JsonDocument_Accept_from (prev : option JsonNode) (cs : list JsonNode)
    (s : S) : S :=
  match cs with
  | [] => s
  | c :: cs' =>
      let '(continue, s') := Accept (mkLinks (Some OwnerDocument) prev) c s in
      if continue then JsonDocument_Accept_from (Some c) cs' s' else s'
  end.

Definition JsonDocument_Accept (d : JsonDocument) (s : S) : bool * S :=
  (true, JsonDocument_Accept_from None (doc_children d) s).

End Accept.

(** ** JsonPrinter *)

(** [StrPair::GetStr]: the C string at [_start], read in the buffer as the
    parser left it. *)
Fixpoint c_string_at (s : list Z) : list Z :=
  match s with
  | [] => []
  | c :: r => if c =? NUL then [] else c :: c_string_at r
  end.

Definition ptr_eqb (a b : ptr) : bool :=
  match a, b with
  | None, None => true
  | Some i, Some j => (i =? j)%nat
  | _, _ => false
  end.

Definition StrPair_GetStr (buf : list Z) (sp : StrPair) : list Z :=
  match _start sp, _end sp with
  | Some i, Some _ =>
      if ptr_eqb (_start sp) (_end sp) then [] else c_string_at (skipn i buf)
  | _, _ => []
  end.

Record JsonPrinter : Type := mkJsonPrinter {
  _depth : Z;
  _out : list Z
}.

Definition JsonPrinter_new : JsonPrinter := mkJsonPrinter 0 [].

Section Printer.

(** [ostream << float]: the text of a float in the stream's default format,
    which is the platform's. *)
Variable print_float : c_float -> list Z.

(** The buffer of the document the printed tree belongs to. *)
Variable buf : list Z.

Definition append (text : list Z) (pr : JsonPrinter) : JsonPrinter :=
  mkJsonPrinter (_depth pr) (_out pr ++ text).

Definition PrintSpace (depth : Z) (pr : JsonPrinter) : JsonPrinter :=
  Nat.iter (Z.to_nat depth) (append (cstr "    ")) pr.

Definition PrintPrevSymbol (links : Links) (node : JsonNode) (pr : JsonPrinter)
  : JsonPrinter :=
  let indent pr :=
    match ToElement node with
    | None => PrintSpace (_depth pr) pr
    | Some _ => pr
    end in
  match Parent links, PreviousSibling links with
  | Some parent, Some _ =>
      match Owner_ToElement parent with
      | Some _ => append (cstr " : ") pr
      | None => indent (append [ch ","; 10] pr)
      end
  | _, _ => indent pr
  end.

Definition enter (open : list Z) (links : Links) (node : JsonNode)
    (pr : JsonPrinter) : bool * JsonPrinter :=
  let pr := append (open ++ [10]) (PrintPrevSymbol links node pr) in
  (true, mkJsonPrinter (_depth pr + 1) (_out pr)).

Definition exit (close : list Z) (pr : JsonPrinter) : bool * JsonPrinter :=
  let pr := append [10] pr in
  let pr := mkJsonPrinter (_depth pr - 1) (_out pr) in
  (true, append close (PrintSpace (_depth pr) pr)).

#[local] Instance JsonPrinter_visitor : JsonVisitor JsonPrinter := {
  VisitEnter_Object := enter (cstr "{");
  VisitExit_Object := fun _ _ => exit (cstr "}");
  VisitEnter_Array := enter (cstr "[");
  VisitExit_Array := fun _ _ => exit (cstr "]");
  VisitEnter_Element := fun links node pr => (true, PrintPrevSymbol links node pr);
  VisitExit_Element := fun _ _ pr => (true, pr);
  Visit_Number := fun links node pr =>
    let pr := PrintPrevSymbol links node pr in
    match node with
    | JsonNumber f _ => (true, append (print_float f) pr)
    | _ => (true, pr)
    end;
  Visit_String := fun links node pr =>
    let pr := PrintPrevSymbol links node pr in
    match node with
    | JsonString sp =>
        (true, append (DQUOTE :: StrPair_GetStr buf sp ++ [DQUOTE]) pr)
    | _ => (true, pr)
    end;
  Visit_Reserved := fun links node pr =>
    let pr := PrintPrevSymbol links node pr in
    match node with
    | JsonReserved JsonReserved.RESERVED_NULL => (true, append (cstr "null") pr)
    | JsonReserved JsonReserved.RESERVED_TRUE => (true, append (cstr "true") pr)
    | JsonReserved JsonReserved.RESERVED_FALSE => (true, append (cstr "flase") pr)
    | _ => (true, pr)
    end
}.

(** [JsonPrinter printer; doc.Accept(&printer); printer.GetString()]. *)
Definition print_document (d : JsonDocument) : list Z :=
  _out (snd (JsonDocument_Accept d JsonPrinter_new)).

End Printer.

(** Printing the tree of a parsed document reads the strings in that
    document's buffer. *)
Definition PrintDocument (print_float : c_float -> list Z) (d : JsonDocument)
  : list Z :=
  print_document print_float
    (match _charBuffer d with Some buf => buf | None => [] end) d.

(** ** Observations on the outcome of a [Parse] call *)

Definition status (r : result (JsonError * JsonDocument)) : option JsonError :=
  match r with
  | Ok (e, _) => Some e
  | _ => None
  end.

Definition tree (r : result (JsonError * JsonDocument)) : option (list JsonNode) :=
  match r with
  | Ok (_, d) => Some (doc_children d)
  | _ => None
  end.

Definition document (r : result (JsonError * JsonDocument)) : option JsonDocument :=
  match r with
  | Ok (_, d) => Some d
  | _ => None
  end.

Definition CurrentAllocs (v : Variant) (d : JsonDocument) : Z :=
  MemPool.CurrentAllocs (pool v d).

(** Number of nodes of class [v] in a subtree: the chunks of pool [v] the
    subtree occupies. *)
Fixpoint count (v : Variant) (node : JsonNode) : Z :=
  let count_list :=
    fix count_list (cs : list JsonNode) : Z :=
      match cs with
      | [] => 0
      | c :: cs' => count v c + count_list cs'
      end in
  (if Variant_eqb v (pool_of node) then 1 else 0) +
  match node with
  | JsonElement cs | JsonObject cs | JsonArray cs => count_list cs
  | _ => 0
  end.

Fixpoint count_list (v : Variant) (cs : list JsonNode) : Z :=
  match cs with
  | [] => 0
  | c :: cs' => count v c + count_list v cs'
  end.

(** Every Element of a tree has exactly two children, a String first. *)
Definition two_children_key_first (cs : list JsonNode) : bool :=
  match cs with
  | [JsonString _; _] => true
  | _ => false
  end.

Fixpoint elements_ok (node : JsonNode) : bool :=
  let all :=
    fix all (cs : list JsonNode) : bool :=
      match cs with
      | [] => true
      | c :: cs' => elements_ok c && all cs'
      end in
  match node with
  | JsonElement cs => two_children_key_first cs && all cs
  | JsonObject cs | JsonArray cs => all cs
  | _ => true
  end.

(** ** The specification's table for "identify next value"

    Following the specification: the class chosen for a lookahead byte, and
    what identification hands back at offset [q] of that byte. *)

Definition variant_chosen (c : Z) : option Variant :=
  if (c =? ch "n") || (c =? ch "t") || (c =? ch "f") then Some VReserved
  else if c =? DQUOTE then Some VString
  else if c =? ch "{" then Some VObject
  else if c =? ch "[" then Some VArray
  else if (c =? ch "-") || ((ch "0" <=? c) && (c <=? ch "9")) then Some VNumber
  else None.

Definition identified (v : option Variant) (q : nat) : ptr * option JsonNode :=
  match v with
  | Some VReserved => (Some q, Some (JsonReserved JsonReserved.RESERVED))
  | Some VString => (Some (q + 1)%nat, Some (JsonString (mkStrPair None None)))
  | Some VObject => (Some (q + 1)%nat, Some (JsonObject []))
  | Some VArray => (Some (q + 1)%nat, Some (JsonArray []))
  | Some VNumber => (Some q, Some (JsonNumber float_zero int_zero))
  | Some VElement | None => (Some q, None)
  end.

Definition error_slot (d : JsonDocument) : JsonError * ptr * ptr :=
  (_errorID d, _errorStr1 d, _errorStr2 d).

(** ** What a parse routine may do to the document

    The parse routines change the document only by pool operations, by
    [SetError] with one of the codes of [parse_error], and by storing a NUL
    inside the buffer. *)

Definition parse_error (e : JsonError) : bool :=
  match e with
  | JSON_ERROR_OBJECT_MISMATCH | JSON_ERROR_ARRAY_MISMATCH
  | JSON_ERROR_PARSING_ELEMENT | JSON_ERROR_PARSING_STRING
  | JSON_ERROR_PARSING_RESERVED | JSON_ERROR_PARSING => true
  | _ => false
  end.

Inductive steps : JsonDocument -> JsonDocument -> Prop :=
| steps_refl d : steps d d
| steps_pool v f d d' :
    steps (with_pool v f d) d' -> steps d d'
| steps_error e d d' :
    parse_error e = true ->
    steps (SetError_doc e None None d) d' -> steps d d'
| steps_store p buf d d' :
    _charBuffer d = Some buf ->
    (p < List.length buf)%nat ->
    steps (with_buffer (Some (list_set buf p NUL)) d) d' -> steps d d'.

(** The error slot agrees with the history of [SetError] calls: it holds
    the first code recorded, and no call passed JSON_NO_ERROR. *)
Definition first_error_wins (d : JsonDocument) : Prop :=
  _errorID d = hd JSON_NO_ERROR (SetError_calls d) /\
  Forall (fun e => e <> JSON_NO_ERROR) (SetError_calls d).

(** Every live chunk of every pool is a node of the document's tree. *)
Definition no_leak (d : JsonDocument) : Prop :=
  forall v, CurrentAllocs v d = count_list v (doc_children d).

Definition buflen (d : JsonDocument) : nat :=
  match _charBuffer d with
  | Some buf => List.length buf
  | None => O
  end.

(** Bytes from the cursor to the end of the buffer. *)
Definition remaining (json : ptr) (d : JsonDocument) : nat :=
  match json with
  | Some p => (buflen d - p)%nat
  | None => O
  end.

(** Fuel that is enough for each entry point at a given cursor. *)
Definition fuel_NodeParseDeep (json : ptr) (d : JsonDocument) : nat :=
  (3 * remaining json d + 2)%nat.

Definition fuel_ParseDeep (node : JsonNode) (json : ptr) (d : JsonDocument) : nat :=
  match node with
  | JsonElement _ | JsonArray _ => (3 * remaining json d + 3)%nat
  | JsonObject _ => (3 * remaining json d + 4)%nat
  | _ => 1%nat
  end.

Definition fuel_While (json : ptr) (d : JsonDocument) : nat :=
  (3 * remaining json d + 1)%nat.

Definition is_scalar (node : JsonNode) : bool :=
  match node with
  | JsonReserved _ | JsonNumber _ _ => true
  | _ => false
  end.

Section Posts.

Variable v : Variant.

(** What holds when a routine working on a child chain returns. *)
Definition run_post (this : list JsonNode) (json : ptr) (d : JsonDocument)
    (this' : list JsonNode) (r : ptr) (d' : JsonDocument) : Prop :=
  steps d d' /\
  (forall q, r = Some q -> exists p, json = Some p /\ (p <= q)%nat) /\
  CurrentAllocs v d' - count_list v this' = CurrentAllocs v d - count_list v this /\
  (exists added, this' = this ++ added).

(** What holds when the virtual [ParseDeep] of a node returns. *)
Definition node_post (node : JsonNode) (json : ptr) (d : JsonDocument)
    (node' : JsonNode) (r : ptr) (d' : JsonDocument) : Prop :=
  steps d d' /\
  (forall q, r = Some q ->
     exists p, json = Some p /\ (p <= q)%nat /\
               (is_scalar node = true -> (p < q)%nat)) /\
  CurrentAllocs v d' - count v node' = CurrentAllocs v d - count v node /\
  pool_of node' = pool_of node.

End Posts.

Definition one_if (b : bool) : Z := if b then 1 else 0.

(** The document as [Parse] has set it up when it calls
    [ParseDeep(_charBuffer)] or reports an empty document: the old tree
    deleted, the error slot cleared, the buffer replaced. *)
Definition Parse_cleared (d0 : JsonDocument) : JsonDocument :=
  InitDocument (with_children [] (DeleteChildren_pools (doc_children d0) d0)).

Definition Parse_entry (d0 : JsonDocument) (buf : list Z) : JsonDocument :=
  with_buffer (Some buf) (Parse_cleared d0).

Definition Parse_length (mem : list Z) (len : option nat) : result nat :=
  match len with
  | None => strlen mem
  | Some n => Ok n
  end.

(** * Further properties of the code: definitions *)

(** ** The shape of a parsed tree *)

Definition is_element (node : JsonNode) : bool :=
  match node with
  | JsonElement _ => true
  | _ => false
  end.

Definition is_value (node : JsonNode) : bool := negb (is_element node).

Definition key_first (cs : list JsonNode) : bool :=
  match cs with
  | JsonString _ :: _ => true
  | _ => false
  end.

(** The children of an Object are Elements; an Element starts with a String
    and holds no Element; an Array holds no Element; and so on below. *)
Fixpoint well_formed (node : JsonNode) : bool :=
  let all :=
    fix all (cs : list JsonNode) : bool :=
      match cs with
      | [] => true
      | c :: cs' => well_formed c && all cs'
      end in
  match node with
  | JsonObject cs => forallb is_element cs && all cs
  | JsonArray cs => forallb is_value cs && all cs
  | JsonElement cs => key_first cs && forallb is_value cs && all cs
  | _ => true
  end.

Definition value_ok (node : JsonNode) : bool := is_value node && well_formed node.

Definition element_ok (node : JsonNode) : bool := is_element node && well_formed node.

(** ** What a parse routine does to the error slot and to the buffer *)

(** No call of [SetError] between two states. *)
Definition quiet (d d' : JsonDocument) : Prop :=
  SetError_calls d' = SetError_calls d /\ error_slot d' = error_slot d.

Definition byte_at (d : JsonDocument) (i : nat) : option Z :=
  match _charBuffer d with
  | Some buf => nth_error buf i
  | None => None
  end.

(** The buffer keeps its length, and a byte that changes is a double quote
    that becomes a NUL. *)
Definition quotes_to_nul (d d' : JsonDocument) : Prop :=
  buflen d' = buflen d /\
  forall i, byte_at d' i = byte_at d i \/
            (byte_at d i = Some DQUOTE /\ byte_at d' i = Some NUL).

(** From the cursor [json] in [d] to the returned cursor [r] in [d']. *)
Definition flow (json : ptr) (d : JsonDocument) (r : ptr) (d' : JsonDocument)
  : Prop :=
  quotes_to_nul d d' /\
  (r <> None -> json <> None /\ quiet d d') /\
  (_errorID d <> JSON_NO_ERROR -> _errorID d' <> JSON_NO_ERROR) /\
  (json <> None -> r = None -> _errorID d' <> JSON_NO_ERROR).

Definition run_flow (Q : JsonNode -> bool) (this : list JsonNode) (json : ptr)
    (d : JsonDocument) (this' : list JsonNode) (r : ptr) (d' : JsonDocument)
  : Prop :=
  flow json d r d' /\
  exists added, this' = this ++ added /\ forallb Q added = true.

Definition node_flow (node : JsonNode) (json : ptr) (d : JsonDocument)
    (node' : JsonNode) (r : ptr) (d' : JsonDocument) : Prop :=
  flow json d r d' /\
  pool_of node' = pool_of node /\
  (r <> None -> FirstChildren node = [] -> well_formed node' = true).

(** A run of [JsonNode::ParseDeep] that starts at a double quote and
    returns a cursor has linked a String first. *)
Definition key_linked (this : list JsonNode) (json : ptr) (d : JsonDocument)
    (this' : list JsonNode) (r : ptr) : Prop :=
  deref json d = Ok (DQUOTE, d) -> r <> None ->
  exists sp rest, this' = this ++ JsonString sp :: rest.

(** Two documents that differ at most in their pools. *)
Definition same_but_pools (d d' : JsonDocument) : Prop :=
  doc_children d' = doc_children d /\
  _charBuffer d' = _charBuffer d /\
  error_slot d' = error_slot d /\
  SetError_calls d' = SetError_calls d.

(** ** Texts of strings

    The bytes a JSON text may have between the two quotes of a string, as
    the scan of [JsonString::ParseDeep] reads them: no NUL, a double quote
    only after a backslash, and a byte after every backslash. *)
Fixpoint raw_string (s : list Z) : bool :=
  match s with
  | [] => true
  | c :: r =>
      if (c =? DQUOTE) || (c =? NUL) then false
      else if c =? BACKSLASH then
        match r with
        | [] => false
        | x :: r' => negb (x =? NUL) && raw_string r'
        end
      else raw_string r
  end.


(** * DynArray<T, INIT>

    The array [_mem] points to is the list of its cells, a cell that has
    never been written being [None]: [new T[n]] and the member [_pool] start
    with such cells.  An [int] is a [Z]; an operation whose C++ behaviour is
    undefined (signed overflow, an access outside the array, the use of a
    cell never written) or that fails a [TJASSERT] of the DEBUG build gives
    [None]. *)

Module DynArray.

Definition INT_MAX : Z := 2147483647.
Definition INT_MIN : Z := -2147483648.

(** The [int] a computation gives, when it is one. *)
Definition int (z : Z) : option Z :=
  if (INT_MIN <=? z) && (z <=? INT_MAX) then Some z else None.

Section DynArray.

Variable T : Type.

Record t : Type := mk {
  _mem : list (option T);
  _mem_is_pool : bool;          (* [_mem == _pool] *)
  _allocated : Z;
  _size : Z
}.

(** The constructor, [INIT] being the length of the member [_pool]. *)
Definition new (INIT : nat) : t :=
  mk (repeat None INIT) true (Z.of_nat INIT) 0.

Fixpoint assign (l : list (option T)) (i : nat) (v : T) : list (option T) :=
  match l, i with
  | [], _ => []
  | _ :: r, O => Some v :: r
  | c :: r, S i' => c :: assign r i' v
  end.

(** [memcpy] reads [_size] cells of the old array and writes them at the
    start of the new one; the old array is deleted unless it is [_pool]. *)
Definition EnsureCapacity (cap : Z) (a : t) : option t :=
  if cap >? _allocated a then
    match int (cap * 2) with
    | Some newAllocated =>
        if (0 <=? _size a) && (_size a <=? Z.of_nat (List.length (_mem a)))
           && (_size a <=? newAllocated)
        then Some (mk (firstn (Z.to_nat (_size a)) (_mem a)
                         ++ repeat None (Z.to_nat (newAllocated - _size a)))
                      false newAllocated (_size a))
        else None
    | None => None
    end
  else Some a.

Definition Push (x : T) (a : t) : option t :=
  match int (_size a + 1) with
  | Some cap =>
      match EnsureCapacity cap a with
      | Some a =>
          (* _mem[_size++] = t *)
          if (0 <=? _size a) && (_size a <? Z.of_nat (List.length (_mem a)))
          then Some (mk (assign (_mem a) (Z.to_nat (_size a)) x)
                        (_mem_is_pool a) (_allocated a) (_size a + 1))
          else None
      | None => None
      end
  | None => None
  end.

(** The pointer returned, [&_mem[_size]], is given as its index in [_mem]. *)
Definition PushArr (count : Z) (a : t) : option (Z * t) :=
  match int (_size a + count) with
  | Some cap =>
      match EnsureCapacity cap a with
      | Some a =>
          if (0 <=? _size a) && (_size a <=? Z.of_nat (List.length (_mem a)))
          then Some (_size a,
                     mk (_mem a) (_mem_is_pool a) (_allocated a) (_size a + count))
          else None
      | None => None
      end
  | None => None
  end.

Definition Pop (a : t) : option (T * t) :=
  match int (_size a - 1) with
  | Some size =>
      if 0 <=? size then
        match nth_error (_mem a) (Z.to_nat size) with
        | Some (Some x) => Some (x, mk (_mem a) (_mem_is_pool a) (_allocated a) size)
        | _ => None
        end
      else None
  | None => None
  end.

Definition PopArr (count : Z) (a : t) : option t :=
  if _size a >=? count then
    match int (_size a - count) with
    | Some size => Some (mk (_mem a) (_mem_is_pool a) (_allocated a) size)
    | None => None
    end
  else None.

Definition Empty (a : t) : bool := _size a =? 0.

(** [operator[]], read. *)
Definition at_ (i : Z) (a : t) : option T :=
  if (i >=? 0) && (i <? _size a) then
    match nth_error (_mem a) (Z.to_nat i) with
    | Some (Some x) => Some x
    | _ => None
    end
  else None.

Definition Size (a : t) : Z := _size a.

Definition Capacity (a : t) : Z := _allocated a.

(** The cells in use, first to last. *)
Definition contents (a : t) : list (option T) :=
  firstn (Z.to_nat (_size a)) (_mem a).

(** The members agree: [_allocated] is the length of [_mem] and [_size] is
    within it. *)
Definition bounds (a : t) : Prop :=
  0 <= _size a <= _allocated a /\
  Z.of_nat (List.length (_mem a)) = _allocated a.

End DynArray.

Arguments mk {T}.
Arguments _mem {T}.
Arguments _mem_is_pool {T}.
Arguments _allocated {T}.
Arguments _size {T}.
Arguments new {T}.
Arguments assign {T}.
Arguments EnsureCapacity {T}.
Arguments Push {T}.
Arguments PushArr {T}.
Arguments Pop {T}.
Arguments PopArr {T}.
Arguments Empty {T}.
Arguments at_ {T}.
Arguments Size {T}.
Arguments Capacity {T}.
Arguments contents {T}.
Arguments bounds {T}.

End DynArray.

(** * MemPoolT<SIZE>: blocks, chunks and the free list

    [MemPoolT] above keeps the counters of a pool.  Here is the memory
    behind them.  A [Block] is known by its rank among the blocks the pool
    has made with [new Block()], and a [Chunk *] is a block and an index in
    its array [chunk]; [None] is [nullptr].  A chunk is a union: it holds
    the pointer [next] while the pool owns it, and the bytes of an object
    while the caller of [Alloc] does. *)

Module Blocks.

Definition ChunkPtr : Type := option (nat * nat).

Inductive Chunk : Type :=
| next (p : ChunkPtr)           (* the member [next] was written last *)
| mem.                          (* other bytes: never written, or an object *)

Record t : Type := mk {
  heap : list (list Chunk);     (* the array [chunk] of every block made *)
  _blockPtrs : DynArray.t nat;
  _root : ChunkPtr;
  counters : MemPoolT
}.

(** The constructor: [DynArray< Block *, 10 > _blockPtrs], [_root(0)] and
    the counters at zero. *)
Definition new : t := mk [] (DynArray.new 10) None MemPool.init.

Section Blocks.

(** [ItemSize()], the template argument. *)
Variable SIZE : Z.

(** [enum { COUNT = 1024 / SIZE }]. *)
Definition COUNT : nat := Z.to_nat (Z.quot 1024 SIZE).

Definition ItemSize : Z := SIZE.

(** [p->next], read. *)
Definition read_next (h : list (list Chunk)) (p : nat * nat) : option ChunkPtr :=
  match nth_error h (fst p) with
  | Some chunk =>
      match nth_error chunk (snd p) with
      | Some (next q) => Some q
      | _ => None
      end
  | None => None
  end.

Fixpoint assign {A : Type} (l : list A) (i : nat) (v : A) : option (list A) :=
  match l, i with
  | [], _ => None
  | _ :: r, O => Some (v :: r)
  | c :: r, S i' =>
      match assign r i' v with
      | Some r' => Some (c :: r')
      | None => None
      end
  end.

(** [*p = v], for a chunk of one of the blocks. *)
Definition write (h : list (list Chunk)) (p : nat * nat) (v : Chunk)
  : option (list (list Chunk)) :=
  match nth_error h (fst p) with
  | Some chunk =>
      match assign chunk (snd p) v with
      | Some chunk' => assign h (fst p) chunk'
      | None => None
      end
  | None => None
  end.

(** The array [chunk] of block [block] after the loop of [Alloc] and the
    assignment that follows it. *)
Definition linked (block : nat) : list Chunk :=
  map (fun i => next (Some (block, S i))) (seq 0 (COUNT - 1)) ++ [next None].

Definition Alloc (p : t) : option ((nat * nat) * t) :=
  let grown :=
    match _root p with
    | None =>
        let block := List.length (heap p) in          (* new Block() *)
        match DynArray.Push block (_blockPtrs p) with
        | Some ptrs =>
            if (COUNT =? 0)%nat then None             (* chunk[COUNT - 1] *)
            else Some (mk (heap p ++ [linked block]) ptrs (Some (block, O))
                          (counters p))
        | None => None
        end
    | Some _ => Some p
    end in
  match grown with
  | Some p =>
      match _root p with
      | Some result =>
          match read_next (heap p) result with
          | Some q =>
              Some (result,
                    mk (heap p) (_blockPtrs p) q (MemPool.Alloc (counters p)))
          | None => None
          end
      | None => None
      end
  | None => None
  end.

(** The DEBUG build fills the chunk with 0xfe before it writes [next]. *)
Definition Free (m : ChunkPtr) (p : t) : option t :=
  match m with
  | None => Some p
  | Some chunk =>
      match write (heap p) chunk mem with
      | Some h =>
          match write h chunk (next (_root p)) with
          | Some h =>
              Some (mk h (_blockPtrs p) (Some chunk) (MemPool.Free (counters p)))
          | None => None
          end
      | None => None
      end
  end.

(** The destructor: the blocks it deletes, in order. *)
Fixpoint deleted (ptrs : DynArray.t nat) (i : Z) (n : nat) : option (list nat) :=
  match n with
  | O => Some []
  | S n' =>
      match DynArray.at_ i ptrs with
      | Some block =>
          match deleted ptrs (i + 1) n' with
          | Some l => Some (block :: l)
          | None => None
          end
      | None => None
      end
  end.

Definition destructor (p : t) : option (list nat) :=
  deleted (_blockPtrs p) 0 (Z.to_nat (DynArray.Size (_blockPtrs p))).

(** The free list: the chunks met from a pointer by following [next]. *)
Inductive chain (h : list (list Chunk)) : ChunkPtr -> list (nat * nat) -> Prop :=
| chain_nil : chain h None []
| chain_cons p q l :
    read_next h p = Some q -> chain h q l -> chain h (Some p) (p :: l).

(** A chunk of one of the blocks. *)
Definition chunk_of (h : list (list Chunk)) (p : nat * nat) : Prop :=
  (fst p < List.length h)%nat /\ (snd p < COUNT)%nat.

(** A pool as [Alloc] and [Free] keep it, [free] being its free list: the
    list has no chunk twice, every block has [COUNT] chunks and is in
    [_blockPtrs] once, and [_currentAllocs] counts the chunks that are not
    free. *)
Definition well_formed (p : t) (free : list (nat * nat)) : Prop :=
  chain (heap p) (_root p) free /\
  NoDup free /\
  Forall (fun chunk => List.length chunk = COUNT) (heap p) /\
  DynArray.bounds (_blockPtrs p) /\
  DynArray.contents (_blockPtrs p) = map Some (seq 0 (List.length (heap p))) /\
  _currentAllocs (counters p)
  = Z.of_nat (List.length (heap p) * COUNT) - Z.of_nat (List.length free).

(** A chunk in use by a caller of [Alloc]. *)
Definition live (p : t) (free : list (nat * nat)) (c : nat * nat) : Prop :=
  chunk_of (heap p) c /\ ~ In c free.


End Blocks.

End Blocks.

(** * The child chain of a node, with its pointers

    The nodes live in a heap, a node's address being its rank; a cell with
    no object in it (never built, or given back to its pool) is [None], and
    a read or a write through a pointer to such a cell, or a [TJASSERT] that
    fails, gives [None]. *)

Module Chain.

Record Node : Type := mkNode {
  _parent : ptr;
  _firstChild : ptr;
  _lastChild : ptr;
  _prev : ptr;
  _next : ptr
}.

(** The constructor [JsonNode::JsonNode]. *)
Definition new : Node := mkNode None None None None None.

Definition set_parent (v : ptr) (n : Node) : Node :=
  mkNode v (_firstChild n) (_lastChild n) (_prev n) (_next n).
Definition set_firstChild (v : ptr) (n : Node) : Node :=
  mkNode (_parent n) v (_lastChild n) (_prev n) (_next n).
Definition set_lastChild (v : ptr) (n : Node) : Node :=
  mkNode (_parent n) (_firstChild n) v (_prev n) (_next n).
Definition set_prev (v : ptr) (n : Node) : Node :=
  mkNode (_parent n) (_firstChild n) (_lastChild n) v (_next n).
Definition set_next (v : ptr) (n : Node) : Node :=
  mkNode (_parent n) (_firstChild n) (_lastChild n) (_prev n) v.

Definition Heap : Type := list (option Node).

(** [*p], read. *)
Definition read (h : Heap) (p : nat) : option Node :=
  match nth_error h p with
  | Some (Some n) => Some n
  | _ => None
  end.

Fixpoint assign (h : Heap) (p : nat) (v : option Node) : Heap :=
  match h, p with
  | [], _ => []
  | _ :: r, O => v :: r
  | c :: r, S p' => c :: assign r p' v
  end.

(** [p->member = v], as the change [f] of the node at [p]. *)
Definition update (p : nat) (f : Node -> Node) (h : Heap) : option Heap :=
  match read h p with
  | Some n => Some (assign h p (Some (f n)))
  | None => None
  end.

Definition is_null (p : ptr) : bool :=
  match p with
  | None => true
  | Some _ => false
  end.

Declare Scope chain_scope.
Delimit Scope chain_scope with chain.

Notation "x <- m ;; k" :=
  (match m with Some x => k | None => None end)
  (at level 61, m at next level, right associativity) : chain_scope.

Local Open Scope chain_scope.

Definition InsertEndChild (this node : nat) (h : Heap) : option Heap :=
  t <- read h this ;;
  match _lastChild t with
  | Some last =>
      l <- read h last ;;
      if negb (is_null (_firstChild t)) && is_null (_next l) then
        h <- update last (set_next (Some node)) h ;;
        h <- update node (set_prev (Some last)) h ;;
        h <- update this (set_lastChild (Some node)) h ;;
        h <- update node (set_next None) h ;;
        update node (set_parent (Some this)) h
      else None
  | None =>
      if is_null (_firstChild t) then
        h <- update this (set_lastChild (Some node)) h ;;
        h <- update this (set_firstChild (Some node)) h ;;
        h <- update node (set_prev None) h ;;
        h <- update node (set_next None) h ;;
        update node (set_parent (Some this)) h
      else None
  end.

Definition Unlink (this child : nat) (h : Heap) : option Heap :=
  c <- read h child ;;
  if ptr_eqb (_parent c) (Some this) then
    t <- read h this ;;
    h <- (if ptr_eqb (Some child) (_firstChild t) then
            f <- read h child ;;
            update this (set_firstChild (_next f)) h
          else Some h) ;;
    t <- read h this ;;
    h <- (if ptr_eqb (Some child) (_lastChild t) then
            l <- read h child ;;
            update this (set_lastChild (_prev l)) h
          else Some h) ;;
    c <- read h child ;;
    h <- match _prev c with
         | Some prev => update prev (set_next (_next c)) h
         | None => Some h
         end ;;
    c <- read h child ;;
    h <- match _next c with
         | Some next => update next (set_prev (_prev c)) h
         | None => Some h
         end ;;
    update child (set_parent None) h
  else None.

(** [DeleteChildren] and [DeleteNode], which runs the destructor
    [~JsonNode] and gives the node back to its pool: the heap, and the
    nodes given back so far, oldest first. *)
Fixpoint DeleteChildren (fuel : nat) (this : nat) (s : Heap * list nat)
  {struct fuel} : option (Heap * list nat) :=
  match fuel with
  | O => None
  | S fuel' =>
      t <- read (fst s) this ;;
      match _firstChild t with
      | Some node =>
          h <- Unlink this node (fst s) ;;
          s <- DeleteNode fuel' node (h, snd s) ;;
          DeleteChildren fuel' this s
      | None =>
          h <- update this (set_lastChild None) (fst s) ;;
          h <- update this (set_firstChild None) h ;;
          Some (h, snd s)
      end
  end
with DeleteNode (fuel : nat) (node : nat) (s : Heap * list nat)
  {struct fuel} : option (Heap * list nat) :=
  match fuel with
  | O => None
  | S fuel' =>
      s <- DeleteChildren fuel' node s ;;
      n <- read (fst s) node ;;
      h <- match _parent n with
           | Some parent => Unlink parent node (fst s)
           | None => Some (fst s)
           end ;;
      Some (assign h node None, snd s ++ [node])
  end.

(** The children of [parent] from [cs] on, as the pointers give them:
    [prev] is the sibling before the first of them and [last] the last
    child of all. *)
Fixpoint siblings (h : Heap) (parent : nat) (prev : ptr) (cs : list nat)
    (last : ptr) : Prop :=
  match cs with
  | [] => last = prev
  | c :: cs' =>
      exists n,
        read h c = Some n /\ _parent n = Some parent /\ _prev n = prev /\
        _next n = hd_error cs' /\ siblings h parent (Some c) cs' last
  end.

(** [cs] is the chain of [this], first child to last. *)
Definition children (h : Heap) (this : nat) (cs : list nat) : Prop :=
  exists t,
    read h this = Some t /\ _firstChild t = hd_error cs /\
    siblings h this None cs (_lastChild t) /\ NoDup cs /\ ~ In this cs.

(** The nodes under a node, as the tree of their addresses. *)
Inductive Tree : Type :=
| T (root : nat) (kids : list Tree).

Definition root (t : Tree) : nat :=
  match t with
  | T a _ => a
  end.

(** The nodes of a tree, and the order in which [DeleteNode] gives them
    back: the children of a node, first to last, before the node. *)
Fixpoint nodes (t : Tree) : list nat :=
  match t with
  | T a k => a :: flat_map nodes k
  end.

Fixpoint postorder (t : Tree) : list nat :=
  match t with
  | T a k => flat_map postorder k ++ [a]
  end.

(** The heap holds the tree: the chain of every node is the list of its
    children in the tree. *)
Fixpoint shape (h : Heap) (t : Tree) : Prop :=
  match t with
  | T a k =>
      children h a (map root k) /\
      (fix all (l : list Tree) : Prop :=
         match l with
         | [] => True
         | x :: l' => shape h x /\ all l'
         end) k
  end.

End Chain.

(** * The DEBUG counters of untracked allocations *)

Definition Untracked (v : Variant) (d : JsonDocument) : Z :=
  MemPool.Untracked (pool v d).

(** Two documents whose pools have the same numbers of untracked
    allocations. *)
Definition tracked (d d' : JsonDocument) : Prop :=
  forall v, Untracked v d' = Untracked v d.

(** The destructor [~JsonDocument] of the DEBUG build: the children are
    deleted and the buffer released; [None] is a failed assertion. *)
Definition JsonDocument_destructor (d : JsonDocument) : option JsonDocument :=
  let d := with_children [] (DeleteChildren_pools (doc_children d) d) in
  let d := with_buffer None d in
  if JsonError_eqb (_errorID d) JSON_NO_ERROR then
    if forallb (fun v => MemPool.CurrentAllocs (pool v d)
                         =? MemPool.Untracked (pool v d))
               [VObject; VArray; VElement; VNumber; VString; VReserved]
    then Some d else None
  else Some d.

(** * Runs on documents that differ in their pools *)

(** Two runs that end the same way: the same fault, or the same value
    returned and documents that differ at most in their pools. *)
Definition same_result {A} (r1 r2 : result (A * JsonDocument)) : Prop :=
  match r1, r2 with
  | Ok (a1, d1), Ok (a2, d2) => a1 = a2 /\ same_but_pools d1 d2
  | Crash f1, Crash f2 => f1 = f2
  | OutOfFuel, OutOfFuel => True
  | _, _ => False
  end.

(** A computation that does not read the pools. *)
Definition pool_blind {A} (m : M A) : Prop :=
  forall d1 d2, same_but_pools d1 d2 -> same_result (m d1) (m d2).

(** * The Strings of the tree and the text *)

(** The Strings of a subtree, keys and values at any depth, in the order of
    the text. *)
Fixpoint strings_of (node : JsonNode) : list StrPair :=
  match node with
  | JsonString sp => [sp]
  | JsonElement cs | JsonObject cs | JsonArray cs => flat_map strings_of cs
  | JsonReserved _ | JsonNumber _ _ => []
  end.

Definition strings_of_list (cs : list JsonNode) : list StrPair :=
  flat_map strings_of cs.

(** The byte at index [i] of a buffer, when there is one. *)
Definition byte_of (b : option (list Z)) (i : nat) : option Z :=
  match b with
  | Some buf => nth_error buf i
  | None => None
  end.

(** The position of a cursor. *)
Definition pos (json : ptr) : nat :=
  match json with
  | Some p => p
  | None => O
  end.

(** [b'] has the bytes of [b] before index [p]. *)
Definition frame (p : nat) (b b' : option (list Z)) : Prop :=
  forall i, (i < p)%nat -> byte_of b' i = byte_of b i.

(** The String [sp] goes from the byte after a double quote of [b] to the
    next double quote of its scan: [b'] has the bytes in between as they
    were, and a NUL in place of the closing quote. *)
Definition string_span (b b' : option (list Z)) (sp : StrPair) (s f : nat)
  : Prop :=
  _start sp = Some s /\ _end sp = Some f /\ (1 <= s <= f)%nat /\
  byte_of b (s - 1) = Some DQUOTE /\ byte_of b f = Some DQUOTE /\
  byte_of b' f = Some NUL /\
  forall i, (s <= i < f)%nat -> byte_of b' i = byte_of b i.

(** A run from the cursor [p] on the buffer [b] to the cursor [r] on the
    buffer [b'], in which the Strings [strs] were linked: the bytes before
    [p] and from [r] on are unchanged, and the Strings lie in between. *)
Definition span (p : nat) (strs : list StrPair) (b : option (list Z))
    (r : ptr) (b' : option (list Z)) : Prop :=
  frame p b b' /\
  (forall q, r = Some q ->
     (p <= q)%nat /\ forall i, (q <= i)%nat -> byte_of b' i = byte_of b i) /\
  Forall (fun sp => exists s f,
            string_span b b' sp s f /\ (p < s)%nat /\
            forall q, r = Some q -> (f < q)%nat) strs.

(** What [JsonString::ParseDeep] does from the byte after the opening
    quote. *)
Definition string_leaf (p : nat) (b : option (list Z)) (r : ptr)
    (b' : option (list Z)) (node' : JsonNode) : Prop :=
  frame p b b' /\
  forall q, r = Some q ->
    exists f, node' = JsonString (mkStrPair (Some p) (Some f)) /\
              (p <= f)%nat /\ q = S f /\
              byte_of b f = Some DQUOTE /\ byte_of b' f = Some NUL /\
              forall i, i <> f -> byte_of b' i = byte_of b i.

(** The Strings a call has linked when it returns a cursor. *)
Definition linked (r : ptr) (node' : JsonNode) : list StrPair :=
  match r with
  | Some _ => strings_of node'
  | None => []
  end.

(** * Texts that start no value *)

(** The bytes on which [Identify] creates a node. *)
Definition starts_value (c : Z) : bool :=
  (c =? ch "n") || (c =? ch "t") || (c =? ch "f") || (c =? DQUOTE)
  || (c =? ch "{") || (c =? ch "[") || (c =? ch "-") || isdigit c.

(** * Theorems *)

(** ** The behaviour on concrete texts *)

(** C1.  The text [false] parses to a tree that is one Reserved(false) node;
    the printer renders that tree as [flase], whatever the format of floats,
    and [Parse] rejects the printed text with JSON_ERROR_PARSING_RESERVED:
    printing then re-parsing does not give the tree back. *)
Theorem C1_false_does_not_round_trip :
  forall print_float : c_float -> list Z,
    status (ParseText (cstr "false")) = Some JSON_NO_ERROR /\
    tree (ParseText (cstr "false")) = Some [JsonReserved JsonReserved.RESERVED_FALSE] /\
    option_map (PrintDocument print_float) (document (ParseText (cstr "false")))
      = Some (cstr "flase") /\
    status (ParseText (cstr "flase")) = Some JSON_ERROR_PARSING_RESERVED /\
    tree (ParseText (cstr "flase")) = Some [].
Proof.
  intros print_float.
  repeat split; vm_compute; reflexivity.
Qed.

(** C4.  On the text [{"a":}] the call returns JSON_NO_ERROR, not
    JSON_ERROR_PARSING_ELEMENT, and the tree is an Object holding an Element
    whose only child is the key. *)
Theorem C4_missing_value_is_accepted :
  status (ParseText (cstr "{" ++ quoted "a" ++ cstr ":}")) = Some JSON_NO_ERROR /\
  tree (ParseText (cstr "{" ++ quoted "a" ++ cstr ":}"))
    = Some [JsonObject [JsonElement [JsonString (mkStrPair (Some 2%nat) (Some 3%nat))]]].
Proof.
  split; vm_compute; reflexivity.
Qed.

(** C5.  Both [{"a":}] and [{"a":1 2}] parse with JSON_NO_ERROR; the Element
    of the first tree has one child and the Element of the second has three:
    the key and the value of an Element are each parsed by the run loop of
    JsonNode::ParseDeep, which links as many values as it finds. *)
Theorem C5_element_children_not_two :
  status (ParseText (cstr "{" ++ quoted "a" ++ cstr ":}")) = Some JSON_NO_ERROR /\
  option_map (forallb elements_ok)
             (tree (ParseText (cstr "{" ++ quoted "a" ++ cstr ":}"))) = Some false /\
  status (ParseText (cstr "{" ++ quoted "a" ++ cstr ":1 2}")) = Some JSON_NO_ERROR /\
  option_map (map (fun o => map (fun e => List.length (FirstChildren e)) (FirstChildren o)))
             (tree (ParseText (cstr "{" ++ quoted "a" ++ cstr ":1 2}")))
    = Some [[3%nat]].
Proof.
  repeat split; vm_compute; reflexivity.
Qed.

(** C6.  The text [[1 2]] parses with JSON_NO_ERROR to an Array with both
    numbers as children: no comma is required between the values. *)
Theorem C6_array_without_comma_is_accepted :
  status (ParseText (cstr "[1 2]")) = Some JSON_NO_ERROR /\
  tree (ParseText (cstr "[1 2]"))
    = Some [JsonArray
              [JsonNumber (float_strtod (cstr "1")) (int_of_float (float_strtod (cstr "1")));
               JsonNumber (float_strtod (cstr "2")) (int_of_float (float_strtod (cstr "2")))]].
Proof.
  split; vm_compute; reflexivity.
Qed.

(** C10.  On the text of a double quote followed by a backslash the buffer
    has three bytes, at offsets 0 to 2, the NUL at offset 2; the scan of
    JsonString::ParseDeep steps over the NUL as the escaped byte and reads
    at offset 3, outside the buffer, instead of reporting
    JSON_ERROR_PARSING_STRING. *)
Theorem C10_string_scan_reads_past_terminator :
  copy_buffer ([DQUOTE; BACKSLASH] ++ [NUL]) 2 = Ok [DQUOTE; BACKSLASH; NUL] /\
  JsonString_scan [BACKSLASH; NUL] 1 = Crash (OutOfBounds 3) /\
  ParseText [DQUOTE; BACKSLASH] = Crash (OutOfBounds 3).
Proof.
  repeat split; vm_compute; reflexivity.
Qed.

(** Counterexample to C2: on the text [[] n] the call returns
    JSON_ERROR_PARSING_RESERVED and the Array parsed before the failing
    literal is still a child of the Document. *)
Lemma C2_counterexample :
  status (ParseText (cstr "[] n")) = Some JSON_ERROR_PARSING_RESERVED /\
  tree (ParseText (cstr "[] n")) = Some [JsonArray []].
Proof.
  split; vm_compute; reflexivity.
Qed.

(** Counterexample to C3: on the text [1 -] the call returns
    JSON_ERROR_OBJECT_MISMATCH and the number pool still has one live
    allocation, the Number linked before the failing one. *)
Lemma C3_counterexample :
  status (ParseText (cstr "1 -")) = Some JSON_ERROR_OBJECT_MISMATCH /\
  option_map (CurrentAllocs VNumber) (document (ParseText (cstr "1 -"))) = Some 1.
Proof.
  split; vm_compute; reflexivity.
Qed.

(** ** The scenarios of the specification *)

Example scenario_empty_object :
  status (ParseText (cstr "{}")) = Some JSON_NO_ERROR /\
  tree (ParseText (cstr "{}")) = Some [JsonObject []].
Proof. split; vm_compute; reflexivity. Qed.

Example scenario_empty_array :
  status (ParseText (cstr "[]")) = Some JSON_NO_ERROR /\
  tree (ParseText (cstr "[]")) = Some [JsonArray []].
Proof. split; vm_compute; reflexivity. Qed.

Example scenario_key_true :
  tree (ParseText (cstr "{" ++ quoted "k" ++ cstr ":true}"))
  = Some [JsonObject
            [JsonElement [JsonString (mkStrPair (Some 2%nat) (Some 3%nat));
                          JsonReserved JsonReserved.RESERVED_TRUE]]].
Proof. vm_compute; reflexivity. Qed.

Example scenario_three_numbers :
  option_map (map (fun a => List.length (FirstChildren a)))
             (tree (ParseText (cstr "[1, 2, 3]"))) = Some [3%nat].
Proof. vm_compute; reflexivity. Qed.

Example scenario_unterminated_string :
  status (ParseText (DQUOTE :: cstr "unterminated")) = Some JSON_ERROR_PARSING_STRING /\
  tree (ParseText (DQUOTE :: cstr "unterminated")) = Some [].
Proof. split; vm_compute; reflexivity. Qed.

Example scenario_empty_text :
  status (ParseText []) = Some JSON_ERROR_EMPTY_DOCUMENT.
Proof. vm_compute; reflexivity. Qed.

(** The first element of an object that fails leaves [json] null in
    [JsonObject::ParseDeep], which dereferences it in the test of its
    [while]. *)
Example object_first_element_fails :
  ParseText (cstr "{1}") = Crash NullDeref.
Proof. vm_compute; reflexivity. Qed.

(** ** Small facts on lists and on the monad *)

Lemma skipn_nth_error (l : list Z) (i : nat) (c : Z) :
  nth_error l i = Some c -> skipn i l = c :: skipn (S i) l.
Proof.
  revert i; induction l as [|x l IH]; intros [|i] H; simpl in *;
    try discriminate.
  - now inversion H.
  - now apply IH.
Qed.

Lemma skipn_nil_length (l : list Z) (i : nat) :
  skipn i l = [] -> (List.length l <= i)%nat.
Proof.
  revert i; induction l as [|x l IH]; intros [|i] H; simpl in *;
    try discriminate; try lia.
  apply IH in H; lia.
Qed.

Lemma IsWhiteSpace_high_bit (c : Z) :
  Z.land c 128 <> 0 -> JsonUtil.IsWhiteSpace c = false.
Proof.
  intros H. unfold JsonUtil.IsWhiteSpace, JsonUtil.IsUTF8Continuation.
  destruct (Z.eqb_spec (Z.land c 128) 0); [contradiction | reflexivity].
Qed.

Lemma IsWhiteSpace_true (c : Z) :
  isspace c = true -> Z.land c 128 = 0 -> JsonUtil.IsWhiteSpace c = true.
Proof.
  intros H1 H2. unfold JsonUtil.IsWhiteSpace, JsonUtil.IsUTF8Continuation.
  now rewrite H2, H1.
Qed.

Lemma IsWhiteSpace_false (c : Z) :
  isspace c = false \/ Z.land c 128 <> 0 -> JsonUtil.IsWhiteSpace c = false.
Proof.
  intros [H|H].
  - unfold JsonUtil.IsWhiteSpace. rewrite H. apply andb_false_r.
  - now apply IsWhiteSpace_high_bit.
Qed.

(** A run of whitespace from [p] up to a byte at [q] that is not
    whitespace: the loop stops at [q]. *)
Lemma SkipWhiteSpace_run (buf : list Z) (q : nat) (c : Z) :
  nth_error buf q = Some c ->
  JsonUtil.IsWhiteSpace c = false ->
  forall n p : nat,
    (p + n = q)%nat ->
    (forall i, (p <= i < q)%nat ->
       exists w, nth_error buf i = Some w /\ JsonUtil.IsWhiteSpace w = true) ->
    JsonUtil.SkipWhiteSpace_loop (skipn p buf) p = Ok q.
Proof.
  intros Hq Hc n; induction n as [|n IH]; intros p Hp Hrun.
  - replace p with q by lia.
    rewrite (skipn_nth_error _ _ _ Hq); cbn [JsonUtil.SkipWhiteSpace_loop].
    now rewrite Hc.
  - destruct (Hrun p) as (w & Hw & Hws); [lia|].
    rewrite (skipn_nth_error _ _ _ Hw); cbn [JsonUtil.SkipWhiteSpace_loop].
    rewrite Hws.
    apply IH; [lia|]. intros i Hi; apply Hrun; lia.
Qed.

(** ** SetError *)

Lemma SetError_doc_set (e : JsonError) (s1 s2 : ptr) (d : JsonDocument) :
  _errorID d = JSON_NO_ERROR ->
  error_slot (SetError_doc e s1 s2 d) = (e, s1, s2).
Proof.
  destruct d; simpl; intros ->; reflexivity.
Qed.

Lemma SetError_doc_kept (e : JsonError) (s1 s2 : ptr) (d : JsonDocument) :
  _errorID d <> JSON_NO_ERROR ->
  error_slot (SetError_doc e s1 s2 d) = error_slot d.
Proof.
  destruct d as [cs e0 a b buf po pa pe pn ps pr log]; simpl; intros H.
  destruct e0; simpl; try reflexivity. now contradiction H.
Qed.

(** ** Identify *)

Lemma isdigit_range (c : Z) : isdigit c = (ch "0" <=? c) && (c <=? ch "9").
Proof. reflexivity. Qed.

(** C8.  From a cursor [p], over a run of ASCII whitespace bytes up to the
    first byte [c], at [q], that is either not whitespace for [isspace] or
    has its high bit set, Identify returns what the specification's table
    gives for [c] at [q]: a Reserved node at [q] for n, t, f; a String, an
    Object or an Array with the cursor past the quote, the brace or the
    bracket; a Number at [q] for a minus sign or a digit; no node for the
    NUL or any other byte.  The only change to the document is the
    allocation of the node in the pool of its class: the error slot is
    untouched.  A null cursor gives a null cursor and no node. *)
Theorem C8_Identify_dispatch :
  forall (d : JsonDocument) (buf : list Z) (p q : nat) (c : Z),
    _charBuffer d = Some buf ->
    (p <= q)%nat ->
    (forall i, (p <= i < q)%nat ->
       exists w, nth_error buf i = Some w /\ isspace w = true /\ Z.land w 128 = 0) ->
    nth_error buf q = Some c ->
    isspace c = false \/ Z.land c 128 <> 0 ->
    Identify (Some p) d
      = Ok (identified (variant_chosen c) q,
            match variant_chosen c with
            | Some v => with_pool v MemPool.Alloc d
            | None => d
            end) /\
    error_slot (match variant_chosen c with
                | Some v => with_pool v MemPool.Alloc d
                | None => d
                end) = error_slot d /\
    Identify None d = Ok ((None, None), d).
Proof.
  intros d buf p q c Hbuf Hpq Hrun Hq Hc.
  assert (Hskip : SkipWhiteSpace (Some p) d = Ok (Some q, d)).
  { unfold SkipWhiteSpace, JsonUtil.SkipWhiteSpace, lift. rewrite Hbuf.
    rewrite (SkipWhiteSpace_run buf q c Hq (IsWhiteSpace_false c Hc) (q - p) p);
      [reflexivity | lia |].
    intros i Hi. destruct (Hrun i Hi) as (w & Hw & Hs & Hh).
    exists w; split; [assumption | now apply IsWhiteSpace_true]. }
  assert (Hderef : deref (Some q) d = Ok (c, d)).
  { unfold deref. now rewrite Hbuf, Hq. }
  split; [|split].
  - unfold Identify, bind. rewrite Hskip, Hderef.
    unfold variant_chosen. rewrite <- isdigit_range.
    destruct (c =? NUL) eqn:E0.
    { apply Z.eqb_eq in E0; subst c. reflexivity. }
    destruct ((c =? ch "n") || (c =? ch "t") || (c =? ch "f")); [reflexivity|].
    destruct (c =? DQUOTE); [reflexivity|].
    destruct (c =? ch "{"); [reflexivity|].
    destruct (c =? ch "["); [reflexivity|].
    destruct ((c =? ch "-") || isdigit c); reflexivity.
  - destruct (variant_chosen c) as [[]|]; destruct d; reflexivity.
  - reflexivity.
Qed.

(** A buffer holding two blanks, a bracket and a NUL: from offset 0 the
    lookahead is the bracket at offset 2. *)
Lemma C8_Identify_dispatch_witness :
  Identify (Some 0%nat) (with_buffer (Some (cstr "  [" ++ [NUL])) JsonDocument_new)
    = Ok ((Some 3%nat, Some (JsonArray [])),
          with_pool VArray MemPool.Alloc
            (with_buffer (Some (cstr "  [" ++ [NUL])) JsonDocument_new)).
Proof.
  refine (proj1 (C8_Identify_dispatch
                   (with_buffer (Some (cstr "  [" ++ [NUL])) JsonDocument_new)
                   (cstr "  [" ++ [NUL]) 0 2 (ch "[") _ _ _ _ _)).
  - reflexivity.
  - lia.
  - intros i Hi. assert (i = 0 \/ i = 1)%nat as [-> | ->] by lia;
      exists 32; repeat split; reflexivity.
  - reflexivity.
  - left; reflexivity.
Defined.

(** ** Induction on trees *)

Lemma JsonNode_tree_ind (P : JsonNode -> Prop) :
  (forall t, P (JsonReserved t)) ->
  (forall f i, P (JsonNumber f i)) ->
  (forall sp, P (JsonString sp)) ->
  (forall cs, Forall P cs -> P (JsonElement cs)) ->
  (forall cs, Forall P cs -> P (JsonObject cs)) ->
  (forall cs, Forall P cs -> P (JsonArray cs)) ->
  forall node, P node.
Proof.
  intros Hr Hn Hs He Ho Ha.
  fix IH 1.
  intros [t|f i|sp|cs|cs|cs];
    [apply Hr | apply Hn | apply Hs | apply He | apply Ho | apply Ha];
    induction cs as [|c cs IHcs]; constructor; auto.
Qed.

(** ** Pools: what each operation does to the live count *)

Lemma count_unfold (v : Variant) (node : JsonNode) :
  count v node
  = one_if (Variant_eqb v (pool_of node)) + count_list v (FirstChildren node).
Proof.
  assert (H : forall cs,
             (fix count_list (cs : list JsonNode) : Z :=
                match cs with
                | [] => 0
                | c :: cs' => count v c + count_list cs'
                end) cs = count_list v cs).
  { induction cs as [|c cs IH]; simpl; [reflexivity | now rewrite IH]. }
  destruct node; simpl; try rewrite H; reflexivity.
Qed.

Lemma count_list_app (v : Variant) (cs cs' : list JsonNode) :
  count_list v (cs ++ cs') = count_list v cs + count_list v cs'.
Proof.
  induction cs as [|c cs IH]; simpl; [reflexivity | rewrite IH; lia].
Qed.

Lemma CurrentAllocs_Alloc (v v' : Variant) (d : JsonDocument) :
  CurrentAllocs v (with_pool v' MemPool.Alloc d)
  = CurrentAllocs v d + one_if (Variant_eqb v v').
Proof.
  destruct d as [cs e0 a b bf [] [] [] [] [] [] log], v, v';
    cbn -[Z.add Z.sub]; lia.
Qed.

Lemma CurrentAllocs_Free (v v' : Variant) (d : JsonDocument) :
  CurrentAllocs v (with_pool v' MemPool.Free d)
  = CurrentAllocs v d - one_if (Variant_eqb v v').
Proof.
  destruct d as [cs e0 a b bf [] [] [] [] [] [] log], v, v';
    cbn -[Z.add Z.sub]; lia.
Qed.

Lemma CurrentAllocs_SetTracked (v v' : Variant) (d : JsonDocument) :
  CurrentAllocs v (with_pool v' MemPool.SetTracked d) = CurrentAllocs v d.
Proof.
  destruct d, v, v'; reflexivity.
Qed.

Lemma CurrentAllocs_SetError (v : Variant) e s1 s2 (d : JsonDocument) :
  CurrentAllocs v (SetError_doc e s1 s2 d) = CurrentAllocs v d.
Proof.
  destruct d as [cs e0 a b buf po pa pe pn ps pr log].
  destruct v, e0; reflexivity.
Qed.

Lemma CurrentAllocs_with_buffer (v : Variant) buf (d : JsonDocument) :
  CurrentAllocs v (with_buffer buf d) = CurrentAllocs v d.
Proof.
  destruct d, v; reflexivity.
Qed.

Lemma CurrentAllocs_with_children (v : Variant) cs (d : JsonDocument) :
  CurrentAllocs v (with_children cs d) = CurrentAllocs v d.
Proof.
  destruct d, v; reflexivity.
Qed.

Lemma CurrentAllocs_InitDocument (v : Variant) (d : JsonDocument) :
  CurrentAllocs v (InitDocument d) = CurrentAllocs v d.
Proof.
  destruct d, v; reflexivity.
Qed.

Lemma DeleteNode_pools_unfold (node : JsonNode) (d : JsonDocument) :
  DeleteNode_pools node d
  = with_pool (pool_of node) MemPool.Free
      (DeleteChildren_pools (FirstChildren node) d).
Proof.
  assert (H : forall cs d,
             (fix DeleteChildren (cs : list JsonNode) (d : JsonDocument) :=
                match cs with
                | [] => d
                | c :: cs' => DeleteChildren cs' (DeleteNode_pools c d)
                end) cs d = DeleteChildren_pools cs d).
  { induction cs as [|c cs IH]; intros d0; simpl; [reflexivity | apply IH]. }
  destruct node; simpl; try rewrite H; reflexivity.
Qed.

(** Deleting a subtree frees exactly its nodes. *)
Lemma CurrentAllocs_DeleteNode (v : Variant) (node : JsonNode) :
  forall d, CurrentAllocs v (DeleteNode_pools node d) = CurrentAllocs v d - count v node.
Proof.
  induction node as [t|f i|sp|cs IH|cs IH|cs IH] using JsonNode_tree_ind; intros d;
    rewrite DeleteNode_pools_unfold, CurrentAllocs_Free, count_unfold;
    cbn [FirstChildren pool_of]; try (unfold DeleteChildren_pools; simpl; lia).
  all: enough (forall d, CurrentAllocs v (DeleteChildren_pools cs d)
                        = CurrentAllocs v d - count_list v cs) as -> by lia.
  all: induction IH as [|c cs Hc _ IHcs]; intros d0;
    [simpl; lia | cbn [DeleteChildren_pools fold_left count_list]].
  all: fold (DeleteChildren_pools cs (DeleteNode_pools c d0));
    rewrite IHcs, Hc; lia.
Qed.

Lemma CurrentAllocs_DeleteChildren (v : Variant) (cs : list JsonNode) :
  forall d, CurrentAllocs v (DeleteChildren_pools cs d)
            = CurrentAllocs v d - count_list v cs.
Proof.
  induction cs as [|c cs IH]; intros d; [simpl; lia|].
  cbn [DeleteChildren_pools fold_left count_list].
  fold (DeleteChildren_pools cs (DeleteNode_pools c d)).
  rewrite IH, CurrentAllocs_DeleteNode. lia.
Qed.

(** ** The relation [steps] *)

Lemma steps_trans (a b c : JsonDocument) : steps a b -> steps b c -> steps a c.
Proof.
  induction 1; intros Hc; eauto using steps.
Qed.

Lemma steps_with_pool v f d : steps d (with_pool v f d).
Proof. eapply steps_pool, steps_refl. Qed.

Lemma steps_SetError e d :
  parse_error e = true -> steps d (SetError_doc e None None d).
Proof. intros H. eapply steps_error; [exact H | apply steps_refl]. Qed.

Lemma steps_DeleteNode (node : JsonNode) : forall d, steps d (DeleteNode_pools node d).
Proof.
  induction node as [t|f i|sp|cs IH|cs IH|cs IH] using JsonNode_tree_ind; intros d;
    rewrite DeleteNode_pools_unfold; cbn [FirstChildren pool_of];
    try apply steps_with_pool.
  all: eapply steps_trans; [|apply steps_with_pool].
  all: revert d; induction IH as [|c cs Hc _ IHcs]; intros d;
    [apply steps_refl | cbn [DeleteChildren_pools fold_left]].
  all: fold (DeleteChildren_pools cs (DeleteNode_pools c d));
    eapply steps_trans; [apply Hc | apply IHcs].
Qed.

Lemma steps_buflen (d d' : JsonDocument) : steps d d' -> buflen d' = buflen d.
Proof.
  induction 1 as [d|v f d d' _ IH|e d d' _ _ IH|p buf d d' Hb Hp _ IH];
    [reflexivity | rewrite IH .. ].
  - destruct d, v; reflexivity.
  - destruct d as [cs e0 a b bf po pa pe pn ps pr log]; destruct e0; reflexivity.
  - unfold buflen. destruct d; simpl in *. rewrite Hb.
    clear. revert p; induction buf as [|x buf IH]; intros [|p]; simpl; auto.
Qed.

Lemma steps_doc_children (d d' : JsonDocument) :
  steps d d' -> doc_children d' = doc_children d.
Proof.
  induction 1 as [d|v f d d' _ IH|e d d' _ _ IH|p buf d d' Hb Hp _ IH];
    [reflexivity | rewrite IH .. ].
  - destruct d, v; reflexivity.
  - destruct d as [cs e0 a b bf po pa pe pn ps pr log]; destruct e0; reflexivity.
  - destruct d; reflexivity.
Qed.

(** ** Inversion of the monad's operations *)

Lemma bind_Ok {A B} (m : M A) (k : A -> M B) d b d' :
  bind m k d = Ok (b, d') ->
  exists a d1, m d = Ok (a, d1) /\ k a d1 = Ok (b, d').
Proof.
  unfold bind. destruct (m d) as [[a d1]| |]; try discriminate. eauto.
Qed.

Lemma ret_Ok {A} (a b : A) d d' : ret a d = Ok (b, d') -> b = a /\ d' = d.
Proof. unfold ret. intros H; inversion H; auto. Qed.

Lemma modify_Ok f d u d' : modify f d = Ok (u, d') -> d' = f d.
Proof. unfold modify. intros H; inversion H; auto. Qed.

Lemma lift_Ok {A} (r : result A) d a d' : lift r d = Ok (a, d') -> r = Ok a /\ d' = d.
Proof. unfold lift. destruct r; intros H; inversion H; auto. Qed.

Lemma deref_Ok p d c d' :
  deref p d = Ok (c, d') ->
  d' = d /\ exists i buf, p = Some i /\ _charBuffer d = Some buf /\
                          nth_error buf i = Some c /\ (i < buflen d)%nat.
Proof.
  unfold deref, buflen. destruct p as [i|]; [|discriminate].
  destruct (_charBuffer d) as [buf|]; [|discriminate].
  destruct (nth_error buf i) as [x|] eqn:E; [|discriminate].
  intros H; inversion H; subst. split; [reflexivity|].
  exists i, buf. repeat split; auto.
  apply nth_error_Some. congruence.
Qed.

Lemma bytes_from_Ok p d s d' :
  bytes_from p d = Ok (s, d') ->
  d' = d /\ exists i buf, p = Some i /\ _charBuffer d = Some buf /\
                          s = skipn i buf /\ (i < buflen d)%nat.
Proof.
  unfold bytes_from, buflen. destruct p as [i|]; [|discriminate].
  destruct (_charBuffer d) as [buf|]; [|discriminate].
  destruct (skipn i buf) as [|x l] eqn:E; [discriminate|].
  intros H; inversion H; subst. split; [reflexivity|].
  exists i, buf. repeat split; auto.
  destruct (Nat.lt_ge_cases i (List.length buf)) as [Hlt|Hge]; [assumption|].
  rewrite skipn_all2 in E by assumption. discriminate.
Qed.

Lemma SkipWhiteSpace_loop_Ok (rest : list Z) :
  forall p q, JsonUtil.SkipWhiteSpace_loop rest p = Ok q -> (p <= q)%nat.
Proof.
  induction rest as [|c rest IH]; intros p q; simpl; [discriminate|].
  destruct (JsonUtil.IsWhiteSpace c).
  - intros H; apply IH in H; lia.
  - intros H; inversion H; lia.
Qed.

Lemma SkipWhiteSpace_Ok p d r d' :
  SkipWhiteSpace p d = Ok (r, d') ->
  d' = d /\
  match p with
  | None => r = None
  | Some i => exists j, r = Some j /\ (i <= j)%nat
  end.
Proof.
  unfold SkipWhiteSpace, JsonUtil.SkipWhiteSpace, lift. destruct p as [i|].
  - destruct (_charBuffer d) as [buf|]; [|discriminate].
    destruct (JsonUtil.SkipWhiteSpace_loop (skipn i buf) i) as [j| |] eqn:E;
      try discriminate.
    intros H; inversion H; subst. split; [reflexivity|].
    exists j; split; [reflexivity | now apply SkipWhiteSpace_loop_Ok in E].
  - intros H; inversion H; auto.
Qed.

Lemma store_Ok p c d u d' :
  store p c d = Ok (u, d') ->
  exists buf, _charBuffer d = Some buf /\ (p < List.length buf)%nat /\
              d' = with_buffer (Some (list_set buf p c)) d.
Proof.
  unfold store. destruct (_charBuffer d) as [buf|]; [|discriminate].
  destruct (Nat.ltb_spec p (List.length buf)) as [Hlt|Hge]; [|discriminate].
  intros H; inversion H; subst. eauto.
Qed.

(** Inversion of a run that returned, one operation at a time. *)
Ltac minv H :=
  repeat match type of H with
  | bind _ _ _ = Ok _ =>
      let a := fresh "a" in let d1 := fresh "d" in let E := fresh "E" in
      apply bind_Ok in H; destruct H as (a & d1 & E & H)
  | (let '(_, _) := ?x in _) _ = Ok _ => destruct x
  | (match ?x with (_, _) => _ end) _ = Ok _ => destruct x
  end.

Tactic Notation "bind_inv" hyp(H) "as" ident(a) ident(d1) ident(E) :=
  apply bind_Ok in H; destruct H as (a & d1 & E & H).

Ltac inv_ret H :=
  match type of H with
  | ret _ _ = Ok _ =>
      let H1 := fresh "Hret" in
      apply ret_Ok in H; destruct H as [H1 ?]; inversion H1; subst; try clear H1
  end.

Ltac inv_modify :=
  repeat match goal with
  | H : modify _ _ = Ok _ |- _ => apply modify_Ok in H; subst
  | H : SetError _ _ _ _ = Ok _ |- _ => apply modify_Ok in H; subst
  | H : Alloc _ _ = Ok _ |- _ => apply modify_Ok in H; subst
  | H : SetTracked _ _ = Ok _ |- _ => apply modify_Ok in H; subst
  | H : DeleteNode _ _ = Ok _ |- _ => apply modify_Ok in H; subst
  end.

(** A failing exit: [SetError] with a parse error, then a null cursor. *)
Lemma failed_exit_post (v : Variant) e this json d this' r d' :
  parse_error e = true ->
  (SetError e None None ;;; ret (this, None)) d = Ok ((this', r), d') ->
  run_post v this json d this' r d'.
Proof.
  intros He H. minv H. inv_ret H. inv_modify.
  split; [|split; [|split]].
  - now apply steps_SetError.
  - discriminate.
  - rewrite CurrentAllocs_SetError. reflexivity.
  - exists []. now rewrite app_nil_r.
Qed.

Lemma run_post_refl (v : Variant) this p d :
  run_post v this (Some p) d this (Some p) d.
Proof.
  split; [apply steps_refl | split; [|split; [reflexivity|]]].
  - intros q H; inversion H; subst. exists q; auto.
  - exists []. now rewrite app_nil_r.
Qed.

(** ** Identify, seen from its callers *)

Lemma Identify_Ok (v : Variant) json d json' node d' :
  Identify json d = Ok ((json', node), d') ->
  steps d d' /\
  match json with
  | None => json' = None /\ node = None
  | Some p =>
      exists q, json' = Some q /\ (p <= q)%nat /\ (p < buflen d)%nat /\
      match node with
      | None => d' = d
      | Some n =>
          CurrentAllocs v d' = CurrentAllocs v d + count v n /\
          (is_scalar n = false -> (p < q)%nat) /\
          (fuel_ParseDeep n json' d' <= 3 * remaining json d + 1)%nat
      end
  end.
Proof.
  unfold Identify. intros H. bind_inv H as j d1 E.
  apply SkipWhiteSpace_Ok in E. destruct E as [-> Hj].
  destruct json as [p|].
  - destruct Hj as (q & -> & Hpq).
    bind_inv H as c d1 E.
    apply deref_Ok in E. destruct E as [-> (i & buf & Hi & Hbuf & Hc & Hlt)].
    inversion Hi; subst i; clear Hi.
    assert (Hp : (p < buflen d)%nat) by lia.
    assert (Hrem : forall f d0, buflen (with_pool f MemPool.Alloc d0) = buflen d0).
    { intros f d0. apply steps_buflen, steps_with_pool. }
    destruct (c =? NUL).
    { inv_ret H. split; [apply steps_refl|]. exists q; auto. }
    destruct ((c =? ch "n") || (c =? ch "t") || (c =? ch "f")).
    { minv H. inv_ret H. inv_modify. split; [apply steps_with_pool|].
      exists q. split; [reflexivity | split; [assumption | split; [assumption|]]].
      split; [|split]; try discriminate.
      - rewrite CurrentAllocs_Alloc, count_unfold. simpl. lia.
      - simpl. lia. }
    destruct (c =? DQUOTE).
    { minv H. inv_ret H. inv_modify. split; [apply steps_with_pool|].
      exists (q + 1)%nat. split; [reflexivity | split; [lia | split; [assumption|]]].
      split; [|split]; try (intros; lia).
      - rewrite CurrentAllocs_Alloc, count_unfold. simpl. lia.
      - simpl. lia. }
    destruct (c =? ch "{").
    { minv H. inv_ret H. inv_modify. split; [apply steps_with_pool|].
      exists (q + 1)%nat. split; [reflexivity | split; [lia | split; [assumption|]]].
      split; [|split]; try (intros; lia).
      - rewrite CurrentAllocs_Alloc, count_unfold. simpl. lia.
      - unfold fuel_ParseDeep, remaining, ptr_add. rewrite Hrem. lia. }
    destruct (c =? ch "[").
    { minv H. inv_ret H. inv_modify. split; [apply steps_with_pool|].
      exists (q + 1)%nat. split; [reflexivity | split; [lia | split; [assumption|]]].
      split; [|split]; try (intros; lia).
      - rewrite CurrentAllocs_Alloc, count_unfold. simpl. lia.
      - unfold fuel_ParseDeep, remaining, ptr_add. rewrite Hrem. lia. }
    destruct ((c =? ch "-") || isdigit c).
    { minv H. inv_ret H. inv_modify. split; [apply steps_with_pool|].
      exists q. split; [reflexivity | split; [assumption | split; [assumption|]]].
      split; [|split]; try discriminate.
      - rewrite CurrentAllocs_Alloc, count_unfold. simpl. lia.
      - simpl. lia. }
    inv_ret H. split; [apply steps_refl|]. exists q; auto.
  - subst j. inv_ret H. split; [apply steps_refl | auto].
Qed.

(** ** The leaf parsers, seen from their callers *)

Lemma JsonString_scan_Ok (n : nat) :
  forall rest start p,
    (List.length rest <= n)%nat ->
    JsonString_scan rest start = Ok p -> (start <= p)%nat.
Proof.
  induction n as [|n IH]; intros [|c rest] start p Hlen; simpl in *;
    try discriminate; try lia.
  destruct ((c =? DQUOTE) || (c =? NUL)).
  { intros H; inversion H; lia. }
  destruct (c =? BACKSLASH).
  - destruct rest as [|c' rest]; [discriminate|].
    intros H. destruct n as [|n]; [simpl in Hlen; lia|].
    assert (Hle : (List.length rest <= n)%nat) by (simpl in Hlen; lia).
    assert (IH' := IH rest (start + 2)%nat p).
    enough (start + 2 <= p)%nat by lia.
    apply IH'; [lia | assumption].
  - intros H. apply IH in H; lia.
Qed.

Section LeafPosts.

Variable v : Variant.

Lemma JsonReserved_ParseDeep_Ok t json d t' r d' :
  JsonReserved_ParseDeep t json d = Ok ((t', r), d') ->
  steps d d' /\
  (forall q, r = Some q -> exists p, json = Some p /\ (p < q)%nat) /\
  CurrentAllocs v d' = CurrentAllocs v d.
Proof.
  unfold JsonReserved_ParseDeep. intros H.
  bind_inv H as s d1 E. apply bytes_from_Ok in E.
  destruct E as [-> (i & buf & -> & _)].
  assert (Hadd : forall n q, ptr_add (Some i) (S n) = Some q ->
                             exists p, Some i = Some p /\ (p < q)%nat).
  { intros n q Hq. inversion Hq; subst. exists i; split; [reflexivity | lia]. }
  bind_inv H as r1 d1 E. apply lift_Ok in E. destruct E as [_ ->].
  destruct (is_zero r1).
  { inv_ret H. split; [apply steps_refl | split; [apply Hadd | reflexivity]]. }
  bind_inv H as r2 d1 E. apply lift_Ok in E. destruct E as [_ ->].
  destruct (is_zero r2).
  { inv_ret H. split; [apply steps_refl | split; [apply Hadd | reflexivity]]. }
  bind_inv H as r3 d1 E. apply lift_Ok in E. destruct E as [_ ->].
  destruct (is_zero r3).
  { inv_ret H. split; [apply steps_refl | split; [apply Hadd | reflexivity]]. }
  minv H. inv_ret H. inv_modify.
  split; [now apply steps_SetError | split; [discriminate|]].
  apply CurrentAllocs_SetError.
Qed.

Lemma JsonNumber_ParseDeep_Ok this json d this' r d' :
  JsonNumber_ParseDeep this json d = Ok ((this', r), d') ->
  steps d d' /\
  (forall q, r = Some q -> exists p, json = Some p /\ (p < q)%nat) /\
  CurrentAllocs v d' = CurrentAllocs v d.
Proof.
  unfold JsonNumber_ParseDeep. intros H.
  bind_inv H as j d1 E. apply SkipWhiteSpace_Ok in E. destruct E as [-> Hj].
  destruct j as [j|].
  - destruct json as [p|]; [|discriminate].
    destruct Hj as (j' & Hj' & Hle). inversion Hj'; subst j'; clear Hj'.
    bind_inv H as s d1 E. apply bytes_from_Ok in E. destruct E as [-> _].
    destruct (strtod s) as [n len].
    destruct (Nat.eqb_spec len 0) as [Hz|Hnz]; simpl in H.
    + minv H. inv_ret H. inv_modify.
      split; [now apply steps_SetError | split; [discriminate|]].
      apply CurrentAllocs_SetError.
    + inv_ret H. split; [apply steps_refl | split; [|reflexivity]].
      intros q Hq. inversion Hq; subst. exists p; split; [reflexivity | lia].
  - inv_ret H. split; [apply steps_refl | split; [discriminate | reflexivity]].
Qed.

Lemma JsonString_ParseDeep_Ok sp json d sp' r d' :
  JsonString_ParseDeep sp json d = Ok ((sp', r), d') ->
  steps d d' /\
  (forall q, r = Some q -> exists p, json = Some p /\ (p < q)%nat) /\
  CurrentAllocs v d' = CurrentAllocs v d.
Proof.
  unfold JsonString_ParseDeep. intros H.
  bind_inv H as s d1 E. apply bytes_from_Ok in E.
  destruct E as [-> (i & buf & -> & _)].
  bind_inv H as p d1 E. apply lift_Ok in E. destruct E as [E ->].
  apply (JsonString_scan_Ok (List.length s) s i p (le_n _)) in E.
  bind_inv H as c d1 E'. apply deref_Ok in E'. destruct E' as [-> _].
  destruct (c =? NUL).
  - minv H. inv_ret H. inv_modify.
    split; [now apply steps_SetError | split; [discriminate|]].
    apply CurrentAllocs_SetError.
  - bind_inv H as u d1 E'. apply store_Ok in E'.
    destruct E' as (buf' & Hbuf & Hlt & ->). inv_ret H.
    split; [|split].
    + eapply steps_store; [exact Hbuf | exact Hlt | apply steps_refl].
    + intros q Hq. inversion Hq; subst. exists i; split; [reflexivity | lia].
    + apply CurrentAllocs_with_buffer.
Qed.

End LeafPosts.

(** ** The container parsers, given what their calls ensure *)

Section BodyPosts.

Variable v : Variant.
Variable NPD : list JsonNode -> ptr -> M (list JsonNode * ptr).
Variable PD : JsonNode -> ptr -> M (JsonNode * ptr).

Hypothesis NPD_post :
  forall this json d this' r d',
    NPD this json d = Ok ((this', r), d') -> run_post v this json d this' r d'.

Hypothesis PD_post :
  forall node json d node' r d',
    PD node json d = Ok ((node', r), d') -> node_post v node json d node' r d'.

Lemma run_post_null this json d d' :
  steps d d' ->
  CurrentAllocs v d' = CurrentAllocs v d ->
  run_post v this json d this None d'.
Proof.
  intros Hs Hb. split; [exact Hs | split; [discriminate | split; [lia|]]].
  exists []. now rewrite app_nil_r.
Qed.

Lemma JsonNode_ParseDeep_body_post loop :
  (forall this json d this' r d',
     loop this json d = Ok ((this', r), d') -> run_post v this json d this' r d') ->
  forall this json d this' r d',
    JsonNode_ParseDeep_body PD loop this json d = Ok ((this', r), d') ->
    run_post v this json d this' r d'.
Proof.
  intros Hloop this json d this' r d' H. unfold JsonNode_ParseDeep_body in H.
  destruct json as [p|].
  2:{ inv_ret H. apply run_post_null; [apply steps_refl | reflexivity]. }
  bind_inv H as c d1 E. apply deref_Ok in E. destruct E as [-> _].
  destruct (c =? NUL); [inv_ret H; apply run_post_refl|].
  bind_inv H as x d1 E. destruct x as [json1 node].
  apply (Identify_Ok v) in E. destruct E as [Hs (q1 & -> & Hpq & Hp & Hnode)].
  destruct node as [n|].
  2:{ inv_ret H. split; [apply steps_refl | split; [|split; [reflexivity|]]].
      - intros q Hq. inversion Hq; subst. exists p; auto.
      - exists []. now rewrite app_nil_r. }
  destruct Hnode as (Hca & Hscal & _).
  bind_inv H as y d2 E. destruct y as [n' r1].
  apply PD_post in E. destruct E as (Hs2 & Hcur2 & Hbal2 & Hpool).
  bind_inv H as json2 d3 E. apply SkipWhiteSpace_Ok in E. destruct E as [-> Hj2].
  destruct json2 as [q2|].
  - bind_inv H as this1 d3 E. unfold InsertEndChild in E.
    bind_inv E as u d4 E'. inv_ret E. inv_modify.
    apply Hloop in H. destruct H as (Hs3 & Hcur3 & Hbal3 & (added & Hadd)).
    destruct r1 as [q1'|]; [|discriminate].
    destruct Hj2 as (j & Hj & Hle). inversion Hj; subst j; clear Hj.
    destruct (Hcur2 q1' eq_refl) as (p0 & Hp0 & Hle0 & _).
    inversion Hp0; subst p0; clear Hp0.
    split; [|split; [|split]].
    + eapply steps_trans; [exact Hs|]. eapply steps_trans; [exact Hs2|].
      eapply steps_trans; [apply steps_with_pool | exact Hs3].
    + intros q Hq. destruct (Hcur3 q Hq) as (p3 & Hp3 & Hle3).
      inversion Hp3; subst p3. exists p; split; [reflexivity | lia].
    + rewrite count_list_app in Hbal3. simpl in Hbal3.
      rewrite CurrentAllocs_SetTracked in Hbal3. lia.
    + exists (n' :: added). rewrite Hadd, <- app_assoc. reflexivity.
  - minv H. inv_ret H. inv_modify. apply run_post_null.
    + eapply steps_trans; [exact Hs|]. eapply steps_trans; [exact Hs2|].
      eapply steps_trans; [apply steps_with_pool|].
      eapply steps_trans; [apply steps_DeleteNode | now apply steps_SetError].
    + rewrite CurrentAllocs_SetError, CurrentAllocs_DeleteNode,
        CurrentAllocs_SetTracked. lia.
Qed.

Lemma run_post_failed e this json d this1 r1 d1 this' r d' :
  parse_error e = true ->
  run_post v this json d this1 r1 d1 ->
  (SetError e None None ;;; ret (this1, None)) d1 = Ok ((this', r), d') ->
  run_post v this json d this' r d'.
Proof.
  intros He (Hs1 & _ & Hb1 & (a1 & Ha1)) H.
  apply (failed_exit_post v e this1 None) in H; [|assumption].
  destruct H as (Hs2 & Hc2 & Hb2 & (a2 & Ha2)).
  split; [eapply steps_trans; eassumption | split; [|split; [lia|]]].
  - intros q Hq. destruct (Hc2 q Hq) as (p & Hp & _). discriminate.
  - exists (a1 ++ a2). rewrite Ha2, Ha1, <- app_assoc. reflexivity.
Qed.

Lemma run_post_seq this json d this1 r1 d1 this' r d' :
  run_post v this json d this1 r1 d1 ->
  run_post v this1 r1 d1 this' r d' ->
  run_post v this json d this' r d'.
Proof.
  intros (Hs1 & Hc1 & Hb1 & (a1 & Ha1)) (Hs2 & Hc2 & Hb2 & (a2 & Ha2)).
  split; [eapply steps_trans; eassumption | split; [|split; [lia|]]].
  - intros q Hq. destruct (Hc2 q Hq) as (p1 & Hp1 & Hle1).
    destruct (Hc1 p1 Hp1) as (p & Hp & Hle). exists p; split; [assumption | lia].
  - exists (a1 ++ a2). rewrite Ha2, Ha1, <- app_assoc. reflexivity.
Qed.

Lemma run_post_skip this r1 d1 json2 d2 :
  SkipWhiteSpace r1 d1 = Ok (json2, d2) ->
  d2 = d1 /\ run_post v this r1 d1 this json2 d1.
Proof.
  intros H. apply SkipWhiteSpace_Ok in H. destruct H as [-> H].
  split; [reflexivity|].
  split; [apply steps_refl | split; [|split; [reflexivity|]]].
  - intros q Hq. subst json2. destruct r1 as [p|]; [|discriminate].
    destruct H as (j & Hj & Hle). inversion Hj; subst. exists p; auto.
  - exists []. now rewrite app_nil_r.
Qed.

Lemma run_post_advance this p n d :
  run_post v this (Some p) d this (ptr_add (Some p) n) d.
Proof.
  split; [apply steps_refl | split; [|split; [reflexivity|]]].
  - intros q Hq. inversion Hq; subst. exists p; split; [reflexivity | lia].
  - exists []. now rewrite app_nil_r.
Qed.

Lemma run_post_fail e this json d this' r d' :
  parse_error e = true ->
  (SetError e None None ;;; ret (this, None)) d = Ok ((this', r), d') ->
  run_post v this json d this' r d'.
Proof.
  intros He H. now apply (failed_exit_post v e this json) in H.
Qed.

Ltac exit_failed H :=
  solve [eapply run_post_fail; [|exact H]; reflexivity].

Ltac exit_failed_after P H :=
  solve [eapply run_post_failed; [|exact P|exact H]; reflexivity].

Lemma JsonElement_ParseDeep_post this json d this' r d' :
  JsonElement_ParseDeep NPD this json d = Ok ((this', r), d') ->
  run_post v this json d this' r d'.
Proof.
  unfold JsonElement_ParseDeep. cbv beta zeta. intros H.
  bind_inv H as c d1 E. apply deref_Ok in E. destruct E as [-> (i & _ & -> & _)].
  destruct (negb (c =? DQUOTE)); [exit_failed H|].
  bind_inv H as x d1 E. destruct x as [this1 r1]. apply NPD_post in E.
  bind_inv H as json2 d2 E2. apply (run_post_skip this1) in E2.
  destruct E2 as [-> E2]. assert (P2 := run_post_seq _ _ _ _ _ _ _ _ _ E E2).
  destruct json2 as [q2|]; [|exit_failed_after P2 H].
  bind_inv H as c2 d2 E3. apply deref_Ok in E3. destruct E3 as [-> _].
  destruct (negb (c2 =? ch ":"));
    [exit_failed_after P2 H|].
  assert (P3 := run_post_seq _ _ _ _ _ _ _ _ _ P2 (run_post_advance this1 q2 1 d1)).
  bind_inv H as x d2 E4. destruct x as [this2 r2]. apply NPD_post in E4.
  assert (P4 := run_post_seq _ _ _ _ _ _ _ _ _ P3 E4).
  bind_inv H as json3 d3 E5. apply (run_post_skip this2) in E5.
  destruct E5 as [-> E5]. assert (P5 := run_post_seq _ _ _ _ _ _ _ _ _ P4 E5).
  destruct json3 as [q3|];
    [|exit_failed_after P5 H].
  inv_ret H. exact P5.
Qed.

Lemma JsonObject_ParseElement_post this json d this' r d' :
  JsonObject_ParseElement PD this json d = Ok ((this', r), d') ->
  run_post v this json d this' r d'.
Proof.
  unfold JsonObject_ParseElement, CreatElement. intros H.
  bind_inv H as node d1 E. bind_inv E as u d0 E0. inv_ret E. inv_modify.
  bind_inv H as x d2 E. destruct x as [node' r1].
  apply PD_post in E. destruct E as (Hs & Hc & Hb & Hpool).
  rewrite CurrentAllocs_Alloc, (count_unfold v (JsonElement [])) in Hb.
  cbn [pool_of FirstChildren count_list] in Hb.
  bind_inv H as json2 d3 E. apply SkipWhiteSpace_Ok in E. destruct E as [-> Hj].
  assert (Hs' : steps d d2) by (eapply steps_trans; [apply steps_with_pool | exact Hs]).
  destruct json2 as [q2|].
  - bind_inv H as this1 d3 E. unfold InsertEndChild in E.
    bind_inv E as u' d4 E'. inv_ret E. inv_modify. inv_ret H.
    split; [|split; [|split]].
    + eapply steps_trans; [exact Hs' | apply steps_with_pool].
    + intros q Hq. inversion Hq; subst q; clear Hq.
      destruct r1 as [q1|]; [|discriminate].
      destruct Hj as (j & Hj & Hle). inversion Hj; subst j; clear Hj.
      destruct (Hc q1 eq_refl) as (p & Hp & Hle1 & _).
      exists p; split; [assumption | lia].
    + rewrite count_list_app, CurrentAllocs_SetTracked. simpl. lia.
    + now exists [node'].
  - minv H. inv_ret H. inv_modify. apply run_post_null.
    + eapply steps_trans; [exact Hs'|].
      eapply steps_trans; [apply steps_with_pool|].
      eapply steps_trans; [apply steps_DeleteNode | now apply steps_SetError].
    + rewrite CurrentAllocs_SetError, CurrentAllocs_DeleteNode,
        CurrentAllocs_SetTracked. lia.
Qed.

Section Whiles.

Variable loop : list JsonNode -> ptr -> M (list JsonNode * ptr).

Hypothesis loop_post :
  forall this json d this' r d',
    loop this json d = Ok ((this', r), d') -> run_post v this json d this' r d'.

Lemma JsonObject_ParseDeep_while_post this json d this' r d' :
  JsonObject_ParseDeep_while PD loop this json d = Ok ((this', r), d') ->
  run_post v this json d this' r d'.
Proof.
  unfold JsonObject_ParseDeep_while. intros H.
  bind_inv H as c d1 E. apply deref_Ok in E. destruct E as [-> (i & _ & -> & _)].
  destruct (c =? ch ",").
  - bind_inv H as x d1 E. destruct x as [this1 json2].
    apply JsonObject_ParseElement_post in E.
    assert (P := run_post_seq _ _ _ _ _ _ _ _ _ (run_post_advance this i 1 d) E).
    destruct json2 as [q2|];
      [|exit_failed_after P H].
    apply loop_post in H. exact (run_post_seq _ _ _ _ _ _ _ _ _ P H).
  - destruct (c =? ch "}"); [|exit_failed H].
    inv_ret H. apply run_post_advance.
Qed.

Lemma JsonObject_ParseDeep_post this json d this' r d' :
  JsonObject_ParseDeep PD loop this json d = Ok ((this', r), d') ->
  run_post v this json d this' r d'.
Proof.
  unfold JsonObject_ParseDeep. intros H.
  bind_inv H as json1 d1 E. apply (run_post_skip this) in E. destruct E as [-> P].
  destruct json1 as [j|]; [|exit_failed H].
  bind_inv H as c d1 E. apply deref_Ok in E. destruct E as [-> _].
  destruct (c =? NUL);
    [exit_failed_after P H|].
  destruct (c =? ch "}").
  { inv_ret H. exact (run_post_seq _ _ _ _ _ _ _ _ _ P (run_post_advance this j 1 d)). }
  bind_inv H as x d1 E. destruct x as [this1 json2].
  apply JsonObject_ParseElement_post in E. apply loop_post in H.
  exact (run_post_seq _ _ _ _ _ _ _ _ _ (run_post_seq _ _ _ _ _ _ _ _ _ P E) H).
Qed.

Lemma JsonArray_ParseDeep_while_post this json d this' r d' :
  JsonArray_ParseDeep_while NPD loop this json d = Ok ((this', r), d') ->
  run_post v this json d this' r d'.
Proof.
  unfold JsonArray_ParseDeep_while. intros H.
  bind_inv H as c d1 E. apply deref_Ok in E. destruct E as [-> (i & _ & -> & _)].
  destruct (c =? ch ",").
  - bind_inv H as x d1 E. destruct x as [this1 r1]. apply NPD_post in E.
    assert (P := run_post_seq _ _ _ _ _ _ _ _ _ (run_post_advance this i 1 d) E).
    bind_inv H as json2 d2 E2. apply (run_post_skip this1) in E2.
    destruct E2 as [-> E2]. assert (P2 := run_post_seq _ _ _ _ _ _ _ _ _ P E2).
    destruct json2 as [q2|];
      [|exit_failed_after P2 H].
    bind_inv H as c2 d2 E3. apply deref_Ok in E3. destruct E3 as [-> _].
    destruct (c2 =? NUL);
      [exit_failed_after P2 H|].
    apply loop_post in H. exact (run_post_seq _ _ _ _ _ _ _ _ _ P2 H).
  - destruct (c =? ch "]"); [|exit_failed H].
    inv_ret H. apply run_post_advance.
Qed.

Lemma JsonArray_ParseDeep_post this json d this' r d' :
  JsonArray_ParseDeep NPD loop this json d = Ok ((this', r), d') ->
  run_post v this json d this' r d'.
Proof.
  unfold JsonArray_ParseDeep. intros H.
  bind_inv H as json1 d1 E. apply (run_post_skip this) in E. destruct E as [-> P].
  destruct json1 as [j|]; [|exit_failed H].
  bind_inv H as c d1 E. apply deref_Ok in E. destruct E as [-> _].
  destruct (c =? NUL);
    [exit_failed_after P H|].
  destruct (c =? ch "]").
  { inv_ret H. exact (run_post_seq _ _ _ _ _ _ _ _ _ P (run_post_advance this j 1 d)). }
  bind_inv H as x d1 E. destruct x as [this1 r1]. apply NPD_post in E.
  assert (P1 := run_post_seq _ _ _ _ _ _ _ _ _ P E).
  bind_inv H as json2 d2 E2. apply (run_post_skip this1) in E2.
  destruct E2 as [-> E2]. assert (P2 := run_post_seq _ _ _ _ _ _ _ _ _ P1 E2).
  destruct json2 as [q2|].
  - apply loop_post in H. exact (run_post_seq _ _ _ _ _ _ _ _ _ P2 H).
  - inv_ret H. exact P2.
Qed.

End Whiles.

End BodyPosts.

(** ** What every parse routine ensures, for every fuel *)

Lemma node_post_of_run (v : Variant) (mk : list JsonNode -> JsonNode)
    this json d this' r d' :
  (forall cs, pool_of (mk cs) = pool_of (mk []) /\ FirstChildren (mk cs) = cs /\
              is_scalar (mk cs) = false) ->
  run_post v this json d this' r d' ->
  node_post v (mk this) json d (mk this') r d'.
Proof.
  intros Hmk (Hs & Hc & Hb & _).
  destruct (Hmk this) as (Hp1 & Hf1 & Hsc). destruct (Hmk this') as (Hp2 & Hf2 & _).
  split; [exact Hs | split; [|split]].
  - intros q Hq. destruct (Hc q Hq) as (p & Hp & Hle).
    exists p. rewrite Hsc. repeat split; auto; discriminate.
  - rewrite !count_unfold, Hp1, Hp2, Hf1, Hf2. lia.
  - congruence.
Qed.

Lemma node_post_of_leaf (v : Variant) node node' json d r d' :
  pool_of node' = pool_of node ->
  FirstChildren node = [] -> FirstChildren node' = [] ->
  steps d d' ->
  (forall q, r = Some q -> exists p, json = Some p /\ (p < q)%nat) ->
  CurrentAllocs v d' = CurrentAllocs v d ->
  node_post v node json d node' r d'.
Proof.
  intros Hp Hf Hf' Hs Hc Hb. split; [exact Hs | split; [|split]].
  - intros q Hq. destruct (Hc q Hq) as (p & Hjson & Hlt).
    exists p. repeat split; auto; lia.
  - rewrite !count_unfold, Hp, Hf, Hf'. lia.
  - exact Hp.
Qed.

Lemma parse_posts (v : Variant) (fuel : nat) :
  (forall this json d this' r d',
     NodeParseDeep fuel this json d = Ok ((this', r), d') ->
     run_post v this json d this' r d') /\
  (forall node json d node' r d',
     ParseDeep fuel node json d = Ok ((node', r), d') ->
     node_post v node json d node' r d') /\
  (forall this json d this' r d',
     ObjectWhile fuel this json d = Ok ((this', r), d') ->
     run_post v this json d this' r d') /\
  (forall this json d this' r d',
     ArrayWhile fuel this json d = Ok ((this', r), d') ->
     run_post v this json d this' r d').
Proof.
  induction fuel as [|fuel (IHN & IHP & IHO & IHA)].
  { repeat split; intros; discriminate. }
  split; [|split; [|split]].
  - intros this json d this' r d' H. cbn [NodeParseDeep] in H.
    eapply JsonNode_ParseDeep_body_post; [exact IHP | exact IHN | exact H].
  - intros node json d node' r d' H. cbn [ParseDeep] in H.
    destruct node as [t|f i|sp|cs|cs|cs].
    + bind_inv H as x d1 E. destruct x as [t' r1]. inv_ret H.
      destruct (JsonReserved_ParseDeep_Ok v _ _ _ _ _ _ E) as (Hs & Hc & Hb).
      now apply node_post_of_leaf.
    + bind_inv H as x d1 E. destruct x as [[f' i'] r1]. inv_ret H.
      destruct (JsonNumber_ParseDeep_Ok v _ _ _ _ _ _ E) as (Hs & Hc & Hb).
      now apply node_post_of_leaf.
    + bind_inv H as x d1 E. destruct x as [sp' r1]. inv_ret H.
      destruct (JsonString_ParseDeep_Ok v _ _ _ _ _ _ E) as (Hs & Hc & Hb).
      now apply node_post_of_leaf.
    + bind_inv H as x d1 E. destruct x as [cs' r1]. inv_ret H.
      apply (node_post_of_run v JsonElement); [now intros|].
      eapply JsonElement_ParseDeep_post; [exact IHN | exact E].
    + bind_inv H as x d1 E. destruct x as [cs' r1]. inv_ret H.
      apply (node_post_of_run v JsonObject); [now intros|].
      eapply JsonObject_ParseDeep_post; [exact IHP | exact IHO | exact E].
    + bind_inv H as x d1 E. destruct x as [cs' r1]. inv_ret H.
      apply (node_post_of_run v JsonArray); [now intros|].
      eapply JsonArray_ParseDeep_post; [exact IHN | exact IHA | exact E].
  - intros this json d this' r d' H. cbn [ObjectWhile] in H.
    eapply JsonObject_ParseDeep_while_post; [exact IHP | exact IHO | exact H].
  - intros this json d this' r d' H. cbn [ArrayWhile] in H.
    eapply JsonArray_ParseDeep_while_post; [exact IHN | exact IHA | exact H].
Qed.

(** ** The fuel is enough *)

Lemma bind_safe {A B} (m : M A) (k : A -> M B) d :
  m d <> OutOfFuel ->
  (forall a d1, m d = Ok (a, d1) -> k a d1 <> OutOfFuel) ->
  bind m k d <> OutOfFuel.
Proof.
  unfold bind. intros Hm Hk. destruct (m d) as [[a d1]| |]; auto; discriminate.
Qed.

Lemma ret_safe {A} (a : A) d : ret a d <> OutOfFuel.
Proof. discriminate. Qed.

Lemma modify_safe f d : modify f d <> OutOfFuel.
Proof. discriminate. Qed.

Lemma lift_safe {A} (r : result A) d : r <> OutOfFuel -> lift r d <> OutOfFuel.
Proof. destruct r; intros H; try discriminate. now contradiction H. Qed.

Lemma deref_safe p d : deref p d <> OutOfFuel.
Proof.
  unfold deref. destruct p; [|discriminate].
  destruct (_charBuffer d) as [buf|]; [|discriminate].
  destruct (nth_error buf n); discriminate.
Qed.

Lemma bytes_from_safe p d : bytes_from p d <> OutOfFuel.
Proof.
  unfold bytes_from. destruct p; [|discriminate].
  destruct (_charBuffer d) as [buf|]; [|discriminate].
  destruct (skipn n buf); discriminate.
Qed.

Lemma store_safe p c d : store p c d <> OutOfFuel.
Proof.
  unfold store. destruct (_charBuffer d) as [buf|]; [|discriminate].
  destruct (p <? List.length buf)%nat; discriminate.
Qed.

Lemma SkipWhiteSpace_loop_safe rest : forall p, JsonUtil.SkipWhiteSpace_loop rest p <> OutOfFuel.
Proof.
  induction rest as [|c rest IH]; intros p; simpl; [discriminate|].
  destruct (JsonUtil.IsWhiteSpace c); [apply IH | discriminate].
Qed.

Lemma JsonUtil_SkipWhiteSpace_safe mem p : JsonUtil.SkipWhiteSpace mem p <> OutOfFuel.
Proof.
  unfold JsonUtil.SkipWhiteSpace. destruct p as [i|]; [|discriminate].
  pose proof (SkipWhiteSpace_loop_safe (skipn i mem) i) as H.
  destruct (JsonUtil.SkipWhiteSpace_loop (skipn i mem) i); try discriminate.
  now contradiction H.
Qed.

Lemma SkipWhiteSpace_safe p d : SkipWhiteSpace p d <> OutOfFuel.
Proof.
  unfold SkipWhiteSpace. destruct p as [i|]; [|discriminate].
  destruct (_charBuffer d) as [buf|]; [|discriminate].
  apply lift_safe, JsonUtil_SkipWhiteSpace_safe.
Qed.

Lemma strncmp_safe n : forall s1 s2 p, strncmp s1 s2 p n <> OutOfFuel.
Proof.
  induction n as [|n IH]; intros [|c1 r1] s2 p; simpl; try discriminate.
  destruct (c1 =? hd NUL s2); [|discriminate].
  destruct (c1 =? NUL); [discriminate | apply IH].
Qed.

Lemma JsonString_scan_safe (n : nat) :
  forall rest start, (List.length rest <= n)%nat ->
                     JsonString_scan rest start <> OutOfFuel.
Proof.
  induction n as [|n IH]; intros [|c rest] start Hlen; simpl in *;
    try discriminate; try lia.
  destruct ((c =? DQUOTE) || (c =? NUL)); [discriminate|].
  destruct (c =? BACKSLASH).
  - destruct rest as [|c' rest]; [discriminate|].
    destruct n as [|n]; [simpl in Hlen; lia|].
    apply IH. simpl in Hlen. lia.
  - apply IH. lia.
Qed.

Lemma strlen_from_safe s : forall p, strlen_from s p <> OutOfFuel.
Proof.
  induction s as [|c s IH]; intros p; simpl; [discriminate|].
  destruct (c =? NUL); [discriminate | apply IH].
Qed.

Create HintDb safe.

#[local] Hint Resolve ret_safe modify_safe deref_safe bytes_from_safe store_safe
  SkipWhiteSpace_safe lift_safe strncmp_safe : safe.

Ltac safe_bind := apply bind_safe; [solve [auto with safe] | intros].

(** A read of [*json] that cannot run out of fuel and leaves the document. *)
Ltac safe_deref c :=
  let d' := fresh "d" in let E := fresh "E" in
  apply bind_safe; [apply deref_safe|]; intros c d' E;
  apply deref_Ok in E; destruct E as [-> _].

Lemma failed_exit_safe e (this : list JsonNode) d :
  (SetError e None None ;;; ret (this, @None nat)) d <> OutOfFuel.
Proof. discriminate. Qed.

Lemma Identify_safe json d : Identify json d <> OutOfFuel.
Proof.
  unfold Identify. safe_bind. destruct a; [|apply ret_safe].
  safe_bind.
  repeat match goal with
         | |- (if ?b then _ else _) _ <> _ => destruct b
         | |- ret _ _ <> _ => apply ret_safe
         | |- bind _ _ _ <> _ => discriminate
         end.
Qed.

Lemma JsonReserved_ParseDeep_safe t json d :
  JsonReserved_ParseDeep t json d <> OutOfFuel.
Proof.
  unfold JsonReserved_ParseDeep. safe_bind.
  safe_bind. destruct (is_zero a0); [apply ret_safe|].
  safe_bind. destruct (is_zero a1); [apply ret_safe|].
  safe_bind. destruct (is_zero a2); [apply ret_safe | discriminate].
Qed.

Lemma JsonNumber_ParseDeep_safe this json d :
  JsonNumber_ParseDeep this json d <> OutOfFuel.
Proof.
  unfold JsonNumber_ParseDeep. safe_bind. destruct a; [|apply ret_safe].
  safe_bind. destruct (strtod a) as [x len]. cbv beta iota zeta.
  destruct (negb (len =? 0)%nat); [apply ret_safe | discriminate].
Qed.

Lemma JsonString_ParseDeep_safe sp json d :
  JsonString_ParseDeep sp json d <> OutOfFuel.
Proof.
  unfold JsonString_ParseDeep. safe_bind.
  apply bind_safe.
  { apply lift_safe. eapply JsonString_scan_safe. apply le_n. }
  intros p d2 _. safe_bind.
  destruct (a0 =? NUL); [discriminate|].
  safe_bind. apply ret_safe.
Qed.

Section BodyFuel.

(** The callbacks run with fuel [f]; they are safe at the cursors where [f]
    is enough, and ensure the posts above. *)
Variable f : nat.

Hypothesis NPD_safe :
  forall this json d,
    (fuel_NodeParseDeep json d <= f)%nat -> NodeParseDeep f this json d <> OutOfFuel.
Hypothesis PD_safe :
  forall node json d,
    (fuel_ParseDeep node json d <= f)%nat -> ParseDeep f node json d <> OutOfFuel.
Hypothesis OW_safe :
  forall this json d,
    (fuel_While json d <= f)%nat -> ObjectWhile f this json d <> OutOfFuel.
Hypothesis AW_safe :
  forall this json d,
    (fuel_While json d <= f)%nat -> ArrayWhile f this json d <> OutOfFuel.

Lemma run_post_cursor this p d this' r d' :
  run_post VObject this (Some p) d this' r d' ->
  buflen d' = buflen d /\ forall q, r = Some q -> (p <= q)%nat.
Proof.
  intros (Hs & Hc & _). split; [now apply steps_buflen|].
  intros q Hq. destruct (Hc q Hq) as (p0 & Hp0 & Hle). inversion Hp0; subst; lia.
Qed.

Lemma JsonNode_ParseDeep_body_safe this json d :
  (fuel_NodeParseDeep json d <= S f)%nat ->
  JsonNode_ParseDeep_body (ParseDeep f) (NodeParseDeep f) this json d <> OutOfFuel.
Proof.
  intros Hf. unfold JsonNode_ParseDeep_body.
  destruct json as [p|]; [|apply ret_safe].
  safe_bind. apply deref_Ok in H. destruct H as [-> (i & _ & Hi & _ & _ & Hp)].
  inversion Hi; subst i; clear Hi.
  destruct (a =? NUL); [apply ret_safe|].
  apply bind_safe; [apply Identify_safe|]. intros [json1 node] d1 E.
  apply (Identify_Ok VObject) in E. destruct E as [Hs (q1 & -> & Hpq & _ & Hnode)].
  destruct node as [n|]; [|apply ret_safe].
  destruct Hnode as (_ & Hscal & Hfuel).
  unfold fuel_NodeParseDeep in Hf.
  apply bind_safe; [apply PD_safe; lia|]. intros [n' r1] d2 E.
  apply (proj1 (proj2 (parse_posts VObject f))) in E. destruct E as (Hs2 & Hc2 & _).
  safe_bind. apply SkipWhiteSpace_Ok in H. destruct H as [-> Hj].
  destruct a0 as [q2|]; [|discriminate].
  apply bind_safe; [discriminate|]. intros this1 d3 E.
  unfold InsertEndChild in E. bind_inv E as u d4 E'. inv_ret E. inv_modify.
  apply NPD_safe.
  destruct r1 as [q1'|]; [|discriminate].
  destruct Hj as (j & Hj & Hle). inversion Hj; subst j; clear Hj.
  destruct (Hc2 q1' eq_refl) as (p0 & Hp0 & Hle0 & Hlt0).
  inversion Hp0; subst p0; clear Hp0.
  assert (Hlen : buflen (with_pool (pool_of n') MemPool.SetTracked d2) = buflen d).
  { rewrite (steps_buflen _ _ (steps_with_pool _ _ _)).
    rewrite (steps_buflen _ _ Hs2). now apply steps_buflen. }
  assert (Hq2 : (p < q2)%nat).
  { destruct (is_scalar n); [specialize (Hlt0 eq_refl) | specialize (Hscal eq_refl)]; lia. }
  unfold fuel_NodeParseDeep, remaining in *. rewrite Hlen. lia.
Qed.

Lemma JsonElement_ParseDeep_safe this json d :
  (fuel_ParseDeep (JsonElement this) json d <= S f)%nat ->
  JsonElement_ParseDeep (NodeParseDeep f) this json d <> OutOfFuel.
Proof.
  intros Hf. unfold JsonElement_ParseDeep. cbv beta zeta.
  safe_bind. apply deref_Ok in H. destruct H as [-> (p & _ & -> & _ & _ & Hp)].
  destruct (negb (a =? DQUOTE)); [discriminate|].
  unfold fuel_ParseDeep, remaining in Hf.
  apply bind_safe; [apply NPD_safe; unfold fuel_NodeParseDeep, remaining; lia|].
  intros [this1 r1] d1 E. apply (proj1 (parse_posts VObject f)) in E.
  apply run_post_cursor in E. destruct E as [Hlen Hc].
  safe_bind. apply SkipWhiteSpace_Ok in H. destruct H as [-> Hj].
  destruct a0 as [q2|]; [|discriminate].
  destruct r1 as [q1|]; [|discriminate].
  destruct Hj as (j & Hj & Hle). inversion Hj; subst j; clear Hj.
  specialize (Hc q1 eq_refl).
  safe_deref c2. destruct (negb (c2 =? ch ":")); [discriminate|].
  apply bind_safe.
  { apply NPD_safe. unfold fuel_NodeParseDeep, remaining, ptr_add. rewrite Hlen. lia. }
  intros [this2 r2] d3 E. apply bind_safe; [apply SkipWhiteSpace_safe|].
  intros [q3|] d4 _; [apply ret_safe | discriminate].
Qed.

Lemma JsonObject_ParseElement_safe this json d :
  (3 * remaining json d + 3 <= f)%nat ->
  JsonObject_ParseElement (ParseDeep f) this json d <> OutOfFuel.
Proof.
  intros Hf. unfold JsonObject_ParseElement.
  apply bind_safe; [discriminate|]. intros node d1 E.
  unfold CreatElement in E. bind_inv E as u d0 E0. inv_ret E. inv_modify.
  apply bind_safe.
  { apply PD_safe. unfold fuel_ParseDeep, remaining in *.
    rewrite (steps_buflen _ _ (steps_with_pool _ _ _)). exact Hf. }
  intros [node' r1] d2 E. safe_bind. destruct a; discriminate.
Qed.

Lemma JsonObject_ParseDeep_while_safe this json d :
  (fuel_While json d <= S f)%nat ->
  JsonObject_ParseDeep_while (ParseDeep f) (ObjectWhile f) this json d <> OutOfFuel.
Proof.
  intros Hf. unfold JsonObject_ParseDeep_while.
  safe_bind. apply deref_Ok in H. destruct H as [-> (p & _ & -> & _ & _ & Hp)].
  unfold fuel_While, remaining in Hf.
  destruct (a =? ch ",").
  - apply bind_safe.
    { apply JsonObject_ParseElement_safe. unfold remaining, ptr_add. lia. }
    intros [this1 json2] d1 E.
    apply (JsonObject_ParseElement_post VObject _ (proj1 (proj2 (parse_posts VObject f)))) in E.
    apply run_post_cursor in E. destruct E as [Hlen Hc].
    destruct json2 as [q|]; [|discriminate].
    specialize (Hc q eq_refl).
    apply OW_safe. unfold fuel_While, remaining. rewrite Hlen. lia.
  - destruct (a =? ch "}"); [apply ret_safe | discriminate].
Qed.

Lemma JsonObject_ParseDeep_safe this json d :
  (fuel_ParseDeep (JsonObject this) json d <= S f)%nat ->
  JsonObject_ParseDeep (ParseDeep f) (ObjectWhile f) this json d <> OutOfFuel.
Proof.
  intros Hf. unfold JsonObject_ParseDeep.
  safe_bind. apply SkipWhiteSpace_Ok in H. destruct H as [-> Hj].
  destruct a as [j|]; [|discriminate].
  destruct json as [p|]; [|discriminate].
  destruct Hj as (j' & Hj & Hle). inversion Hj; subst j'; clear Hj.
  unfold fuel_ParseDeep, remaining in Hf.
  safe_deref c. destruct (c =? NUL); [discriminate|].
  destruct (c =? ch "}"); [apply ret_safe|].
  apply bind_safe.
  { apply JsonObject_ParseElement_safe. unfold remaining. lia. }
  intros [this1 json2] d2 E.
  apply (JsonObject_ParseElement_post VObject _ (proj1 (proj2 (parse_posts VObject f)))) in E.
  apply run_post_cursor in E. destruct E as [Hlen Hc].
  apply OW_safe. unfold fuel_While, remaining. rewrite Hlen.
  destruct json2 as [q|]; [specialize (Hc q eq_refl)|]; lia.
Qed.

Lemma JsonArray_ParseDeep_while_safe this json d :
  (fuel_While json d <= S f)%nat ->
  JsonArray_ParseDeep_while (NodeParseDeep f) (ArrayWhile f) this json d <> OutOfFuel.
Proof.
  intros Hf. unfold JsonArray_ParseDeep_while.
  safe_bind. apply deref_Ok in H. destruct H as [-> (p & _ & -> & _ & _ & Hp)].
  unfold fuel_While, remaining in Hf.
  destruct (a =? ch ",").
  - apply bind_safe.
    { apply NPD_safe. unfold fuel_NodeParseDeep, remaining, ptr_add. lia. }
    intros [this1 r1] d1 E. apply (proj1 (parse_posts VObject f)) in E.
    apply run_post_cursor in E. destruct E as [Hlen Hc].
    safe_bind. apply SkipWhiteSpace_Ok in H. destruct H as [-> Hj].
    destruct a0 as [q2|]; [|discriminate].
    destruct r1 as [q1|]; [|discriminate].
    destruct Hj as (j & Hj & Hle). inversion Hj; subst j; clear Hj.
    specialize (Hc q1 eq_refl).
    safe_deref c2. destruct (c2 =? NUL); [discriminate|].
    apply AW_safe. unfold fuel_While, remaining. rewrite Hlen. lia.
  - destruct (a =? ch "]"); [apply ret_safe | discriminate].
Qed.

Lemma JsonArray_ParseDeep_safe this json d :
  (fuel_ParseDeep (JsonArray this) json d <= S f)%nat ->
  JsonArray_ParseDeep (NodeParseDeep f) (ArrayWhile f) this json d <> OutOfFuel.
Proof.
  intros Hf. unfold JsonArray_ParseDeep.
  safe_bind. apply SkipWhiteSpace_Ok in H. destruct H as [-> Hj].
  destruct a as [j|]; [|discriminate].
  destruct json as [p|]; [|discriminate].
  destruct Hj as (j' & Hj & Hle). inversion Hj; subst j'; clear Hj.
  unfold fuel_ParseDeep, remaining in Hf.
  safe_deref c. destruct (c =? NUL); [discriminate|].
  destruct (c =? ch "]"); [apply ret_safe|].
  apply bind_safe.
  { apply NPD_safe. unfold fuel_NodeParseDeep, remaining. lia. }
  intros [this1 r1] d2 E. apply (proj1 (parse_posts VObject f)) in E.
  apply run_post_cursor in E. destruct E as [Hlen Hc].
  safe_bind. apply SkipWhiteSpace_Ok in H. destruct H as [-> Hj].
  destruct a as [q2|]; [|apply ret_safe].
  destruct r1 as [q1|]; [|discriminate].
  destruct Hj as (j' & Hj & Hle'). inversion Hj; subst j'; clear Hj.
  specialize (Hc q1 eq_refl).
  apply AW_safe. unfold fuel_While, remaining. rewrite Hlen. lia.
Qed.

End BodyFuel.

Lemma fuel_suffices (fuel : nat) :
  (forall this json d,
     (fuel_NodeParseDeep json d <= fuel)%nat ->
     NodeParseDeep fuel this json d <> OutOfFuel) /\
  (forall node json d,
     (fuel_ParseDeep node json d <= fuel)%nat ->
     ParseDeep fuel node json d <> OutOfFuel) /\
  (forall this json d,
     (fuel_While json d <= fuel)%nat -> ObjectWhile fuel this json d <> OutOfFuel) /\
  (forall this json d,
     (fuel_While json d <= fuel)%nat -> ArrayWhile fuel this json d <> OutOfFuel).
Proof.
  induction fuel as [|f (IHN & IHP & IHO & IHA)].
  { repeat split; intros; unfold fuel_NodeParseDeep, fuel_While in *;
      try lia. destruct node; simpl in *; lia. }
  split; [|split; [|split]].
  - intros this json d Hf. cbn [NodeParseDeep].
    now apply JsonNode_ParseDeep_body_safe.
  - intros node json d Hf. cbn [ParseDeep].
    destruct node as [t|x i|sp|cs|cs|cs].
    + apply bind_safe; [apply JsonReserved_ParseDeep_safe|].
      intros [t' r] d1 _. apply ret_safe.
    + apply bind_safe; [apply JsonNumber_ParseDeep_safe|].
      intros [[x' i'] r] d1 _. apply ret_safe.
    + apply bind_safe; [apply JsonString_ParseDeep_safe|].
      intros [sp' r] d1 _. apply ret_safe.
    + apply bind_safe; [now apply JsonElement_ParseDeep_safe|].
      intros [cs' r] d1 _. apply ret_safe.
    + apply bind_safe; [now apply JsonObject_ParseDeep_safe|].
      intros [cs' r] d1 _. apply ret_safe.
    + apply bind_safe; [now apply JsonArray_ParseDeep_safe|].
      intros [cs' r] d1 _. apply ret_safe.
  - intros this json d Hf. cbn [ObjectWhile].
    now apply JsonObject_ParseDeep_while_safe.
  - intros this json d Hf. cbn [ArrayWhile].
    now apply JsonArray_ParseDeep_while_safe.
Qed.

(** ** Parse *)

(** The three ways [Parse] returns: an empty document reported before or
    after the buffer is made, or the run of [JsonNode::ParseDeep] over the
    buffer. *)
Lemma Parse_Ok json len d0 e d :
  Parse json len d0 = Ok (e, d) ->
  e = _errorID d /\
  (d = SetError_doc JSON_ERROR_EMPTY_DOCUMENT None None (Parse_cleared d0) \/
   (exists mem n buf,
      json = Some mem /\ Parse_length mem len = Ok n /\ copy_buffer mem n = Ok buf /\
      d = SetError_doc JSON_ERROR_EMPTY_DOCUMENT None None (Parse_entry d0 buf)) \/
   (exists mem n buf this r d',
      json = Some mem /\ Parse_length mem len = Ok n /\ copy_buffer mem n = Ok buf /\
      NodeParseDeep (parse_fuel buf) [] (Some O) (Parse_entry d0 buf)
        = Ok ((this, r), d') /\
      d = with_children this d')).
Proof.
  unfold Parse. intros H.
  bind_inv H as u d1 E. apply modify_Ok in E. subst d1.
  bind_inv H as u1 d1 E. apply modify_Ok in E. subst d1.
  fold (Parse_cleared d0) in H.
  assert (Hret : forall d1 : JsonDocument,
             (fun d2 : JsonDocument => Ok (_errorID d2, d2)) d1 = Ok (e, d) ->
             e = _errorID d /\ d = d1).
  { intros d1 H1. inversion H1; subst; auto. }
  destruct json as [mem|].
  2:{ bind_inv H as u2 d1 E. apply modify_Ok in E. subst d1.
      apply Hret in H. destruct H as [-> ->]. auto. }
  bind_inv H as c d1 E. apply lift_Ok in E. destruct E as [_ ->].
  destruct (c =? NUL).
  { bind_inv H as u2 d1 E. apply modify_Ok in E. subst d1.
    apply Hret in H. destruct H as [-> ->]. auto. }
  bind_inv H as n d1 E. apply lift_Ok in E. destruct E as [Hn ->].
  bind_inv H as buf d1 E. apply lift_Ok in E. destruct E as [Hbuf ->].
  bind_inv H as u2 d1 E. apply modify_Ok in E. subst d1.
  fold (Parse_entry d0 buf) in H.
  bind_inv H as j d1 E. apply lift_Ok in E. destruct E as [_ ->].
  bind_inv H as c2 d1 E. apply lift_Ok in E. destruct E as [_ ->].
  destruct (c2 =? NUL).
  { bind_inv H as u3 d1 E. apply modify_Ok in E. subst d1.
    apply Hret in H. destruct H as [-> ->].
    split; [reflexivity|]. right; left. exists mem, n, buf. auto. }
  bind_inv H as x d1 E. destruct x as [this r].
  bind_inv H as u3 d2 E'. apply modify_Ok in E'. subst d2.
  apply Hret in H. destruct H as [-> ->].
  split; [reflexivity|]. right; right. exists mem, n, buf, this, r, d1. auto.
Qed.

(** [Parse] never runs out of fuel: whenever the model does not return,
    the code has dereferenced [nullptr] or read outside a buffer. *)
Lemma Parse_fuel_suffices json len d0 : Parse json len d0 <> OutOfFuel.
Proof.
  unfold Parse.
  apply bind_safe; [discriminate|]. intros u d1 _.
  apply bind_safe; [discriminate|]. intros u1 d2 _.
  destruct json as [mem|]; [|discriminate].
  apply bind_safe.
  { apply lift_safe. unfold read_mem. destruct (nth_error mem 0); discriminate. }
  intros c d3 _. destruct (c =? NUL); [discriminate|].
  apply bind_safe.
  { apply lift_safe. destruct len; [discriminate | apply strlen_from_safe]. }
  intros n d4 _. apply bind_safe.
  { apply lift_safe. unfold copy_buffer.
    destruct (n <=? List.length mem)%nat; discriminate. }
  intros buf d5 _. apply bind_safe; [discriminate|]. intros u2 d6 E.
  apply modify_Ok in E. subst d6.
  apply bind_safe; [apply lift_safe, JsonUtil_SkipWhiteSpace_safe|]. intros j d7 E.
  apply lift_Ok in E. destruct E as [_ ->].
  apply bind_safe.
  { apply lift_safe. unfold read_mem.
    destruct (nth_error mem match j with Some i => i | None => 0%nat end); discriminate. }
  intros c2 d8 E. apply lift_Ok in E. destruct E as [_ ->].
  destruct (c2 =? NUL); [discriminate|].
  apply bind_safe.
  { apply (proj1 (fuel_suffices (parse_fuel buf))).
    unfold fuel_NodeParseDeep, remaining, buflen, parse_fuel.
    destruct d5; simpl. lia. }
  intros [this r] d9 _. discriminate.
Qed.

(** ** The error slot along [steps] *)

Lemma parse_error_not_NO e : parse_error e = true -> e <> JSON_NO_ERROR.
Proof. intros H ->. discriminate. Qed.

Lemma SetError_first_error_wins e s1 s2 d :
  e <> JSON_NO_ERROR ->
  first_error_wins d -> first_error_wins (SetError_doc e s1 s2 d).
Proof.
  destruct d as [cs e0 a b buf po pa pe pn ps pr log].
  unfold first_error_wins; simpl. intros He [Hhd Hall].
  assert (Hall' : Forall (fun e => e <> JSON_NO_ERROR) (log ++ [e])).
  { apply Forall_app; split; [assumption | constructor; [assumption | constructor]]. }
  destruct log as [|e1 log]; simpl in *.
  - subst e0. simpl. auto.
  - subst e0. inversion Hall; subst.
    destruct e1; simpl; try (split; [reflexivity | assumption]).
    now contradiction H1.
Qed.

Lemma steps_first_error_wins d d' :
  steps d d' -> first_error_wins d -> first_error_wins d'.
Proof.
  induction 1 as [d|v f d d' _ IH|e d d' He _ IH|p buf d d' Hb Hp _ IH]; intros Hd.
  - exact Hd.
  - apply IH. destruct d, v; exact Hd.
  - apply IH. apply SetError_first_error_wins; [now apply parse_error_not_NO | exact Hd].
  - apply IH. destruct d; exact Hd.
Qed.

Lemma steps_error_kept d d' :
  steps d d' -> _errorID d <> JSON_NO_ERROR -> error_slot d' = error_slot d.
Proof.
  induction 1 as [d|v f d d' _ IH|e d d' He _ IH|p buf d d' Hb Hp _ IH]; intros Hd.
  - reflexivity.
  - rewrite IH; destruct d, v; auto.
  - pose proof (SetError_doc_kept e None None d Hd) as Hk.
    rewrite IH; [exact Hk|].
    unfold error_slot in Hk. inversion Hk as [[H1 H2 H3]]. now rewrite H1.
  - rewrite IH; destruct d; auto.
Qed.

Lemma steps_errorID d d' :
  steps d d' -> _errorID d' = _errorID d \/ parse_error (_errorID d') = true.
Proof.
  induction 1 as [d|v f d d' _ IH|e d d' He _ IH|p buf d d' Hb Hp _ IH].
  - now left.
  - destruct IH as [IH|IH]; [left | now right]. rewrite IH. destruct d, v; reflexivity.
  - destruct IH as [IH|IH]; [|now right]. rewrite IH.
    destruct d as [cs e0 a b bf po pa pe pn ps pr log].
    destruct e0; simpl; auto.
  - destruct IH as [IH|IH]; [left | now right]. rewrite IH. destruct d; reflexivity.
Qed.

Lemma Parse_cleared_first_error_wins d0 : first_error_wins (Parse_cleared d0).
Proof.
  unfold Parse_cleared, first_error_wins.
  destruct (with_children [] (DeleteChildren_pools (doc_children d0) d0)); simpl.
  split; [reflexivity | constructor].
Qed.

(** ** First error wins *)

(** C7.  Once the error slot holds a code other than JSON_NO_ERROR, a call
    of SetError leaves the code and both context strings as they are, while
    on an empty slot it records its arguments; no run of
    JsonNode::ParseDeep changes a slot that holds an error; and the status
    a Parse call returns is the document's error code, which is the first
    code SetError was called with during that call (JSON_NO_ERROR when it
    was never called). *)
Theorem C7_first_error_wins :
  (forall d error str1 str2,
     _errorID d <> JSON_NO_ERROR ->
     _errorID (SetError_doc error str1 str2 d) = _errorID d /\
     _errorStr1 (SetError_doc error str1 str2 d) = _errorStr1 d /\
     _errorStr2 (SetError_doc error str1 str2 d) = _errorStr2 d) /\
  (forall d error str1 str2,
     _errorID d = JSON_NO_ERROR ->
     error_slot (SetError_doc error str1 str2 d) = (error, str1, str2)) /\
  (forall fuel this json d this' r d',
     NodeParseDeep fuel this json d = Ok ((this', r), d') ->
     _errorID d <> JSON_NO_ERROR ->
     error_slot d' = error_slot d) /\
  (forall json len d0 e d,
     Parse json len d0 = Ok (e, d) ->
     e = _errorID d /\ e = hd JSON_NO_ERROR (SetError_calls d)).
Proof.
  split; [|split; [|split]].
  - intros d error str1 str2 H.
    pose proof (SetError_doc_kept error str1 str2 d H) as Hk.
    unfold error_slot in Hk. inversion Hk as [[H1 H2 H3]]. auto.
  - intros d error str1 str2 H. now apply SetError_doc_set.
  - intros fuel this json d this' r d' H Hd.
    apply (proj1 (parse_posts VObject _)) in H. destruct H as (Hs & _).
    now apply steps_error_kept.
  - intros json len d0 e d H.
    apply Parse_Ok in H. destruct H as [-> H]. split; [reflexivity|].
    pose proof (Parse_cleared_first_error_wins d0) as Hc.
    assert (Hentry : forall buf, first_error_wins (Parse_entry d0 buf)).
    { intros buf. unfold Parse_entry. destruct (Parse_cleared d0); exact Hc. }
    enough (first_error_wins d) as [Hd _] by exact Hd.
    destruct H as [-> | [(mem & n & buf & _ & _ & _ & ->) |
                         (mem & n & buf & this & r & d' & _ & _ & _ & Hrun & ->)]].
    + apply SetError_first_error_wins; [discriminate | exact Hc].
    + apply SetError_first_error_wins; [discriminate | apply Hentry].
    + apply (proj1 (parse_posts VObject _)) in Hrun. destruct Hrun as (Hs & _).
      apply steps_first_error_wins in Hs; [|apply Hentry].
      destruct d'; exact Hs.
Qed.

(** On [[] n] the calls of SetError are JSON_ERROR_PARSING_RESERVED, by the
    literal, then JSON_ERROR_PARSING, by the loop: the first is returned. *)
Lemma C7_first_error_wins_witness :
  JSON_ERROR_PARSING_RESERVED = JSON_ERROR_PARSING_RESERVED /\
  JSON_ERROR_PARSING_RESERVED
  = hd JSON_NO_ERROR [JSON_ERROR_PARSING_RESERVED; JSON_ERROR_PARSING].
Proof.
  refine (proj2 (proj2 (proj2 C7_first_error_wins))
            (Some (cstr "[] n" ++ [NUL])) None
            JsonDocument_new JSON_ERROR_PARSING_RESERVED
            (mkJsonDocument [JsonArray []] JSON_ERROR_PARSING_RESERVED None None
               (Some (cstr "[] n" ++ [NUL]))
               MemPool.init (mkMemPoolT 1 1 1 0) MemPool.init MemPool.init
               MemPool.init (mkMemPoolT 0 1 1 0)
               [JSON_ERROR_PARSING_RESERVED; JSON_ERROR_PARSING]) _).
  vm_compute. reflexivity.
Defined.

(** ** No allocation is leaked *)

Lemma no_leak_new : no_leak JsonDocument_new.
Proof. intros []; reflexivity. Qed.

Lemma CurrentAllocs_Parse_cleared v d0 :
  no_leak d0 -> CurrentAllocs v (Parse_cleared d0) = 0.
Proof.
  intros H. unfold Parse_cleared.
  rewrite CurrentAllocs_InitDocument, CurrentAllocs_with_children,
    CurrentAllocs_DeleteChildren, (H v). lia.
Qed.

Lemma doc_children_Parse_cleared d0 : doc_children (Parse_cleared d0) = [].
Proof.
  unfold Parse_cleared.
  destruct (DeleteChildren_pools (doc_children d0) d0); reflexivity.
Qed.

Lemma doc_children_SetError e s1 s2 d :
  doc_children (SetError_doc e s1 s2 d) = doc_children d.
Proof.
  destruct d as [cs e0 a b bf po pa pe pn ps pr log]; destruct e0; reflexivity.
Qed.

Lemma doc_children_with_buffer buf d :
  doc_children (with_buffer buf d) = doc_children d.
Proof. destruct d; reflexivity. Qed.

Lemma doc_children_with_children cs d : doc_children (with_children cs d) = cs.
Proof. destruct d; reflexivity. Qed.

(** C3, amended.  After a Parse call that returns, and so after every call
    that fails on a malformed input, made on a document whose pools hold
    the nodes of its tree and nothing else (a new document, or one left by
    an earlier Parse), the live-allocation count of the pool of each class
    is the number of nodes of that class linked in the document's tree:
    every node allocated for the failing value has been freed.  The counts
    are all zero when the tree is left empty. *)
Theorem C3_live_allocations_are_the_tree :
  forall json len d0 e d,
    no_leak d0 ->
    Parse json len d0 = Ok (e, d) ->
    (forall v, CurrentAllocs v d = count_list v (doc_children d)) /\
    (doc_children d = [] -> forall v, CurrentAllocs v d = 0).
Proof.
  intros json len d0 e d Hd0 H.
  assert (Hleak : forall v, CurrentAllocs v d = count_list v (doc_children d)).
  { intros v. apply Parse_Ok in H. destruct H as [_ H].
    destruct H as [-> | [(mem & n & buf & _ & _ & _ & ->) |
                         (mem & n & buf & this & r & d' & _ & _ & _ & Hrun & ->)]].
    - rewrite CurrentAllocs_SetError, doc_children_SetError,
        doc_children_Parse_cleared.
      now apply CurrentAllocs_Parse_cleared.
    - unfold Parse_entry.
      rewrite CurrentAllocs_SetError, doc_children_SetError,
        CurrentAllocs_with_buffer, doc_children_with_buffer,
        doc_children_Parse_cleared.
      now apply CurrentAllocs_Parse_cleared.
    - apply (proj1 (parse_posts v _)) in Hrun. destruct Hrun as (_ & _ & Hb & _).
      unfold Parse_entry in Hb. rewrite CurrentAllocs_with_buffer in Hb.
      rewrite (CurrentAllocs_Parse_cleared v d0 Hd0) in Hb. simpl in Hb.
      rewrite CurrentAllocs_with_children, doc_children_with_children. lia. }
  split; [exact Hleak|].
  intros Hnil v. rewrite Hleak, Hnil. reflexivity.
Qed.

(** On [1 -] the Number that stays in the tree is the one live allocation. *)
Lemma C3_live_allocations_are_the_tree_witness :
  let d :=
    mkJsonDocument
      [JsonNumber (float_strtod (cstr "1")) (int_of_float (float_strtod (cstr "1")))]
      JSON_ERROR_OBJECT_MISMATCH None None (Some (cstr "1 -" ++ [NUL]))
      MemPool.init MemPool.init MemPool.init (mkMemPoolT 1 2 2 0)
      MemPool.init MemPool.init
      [JSON_ERROR_OBJECT_MISMATCH; JSON_ERROR_PARSING] in
  CurrentAllocs VNumber d = count_list VNumber (doc_children d).
Proof.
  intros d.
  refine (proj1 (C3_live_allocations_are_the_tree
                   (Some (cstr "1 -" ++ [NUL])) None JsonDocument_new
                   JSON_ERROR_OBJECT_MISMATCH d _ _) VNumber).
  - intros []; reflexivity.
  - vm_compute. reflexivity.
Defined.

(** ** What is left of the tree after a failure *)

Lemma errorID_SetError_not_NO e s1 s2 d :
  e <> JSON_NO_ERROR -> _errorID (SetError_doc e s1 s2 d) <> JSON_NO_ERROR.
Proof.
  destruct d as [cs e0 a b bf po pa pe pn ps pr log]; intros He.
  destruct e0; simpl; try discriminate. exact He.
Qed.

Lemma errorID_Parse_entry d0 buf : _errorID (Parse_entry d0 buf) = JSON_NO_ERROR.
Proof.
  unfold Parse_entry, Parse_cleared.
  destruct (with_children [] (DeleteChildren_pools (doc_children d0) d0)); reflexivity.
Qed.

Lemma errorID_Parse_cleared d0 : _errorID (Parse_cleared d0) = JSON_NO_ERROR.
Proof.
  unfold Parse_cleared.
  destruct (with_children [] (DeleteChildren_pools (doc_children d0) d0)); reflexivity.
Qed.

Lemma errorID_with_children cs d : _errorID (with_children cs d) = _errorID d.
Proof. destruct d; reflexivity. Qed.

(** At the terminating NUL, Identify finds no value. *)
Lemma Identify_at_NUL json d :
  deref json d = Ok (NUL, d) -> Identify json d = Ok ((json, None), d).
Proof.
  intros H. pose proof H as H'. apply deref_Ok in H'.
  destruct H' as [_ (i & buf & -> & Hbuf & Hnth & _)].
  unfold Identify, bind.
  replace (SkipWhiteSpace (Some i) d) with (@Ok (ptr * JsonDocument) (Some i, d)).
  - rewrite H. reflexivity.
  - unfold SkipWhiteSpace, JsonUtil.SkipWhiteSpace, lift. rewrite Hbuf.
    rewrite (SkipWhiteSpace_run buf i NUL Hnth eq_refl 0 i); [reflexivity | lia |].
    intros j Hj; lia.
Qed.

(** C2, amended.  When Parse returns JSON_ERROR_EMPTY_DOCUMENT the Document
    has no top-level children; and when the first top-level value is the
    one that fails (Identify finds a value at the start of the buffer and
    its ParseDeep returns a null cursor), Parse returns a status other than
    JSON_NO_ERROR and the Document has no top-level children.  A run of
    JsonNode::ParseDeep, failing or not, only appends to the child chain it
    works on: the values linked before a failure stay linked. *)
Theorem C2_tree_empty_when_first_value_fails :
  (forall json len d0 e d,
     Parse json len d0 = Ok (e, d) ->
     (e = JSON_ERROR_EMPTY_DOCUMENT -> doc_children d = []) /\
     (forall mem n buf q node node' d1 d2,
        json = Some mem ->
        Parse_length mem len = Ok n ->
        copy_buffer mem n = Ok buf ->
        Identify (Some O) (Parse_entry d0 buf) = Ok ((Some q, Some node), d1) ->
        ParseDeep (parse_fuel buf - 1) node (Some q) d1 = Ok ((node', None), d2) ->
        e <> JSON_NO_ERROR /\ doc_children d = [])) /\
  (forall fuel this json d this' r d',
     NodeParseDeep fuel this json d = Ok ((this', r), d') ->
     exists added, this' = this ++ added).
Proof.
  split.
  2:{ intros fuel this json d this' r d' H.
      apply (proj1 (parse_posts VObject _)) in H. now destruct H as (_ & _ & _ & H). }
  intros json len d0 e d H. apply Parse_Ok in H. destruct H as [-> H].
  destruct H as [-> | [(mem & n & buf & _ & _ & _ & ->) |
                       (mem & n & buf & this & r & d' & Hjson & Hn & Hbuf & Hrun & ->)]].
  - rewrite doc_children_SetError, doc_children_Parse_cleared.
    split; [reflexivity|]. intros. split; [|reflexivity].
    apply errorID_SetError_not_NO. discriminate.
  - unfold Parse_entry.
    rewrite doc_children_SetError, doc_children_with_buffer,
      doc_children_Parse_cleared.
    split; [reflexivity|]. intros. split; [|reflexivity].
    apply errorID_SetError_not_NO. discriminate.
  - rewrite errorID_with_children, doc_children_with_children. split.
    + intros He. exfalso.
      apply (proj1 (parse_posts VObject _)) in Hrun. destruct Hrun as (Hs & _).
      apply steps_errorID in Hs. rewrite errorID_Parse_entry, He in Hs.
      destruct Hs as [Hs|Hs]; discriminate.
    + intros mem0 n0 buf0 q node node' d1 d2 Hjson0 Hn0 Hbuf0 Hid Hpd.
      rewrite Hjson in Hjson0. inversion Hjson0; subst mem0; clear Hjson0.
      rewrite Hn in Hn0. inversion Hn0; subst n0; clear Hn0.
      rewrite Hbuf in Hbuf0. inversion Hbuf0; subst buf0; clear Hbuf0.
      replace (parse_fuel buf) with (S (parse_fuel buf - 1)) in Hrun
        by (unfold parse_fuel; lia).
      cbn [NodeParseDeep] in Hrun. unfold JsonNode_ParseDeep_body in Hrun.
      bind_inv Hrun as c d3 E. pose proof E as E'.
      apply deref_Ok in E'. destruct E' as [-> _].
      destruct (Z.eqb_spec c NUL) as [Hc|Hc].
      { subst c. rewrite (Identify_at_NUL _ _ E) in Hid. discriminate. }
      unfold bind in Hrun at 1. rewrite Hid in Hrun.
      unfold bind in Hrun at 1. rewrite Hpd in Hrun.
      bind_inv Hrun as j d3 E2. apply SkipWhiteSpace_Ok in E2.
      destruct E2 as [-> ->].
      minv Hrun. inv_ret Hrun. inv_modify.
      split; [|reflexivity].
      apply errorID_SetError_not_NO. discriminate.
Qed.

(** On the text [n] the first value is a Reserved whose ParseDeep fails:
    the status is JSON_ERROR_PARSING_RESERVED and the tree is empty. *)
Lemma C2_tree_empty_when_first_value_fails_witness :
  let d :=
    mkJsonDocument [] JSON_ERROR_PARSING_RESERVED None None
      (Some (cstr "n" ++ [NUL]))
      MemPool.init MemPool.init MemPool.init MemPool.init MemPool.init
      (mkMemPoolT 0 1 1 0)
      [JSON_ERROR_PARSING_RESERVED; JSON_ERROR_PARSING] in
  JSON_ERROR_PARSING_RESERVED <> JSON_NO_ERROR /\ doc_children d = [].
Proof.
  intros d.
  refine (proj2 (proj1 C2_tree_empty_when_first_value_fails
                   (Some (cstr "n" ++ [NUL])) None JsonDocument_new
                   JSON_ERROR_PARSING_RESERVED d _)
                (cstr "n" ++ [NUL]) 1%nat (cstr "n" ++ [NUL]) O
                (JsonReserved JsonReserved.RESERVED)
                (JsonReserved JsonReserved.RESERVED)
                (with_pool VReserved MemPool.Alloc
                   (Parse_entry JsonDocument_new (cstr "n" ++ [NUL])))
                (SetError_doc JSON_ERROR_PARSING_RESERVED None None
                   (with_pool VReserved MemPool.Alloc
                      (Parse_entry JsonDocument_new (cstr "n" ++ [NUL]))))
                _ _ _ _ _);
    vm_compute; reflexivity.
Defined.

(** ** A number without digits *)

(** C9.  When strtod converts nothing at the cursor of JsonNumber::ParseDeep
    (it consumes zero characters), the routine returns a null cursor after
    calling SetError with JSON_ERROR_OBJECT_MISMATCH, which becomes the
    document's error code when none was recorded before; so Parse of the
    text [-] returns JSON_ERROR_OBJECT_MISMATCH, not
    JSON_ERROR_PARSING_NUMBER. *)
Theorem C9_number_without_digits :
  forall this json d p s,
    SkipWhiteSpace json d = Ok (Some p, d) ->
    bytes_from (Some p) d = Ok (s, d) ->
    snd (strtod s) = 0%nat ->
    JsonNumber_ParseDeep this json d
      = Ok ((this, None), SetError_doc JSON_ERROR_OBJECT_MISMATCH None None d) /\
    (_errorID d = JSON_NO_ERROR ->
     _errorID (SetError_doc JSON_ERROR_OBJECT_MISMATCH None None d)
       = JSON_ERROR_OBJECT_MISMATCH) /\
    status (ParseText (cstr "-")) = Some JSON_ERROR_OBJECT_MISMATCH.
Proof.
  intros this json d p s Hskip Hbytes Hlen. split; [|split].
  - unfold JsonNumber_ParseDeep, bind. rewrite Hskip, Hbytes.
    destruct (strtod s) as [n len]. simpl in Hlen. subst len. reflexivity.
  - intros H. destruct d; simpl in *. subst. reflexivity.
  - vm_compute. reflexivity.
Qed.

(** In a buffer holding a lone minus sign, strtod consumes nothing. *)
Lemma C9_number_without_digits_witness :
  JsonNumber_ParseDeep (float_zero, int_zero) (Some O)
    (with_buffer (Some (cstr "-" ++ [NUL])) JsonDocument_new)
  = Ok ((float_zero, int_zero, None),
        SetError_doc JSON_ERROR_OBJECT_MISMATCH None None
          (with_buffer (Some (cstr "-" ++ [NUL])) JsonDocument_new)).
Proof.
  refine (proj1 (C9_number_without_digits (float_zero, int_zero) (Some O)
                   (with_buffer (Some (cstr "-" ++ [NUL])) JsonDocument_new)
                   O (cstr "-" ++ [NUL]) _ _ _));
    vm_compute; reflexivity.
Defined.

(** * Further properties of the code *)

(** ** Frames: what the pool operations and SetError leave alone *)

Lemma same_but_pools_refl d : same_but_pools d d.
Proof. repeat split. Qed.

Lemma same_but_pools_trans a b c :
  same_but_pools a b -> same_but_pools b c -> same_but_pools a c.
Proof.
  intros (A1 & A2 & A3 & A4) (B1 & B2 & B3 & B4).
  repeat split; congruence.
Qed.

Lemma same_but_pools_with_pool v f d : same_but_pools d (with_pool v f d).
Proof. destruct d, v; repeat split. Qed.

Lemma same_but_pools_DeleteNode (node : JsonNode) :
  forall d, same_but_pools d (DeleteNode_pools node d).
Proof.
  induction node as [t|f i|sp|cs IH|cs IH|cs IH] using JsonNode_tree_ind; intros d;
    rewrite DeleteNode_pools_unfold; cbn [FirstChildren pool_of];
    try apply same_but_pools_with_pool.
  all: eapply same_but_pools_trans; [|apply same_but_pools_with_pool].
  all: revert d; induction IH as [|c cs Hc _ IHcs]; intros d;
    [apply same_but_pools_refl | cbn [DeleteChildren_pools fold_left]].
  all: fold (DeleteChildren_pools cs (DeleteNode_pools c d));
    eapply same_but_pools_trans; [apply Hc | apply IHcs].
Qed.

Lemma quotes_to_nul_refl d : quotes_to_nul d d.
Proof. split; [reflexivity | intros i; now left]. Qed.

Lemma quotes_to_nul_trans a b c :
  quotes_to_nul a b -> quotes_to_nul b c -> quotes_to_nul a c.
Proof.
  intros [L1 H1] [L2 H2]. split; [congruence|].
  intros i. destruct (H1 i) as [E1|[E1 E1']], (H2 i) as [E2|[E2 E2']].
  - left; congruence.
  - right; split; congruence.
  - right; split; congruence.
  - rewrite E1' in E2. discriminate.
Qed.

Lemma quiet_refl d : quiet d d.
Proof. split; reflexivity. Qed.

Lemma quiet_trans a b c : quiet a b -> quiet b c -> quiet a c.
Proof. intros [A1 A2] [B1 B2]. split; congruence. Qed.

Lemma same_but_pools_quotes d d' : same_but_pools d d' -> quotes_to_nul d d'.
Proof.
  intros (_ & Hb & _ & _). unfold quotes_to_nul, buflen, byte_at. rewrite Hb.
  split; [reflexivity | intros i; now left].
Qed.

Lemma same_but_pools_quiet d d' : same_but_pools d d' -> quiet d d'.
Proof. intros (_ & _ & He & Hc). split; assumption. Qed.

Lemma same_but_pools_errorID d d' : same_but_pools d d' -> _errorID d' = _errorID d.
Proof.
  intros (_ & _ & He & _). unfold error_slot in He. now inversion He.
Qed.

Lemma charBuffer_SetError e s1 s2 d :
  _charBuffer (SetError_doc e s1 s2 d) = _charBuffer d.
Proof.
  destruct d as [cs e0 a b bf po pa pe pn ps pr log]; destruct e0; reflexivity.
Qed.

Lemma quotes_to_nul_SetError e s1 s2 d : quotes_to_nul d (SetError_doc e s1 s2 d).
Proof.
  unfold quotes_to_nul, buflen, byte_at. rewrite charBuffer_SetError.
  split; [reflexivity | intros i; now left].
Qed.

Lemma nth_error_list_set (l : list Z) (p : nat) (v : Z) :
  forall i, nth_error (list_set l p v) i
            = if (i =? p)%nat then option_map (fun _ => v) (nth_error l i)
              else nth_error l i.
Proof.
  revert p; induction l as [|x l IH]; intros [|p] [|i]; simpl; auto.
  all: try (destruct (i =? p)%nat; destruct i; reflexivity).
Qed.

Lemma length_list_set (l : list Z) (p : nat) (v : Z) :
  List.length (list_set l p v) = List.length l.
Proof.
  revert p; induction l as [|x l IH]; intros [|p]; simpl; auto.
Qed.

(** The one store of the parser: a NUL over a double quote. *)
Lemma quotes_to_nul_store p buf d :
  _charBuffer d = Some buf ->
  nth_error buf p = Some DQUOTE ->
  quotes_to_nul d (with_buffer (Some (list_set buf p NUL)) d).
Proof.
  intros Hb Hp. unfold quotes_to_nul, buflen, byte_at.
  destruct d; simpl in *. subst. split; [apply length_list_set|].
  intros i. rewrite nth_error_list_set.
  destruct (Nat.eqb_spec i p) as [->|Hne]; [|now left].
  right. rewrite Hp. split; reflexivity.
Qed.

Lemma same_but_errors_store p buf v d :
  let d' := with_buffer (Some (list_set buf p v)) d in
  quiet d d' /\ _errorID d' = _errorID d.
Proof. destruct d; repeat split. Qed.

(** ** Flows *)

Lemma flow_refl json d : flow json d json d.
Proof.
  split; [apply quotes_to_nul_refl | split; [|split]]; auto using quiet_refl.
Qed.

Lemma flow_seq json d r1 d1 r d' :
  flow json d r1 d1 -> flow r1 d1 r d' -> flow json d r d'.
Proof.
  intros (Q1 & S1 & K1 & F1) (Q2 & S2 & K2 & F2).
  split; [eapply quotes_to_nul_trans; eassumption | split; [|split]].
  - intros Hr. destruct (S2 Hr) as [Hr1 Hq2]. destruct (S1 Hr1) as [Hj Hq1].
    split; [assumption | eapply quiet_trans; eassumption].
  - auto.
  - intros Hj Hr. destruct r1 as [q1|].
    + apply F2; [discriminate | assumption].
    + apply K2. now apply F1.
Qed.

Lemma flow_same json d r d' :
  same_but_pools d d' -> (r <> None -> json <> None) -> (json <> None -> r <> None) ->
  flow json d r d'.
Proof.
  intros Hs H1 H2.
  split; [now apply same_but_pools_quotes | split; [|split]].
  - intros Hr. split; [auto | now apply same_but_pools_quiet].
  - now rewrite (same_but_pools_errorID _ _ Hs).
  - intros Hj Hr. now apply H2 in Hj.
Qed.

Lemma flow_skip r1 d1 json2 d2 :
  SkipWhiteSpace r1 d1 = Ok (json2, d2) -> d2 = d1 /\ flow r1 d1 json2 d1.
Proof.
  intros H. apply SkipWhiteSpace_Ok in H. destruct H as [-> H].
  split; [reflexivity|]. apply flow_same; [apply same_but_pools_refl | |].
  - destruct r1; [discriminate | congruence].
  - destruct r1 as [i|]; [|congruence]. destruct H as (j & -> & _). discriminate.
Qed.

Lemma flow_advance p n d : flow (Some p) d (ptr_add (Some p) n) d.
Proof.
  apply flow_same; [apply same_but_pools_refl | |]; intros; discriminate.
Qed.

Lemma flow_pool json v f d : flow json d json (with_pool v f d).
Proof. apply flow_same; [apply same_but_pools_with_pool | |]; auto. Qed.

Lemma flow_failed {A} e (x : A) json d x' r d' :
  e <> JSON_NO_ERROR ->
  (SetError e None None ;;; ret (x, @None nat)) d = Ok ((x', r), d') ->
  x' = x /\ r = None /\ flow json d r d'.
Proof.
  intros He H. minv H. inv_ret H. inv_modify.
  split; [reflexivity | split; [reflexivity|]].
  split; [apply quotes_to_nul_SetError | split; [|split]].
  - intros Hr. now contradiction Hr.
  - intros _. now apply errorID_SetError_not_NO.
  - intros _ _. now apply errorID_SetError_not_NO.
Qed.

(** A failing exit after a flow. *)
Lemma flow_then_failed {A} e (x : A) json d r1 d1 x' r d' :
  e <> JSON_NO_ERROR ->
  flow json d r1 d1 ->
  (SetError e None None ;;; ret (x, @None nat)) d1 = Ok ((x', r), d') ->
  x' = x /\ r = None /\ flow json d r d'.
Proof.
  intros He (Q1 & S1 & K1 & F1) H.
  destruct (flow_failed e x r1 d1 x' r d' He H) as (-> & -> & (Q2 & S2 & K2 & F2)).
  split; [reflexivity | split; [reflexivity|]].
  split; [eapply quotes_to_nul_trans; eassumption | split; [|split]].
  - intros Hr. now contradiction Hr.
  - auto.
  - intros _ _. minv H. inv_ret H. inv_modify. apply errorID_SetError_not_NO, He.
Qed.

Lemma flow_delete_failed {A} v n e (x : A) json d r1 d2 x' r d' :
  e <> JSON_NO_ERROR ->
  flow json d r1 d2 ->
  (SetTracked v ;;; DeleteNode n ;;; SetError e None None ;;; ret (x, @None nat)) d2
    = Ok ((x', r), d') ->
  x' = x /\ r = None /\ flow json d r d'.
Proof.
  intros He (Q1 & S1 & K1 & F1) H.
  bind_inv H as u d3 E. apply modify_Ok in E. subst d3.
  bind_inv H as u1 d4 E. apply modify_Ok in E. subst d4.
  assert (Hs : same_but_pools d2 (DeleteNode_pools n (with_pool v MemPool.SetTracked d2))).
  { eapply same_but_pools_trans;
      [apply same_but_pools_with_pool | apply same_but_pools_DeleteNode]. }
  destruct (flow_failed e x r1 _ x' r d' He H) as (-> & -> & (Q2 & S2 & K2 & F2)).
  split; [reflexivity | split; [reflexivity|]].
  split; [|split; [|split]].
  - eapply quotes_to_nul_trans; [exact Q1|].
    eapply quotes_to_nul_trans; [apply same_but_pools_quotes, Hs | exact Q2].
  - intros Hr. now contradiction Hr.
  - intros _. minv H. inv_ret H. inv_modify. apply errorID_SetError_not_NO, He.
  - intros _ _. minv H. inv_ret H. inv_modify. apply errorID_SetError_not_NO, He.
Qed.

(** ** Identify and the leaf parsers, seen as flows *)

Lemma SkipWhiteSpace_at p d c :
  deref (Some p) d = Ok (c, d) -> JsonUtil.IsWhiteSpace c = false ->
  SkipWhiteSpace (Some p) d = Ok (Some p, d).
Proof.
  intros H Hc. apply deref_Ok in H.
  destruct H as [_ (i & buf & Hi & Hbuf & Hnth & _)]. inversion Hi; subst i.
  unfold SkipWhiteSpace, JsonUtil.SkipWhiteSpace, lift. rewrite Hbuf.
  rewrite (SkipWhiteSpace_run buf p c Hnth Hc 0 p); [reflexivity | lia |].
  intros j Hj; lia.
Qed.

Lemma Identify_at_quote json d :
  deref json d = Ok (DQUOTE, d) ->
  Identify json d
  = Ok ((ptr_add json 1, Some (JsonString (mkStrPair None None))),
        with_pool VString MemPool.Alloc d).
Proof.
  intros H. pose proof H as H'. apply deref_Ok in H'.
  destruct H' as [_ (i & buf & -> & _)].
  unfold Identify, bind.
  rewrite (SkipWhiteSpace_at i d DQUOTE H eq_refl), H. reflexivity.
Qed.

Lemma Identify_flow json d json1 node d1 :
  Identify json d = Ok ((json1, node), d1) ->
  same_but_pools d d1 /\
  (json1 <> None <-> json <> None) /\
  (forall n, node = Some n ->
             FirstChildren n = [] /\ is_value n = true /\ json <> None).
Proof.
  unfold Identify. intros H. bind_inv H as j d0 E.
  apply SkipWhiteSpace_Ok in E. destruct E as [-> Hj].
  destruct json as [p|].
  2:{ subst j. inv_ret H. split; [apply same_but_pools_refl|].
      split; [tauto | discriminate]. }
  destruct Hj as (q & -> & _).
  bind_inv H as c d0 E. apply deref_Ok in E. destruct E as [-> _].
  assert (Hiff : forall x : nat, Some x <> None <-> Some p <> None)
    by (intros; split; discriminate).
  assert (Hnone : forall n : JsonNode, @None JsonNode = Some n ->
            FirstChildren n = [] /\ is_value n = true /\ Some p <> None)
    by discriminate.
  repeat match type of H with
         | (if ?b then _ else _) _ = Ok _ => destruct b
         end;
    try (inv_ret H; split; [apply same_but_pools_refl | split; [apply Hiff | exact Hnone]]).
  all: minv H; inv_ret H; inv_modify;
    (split; [apply same_but_pools_with_pool | split; [apply Hiff|]]);
    intros n Hn; inversion Hn; subst n; repeat split; discriminate.
Qed.

Lemma Identify_as_flow json d json1 node d1 :
  Identify json d = Ok ((json1, node), d1) -> flow json d json1 d1 /\ quiet d d1.
Proof.
  intros H. apply Identify_flow in H. destruct H as (Hs & Hiff & _).
  split; [|now apply same_but_pools_quiet].
  apply flow_same; [exact Hs | apply Hiff | apply Hiff].
Qed.

Lemma JsonReserved_ParseDeep_flow t json d t' r d' :
  JsonReserved_ParseDeep t json d = Ok ((t', r), d') -> flow json d r d'.
Proof.
  unfold JsonReserved_ParseDeep. intros H.
  bind_inv H as s d1 E. apply bytes_from_Ok in E.
  destruct E as [-> (i & buf & -> & _)].
  bind_inv H as r1 d1 E. apply lift_Ok in E. destruct E as [_ ->].
  destruct (is_zero r1); [inv_ret H; apply flow_advance|].
  bind_inv H as r2 d1 E. apply lift_Ok in E. destruct E as [_ ->].
  destruct (is_zero r2); [inv_ret H; apply flow_advance|].
  bind_inv H as r3 d1 E. apply lift_Ok in E. destruct E as [_ ->].
  destruct (is_zero r3); [inv_ret H; apply flow_advance|].
  now apply (flow_failed _ t (Some i)) in H.
Qed.

Lemma JsonNumber_ParseDeep_flow this json d this' r d' :
  JsonNumber_ParseDeep this json d = Ok ((this', r), d') -> flow json d r d'.
Proof.
  unfold JsonNumber_ParseDeep. intros H.
  bind_inv H as j d1 E. apply flow_skip in E. destruct E as [-> F].
  destruct j as [j|].
  - bind_inv H as s d1 E. apply bytes_from_Ok in E. destruct E as [-> _].
    destruct (strtod s) as [n len].
    destruct (negb (len =? 0)%nat).
    + inv_ret H. eapply flow_seq; [exact F | apply flow_advance].
    + apply (flow_then_failed _ this json d (Some j)) in H; [tauto | discriminate | exact F].
  - inv_ret H. exact F.
Qed.

Lemma JsonString_scan_stop (n : nat) :
  forall rest start p,
    (List.length rest <= n)%nat ->
    JsonString_scan rest start = Ok p ->
    (start <= p)%nat /\
    (nth_error rest (p - start) = Some DQUOTE \/ nth_error rest (p - start) = Some NUL).
Proof.
  induction n as [|n IH]; intros [|c rest] start p Hlen; simpl in *;
    try discriminate; try lia.
  destruct ((c =? DQUOTE) || (c =? NUL)) eqn:Hstop.
  { intros H; inversion H; subst. rewrite Nat.sub_diag. simpl.
    split; [lia|]. apply orb_true_iff in Hstop.
    destruct Hstop as [Hc|Hc]; apply Z.eqb_eq in Hc; subst; auto. }
  destruct (c =? BACKSLASH).
  - destruct rest as [|c' rest]; [discriminate|].
    intros H. destruct n as [|n]; [simpl in Hlen; lia|].
    apply IH in H; [|simpl in Hlen; lia]. destruct H as [Hle H].
    split; [lia|].
    replace (p - start)%nat with (S (S (p - (start + 2))))%nat by lia. exact H.
  - intros H. apply IH in H; [|lia]. destruct H as [Hle H].
    split; [lia|].
    replace (p - start)%nat with (S (p - (start + 1)))%nat by lia. exact H.
Qed.

Lemma JsonString_ParseDeep_flow sp json d sp' r d' :
  JsonString_ParseDeep sp json d = Ok ((sp', r), d') -> flow json d r d'.
Proof.
  unfold JsonString_ParseDeep. intros H.
  bind_inv H as s d1 E. apply bytes_from_Ok in E.
  destruct E as [-> (i & buf & -> & Hbuf & -> & _)].
  bind_inv H as p d1 E. apply lift_Ok in E. destruct E as [E ->].
  apply (JsonString_scan_stop _ _ i p (le_n _)) in E. destruct E as [Hle Hstop].
  rewrite nth_error_skipn in Hstop. replace (i + (p - i))%nat with p in Hstop by lia.
  bind_inv H as c d1 E'. apply deref_Ok in E'.
  destruct E' as [-> (p' & buf' & Hp' & Hbuf' & Hc & _)].
  inversion Hp'; subst p'. rewrite Hbuf in Hbuf'. inversion Hbuf'; subst buf'.
  destruct (Z.eqb_spec c NUL) as [Hz|Hnz].
  - now apply (flow_failed _ sp (Some i)) in H.
  - bind_inv H as u d1 E'. apply store_Ok in E'.
    destruct E' as (buf' & Hbuf2 & Hlt & ->). inv_ret H.
    rewrite Hbuf in Hbuf2. inversion Hbuf2; subst buf'.
    assert (Hq : nth_error buf p = Some DQUOTE).
    { destruct Hstop as [Hs|Hs]; [exact Hs|]. rewrite Hs in Hc. congruence. }
    destruct (same_but_errors_store p buf NUL d) as [Hquiet He].
    split; [now apply quotes_to_nul_store | split; [|split]].
    + intros _. split; [discriminate | exact Hquiet].
    + now rewrite He.
    + discriminate.
Qed.

(** ** The shape of what is linked *)

Lemma well_formed_unfold (node : JsonNode) :
  well_formed node
  = match node with
    | JsonObject cs => forallb is_element cs && forallb well_formed cs
    | JsonArray cs => forallb is_value cs && forallb well_formed cs
    | JsonElement cs => key_first cs && forallb is_value cs && forallb well_formed cs
    | _ => true
    end.
Proof.
  assert (H : forall cs,
             (fix all (cs : list JsonNode) : bool :=
                match cs with
                | [] => true
                | c :: cs' => well_formed c && all cs'
                end) cs = forallb well_formed cs).
  { induction cs as [|c cs IH]; simpl; [reflexivity | now rewrite IH]. }
  destruct node; simpl; try rewrite H; reflexivity.
Qed.

Lemma forallb_value_ok (cs : list JsonNode) :
  forallb value_ok cs = forallb is_value cs && forallb well_formed cs.
Proof.
  induction cs as [|c cs IH]; simpl; [reflexivity|]. rewrite IH. unfold value_ok.
  destruct (is_value c), (well_formed c), (forallb is_value cs); reflexivity.
Qed.

Lemma forallb_element_ok (cs : list JsonNode) :
  forallb element_ok cs = forallb is_element cs && forallb well_formed cs.
Proof.
  induction cs as [|c cs IH]; simpl; [reflexivity|]. rewrite IH. unfold element_ok.
  destruct (is_element c), (well_formed c), (forallb is_element cs); reflexivity.
Qed.

Lemma is_value_pool_of (a b : JsonNode) :
  pool_of a = pool_of b -> is_value a = is_value b.
Proof. destruct a, b; simpl; intros H; try reflexivity; discriminate. Qed.

Lemma is_element_pool_of (a : JsonNode) :
  pool_of a = VElement -> is_element a = true.
Proof. destruct a; simpl; intros H; try reflexivity; discriminate. Qed.

(** ** Runs as flows *)

Lemma run_flow_of_flow Q this json d r d' :
  flow json d r d' -> run_flow Q this json d this r d'.
Proof.
  intros F. split; [exact F|]. exists []. now rewrite app_nil_r.
Qed.

Lemma run_flow_seq Q this json d this1 r1 d1 this' r d' :
  run_flow Q this json d this1 r1 d1 ->
  run_flow Q this1 r1 d1 this' r d' ->
  run_flow Q this json d this' r d'.
Proof.
  intros (F1 & a1 & -> & H1) (F2 & a2 & -> & H2).
  split; [eapply flow_seq; eassumption|].
  exists (a1 ++ a2). rewrite <- app_assoc. split; [reflexivity|].
  rewrite forallb_app, H1, H2. reflexivity.
Qed.

Lemma run_flow_then Q this json d this1 r1 d1 r d' :
  run_flow Q this json d this1 r1 d1 ->
  flow r1 d1 r d' ->
  run_flow Q this json d this1 r d'.
Proof.
  intros R F. eapply run_flow_seq; [exact R | now apply run_flow_of_flow].
Qed.

Lemma run_flow_failed Q e this json d this1 r1 d1 this' r d' :
  e <> JSON_NO_ERROR ->
  run_flow Q this json d this1 r1 d1 ->
  (SetError e None None ;;; ret (this1, @None nat)) d1 = Ok ((this', r), d') ->
  r = None /\ run_flow Q this json d this' r d'.
Proof.
  intros He (F1 & a1 & -> & H1) H.
  destruct (flow_then_failed e _ json d r1 d1 _ _ _ He F1 H) as (-> & -> & F).
  split; [reflexivity|]. split; [exact F|]. exists a1. auto.
Qed.

Lemma run_flow_fail Q e this json d this' r d' :
  e <> JSON_NO_ERROR ->
  (SetError e None None ;;; ret (this, @None nat)) d = Ok ((this', r), d') ->
  r = None /\ run_flow Q this json d this' r d'.
Proof.
  intros He H. eapply (run_flow_failed Q e this json d this json d); eauto.
  apply run_flow_of_flow, flow_refl.
Qed.

Ltac exit_flow R H :=
  solve [eapply proj2; eapply run_flow_failed; [| exact R | exact H]; discriminate].

Section BodyFlows.

Variable NPD : list JsonNode -> ptr -> M (list JsonNode * ptr).
Variable PD : JsonNode -> ptr -> M (JsonNode * ptr).

Hypothesis NPD_flow :
  forall this json d this' r d',
    NPD this json d = Ok ((this', r), d') ->
    run_flow value_ok this json d this' r d' /\ key_linked this json d this' r.

Hypothesis PD_flow :
  forall node json d node' r d',
    PD node json d = Ok ((node', r), d') -> node_flow node json d node' r d'.

Lemma JsonNode_ParseDeep_body_flow loop :
  (forall this json d this' r d',
     loop this json d = Ok ((this', r), d') ->
     run_flow value_ok this json d this' r d') ->
  forall this json d this' r d',
    JsonNode_ParseDeep_body PD loop this json d = Ok ((this', r), d') ->
    run_flow value_ok this json d this' r d' /\ key_linked this json d this' r.
Proof.
  intros Hloop this json d this' r d' H. unfold JsonNode_ParseDeep_body in H.
  destruct json as [p|].
  2:{ inv_ret H. split; [apply run_flow_of_flow, flow_refl|].
      intros Hd _. discriminate. }
  bind_inv H as c d1 E0. pose proof E0 as E0'. apply deref_Ok in E0'.
  destruct E0' as [-> _].
  destruct (Z.eqb_spec c NUL) as [Hc|Hc].
  { inv_ret H. split; [apply run_flow_of_flow, flow_refl|].
    intros Hd _. rewrite Hd in E0. discriminate. }
  bind_inv H as x d1 E1. destruct x as [json1 node].
  pose proof (Identify_flow _ _ _ _ _ E1) as (Hs1 & Hiff & Hnode).
  pose proof (Identify_as_flow _ _ _ _ _ E1) as [F1 _].
  destruct json1 as [q1|]; [|exfalso; apply Hiff; [discriminate | reflexivity]].
  destruct node as [n|].
  2:{ inv_ret H. split; [now apply run_flow_of_flow|].
      intros Hd _. rewrite (Identify_at_quote _ _ Hd) in E1. discriminate. }
  destruct (Hnode n eq_refl) as (Hfresh & Hval & _).
  bind_inv H as y d2 E2. destruct y as [n' r1].
  apply PD_flow in E2. destruct E2 as (F2 & Hpool & Hwf).
  bind_inv H as json2 d3 E3. apply flow_skip in E3. destruct E3 as [-> F3].
  assert (F : flow (Some p) d json2 d2).
  { eapply flow_seq; [exact F1|]. eapply flow_seq; eassumption. }
  destruct json2 as [q2|].
  - bind_inv H as this1 d3 E. unfold InsertEndChild in E.
    bind_inv E as u d4 E'. inv_ret E. inv_modify.
    apply Hloop in H.
    assert (Hr1 : r1 <> None).
    { destruct F3 as (_ & S3 & _). apply S3. discriminate. }
    assert (Hok : value_ok n' = true).
    { unfold value_ok. rewrite (is_value_pool_of _ _ Hpool), Hval, (Hwf Hr1 Hfresh).
      reflexivity. }
    assert (R1 : run_flow value_ok this (Some p) d (this ++ [n']) (Some q2)
                   (with_pool (pool_of n') MemPool.SetTracked d2)).
    { split; [eapply flow_seq; [exact F | apply flow_pool]|].
      exists [n']. split; [reflexivity|]. simpl. now rewrite Hok. }
    pose proof (run_flow_seq _ _ _ _ _ _ _ _ _ _ R1 H) as R.
    split; [exact R|].
    intros Hd _. rewrite (Identify_at_quote _ _ Hd) in E1.
    inversion E1; subst n.
    destruct H as (_ & added & -> & _).
    destruct n' as [t|f i|sp|cs|cs|cs]; try discriminate.
    exists sp, added. now rewrite <- app_assoc.
  - destruct (flow_delete_failed _ _ JSON_ERROR_PARSING this (Some p) d _ _ _ _ _
                ltac:(discriminate) F H) as (-> & -> & F').
    split; [now apply run_flow_of_flow|].
    intros _ Hr. now contradiction Hr.
Qed.

Lemma JsonElement_ParseDeep_flow this json d this' r d' :
  JsonElement_ParseDeep NPD this json d = Ok ((this', r), d') ->
  flow json d r d' /\
  exists added, this' = this ++ added /\ forallb value_ok added = true /\
                (r <> None -> key_first added = true).
Proof.
  unfold JsonElement_ParseDeep. cbv beta zeta. intros H.
  bind_inv H as c d1 E0. pose proof E0 as E0'. apply deref_Ok in E0'.
  destruct E0' as [-> (i & _ & -> & _)].
  assert (Hfail : forall this0 json0 d0 r0,
             run_flow value_ok this json0 d this0 r0 d0 ->
             (SetError JSON_ERROR_PARSING_ELEMENT None None ;;; ret (this0, @None nat)) d0
               = Ok ((this', r), d') ->
             flow json0 d r d' /\
             exists added, this' = this ++ added /\ forallb value_ok added = true /\
                           (r <> None -> key_first added = true)).
  { intros this0 json0 d0 r0 R0 H0.
    eapply run_flow_failed in H0; [|discriminate | exact R0].
    destruct H0 as [Hr (F & added & -> & Hall)]. split; [exact F|].
    exists added. split; [reflexivity | split; [exact Hall|]].
    intros Hn. now contradiction Hn. }
  destruct (Z.eqb_spec c DQUOTE) as [Hc|Hc]; simpl in H.
  2:{ eapply Hfail; [|exact H]. apply run_flow_of_flow, flow_refl. }
  subst c.
  bind_inv H as x d1 E1. destruct x as [this1 r1].
  apply NPD_flow in E1. destruct E1 as [R1 K1].
  bind_inv H as json2 d2 E2. apply flow_skip in E2. destruct E2 as [-> F2].
  pose proof (run_flow_then _ _ _ _ _ _ _ _ _ R1 F2) as R2.
  destruct json2 as [q2|]; [|now apply (Hfail _ _ _ _ R2)].
  assert (Hr1 : r1 <> None).
  { destruct F2 as (_ & S2 & _). apply S2. discriminate. }
  destruct (K1 E0 Hr1) as (sp & rest & Hthis1).
  bind_inv H as c2 d2 E3. apply deref_Ok in E3. destruct E3 as [-> _].
  destruct (negb (c2 =? ch ":")); [now apply (Hfail _ _ _ _ R2)|].
  pose proof (run_flow_then _ _ _ _ _ _ _ _ _ R2 (flow_advance q2 1 d1)) as R3.
  bind_inv H as x d2 E4. destruct x as [this2 r2].
  apply NPD_flow in E4. destruct E4 as [R4 _].
  pose proof (run_flow_seq _ _ _ _ _ _ _ _ _ _ R3 R4) as R5.
  bind_inv H as json3 d3 E5. apply flow_skip in E5. destruct E5 as [-> F5].
  pose proof (run_flow_then _ _ _ _ _ _ _ _ _ R5 F5) as R6.
  destruct json3 as [q3|]; [|now apply (Hfail _ _ _ _ R6)].
  destruct R6 as (F6 & added & Hadd & Hall).
  assert (Hkey : key_first added = true).
  { destruct R4 as (_ & a4 & Ha4 & _).
    rewrite Ha4, Hthis1, <- app_assoc in Hadd.
    apply app_inv_head in Hadd. now rewrite <- Hadd. }
  inv_ret H. split; [exact F6|]. exists added. auto.
Qed.

Lemma JsonObject_ParseElement_flow this json d this' r d' :
  JsonObject_ParseElement PD this json d = Ok ((this', r), d') ->
  run_flow element_ok this json d this' r d'.
Proof.
  unfold JsonObject_ParseElement, CreatElement. intros H.
  bind_inv H as node d1 E. bind_inv E as u d0 E0. inv_ret E. inv_modify.
  bind_inv H as x d2 E. destruct x as [node' r1].
  apply PD_flow in E. destruct E as (F2 & Hpool & Hwf).
  bind_inv H as json2 d3 E. apply flow_skip in E. destruct E as [-> F3].
  assert (F : flow json d json2 d2).
  { eapply flow_seq; [apply flow_pool|]. eapply flow_seq; eassumption. }
  destruct json2 as [q2|].
  - bind_inv H as this1 d3 E. unfold InsertEndChild in E.
    bind_inv E as u' d4 E'. inv_ret E. inv_modify. inv_ret H.
    assert (Hr1 : r1 <> None).
    { destruct F3 as (_ & S3 & _). apply S3. discriminate. }
    split; [eapply flow_seq; [exact F | apply flow_pool]|].
    exists [node']. split; [reflexivity|]. simpl.
    unfold element_ok. rewrite (is_element_pool_of _ Hpool), (Hwf Hr1 eq_refl).
    reflexivity.
  - destruct (flow_delete_failed _ _ JSON_ERROR_PARSING_ELEMENT this json d _ _ _ _ _
                ltac:(discriminate) F H) as (-> & -> & F').
    now apply run_flow_of_flow.
Qed.

Section WhileFlows.

Variable loop : list JsonNode -> ptr -> M (list JsonNode * ptr).
Variable Q : JsonNode -> bool.

Hypothesis loop_flow :
  forall this json d this' r d',
    loop this json d = Ok ((this', r), d') -> run_flow Q this json d this' r d'.

Lemma JsonObject_ParseDeep_while_flow this json d this' r d' :
  Q = element_ok ->
  JsonObject_ParseDeep_while PD loop this json d = Ok ((this', r), d') ->
  run_flow Q this json d this' r d'.
Proof.
  intros HQ. unfold JsonObject_ParseDeep_while. intros H.
  bind_inv H as c d1 E. apply deref_Ok in E. destruct E as [-> (i & _ & -> & _)].
  destruct (c =? ch ",").
  - bind_inv H as x d1 E. destruct x as [this1 json2].
    apply JsonObject_ParseElement_flow in E. rewrite <- HQ in E.
    pose proof (run_flow_seq _ _ _ _ _ _ _ _ _ _
                  (run_flow_of_flow Q this _ _ _ _ (flow_advance i 1 d)) E) as R.
    destruct json2 as [q2|].
    + apply loop_flow in H. exact (run_flow_seq _ _ _ _ _ _ _ _ _ _ R H).
    + exit_flow R H.
  - destruct (c =? ch "}").
    + inv_ret H. apply run_flow_of_flow, flow_advance.
    + now apply (run_flow_fail Q _ this (Some i)) in H.
Qed.

Lemma JsonObject_ParseDeep_flow this json d this' r d' :
  Q = element_ok ->
  JsonObject_ParseDeep PD loop this json d = Ok ((this', r), d') ->
  run_flow Q this json d this' r d'.
Proof.
  intros HQ. unfold JsonObject_ParseDeep. intros H.
  bind_inv H as json1 d1 E. apply flow_skip in E. destruct E as [-> F1].
  pose proof (run_flow_of_flow Q this _ _ _ _ F1) as R1.
  destruct json1 as [j|]; [|exit_flow R1 H].
  bind_inv H as c d1 E. apply deref_Ok in E. destruct E as [-> _].
  destruct (c =? NUL); [exit_flow R1 H|].
  destruct (c =? ch "}").
  { inv_ret H. exact (run_flow_then _ _ _ _ _ _ _ _ _ R1 (flow_advance j 1 d)). }
  bind_inv H as x d1 E. destruct x as [this1 json2].
  apply JsonObject_ParseElement_flow in E. rewrite <- HQ in E.
  apply loop_flow in H.
  exact (run_flow_seq _ _ _ _ _ _ _ _ _ _ (run_flow_seq _ _ _ _ _ _ _ _ _ _ R1 E) H).
Qed.

Lemma JsonArray_ParseDeep_while_flow this json d this' r d' :
  Q = value_ok ->
  JsonArray_ParseDeep_while NPD loop this json d = Ok ((this', r), d') ->
  run_flow Q this json d this' r d'.
Proof.
  intros HQ. unfold JsonArray_ParseDeep_while. intros H.
  bind_inv H as c d1 E. apply deref_Ok in E. destruct E as [-> (i & _ & -> & _)].
  destruct (c =? ch ",").
  - bind_inv H as x d1 E. destruct x as [this1 r1].
    apply NPD_flow in E. destruct E as [E _]. rewrite <- HQ in E.
    pose proof (run_flow_seq _ _ _ _ _ _ _ _ _ _
                  (run_flow_of_flow Q this _ _ _ _ (flow_advance i 1 d)) E) as R.
    bind_inv H as json2 d2 E2. apply flow_skip in E2. destruct E2 as [-> F2].
    pose proof (run_flow_then _ _ _ _ _ _ _ _ _ R F2) as R2.
    destruct json2 as [q2|]; [|exit_flow R2 H].
    bind_inv H as c2 d2 E3. apply deref_Ok in E3. destruct E3 as [-> _].
    destruct (c2 =? NUL); [exit_flow R2 H|].
    apply loop_flow in H. exact (run_flow_seq _ _ _ _ _ _ _ _ _ _ R2 H).
  - destruct (c =? ch "]").
    + inv_ret H. apply run_flow_of_flow, flow_advance.
    + now apply (run_flow_fail Q _ this (Some i)) in H.
Qed.

Lemma JsonArray_ParseDeep_flow this json d this' r d' :
  Q = value_ok ->
  JsonArray_ParseDeep NPD loop this json d = Ok ((this', r), d') ->
  run_flow Q this json d this' r d'.
Proof.
  intros HQ. unfold JsonArray_ParseDeep. intros H.
  bind_inv H as json1 d1 E. apply flow_skip in E. destruct E as [-> F1].
  pose proof (run_flow_of_flow Q this _ _ _ _ F1) as R1.
  destruct json1 as [j|]; [|exit_flow R1 H].
  bind_inv H as c d1 E. apply deref_Ok in E. destruct E as [-> _].
  destruct (c =? NUL); [exit_flow R1 H|].
  destruct (c =? ch "]").
  { inv_ret H. exact (run_flow_then _ _ _ _ _ _ _ _ _ R1 (flow_advance j 1 d)). }
  bind_inv H as x d1 E. destruct x as [this1 r1].
  apply NPD_flow in E. destruct E as [E _]. rewrite <- HQ in E.
  pose proof (run_flow_seq _ _ _ _ _ _ _ _ _ _ R1 E) as R2.
  bind_inv H as json2 d2 E2. apply flow_skip in E2. destruct E2 as [-> F2].
  pose proof (run_flow_then _ _ _ _ _ _ _ _ _ R2 F2) as R3.
  destruct json2 as [q2|].
  - apply loop_flow in H. exact (run_flow_seq _ _ _ _ _ _ _ _ _ _ R3 H).
  - inv_ret H.
    destruct R3 as ((Q3 & S3 & K3 & F3) & added & Hadd & Hall).
    split; [|exists added; auto].
    split; [exact Q3 | split; [exact S3 | split; [exact K3 | exact F3]]].
Qed.

End WhileFlows.

End BodyFlows.

Lemma node_flow_of_leaf node node' json d r d' :
  flow json d r d' ->
  pool_of node' = pool_of node ->
  is_scalar node' = true \/ (exists sp, node' = JsonString sp) ->
  node_flow node json d node' r d'.
Proof.
  intros F Hp Hleaf. split; [exact F | split; [exact Hp|]].
  intros _ _. destruct Hleaf as [H|[sp ->]]; [|reflexivity].
  destruct node'; try discriminate; reflexivity.
Qed.

Lemma parse_flows (fuel : nat) :
  (forall this json d this' r d',
     NodeParseDeep fuel this json d = Ok ((this', r), d') ->
     run_flow value_ok this json d this' r d' /\ key_linked this json d this' r) /\
  (forall node json d node' r d',
     ParseDeep fuel node json d = Ok ((node', r), d') ->
     node_flow node json d node' r d') /\
  (forall this json d this' r d',
     ObjectWhile fuel this json d = Ok ((this', r), d') ->
     run_flow element_ok this json d this' r d') /\
  (forall this json d this' r d',
     ArrayWhile fuel this json d = Ok ((this', r), d') ->
     run_flow value_ok this json d this' r d').
Proof.
  induction fuel as [|fuel (IHN & IHP & IHO & IHA)].
  { repeat split; intros; discriminate. }
  assert (IHN' : forall this json d this' r d',
             NodeParseDeep fuel this json d = Ok ((this', r), d') ->
             run_flow value_ok this json d this' r d')
    by (intros; now apply IHN).
  split; [|split; [|split]].
  - intros this json d this' r d' H. cbn [NodeParseDeep] in H.
    eapply JsonNode_ParseDeep_body_flow; [exact IHP | exact IHN' | exact H].
  - intros node json d node' r d' H. cbn [ParseDeep] in H.
    destruct node as [t|f i|sp|cs|cs|cs].
    + bind_inv H as x d1 E. destruct x as [t' r1]. inv_ret H.
      apply node_flow_of_leaf; [|reflexivity | left; reflexivity].
      now apply JsonReserved_ParseDeep_flow in E.
    + bind_inv H as x d1 E. destruct x as [[f' i'] r1]. inv_ret H.
      apply node_flow_of_leaf; [|reflexivity | left; reflexivity].
      now apply JsonNumber_ParseDeep_flow in E.
    + bind_inv H as x d1 E. destruct x as [sp' r1]. inv_ret H.
      apply node_flow_of_leaf; [|reflexivity | right; now exists sp'].
      now apply JsonString_ParseDeep_flow in E.
    + bind_inv H as x d1 E. destruct x as [cs' r1]. inv_ret H.
      apply (JsonElement_ParseDeep_flow _ IHN) in E.
      destruct E as (F & added & -> & Hall & Hkey).
      split; [exact F | split; [reflexivity|]].
      intros Hr Hcs. simpl in Hcs. subst cs. cbn [app].
      rewrite well_formed_unfold, (Hkey Hr).
      rewrite forallb_value_ok in Hall. exact Hall.
    + bind_inv H as x d1 E. destruct x as [cs' r1]. inv_ret H.
      eapply JsonObject_ParseDeep_flow in E; [| exact IHP | exact IHO | reflexivity].
      destruct E as (F & added & -> & Hall).
      split; [exact F | split; [reflexivity|]].
      intros Hr Hcs. simpl in Hcs. subst cs. cbn [app].
      rewrite well_formed_unfold. rewrite forallb_element_ok in Hall. exact Hall.
    + bind_inv H as x d1 E. destruct x as [cs' r1]. inv_ret H.
      eapply JsonArray_ParseDeep_flow in E; [| exact IHN | exact IHA | reflexivity].
      destruct E as (F & added & -> & Hall).
      split; [exact F | split; [reflexivity|]].
      intros Hr Hcs. simpl in Hcs. subst cs. cbn [app].
      rewrite well_formed_unfold. rewrite forallb_value_ok in Hall. exact Hall.
  - intros this json d this' r d' H. cbn [ObjectWhile] in H.
    eapply JsonObject_ParseDeep_while_flow; [exact IHP | exact IHO | reflexivity | exact H].
  - intros this json d this' r d' H. cbn [ArrayWhile] in H.
    eapply JsonArray_ParseDeep_while_flow; [exact IHN | exact IHA | reflexivity | exact H].
Qed.

(** * Further properties of the code: theorems *)

(** ** What a Parse call returns *)

Lemma steps_errorStr d d' :
  steps d d' ->
  _errorStr1 d = None /\ _errorStr2 d = None ->
  _errorStr1 d' = None /\ _errorStr2 d' = None.
Proof.
  induction 1 as [d|v f d d' _ IH|e d d' He _ IH|p buf d d' Hb Hp _ IH]; intros [H1 H2].
  - auto.
  - apply IH. destruct d, v; simpl in *; auto.
  - apply IH. destruct d as [cs e0 a b bf po pa pe pn ps pr log].
    simpl in *. destruct (JsonError_eqb e0 JSON_NO_ERROR); simpl; auto.
  - apply IH. destruct d; simpl in *; auto.
Qed.

Lemma errorStr_Parse_cleared d0 :
  _errorStr1 (Parse_cleared d0) = None /\ _errorStr2 (Parse_cleared d0) = None.
Proof.
  unfold Parse_cleared.
  destruct (with_children [] (DeleteChildren_pools (doc_children d0) d0)); simpl; auto.
Qed.

Lemma errorStr_Parse_entry d0 buf :
  _errorStr1 (Parse_entry d0 buf) = None /\ _errorStr2 (Parse_entry d0 buf) = None.
Proof.
  unfold Parse_entry. pose proof (errorStr_Parse_cleared d0) as H.
  destruct (Parse_cleared d0); simpl in *; auto.
Qed.

Lemma error_slot_empty_document d :
  _errorID d = JSON_NO_ERROR ->
  error_slot (SetError_doc JSON_ERROR_EMPTY_DOCUMENT None None d)
  = (JSON_ERROR_EMPTY_DOCUMENT, None, None).
Proof. intros H. now apply SetError_doc_set. Qed.

Lemma error_slot_inv d e a b :
  error_slot d = (e, a, b) -> _errorID d = e /\ _errorStr1 d = a /\ _errorStr2 d = b.
Proof. unfold error_slot. intros H. injection H as H1 H2 H3. auto. Qed.

Lemma error_slot_with_children cs d : error_slot (with_children cs d) = error_slot d.
Proof. destruct d; reflexivity. Qed.

(** X1.  The status a Parse call returns is JSON_NO_ERROR,
    JSON_ERROR_EMPTY_DOCUMENT or one of the six codes the parse routines
    pass to SetError (OBJECT_MISMATCH, ARRAY_MISMATCH, PARSING_ELEMENT,
    PARSING_STRING, PARSING_RESERVED, PARSING): the file and memory-pool
    codes, JSON_ERROR_PARSING_OBJECT and JSON_ERROR_PARSING_NUMBER are never
    returned.  Both context strings of the error slot are null afterwards:
    no call of SetError passes one. *)
Theorem Parse_status_codes :
  forall json len d0 e d,
    Parse json len d0 = Ok (e, d) ->
    In e [JSON_NO_ERROR; JSON_ERROR_EMPTY_DOCUMENT;
          JSON_ERROR_OBJECT_MISMATCH; JSON_ERROR_ARRAY_MISMATCH;
          JSON_ERROR_PARSING_ELEMENT; JSON_ERROR_PARSING_STRING;
          JSON_ERROR_PARSING_RESERVED; JSON_ERROR_PARSING] /\
    _errorStr1 d = None /\ _errorStr2 d = None.
Proof.
  intros json len d0 e d H. apply Parse_Ok in H. destruct H as [-> H].
  destruct H as [-> | [(mem & n & buf & _ & _ & _ & ->) |
                       (mem & n & buf & this & r & d' & _ & _ & _ & Hrun & ->)]].
  - pose proof (error_slot_empty_document _ (errorID_Parse_cleared d0)) as Hs.
    apply error_slot_inv in Hs. destruct Hs as (H1 & H2 & H3).
    rewrite H1. split; [simpl; auto 10 | split; assumption].
  - pose proof (error_slot_empty_document _ (errorID_Parse_entry d0 buf)) as Hs.
    apply error_slot_inv in Hs. destruct Hs as (H1 & H2 & H3).
    rewrite H1. split; [simpl; auto 10 | split; assumption].
  - apply (proj1 (parse_posts VObject _)) in Hrun. destruct Hrun as (Hs & _).
    pose proof (steps_errorStr _ _ Hs (errorStr_Parse_entry d0 buf)) as [H1 H2].
    pose proof (error_slot_with_children this d') as Hw.
    apply error_slot_inv in Hw. destruct Hw as (E1 & E2 & E3).
    rewrite E1, E2, E3. split; [|auto].
    destruct (steps_errorID _ _ Hs) as [He|He].
    + rewrite He, errorID_Parse_entry. simpl. auto.
    + destruct (_errorID d'); try discriminate; simpl; auto 10.
Qed.

(** On [tru] the literal fails: the status is JSON_ERROR_PARSING_RESERVED. *)
Lemma Parse_status_codes_witness :
  let d :=
    mkJsonDocument [] JSON_ERROR_PARSING_RESERVED None None
      (Some (cstr "tru" ++ [NUL]))
      MemPool.init MemPool.init MemPool.init MemPool.init MemPool.init
      (mkMemPoolT 0 1 1 0)
      [JSON_ERROR_PARSING_RESERVED; JSON_ERROR_PARSING] in
  In JSON_ERROR_PARSING_RESERVED
     [JSON_NO_ERROR; JSON_ERROR_EMPTY_DOCUMENT;
      JSON_ERROR_OBJECT_MISMATCH; JSON_ERROR_ARRAY_MISMATCH;
      JSON_ERROR_PARSING_ELEMENT; JSON_ERROR_PARSING_STRING;
      JSON_ERROR_PARSING_RESERVED; JSON_ERROR_PARSING] /\
  _errorStr1 d = None /\ _errorStr2 d = None.
Proof.
  intros d.
  refine (Parse_status_codes (Some (cstr "tru" ++ [NUL])) None JsonDocument_new
            JSON_ERROR_PARSING_RESERVED d _).
  vm_compute. reflexivity.
Defined.

(** X2.  A Parse call comes to an end on every input and from every
    document: it returns a status, or it stops at a read through a null
    pointer or outside a buffer.  Every call and every loop turn of the
    parse routines moves the cursor forward, so the recursion on nested
    values and the loops over siblings cannot go on for ever. *)
Theorem Parse_returns_or_faults :
  forall json len d0,
    (exists e d, Parse json len d0 = Ok (e, d)) \/
    (exists f, Parse json len d0 = Crash f).
Proof.
  intros json len d0. pose proof (Parse_fuel_suffices json len d0) as H.
  destruct (Parse json len d0) as [[e d]|f|].
  - left. now exists e, d.
  - right. now exists f.
  - now contradiction H.
Qed.

(** X3.  A parse routine entered with a cursor that is not null and with no
    error recorded returns a null cursor exactly when it has recorded an
    error; when it returns a cursor, it has not called SetError and the
    error slot is as it was.  This holds for the virtual ParseDeep of every
    node class and for JsonNode::ParseDeep. *)
Theorem null_cursor_iff_error :
  (forall fuel node json d node' r d',
     ParseDeep fuel node json d = Ok ((node', r), d') ->
     json <> None ->
     _errorID d = JSON_NO_ERROR ->
     (r = None <-> _errorID d' <> JSON_NO_ERROR) /\
     (r <> None -> error_slot d' = error_slot d /\
                   SetError_calls d' = SetError_calls d)) /\
  (forall fuel this json d this' r d',
     NodeParseDeep fuel this json d = Ok ((this', r), d') ->
     json <> None ->
     _errorID d = JSON_NO_ERROR ->
     (r = None <-> _errorID d' <> JSON_NO_ERROR) /\
     (r <> None -> error_slot d' = error_slot d /\
                   SetError_calls d' = SetError_calls d)).
Proof.
  assert (Hflow : forall json d r d',
             flow json d r d' ->
             json <> None ->
             _errorID d = JSON_NO_ERROR ->
             (r = None <-> _errorID d' <> JSON_NO_ERROR) /\
             (r <> None -> error_slot d' = error_slot d /\
                           SetError_calls d' = SetError_calls d)).
  { intros json d r d' (_ & Hq & _ & Hn) Hjson Hd.
    split; [split|].
    - intros Hr. now apply Hn.
    - intros He. destruct r as [q|]; [|reflexivity].
      exfalso. apply He. destruct (Hq ltac:(discriminate)) as (_ & _ & Hs).
      symmetry in Hs. apply error_slot_inv in Hs. destruct Hs as (H1 & _).
      congruence.
    - intros Hr. destruct (Hq Hr) as (_ & Hc & Hs). auto. }
  split.
  - intros fuel node json d node' r d' H. apply (proj1 (proj2 (parse_flows _))) in H.
    destruct H as (F & _). now apply Hflow.
  - intros fuel this json d this' r d' H. apply (proj1 (parse_flows _)) in H.
    destruct H as ((F & _) & _). now apply Hflow.
Qed.

(** On [null] the literal is read and the cursor moves past it. *)
Lemma null_cursor_iff_error_witness :
  let d := with_buffer (Some (cstr "null" ++ [NUL])) JsonDocument_new in
  (Some 4%nat = None <-> _errorID d <> JSON_NO_ERROR) /\
  (Some 4%nat <> None -> error_slot d = error_slot d /\
                         SetError_calls d = SetError_calls d).
Proof.
  intros d.
  refine (proj1 null_cursor_iff_error 1%nat (JsonReserved JsonReserved.RESERVED)
            (Some O) d (JsonReserved JsonReserved.RESERVED_NULL) (Some 4%nat) d _ _ _).
  - vm_compute. reflexivity.
  - discriminate.
  - reflexivity.
Defined.

(** ** The shape of the tree *)

(** X4.  In the tree a Parse call leaves, with or without an error, every
    child of an Object is an Element, the first child of every Element is a
    String (its key), and an Element occurs nowhere else: not at the top
    level, not in an Array and not in an Element. *)
Theorem Parse_tree_well_formed :
  forall json len d0 e d,
    Parse json len d0 = Ok (e, d) ->
    forallb value_ok (doc_children d) = true.
Proof.
  intros json len d0 e d H. apply Parse_Ok in H. destruct H as [_ H].
  destruct H as [-> | [(mem & n & buf & _ & _ & _ & ->) |
                       (mem & n & buf & this & r & d' & _ & _ & _ & Hrun & ->)]].
  - now rewrite doc_children_SetError, doc_children_Parse_cleared.
  - unfold Parse_entry.
    now rewrite doc_children_SetError, doc_children_with_buffer,
      doc_children_Parse_cleared.
  - apply (proj1 (parse_flows _)) in Hrun.
    destruct Hrun as ((_ & added & -> & Hall) & _).
    rewrite doc_children_with_children. exact Hall.
Qed.

(** The tree of [{"a":[null]}]: an Object, its Element, the key and an
    Array. *)
Lemma Parse_tree_well_formed_witness :
  forallb value_ok
    [JsonObject
       [JsonElement
          [JsonString (mkStrPair (Some 2%nat) (Some 3%nat));
           JsonArray [JsonReserved JsonReserved.RESERVED_NULL]]]] = true.
Proof.
  refine (Parse_tree_well_formed
            (Some ((cstr "{" ++ quoted "a" ++ cstr ":[null]}") ++ [NUL])) None
            JsonDocument_new JSON_NO_ERROR
            (mkJsonDocument
               [JsonObject
                  [JsonElement
                     [JsonString (mkStrPair (Some 2%nat) (Some 3%nat));
                      JsonArray [JsonReserved JsonReserved.RESERVED_NULL]]]]
               JSON_NO_ERROR None None
               (Some (cstr "{" ++ [DQUOTE] ++ cstr "a" ++ [NUL] ++ cstr ":[null]}"
                        ++ [NUL]))
               (mkMemPoolT 1 1 1 0) (mkMemPoolT 1 1 1 0) (mkMemPoolT 1 1 1 0)
               MemPool.init (mkMemPoolT 1 1 1 0) (mkMemPoolT 1 1 1 0) []) _).
  vm_compute. reflexivity.
Defined.

(** ** The document's copy of the text *)

Lemma charBuffer_Parse_cleared d0 : _charBuffer (Parse_cleared d0) = None.
Proof.
  unfold Parse_cleared.
  destruct (with_children [] (DeleteChildren_pools (doc_children d0) d0)); reflexivity.
Qed.

Lemma charBuffer_Parse_entry d0 buf : _charBuffer (Parse_entry d0 buf) = Some buf.
Proof. unfold Parse_entry. destruct (Parse_cleared d0); reflexivity. Qed.

Lemma charBuffer_with_children cs d : _charBuffer (with_children cs d) = _charBuffer d.
Proof. destruct d; reflexivity. Qed.

Lemma copy_buffer_Ok mem n buf :
  copy_buffer mem n = Ok buf ->
  buf = firstn n mem ++ [NUL] /\ List.length buf = S n.
Proof.
  unfold copy_buffer. destruct (n <=? List.length mem)%nat eqn:E; [|discriminate].
  intros H. injection H as <-. split; [reflexivity|].
  apply Nat.leb_le in E. rewrite length_app, firstn_length_le by exact E.
  simpl. lia.
Qed.

(** X5.  The buffer a Parse call leaves in the document is the copy of the
    first [len] bytes of the text followed by a NUL, in which some double
    quotes have been overwritten by a NUL: it has [len + 1] bytes, and each
    byte is the byte of the copy or is a NUL where the copy has a double
    quote.  The parser writes nothing else into it. *)
Theorem Parse_buffer_quotes_to_nul :
  forall mem len d0 e d n buf',
    Parse (Some mem) len d0 = Ok (e, d) ->
    Parse_length mem len = Ok n ->
    _charBuffer d = Some buf' ->
    List.length buf' = S n /\
    forall i,
      nth_error buf' i = nth_error (firstn n mem ++ [NUL]) i \/
      (nth_error (firstn n mem ++ [NUL]) i = Some DQUOTE /\
       nth_error buf' i = Some NUL).
Proof.
  intros mem len d0 e d n buf' H Hn Hbuf'. apply Parse_Ok in H. destruct H as [_ H].
  destruct H as [-> | [(mem1 & n1 & buf & Hm & Hn1 & Hbuf & ->) |
                       (mem1 & n1 & buf & this & r & d' & Hm & Hn1 & Hbuf & Hrun & ->)]].
  - rewrite charBuffer_SetError, charBuffer_Parse_cleared in Hbuf'. discriminate.
  - injection Hm as <-. rewrite Hn in Hn1. injection Hn1 as <-.
    rewrite charBuffer_SetError, charBuffer_Parse_entry in Hbuf'.
    injection Hbuf' as <-. apply copy_buffer_Ok in Hbuf. destruct Hbuf as [Hb Hl].
    split; [exact Hl|]. intros i. left. now rewrite Hb.
  - injection Hm as <-. rewrite Hn in Hn1. injection Hn1 as <-.
    rewrite charBuffer_with_children in Hbuf'.
    apply copy_buffer_Ok in Hbuf. destruct Hbuf as [Hb Hl].
    apply (proj1 (parse_flows _)) in Hrun.
    destruct Hrun as ((((Hlen & Hq) & _) & _) & _).
    unfold buflen in Hlen. unfold byte_at in Hq.
    rewrite Hbuf', charBuffer_Parse_entry in Hlen, Hq.
    split; [congruence|]. intros i. rewrite <- Hb. exact (Hq i).
Qed.

(** On [["a"]] the closing quote of the string, at offset 3, becomes the NUL
    that ends it. *)
Lemma Parse_buffer_quotes_to_nul_witness :
  let text := cstr "[" ++ quoted "a" ++ cstr "]" in
  let buf' := cstr "[" ++ [DQUOTE] ++ cstr "a" ++ [NUL] ++ cstr "]" ++ [NUL] in
  List.length buf' = 6%nat /\
  forall i,
    nth_error buf' i = nth_error (firstn 5 (text ++ [NUL]) ++ [NUL]) i \/
    (nth_error (firstn 5 (text ++ [NUL]) ++ [NUL]) i = Some DQUOTE /\
     nth_error buf' i = Some NUL).
Proof.
  intros text buf'.
  refine (Parse_buffer_quotes_to_nul (text ++ [NUL]) None JsonDocument_new
            JSON_NO_ERROR
            (mkJsonDocument
               [JsonArray [JsonString (mkStrPair (Some 2%nat) (Some 3%nat))]]
               JSON_NO_ERROR None None (Some buf')
               MemPool.init (mkMemPoolT 1 1 1 0) MemPool.init MemPool.init
               (mkMemPoolT 1 1 1 0) MemPool.init [])
            5%nat buf' _ _ _).
  - vm_compute. reflexivity.
  - vm_compute. reflexivity.
  - reflexivity.
Defined.

(** ** JsonUtil::SkipWhiteSpace *)

Lemma SkipWhiteSpace_loop_inv (rest : list Z) :
  forall p q,
    JsonUtil.SkipWhiteSpace_loop rest p = Ok q ->
    (p <= q)%nat /\
    (forall k, (k < q - p)%nat ->
       exists w, nth_error rest k = Some w /\ JsonUtil.IsWhiteSpace w = true) /\
    (exists c, nth_error rest (q - p) = Some c /\ JsonUtil.IsWhiteSpace c = false).
Proof.
  induction rest as [|c rest IH]; intros p q H; simpl in H; [discriminate|].
  destruct (JsonUtil.IsWhiteSpace c) eqn:Hc.
  - apply IH in H. destruct H as (Hle & Hrun & c' & Hc' & Hws).
    split; [lia|]. split.
    + intros [|k] Hk; simpl; [eauto|]. apply Hrun. lia.
    + exists c'. replace (q - p)%nat with (S (q - S p)) by lia. simpl. auto.
  - injection H as <-. split; [lia|]. rewrite Nat.sub_diag. split.
    + intros k Hk. lia.
    + exists c. simpl. auto.
Qed.

Lemma SkipWhiteSpace_loop_blank (text rest : list Z) (c : Z) :
  forallb JsonUtil.IsWhiteSpace text = true ->
  JsonUtil.IsWhiteSpace c = false ->
  forall p,
    JsonUtil.SkipWhiteSpace_loop (text ++ c :: rest) p = Ok (p + List.length text)%nat.
Proof.
  intros Hall Hc. induction text as [|w text IH]; intros p; simpl.
  - rewrite Hc. f_equal. lia.
  - simpl in Hall. apply andb_prop in Hall. destruct Hall as [Hw Hall].
    rewrite Hw, (IH Hall). f_equal. lia.
Qed.

Lemma SkipWhiteSpace_loop_to_NUL (mem : list Z) (z : nat) :
  nth_error mem z = Some NUL ->
  forall n p,
    (p + n = z)%nat ->
    exists q, JsonUtil.SkipWhiteSpace_loop (skipn p mem) p = Ok q /\ (p <= q <= z)%nat.
Proof.
  intros Hz n. induction n as [|n IH]; intros p Hp.
  - replace p with z by lia. rewrite (skipn_nth_error _ _ _ Hz).
    exists z. split; [reflexivity | lia].
  - assert (Hlt : (p < List.length mem)%nat).
    { assert (z < List.length mem)%nat by (apply nth_error_Some; congruence). lia. }
    destruct (nth_error mem p) as [c|] eqn:Hc.
    2:{ apply nth_error_None in Hc. lia. }
    rewrite (skipn_nth_error _ _ _ Hc). cbn [JsonUtil.SkipWhiteSpace_loop].
    destruct (JsonUtil.IsWhiteSpace c).
    + destruct (IH (S p)) as (q & Hq & Hle); [lia|]. exists q. split; [exact Hq | lia].
    + exists p. split; [reflexivity | lia].
Qed.

(** X6.  When SkipWhiteSpace returns, it returns the offset of the first
    byte at or after the cursor that is not whitespace for IsWhiteSpace:
    every byte it stepped over is an ASCII whitespace byte, the byte it stops
    at is not, and a second call from the offset returned stays there. *)
Theorem SkipWhiteSpace_first_non_whitespace :
  forall mem p q,
    JsonUtil.SkipWhiteSpace mem (Some p) = Ok (Some q) ->
    (p <= q)%nat /\
    (forall i, (p <= i < q)%nat ->
       exists w, nth_error mem i = Some w /\ JsonUtil.IsWhiteSpace w = true) /\
    (exists c, nth_error mem q = Some c /\ JsonUtil.IsWhiteSpace c = false) /\
    JsonUtil.SkipWhiteSpace mem (Some q) = Ok (Some q).
Proof.
  intros mem p q H. unfold JsonUtil.SkipWhiteSpace in H.
  destruct (JsonUtil.SkipWhiteSpace_loop (skipn p mem) p) as [j| |] eqn:E;
    try discriminate.
  injection H as ->. apply SkipWhiteSpace_loop_inv in E.
  destruct E as (Hle & Hrun & c & Hc & Hws).
  rewrite nth_error_skipn in Hc. replace (p + (q - p))%nat with q in Hc by lia.
  split; [exact Hle|]. split; [|split].
  - intros i Hi. destruct (Hrun (i - p)%nat) as (w & Hw & Hww); [lia|].
    rewrite nth_error_skipn in Hw. replace (p + (i - p))%nat with i in Hw by lia.
    eauto.
  - eauto.
  - unfold JsonUtil.SkipWhiteSpace.
    rewrite (SkipWhiteSpace_run mem q c Hc Hws 0 q); [reflexivity | lia |].
    intros i Hi. lia.
Qed.

(** From offset 1 of space, tab, [1], space: the tab is skipped. *)
Lemma SkipWhiteSpace_first_non_whitespace_witness :
  let mem := [32; 9; 49; 32; NUL] in
  (1 <= 2)%nat /\
  (forall i, (1 <= i < 2)%nat ->
     exists w, nth_error mem i = Some w /\ JsonUtil.IsWhiteSpace w = true) /\
  (exists c, nth_error mem 2 = Some c /\ JsonUtil.IsWhiteSpace c = false) /\
  JsonUtil.SkipWhiteSpace mem (Some 2%nat) = Ok (Some 2%nat).
Proof.
  intros mem.
  refine (SkipWhiteSpace_first_non_whitespace mem 1%nat 2%nat _).
  vm_compute. reflexivity.
Defined.

(** X7.  SkipWhiteSpace does not run past the end of a C string: from a
    cursor at or before a NUL byte it returns an offset between the cursor and
    that NUL, without reading any byte after it.  The NUL is not whitespace,
    so the loop stops there at the latest. *)
Theorem SkipWhiteSpace_stops_at_terminator :
  forall mem p z,
    (p <= z)%nat ->
    nth_error mem z = Some NUL ->
    exists q, JsonUtil.SkipWhiteSpace mem (Some p) = Ok (Some q) /\ (p <= q <= z)%nat.
Proof.
  intros mem p z Hp Hz.
  destruct (SkipWhiteSpace_loop_to_NUL mem z Hz (z - p) p) as (q & Hq & Hle); [lia|].
  exists q. unfold JsonUtil.SkipWhiteSpace. rewrite Hq. auto.
Qed.

(** Two spaces, the NUL at offset 2, then bytes of some other object. *)
Lemma SkipWhiteSpace_stops_at_terminator_witness :
  exists q, JsonUtil.SkipWhiteSpace (cstr "  " ++ [NUL; 32; 32]) (Some 1%nat) = Ok (Some q) /\
            (1 <= q <= 2)%nat.
Proof.
  refine (SkipWhiteSpace_stops_at_terminator (cstr "  " ++ [NUL; 32; 32]) 1%nat 2%nat _ _).
  - lia.
  - reflexivity.
Defined.

(** ** Parse of a text with no value *)

Lemma IsWhiteSpace_not_NUL (c : Z) : JsonUtil.IsWhiteSpace c = true -> (c =? NUL) = false.
Proof.
  intros H. destruct (Z.eqb_spec c NUL) as [->|]; [discriminate | reflexivity].
Qed.

Lemma strlen_from_app (s rest : list Z) :
  forallb (fun c => negb (c =? NUL)) s = true ->
  forall p, strlen_from (s ++ NUL :: rest) p = Ok (p + List.length s)%nat.
Proof.
  intros Hall. induction s as [|c s IH]; intros p; simpl.
  - f_equal. lia.
  - simpl in Hall. apply andb_prop in Hall. destruct Hall as [Hc Hall].
    apply negb_true_iff in Hc. rewrite Hc, (IH Hall). f_equal. lia.
Qed.

Lemma forallb_impl (f g : Z -> bool) (l : list Z) :
  (forall c, f c = true -> g c = true) -> forallb f l = true -> forallb g l = true.
Proof.
  intros Hfg. induction l as [|c l IH]; simpl; [reflexivity|].
  intros H. apply andb_prop in H. destruct H as [Hc Hl].
  now rewrite (Hfg c Hc), (IH Hl).
Qed.

Lemma copy_buffer_whole (text rest : list Z) :
  copy_buffer (text ++ NUL :: rest) (List.length text) = Ok (text ++ [NUL]).
Proof.
  unfold copy_buffer. rewrite length_app. simpl.
  destruct (Nat.leb_spec (List.length text) (List.length text + S (List.length rest)));
    [|lia].
  rewrite firstn_app, Nat.sub_diag, firstn_all. simpl. now rewrite app_nil_r.
Qed.

Lemma read_mem_app (text rest : list Z) (c : Z) :
  read_mem (text ++ c :: rest) (List.length text) = Ok c.
Proof.
  unfold read_mem. rewrite nth_error_app2, Nat.sub_diag by lia. reflexivity.
Qed.

Lemma Parse_empty_document_status d :
  _errorID d = JSON_NO_ERROR ->
  _errorID (SetError_doc JSON_ERROR_EMPTY_DOCUMENT None None d)
  = JSON_ERROR_EMPTY_DOCUMENT.
Proof. intros H. destruct d; simpl in *. subst. reflexivity. Qed.

(** X8.  Parse called with a null pointer, with an empty text, or with a
    text that holds only ASCII whitespace before its terminating NUL returns
    JSON_ERROR_EMPTY_DOCUMENT and leaves the Document without children,
    whatever the document held before the call. *)
Theorem Parse_blank_text :
  (forall len d0,
     status (Parse None len d0) = Some JSON_ERROR_EMPTY_DOCUMENT /\
     tree (Parse None len d0) = Some []) /\
  (forall text rest d0,
     forallb JsonUtil.IsWhiteSpace text = true ->
     status (Parse (Some (text ++ NUL :: rest)) None d0)
       = Some JSON_ERROR_EMPTY_DOCUMENT /\
     tree (Parse (Some (text ++ NUL :: rest)) None d0) = Some []).
Proof.
  split.
  - intros len d0. unfold Parse, SetError, bind, modify, status, tree. cbv beta iota zeta.
    fold (Parse_cleared d0).
    rewrite (Parse_empty_document_status _ (errorID_Parse_cleared d0)).
    now rewrite doc_children_SetError, doc_children_Parse_cleared.
  - intros text rest d0 Hws.
    unfold Parse. cbv zeta. unfold bind at 1 2. unfold modify at 1 2.
    fold (Parse_cleared d0).
    destruct text as [|c text].
    + unfold SetError, bind, lift, modify, status, tree.
      cbn [app read_mem nth_error Z.eqb NUL].
      rewrite (Parse_empty_document_status _ (errorID_Parse_cleared d0)).
      fold (Parse_cleared d0).
      now rewrite doc_children_SetError, doc_children_Parse_cleared.
    + assert (Hc : (c =? NUL) = false).
      { simpl in Hws. apply andb_prop in Hws. now apply IsWhiteSpace_not_NUL. }
      assert (Hlen : strlen ((c :: text) ++ NUL :: rest) = Ok (List.length (c :: text))).
      { unfold strlen. rewrite strlen_from_app; [reflexivity|].
        revert Hws. apply forallb_impl. intros x Hx.
        now rewrite (IsWhiteSpace_not_NUL x Hx). }
      assert (Hskip : JsonUtil.SkipWhiteSpace ((c :: text) ++ NUL :: rest) (Some O)
                      = Ok (Some (List.length (c :: text)))).
      { unfold JsonUtil.SkipWhiteSpace. cbn [skipn].
        rewrite SkipWhiteSpace_loop_blank; [reflexivity | exact Hws | reflexivity]. }
      unfold SetError, bind, lift, modify, status, tree.
      replace (read_mem ((c :: text) ++ NUL :: rest) 0) with (Ok c) by reflexivity.
      rewrite Hc, Hlen, copy_buffer_whole, Hskip, read_mem_app.
      cbn [Z.eqb NUL]. fold (Parse_entry d0 ((c :: text) ++ [NUL])).
      rewrite (Parse_empty_document_status _ (errorID_Parse_entry d0 _)).
      fold (Parse_cleared d0). fold (Parse_entry d0 ((c :: text) ++ [NUL])).
      unfold Parse_entry.
      now rewrite doc_children_SetError, doc_children_with_buffer,
        doc_children_Parse_cleared.
Qed.

(** A space, a line feed and a tab. *)
Lemma Parse_blank_text_witness :
  status (Parse (Some ([32; 10; 9] ++ NUL :: [])) None JsonDocument_new)
    = Some JSON_ERROR_EMPTY_DOCUMENT /\
  tree (Parse (Some ([32; 10; 9] ++ NUL :: [])) None JsonDocument_new) = Some [].
Proof.
  refine (proj2 Parse_blank_text [32; 10; 9] [] JsonDocument_new _).
  reflexivity.
Defined.

(** ** Strings *)

Lemma bind_eq {A B} (m : M A) (k : A -> M B) d a d1 :
  m d = Ok (a, d1) -> bind m k d = k a d1.
Proof. unfold bind. now intros ->. Qed.

Lemma raw_string_no_NUL (n : nat) :
  forall s, (List.length s <= n)%nat -> raw_string s = true ->
            forallb (fun c => negb (c =? NUL)) s = true.
Proof.
  induction n as [|n IH]; intros [|c s] Hlen H; simpl in *; try reflexivity; try lia.
  destruct (c =? DQUOTE); [discriminate|].
  destruct (c =? NUL); [discriminate|]. simpl in *.
  destruct (c =? BACKSLASH).
  - destruct s as [|x s]; [discriminate|]. simpl in *.
    apply andb_prop in H. destruct H as [Hx H]. rewrite Hx. simpl.
    apply IH; [lia | exact H].
  - apply IH; [lia | exact H].
Qed.

Lemma JsonString_scan_raw (n : nat) :
  forall s, (List.length s <= n)%nat -> raw_string s = true ->
  forall rest p,
    JsonString_scan (s ++ DQUOTE :: rest) p = Ok (p + List.length s)%nat.
Proof.
  induction n as [|n IH]; intros [|c s] Hlen H rest p; simpl in *; try lia.
  - f_equal. lia.
  - f_equal. lia.
  - destruct ((c =? DQUOTE) || (c =? NUL)); [discriminate|].
    destruct (c =? BACKSLASH).
    + destruct s as [|x s]; [discriminate|]. simpl in *.
      apply andb_prop in H. destruct H as [_ H].
      rewrite IH; [f_equal; lia | lia | exact H].
    + rewrite IH; [f_equal; lia | lia | exact H].
Qed.

Lemma c_string_at_app (s rest : list Z) :
  forallb (fun c => negb (c =? NUL)) s = true ->
  c_string_at (s ++ NUL :: rest) = s.
Proof.
  induction s as [|c s IH]; simpl; [reflexivity|].
  intros H. apply andb_prop in H. destruct H as [Hc H].
  apply negb_true_iff in Hc. now rewrite Hc, (IH H).
Qed.

Lemma list_set_app (pre post : list Z) (c v : Z) :
  list_set (pre ++ c :: post) (List.length pre) v = pre ++ v :: post.
Proof. induction pre as [|x pre IH]; simpl; [reflexivity | now rewrite IH]. Qed.

Lemma nth_error_middle (pre post : list Z) (c : Z) :
  nth_error (pre ++ c :: post) (List.length pre) = Some c.
Proof. rewrite nth_error_app2, Nat.sub_diag by lia. reflexivity. Qed.

Lemma skipn_middle (pre post : list Z) : skipn (List.length pre) (pre ++ post) = post.
Proof. rewrite skipn_app, Nat.sub_diag, skipn_all. reflexivity. Qed.

Lemma JsonString_ParseDeep_raw sp d pre s post :
  _charBuffer d = Some (pre ++ s ++ DQUOTE :: post) ->
  raw_string s = true ->
  JsonString_ParseDeep sp (Some (List.length pre)) d
  = Ok ((mkStrPair (Some (List.length pre)) (Some (List.length pre + List.length s)%nat),
         Some (List.length pre + List.length s + 1)%nat),
        with_buffer (Some (pre ++ s ++ NUL :: post)) d).
Proof.
  intros Hbuf Hraw. unfold JsonString_ParseDeep.
  assert (Hbytes : bytes_from (Some (List.length pre)) d = Ok (s ++ DQUOTE :: post, d)).
  { unfold bytes_from. rewrite Hbuf, skipn_middle.
    destruct s; reflexivity. }
  rewrite (bind_eq _ _ _ _ _ Hbytes).
  assert (Hscan : lift (JsonString_scan (s ++ DQUOTE :: post) (List.length pre)) d
                  = Ok ((List.length pre + List.length s)%nat, d)).
  { unfold lift. now rewrite (JsonString_scan_raw _ s (le_n _) Hraw). }
  rewrite (bind_eq _ _ _ _ _ Hscan).
  assert (Hnth : nth_error (pre ++ s ++ DQUOTE :: post)
                   (List.length pre + List.length s) = Some DQUOTE).
  { rewrite app_assoc, <- length_app. apply nth_error_middle. }
  assert (Hderef : deref (Some (List.length pre + List.length s)%nat) d = Ok (DQUOTE, d)).
  { unfold deref. now rewrite Hbuf, Hnth. }
  rewrite (bind_eq _ _ _ _ _ Hderef).
  change (DQUOTE =? NUL) with false. cbv iota.
  assert (Hstore : store (List.length pre + List.length s) NUL d
                   = Ok (tt, with_buffer (Some (pre ++ s ++ NUL :: post)) d)).
  { unfold store. rewrite Hbuf.
    destruct (Nat.ltb_spec (List.length pre + List.length s)
                (List.length (pre ++ s ++ DQUOTE :: post))) as [_|Hge].
    - rewrite !app_assoc, <- length_app, list_set_app. reflexivity.
    - rewrite !length_app in Hge. simpl in Hge. lia. }
  rewrite (bind_eq _ _ _ _ _ Hstore). reflexivity.
Qed.

Lemma StrPair_GetStr_raw pre s post :
  raw_string s = true ->
  StrPair_GetStr (pre ++ s ++ NUL :: post)
    (mkStrPair (Some (List.length pre)) (Some (List.length pre + List.length s)%nat))
  = s.
Proof.
  intros Hraw. unfold StrPair_GetStr. cbn [_start _end ptr_eqb].
  destruct (Nat.eqb_spec (List.length pre) (List.length pre + List.length s)) as [E|E].
  - destruct s; [reflexivity | simpl in E; lia].
  - rewrite skipn_middle. apply c_string_at_app.
    now apply (raw_string_no_NUL _ s (le_n _)).
Qed.

(** X9.  On a buffer that holds at the cursor the bytes [s] of a string
    (no NUL, every double quote after a backslash) and then a double quote,
    JsonString::ParseDeep overwrites that closing quote with a NUL, leaves
    the other bytes and the error slot alone, and returns the cursor past
    the quote; GetStr of the node then gives back [s] byte for byte, the
    escape sequences as they were written. *)
Theorem JsonString_ParseDeep_keeps_the_text :
  forall sp d pre s post,
    _charBuffer d = Some (pre ++ s ++ DQUOTE :: post) ->
    raw_string s = true ->
    exists sp' d',
      JsonString_ParseDeep sp (Some (List.length pre)) d
        = Ok ((sp', Some (List.length pre + List.length s + 1)%nat), d') /\
      _charBuffer d' = Some (pre ++ s ++ NUL :: post) /\
      StrPair_GetStr (pre ++ s ++ NUL :: post) sp' = s /\
      error_slot d' = error_slot d.
Proof.
  intros sp d pre s post Hbuf Hraw.
  exists (mkStrPair (Some (List.length pre))
                     (Some (List.length pre + List.length s)%nat)),
    (with_buffer (Some (pre ++ s ++ NUL :: post)) d).
  split; [exact (JsonString_ParseDeep_raw sp d pre s post Hbuf Hraw)|].
  split; [destruct d; reflexivity|].
  split; [now apply StrPair_GetStr_raw | destruct d; reflexivity].
Qed.

Lemma deref_nth d buf i c :
  _charBuffer d = Some buf -> nth_error buf i = Some c -> deref (Some i) d = Ok (c, d).
Proof. intros Hb Hn. unfold deref. now rewrite Hb, Hn. Qed.

Lemma charBuffer_pool v f d : _charBuffer (with_pool v f d) = _charBuffer d.
Proof. destruct d, v; reflexivity. Qed.

Lemma charBuffer_buffer buf d : _charBuffer (with_buffer buf d) = buf.
Proof. destruct d; reflexivity. Qed.

Lemma parse_fuel_S2 buf : exists fuel, parse_fuel buf = S (S fuel).
Proof. exists (S (3 * List.length buf)). unfold parse_fuel. lia. Qed.

Lemma NodeParseDeep_string fuel d s :
  _charBuffer d = Some (DQUOTE :: s ++ [DQUOTE; NUL]) ->
  raw_string s = true ->
  NodeParseDeep (S (S fuel)) [] (Some O) d
  = Ok (([JsonString (mkStrPair (Some 1%nat) (Some (1 + List.length s)%nat))],
         Some (1 + List.length s + 1)%nat),
        with_pool VString MemPool.SetTracked
          (with_buffer (Some (DQUOTE :: s ++ [NUL; NUL]))
             (with_pool VString MemPool.Alloc d))).
Proof.
  intros Hbuf Hraw. cbn [NodeParseDeep]. unfold JsonNode_ParseDeep_body.
  assert (H0 : deref (Some O) d = Ok (DQUOTE, d)).
  { unfold deref. now rewrite Hbuf. }
  rewrite (bind_eq _ _ _ _ _ H0). change (DQUOTE =? NUL) with false. cbv iota.
  assert (Hid : Identify (Some O) d
                = Ok ((Some 1%nat, Some (JsonString (mkStrPair None None))),
                      with_pool VString MemPool.Alloc d)).
  { unfold Identify.
    rewrite (bind_eq _ _ _ _ _ (SkipWhiteSpace_at O d DQUOTE H0 eq_refl)).
    rewrite (bind_eq _ _ _ _ _ H0). reflexivity. }
  rewrite (bind_eq _ _ _ _ _ Hid). cbv beta iota.
  set (d1 := with_pool VString MemPool.Alloc d).
  assert (Hbuf1 : _charBuffer d1 = Some ([DQUOTE] ++ s ++ DQUOTE :: [NUL])).
  { subst d1. destruct d; simpl in *. exact Hbuf. }
  pose proof (JsonString_ParseDeep_raw (mkStrPair None None) d1 [DQUOTE] s [NUL]
                Hbuf1 Hraw) as Hstr.
  cbn [List.length app] in Hstr.
  set (d2 := with_buffer (Some (DQUOTE :: s ++ [NUL; NUL])) d1) in *.
  assert (HP : ParseDeep (S fuel) (JsonString (mkStrPair None None)) (Some 1%nat) d1
               = Ok ((JsonString (mkStrPair (Some 1%nat) (Some (1 + List.length s)%nat)),
                      Some (1 + List.length s + 1)%nat), d2)).
  { cbn [ParseDeep]. rewrite (bind_eq _ _ _ _ _ Hstr). reflexivity. }
  rewrite (bind_eq _ _ _ _ _ HP). cbv beta iota.
  assert (Hbuf2 : _charBuffer d2 = Some (DQUOTE :: s ++ [NUL; NUL])).
  { subst d2. destruct d1; reflexivity. }
  assert (Hend : deref (Some (1 + List.length s + 1)%nat) d2 = Ok (NUL, d2)).
  { unfold deref. rewrite Hbuf2.
    replace (nth_error (DQUOTE :: s ++ [NUL; NUL]) (1 + List.length s + 1))
      with (Some NUL); [reflexivity|].
    symmetry. change (DQUOTE :: s ++ [NUL; NUL]) with ((DQUOTE :: s) ++ [NUL; NUL]).
    rewrite nth_error_app2; simpl; [|lia].
    replace (List.length s + 1 - List.length s)%nat with 1%nat by lia. reflexivity. }
  rewrite (bind_eq _ _ _ _ _ (SkipWhiteSpace_at _ d2 NUL Hend eq_refl)). cbv iota.
  set (d3 := with_pool VString MemPool.SetTracked d2).
  assert (Hins : InsertEndChild []
                   (JsonString (mkStrPair (Some 1%nat) (Some (1 + List.length s)%nat))) d2
                 = Ok ([JsonString (mkStrPair (Some 1%nat) (Some (1 + List.length s)%nat))],
                       d3)) by reflexivity.
  rewrite (bind_eq _ _ _ _ _ Hins).
  assert (Hend3 : deref (Some (1 + List.length s + 1)%nat) d3 = Ok (NUL, d3)).
  { apply deref_Ok in Hend. destruct Hend as (_ & i & buf & Hi & Hb & Hn & _).
    injection Hi as <-. apply (deref_nth d3 buf); [|exact Hn].
    subst d3. now rewrite charBuffer_pool. }
  cbn [NodeParseDeep]. unfold JsonNode_ParseDeep_body.
  rewrite (bind_eq _ _ _ _ _ Hend3). reflexivity.
Qed.

(** The string of [a], a backslash, a double quote and [b], after an
    opening bracket and quote. *)
Lemma JsonString_ParseDeep_keeps_the_text_witness :
  let pre := [ch "["; DQUOTE] in
  let s := [ch "a"; BACKSLASH; DQUOTE; ch "b"] in
  let post := [ch "]"; NUL] in
  let d := with_buffer (Some (pre ++ s ++ DQUOTE :: post)) JsonDocument_new in
  exists sp' d',
    JsonString_ParseDeep (mkStrPair None None) (Some (List.length pre)) d
      = Ok ((sp', Some (List.length pre + List.length s + 1)%nat), d') /\
    _charBuffer d' = Some (pre ++ s ++ NUL :: post) /\
    StrPair_GetStr (pre ++ s ++ NUL :: post) sp' = s /\
    error_slot d' = error_slot d.
Proof.
  intros pre s post d.
  refine (JsonString_ParseDeep_keeps_the_text (mkStrPair None None) d pre s post _ _).
  - reflexivity.
  - reflexivity.
Defined.

Lemma raw_string_quoted_no_NUL s :
  raw_string s = true ->
  forallb (fun c => negb (c =? NUL)) (DQUOTE :: s ++ [DQUOTE]) = true.
Proof.
  intros H. cbn [forallb]. change (negb (DQUOTE =? NUL)) with true. cbn [andb].
  rewrite forallb_app, (raw_string_no_NUL _ s (le_n _) H). reflexivity.
Qed.

(** X10.  A text that is one string between double quotes ([s] with no NUL
    and every double quote after a backslash) parses with JSON_NO_ERROR to
    a Document whose only child is a String spanning the bytes between the
    quotes, and JsonPrinter prints that document as the text itself:
    printing undoes parsing on such a text. *)
Theorem Parse_print_string :
  forall (print_float : c_float -> list Z) (s : list Z),
    raw_string s = true ->
    exists d,
      ParseText (DQUOTE :: s ++ [DQUOTE]) = Ok (JSON_NO_ERROR, d) /\
      doc_children d
        = [JsonString (mkStrPair (Some 1%nat) (Some (1 + List.length s)%nat))] /\
      PrintDocument print_float d = DQUOTE :: s ++ [DQUOTE].
Proof.
  intros print_float s Hraw.
  set (text := DQUOTE :: s ++ [DQUOTE]).
  set (sp := mkStrPair (Some 1%nat) (Some (1 + List.length s)%nat)).
  set (d1 := Parse_entry JsonDocument_new (text ++ [NUL])).
  set (d4 := with_pool VString MemPool.SetTracked
               (with_buffer (Some (DQUOTE :: s ++ [NUL; NUL]))
                  (with_pool VString MemPool.Alloc d1))).
  exists (with_children [JsonString sp] d4).
  assert (Hrun : NodeParseDeep (parse_fuel (text ++ [NUL])) [] (Some O) d1
                 = Ok (([JsonString sp], Some (1 + List.length s + 1)%nat), d4)).
  { destruct (parse_fuel_S2 (text ++ [NUL])) as (fuel & ->).
    apply NodeParseDeep_string; [|exact Hraw].
    subst d1 text. rewrite charBuffer_Parse_entry. cbn [app].
    now rewrite <- app_assoc. }
  split; [|split].
  - unfold ParseText, Parse. cbv zeta.
    erewrite bind_eq by reflexivity. erewrite bind_eq by reflexivity.
    fold (Parse_cleared JsonDocument_new).
    assert (Hread : forall d, lift (read_mem (text ++ [NUL]) 0) d = Ok (DQUOTE, d))
      by reflexivity.
    rewrite (bind_eq _ _ _ _ _ (Hread _)).
    change (DQUOTE =? NUL) with false. cbv iota.
    assert (Hlen : forall d, lift (strlen (text ++ [NUL])) d = Ok (List.length text, d)).
    { intros d. unfold lift, strlen.
      rewrite strlen_from_app; [reflexivity | now apply raw_string_quoted_no_NUL]. }
    rewrite (bind_eq _ _ _ _ _ (Hlen _)).
    assert (Hcopy : forall d, lift (copy_buffer (text ++ [NUL]) (List.length text)) d
                              = Ok (text ++ [NUL], d)).
    { intros d. unfold lift. now rewrite copy_buffer_whole. }
    rewrite (bind_eq _ _ _ _ _ (Hcopy _)).
    erewrite bind_eq by reflexivity.
    fold (Parse_entry JsonDocument_new (text ++ [NUL])). fold d1.
    assert (Hskip : forall d, lift (JsonUtil.SkipWhiteSpace (text ++ [NUL]) (Some O)) d
                              = Ok (Some O, d)) by reflexivity.
    rewrite (bind_eq _ _ _ _ _ (Hskip _)).
    rewrite (bind_eq _ _ _ _ _ (Hread _)).
    change (DQUOTE =? NUL) with false. cbv iota.
    rewrite (bind_eq _ _ _ _ _ Hrun).
    erewrite bind_eq by reflexivity. reflexivity.
  - apply doc_children_with_children.
  - unfold PrintDocument.
    rewrite charBuffer_with_children. subst d4.
    rewrite charBuffer_pool, charBuffer_buffer.
    unfold print_document, JsonDocument_Accept.
    rewrite doc_children_with_children.
    cbn [JsonDocument_Accept_from Accept snd Visit_String JsonPrinter_visitor].
    pose proof (StrPair_GetStr_raw [DQUOTE] s [NUL] Hraw) as Hget.
    cbn [app List.length] in Hget. fold sp in Hget.
    cbv beta iota zeta. cbn [PrintPrevSymbol Parent PreviousSibling ToElement].
    unfold PrintSpace, JsonPrinter_new. cbn [_depth Z.to_nat Nat.iter].
    unfold append. cbn [_out _depth fst snd app]. rewrite Hget. reflexivity.
Qed.

(** The string of [a], a backslash, a double quote and [b]. *)
Lemma Parse_print_string_witness :
  let s := [ch "a"; BACKSLASH; DQUOTE; ch "b"] in
  exists d,
    ParseText (DQUOTE :: s ++ [DQUOTE]) = Ok (JSON_NO_ERROR, d) /\
    doc_children d
      = [JsonString (mkStrPair (Some 1%nat) (Some (1 + List.length s)%nat))] /\
    PrintDocument (fun _ => []) d = DQUOTE :: s ++ [DQUOTE].
Proof.
  intros s.
  refine (Parse_print_string (fun _ => []) s _).
  reflexivity.
Defined.

(** ** JsonPrinter *)

Section PrinterFacts.

Variable print_float : c_float -> list Z.
Variable buf : list Z.

Lemma PrintSpace_frame (n : nat) :
  exists text, forall d out,
    Nat.iter n (append (cstr "    ")) (mkJsonPrinter d out) = mkJsonPrinter d (out ++ text).
Proof.
  induction n as [|n (text & IH)].
  - exists []. intros d out. simpl. now rewrite app_nil_r.
  - exists (text ++ cstr "    "). intros d out.
    change (Nat.iter (S n) (append (cstr "    ")) (mkJsonPrinter d out))
      with (append (cstr "    ")
              (Nat.iter n (append (cstr "    ")) (mkJsonPrinter d out))).
    rewrite IH.
    unfold append. cbn [_depth _out]. now rewrite app_assoc.
Qed.

Lemma PrintPrevSymbol_frame (links : Links) (node : JsonNode) (depth : Z) :
  exists text, forall out,
    PrintPrevSymbol links node (mkJsonPrinter depth out)
    = mkJsonPrinter depth (out ++ text).
Proof.
  destruct (PrintSpace_frame (Z.to_nat depth)) as (sp & Hsp).
  unfold PrintPrevSymbol, PrintSpace, append.
  destruct (Parent links) as [parent|], (PreviousSibling links) as [prev|];
    try destruct (Owner_ToElement parent); destruct (ToElement node);
    cbn [_depth _out].
  all: try (exists []; intros out; now rewrite app_nil_r).
  all: try (exists sp; intros out; now rewrite Hsp).
  all: try (exists (cstr " : "); intros out; reflexivity).
  - exists [ch ","; 10]. intros out. reflexivity.
  - exists ([ch ","; 10] ++ sp). intros out. now rewrite Hsp, app_assoc.
Qed.

Lemma exit_frame (close : list Z) (depth : Z) :
  exists text, forall out,
    exit close (mkJsonPrinter (depth + 1) out) = (true, mkJsonPrinter depth (out ++ text)).
Proof.
  destruct (PrintSpace_frame (Z.to_nat depth)) as (sp & Hsp).
  exists ([10] ++ sp ++ close). intros out.
  unfold exit, append, PrintSpace. cbn [_depth _out].
  replace (depth + 1 - 1) with depth by lia.
  rewrite Hsp. cbn [_depth _out]. now rewrite <- !app_assoc.
Qed.

Lemma visit_children_frame (parent : JsonNode) (cs : list JsonNode) :
  Forall (fun c => forall links depth,
            exists text, forall out,
              Accept (visitor := JsonPrinter_visitor print_float buf) links c (mkJsonPrinter depth out)
              = (true, mkJsonPrinter depth (out ++ text))) cs ->
  forall prev depth,
  exists text, forall out,
    (fix visit_children (prev : option JsonNode) (cs0 : list JsonNode)
         (s : JsonPrinter) {struct cs0} : JsonPrinter :=
       match cs0 with
       | [] => s
       | c :: cs' =>
           let '(continue, s') :=
             Accept (visitor := JsonPrinter_visitor print_float buf) (mkLinks (Some (OwnerNode parent)) prev) c s in
           if continue then visit_children (Some c) cs' s' else s'
       end) prev cs (mkJsonPrinter depth out)
    = mkJsonPrinter depth (out ++ text).
Proof.
  induction 1 as [|c cs Hc _ IH]; intros prev depth.
  - exists []. intros out. now rewrite app_nil_r.
  - destruct (Hc (mkLinks (Some (OwnerNode parent)) prev) depth) as (t1 & H1).
    destruct (IH (Some c) depth) as (t2 & H2).
    exists (t1 ++ t2). intros out. rewrite H1, H2. now rewrite app_assoc.
Qed.

Lemma enter_frame (open : list Z) (links : Links) (node : JsonNode) (depth : Z) :
  exists text, forall out,
    enter open links node (mkJsonPrinter depth out)
    = (true, mkJsonPrinter (depth + 1) (out ++ text)).
Proof.
  destruct (PrintPrevSymbol_frame links node depth) as (p & Hp).
  exists (p ++ open ++ [10]). intros out. unfold enter, append. rewrite Hp.
  cbn [_depth _out]. now rewrite <- app_assoc.
Qed.

Lemma Accept_frame (node : JsonNode) :
  forall links depth,
  exists text, forall out,
    Accept (visitor := JsonPrinter_visitor print_float buf) links node (mkJsonPrinter depth out)
    = (true, mkJsonPrinter depth (out ++ text)).
Proof.
  induction node as [t|f i|sp|cs IH|cs IH|cs IH] using JsonNode_tree_ind;
    intros links depth.
  - destruct (PrintPrevSymbol_frame links (JsonReserved t) depth) as (p & Hp).
    cbn [Accept Visit_Reserved JsonPrinter_visitor]. unfold append.
    destruct t.
    + exists p. intros out. now rewrite Hp.
    + exists (p ++ cstr "null"). intros out. rewrite Hp. cbn [_depth _out].
      now rewrite app_assoc.
    + exists (p ++ cstr "true"). intros out. rewrite Hp. cbn [_depth _out].
      now rewrite app_assoc.
    + exists (p ++ cstr "flase"). intros out. rewrite Hp. cbn [_depth _out].
      now rewrite app_assoc.
  - destruct (PrintPrevSymbol_frame links (JsonNumber f i) depth) as (p & Hp).
    cbn [Accept Visit_Number JsonPrinter_visitor]. unfold append.
    exists (p ++ print_float f). intros out. rewrite Hp. cbn [_depth _out].
    now rewrite app_assoc.
  - destruct (PrintPrevSymbol_frame links (JsonString sp) depth) as (p & Hp).
    cbn [Accept Visit_String JsonPrinter_visitor]. unfold append.
    exists (p ++ DQUOTE :: StrPair_GetStr buf sp ++ [DQUOTE]). intros out.
    rewrite Hp. cbn [_depth _out]. now rewrite app_assoc.
  - destruct (PrintPrevSymbol_frame links (JsonElement cs) depth) as (p & Hp).
    destruct (visit_children_frame (JsonElement cs) cs IH None depth) as (t & Ht).
    exists (p ++ t). intros out.
    cbn [Accept VisitEnter_Element VisitExit_Element JsonPrinter_visitor].
    rewrite Hp, Ht. now rewrite app_assoc.
  - destruct (enter_frame (cstr "{") links (JsonObject cs) depth) as (p & Hp).
    destruct (visit_children_frame (JsonObject cs) cs IH None (depth + 1)) as (t & Ht).
    destruct (exit_frame (cstr "}") depth) as (q & Hq).
    exists (p ++ t ++ q). intros out.
    cbn [Accept VisitEnter_Object VisitExit_Object JsonPrinter_visitor].
    rewrite Hp, Ht, Hq. now rewrite <- !app_assoc.
  - destruct (enter_frame (cstr "[") links (JsonArray cs) depth) as (p & Hp).
    destruct (visit_children_frame (JsonArray cs) cs IH None (depth + 1)) as (t & Ht).
    destruct (exit_frame (cstr "]") depth) as (q & Hq).
    exists (p ++ t ++ q). intros out.
    cbn [Accept VisitEnter_Array VisitExit_Array JsonPrinter_visitor].
    rewrite Hp, Ht, Hq. now rewrite <- !app_assoc.
Qed.

Lemma Accept_from_frame (cs : list JsonNode) :
  forall prev depth,
  exists text, forall out,
    JsonDocument_Accept_from (visitor := JsonPrinter_visitor print_float buf) prev cs (mkJsonPrinter depth out)
    = mkJsonPrinter depth (out ++ text).
Proof.
  induction cs as [|c cs IH]; intros prev depth.
  - exists []. intros out. simpl. now rewrite app_nil_r.
  - destruct (Accept_frame c (mkLinks (Some OwnerDocument) prev) depth) as (t1 & H1).
    destruct (IH (Some c) depth) as (t2 & H2).
    exists (t1 ++ t2). intros out. cbn [JsonDocument_Accept_from].
    rewrite H1, H2. now rewrite app_assoc.
Qed.

Lemma PrintPrevSymbol_after_sibling (prev node : JsonNode) (pr : JsonPrinter) :
  PrintPrevSymbol (mkLinks (Some OwnerDocument) (Some prev)) node pr
  = PrintPrevSymbol (mkLinks (Some OwnerDocument) None) node (append [ch ","; 10] pr).
Proof. reflexivity. Qed.

Lemma Accept_after_sibling (prev node : JsonNode) (pr : JsonPrinter) :
  Accept (visitor := JsonPrinter_visitor print_float buf) (mkLinks (Some OwnerDocument) (Some prev)) node pr
  = Accept (visitor := JsonPrinter_visitor print_float buf) (mkLinks (Some OwnerDocument) None) node
      (append [ch ","; 10] pr).
Proof.
  destruct node;
    cbn [Accept Visit_Reserved Visit_Number Visit_String VisitEnter_Element
           VisitExit_Element VisitEnter_Object VisitExit_Object VisitEnter_Array
           VisitExit_Array JsonPrinter_visitor];
    unfold enter; rewrite PrintPrevSymbol_after_sibling; reflexivity.
Qed.

Lemma print_document_one (d : JsonDocument) (c : JsonNode) (text : list Z) :
  (forall out,
     Accept (visitor := JsonPrinter_visitor print_float buf) (mkLinks (Some OwnerDocument) None) c
       (mkJsonPrinter 0 out) = (true, mkJsonPrinter 0 (out ++ text))) ->
  print_document print_float buf (with_children [c] d) = text.
Proof.
  intros H. unfold print_document, JsonDocument_Accept.
  rewrite doc_children_with_children. cbn [JsonDocument_Accept_from snd].
  unfold JsonPrinter_new. rewrite H. reflexivity.
Qed.

Lemma Accept_from_joined (d : JsonDocument) (cs : list JsonNode) :
  forall prev out,
    JsonDocument_Accept_from (visitor := JsonPrinter_visitor print_float buf) (Some prev) cs (mkJsonPrinter 0 out)
    = mkJsonPrinter 0
        (out ++ List.concat (map (fun c => [ch ","; 10]
                               ++ print_document print_float buf (with_children [c] d))
                          cs)).
Proof.
  induction cs as [|c cs IH]; intros prev out.
  - simpl. now rewrite app_nil_r.
  - destruct (Accept_frame c (mkLinks (Some OwnerDocument) None) 0) as (t & Ht).
    cbn [JsonDocument_Accept_from map List.concat].
    rewrite Accept_after_sibling. unfold append. cbn [_depth _out].
    rewrite Ht, IH, (print_document_one d c t Ht). now rewrite <- !app_assoc.
Qed.

End PrinterFacts.

(** X11.  Accept with a JsonPrinter, on any node and on a Document, goes
    through the whole tree (every visit returns true), only appends to the
    printer's output, and leaves [_depth] as it found it; the text appended
    depends on the node, its links and the depth, not on what the printer
    already holds.  A printer that is used again goes on after its earlier
    output. *)
Theorem JsonPrinter_appends_and_restores_depth :
  forall (print_float : c_float -> list Z) (buf : list Z),
    (forall links node depth,
     exists text, forall out,
       Accept (visitor := JsonPrinter_visitor print_float buf) links node
         (mkJsonPrinter depth out)
       = (true, mkJsonPrinter depth (out ++ text))) /\
    (forall d depth,
     exists text, forall out,
       JsonDocument_Accept (visitor := JsonPrinter_visitor print_float buf) d
         (mkJsonPrinter depth out)
       = (true, mkJsonPrinter depth (out ++ text))).
Proof.
  intros print_float buf. split.
  - intros links node depth. apply Accept_frame.
  - intros d depth.
    destruct (Accept_from_frame print_float buf (doc_children d) None depth) as (t & Ht).
    exists t. intros out. unfold JsonDocument_Accept. now rewrite Ht.
Qed.

(** X12.  The text JsonPrinter gives for a Document with several top-level
    values is the text of the Document with the first value alone, followed
    for each later value by a comma, a line feed and the text of the
    Document with that value alone. *)
Theorem print_document_joins_top_level_values :
  forall (print_float : c_float -> list Z) (buf : list Z) (d : JsonDocument) c cs,
    doc_children d = c :: cs ->
    print_document print_float buf d
    = print_document print_float buf (with_children [c] d)
      ++ List.concat (map (fun c' => [ch ","; 10]
                          ++ print_document print_float buf (with_children [c'] d))
                   cs).
Proof.
  intros print_float buf d c cs Hd.
  destruct (Accept_frame print_float buf c (mkLinks (Some OwnerDocument) None) 0)
    as (t & Ht).
  rewrite (print_document_one print_float buf d c t Ht).
  unfold print_document, JsonDocument_Accept. rewrite Hd.
  cbn [JsonDocument_Accept_from snd]. unfold JsonPrinter_new.
  rewrite Ht, (Accept_from_joined print_float buf d cs c). reflexivity.
Qed.

(** A Document holding [null] and [true]. *)
Lemma print_document_joins_top_level_values_witness :
  let d := with_children [JsonReserved JsonReserved.RESERVED_NULL;
                          JsonReserved JsonReserved.RESERVED_TRUE] JsonDocument_new in
  print_document (fun _ => []) [] d
  = print_document (fun _ => []) []
      (with_children [JsonReserved JsonReserved.RESERVED_NULL] d)
    ++ List.concat
         (map (fun c' => [ch ","; 10]
                           ++ print_document (fun _ => []) [] (with_children [c'] d))
            [JsonReserved JsonReserved.RESERVED_TRUE]).
Proof.
  intros d.
  refine (print_document_joins_top_level_values (fun _ => []) [] d
            (JsonReserved JsonReserved.RESERVED_NULL)
            [JsonReserved JsonReserved.RESERVED_TRUE] _).
  reflexivity.
Defined.

(** ** DynArray *)

Section DynArrayFacts.

Variable T : Type.

Lemma DynArray_int_Some (z : Z) :
  DynArray.INT_MIN <= z <= DynArray.INT_MAX -> DynArray.int z = Some z.
Proof.
  intros [H1 H2]. unfold DynArray.int.
  destruct (Z.leb_spec DynArray.INT_MIN z); [|lia].
  destruct (Z.leb_spec z DynArray.INT_MAX); [reflexivity | lia].
Qed.

Lemma DynArray_length_assign (l : list (option T)) (i : nat) (v : T) :
  List.length (DynArray.assign l i v) = List.length l.
Proof.
  revert i; induction l as [|c l IH]; intros [|i]; simpl; auto.
Qed.

Lemma DynArray_assign_firstn (l : list (option T)) (i : nat) (v : T) :
  (i < List.length l)%nat ->
  firstn (S i) (DynArray.assign l i v) = firstn i l ++ [Some v].
Proof.
  revert i; induction l as [|c l IH]; intros [|i] H; simpl in *; try lia.
  - reflexivity.
  - f_equal. apply IH. lia.
Qed.

Lemma DynArray_assign_nth (l : list (option T)) (i : nat) (v : T) :
  (i < List.length l)%nat -> nth_error (DynArray.assign l i v) i = Some (Some v).
Proof.
  revert i; induction l as [|c l IH]; intros [|i] H; simpl in *; try lia.
  - reflexivity.
  - apply IH. lia.
Qed.

Lemma DynArray_assign_firstn_below (l : list (option T)) (i : nat) (v : T) :
  firstn i (DynArray.assign l i v) = firstn i l.
Proof.
  revert i; induction l as [|c l IH]; intros [|i]; simpl; auto.
  f_equal. apply IH.
Qed.

(** What EnsureCapacity does to an array whose members agree. *)
Lemma DynArray_EnsureCapacity_bounds (cap : Z) (a : DynArray.t T) :
  DynArray.bounds a ->
  DynArray._size a <= cap ->
  cap * 2 <= DynArray.INT_MAX ->
  exists a',
    DynArray.EnsureCapacity cap a = Some a' /\
    DynArray.bounds a' /\
    DynArray._size a' = DynArray._size a /\
    DynArray.contents a' = DynArray.contents a /\
    cap <= DynArray._allocated a' /\
    DynArray._allocated a'
    = (if cap >? DynArray._allocated a then cap * 2 else DynArray._allocated a) /\
    DynArray._mem_is_pool a'
    = (if cap >? DynArray._allocated a then false else DynArray._mem_is_pool a).
Proof.
  intros (Hs & Hl) Hcap Hmax. unfold DynArray.EnsureCapacity.
  destruct (Z.gtb_spec cap (DynArray._allocated a)) as [Hgt|Hle].
  - rewrite DynArray_int_Some by (unfold DynArray.INT_MIN; lia).
    destruct (Z.leb_spec 0 (DynArray._size a)); [|lia].
    destruct (Z.leb_spec (DynArray._size a) (Z.of_nat (List.length (DynArray._mem a))));
      [|lia].
    destruct (Z.leb_spec (DynArray._size a) (cap * 2)); [|lia].
    cbn [andb]. eexists. split; [reflexivity|].
    unfold DynArray.bounds, DynArray.contents. cbn [DynArray._size DynArray._allocated DynArray._mem].
    assert (Hf : List.length (firstn (Z.to_nat (DynArray._size a)) (DynArray._mem a))
                 = Z.to_nat (DynArray._size a)).
    { apply firstn_length_le. lia. }
    repeat split; try lia.
    + rewrite length_app, repeat_length, Hf. lia.
    + rewrite firstn_app, Hf, Nat.sub_diag, firstn_firstn, Nat.min_id. simpl.
      now rewrite app_nil_r.
  - exists a. repeat split; auto; lia.
Qed.

Lemma DynArray_Push_bounds (x : T) (a : DynArray.t T) :
  DynArray.bounds a ->
  (DynArray._size a + 1) * 2 <= DynArray.INT_MAX ->
  exists a',
    DynArray.Push x a = Some a' /\
    DynArray.bounds a' /\
    DynArray._size a' = DynArray._size a + 1 /\
    DynArray.contents a' = DynArray.contents a ++ [Some x] /\
    nth_error (DynArray._mem a') (Z.to_nat (DynArray._size a)) = Some (Some x) /\
    firstn (Z.to_nat (DynArray._size a)) (DynArray._mem a') = DynArray.contents a /\
    DynArray._allocated a'
    = (if DynArray._size a <? DynArray._allocated a then DynArray._allocated a
       else (DynArray._size a + 1) * 2) /\
    DynArray._mem_is_pool a'
    = (if DynArray._size a <? DynArray._allocated a then DynArray._mem_is_pool a
       else false).
Proof.
  intros Hb Hmax. pose proof Hb as (Hs & Hl). unfold DynArray.Push.
  rewrite DynArray_int_Some by (unfold DynArray.INT_MIN, DynArray.INT_MAX in *; lia).
  destruct (DynArray_EnsureCapacity_bounds (DynArray._size a + 1) a Hb)
    as (a1 & -> & (Hs1 & Hl1) & Hsz & Hc & Hcap & Hal & Hpool); [lia | lia |].
  destruct (Z.leb_spec 0 (DynArray._size a1)); [|lia].
  destruct (Z.ltb_spec (DynArray._size a1) (Z.of_nat (List.length (DynArray._mem a1))));
    [|lia].
  cbn [andb]. eexists. split; [reflexivity|].
  unfold DynArray.bounds, DynArray.contents in *.
  cbn [DynArray._size DynArray._allocated DynArray._mem DynArray._mem_is_pool].
  assert (Hlt : (Z.to_nat (DynArray._size a1) < List.length (DynArray._mem a1))%nat) by lia.
  split; [|split; [|split; [|split; [|split; [|split]]]]].
  - rewrite DynArray_length_assign. lia.
  - lia.
  - replace (Z.to_nat (DynArray._size a1 + 1)) with (S (Z.to_nat (DynArray._size a1)))
      by lia.
    rewrite DynArray_assign_firstn by exact Hlt. now rewrite Hc.
  - rewrite <- Hsz. now apply DynArray_assign_nth.
  - rewrite <- Hsz, DynArray_assign_firstn_below, Hc. now rewrite Hsz.
  - rewrite Hal.
    destruct (Z.gtb_spec (DynArray._size a + 1) (DynArray._allocated a)),
             (Z.ltb_spec (DynArray._size a) (DynArray._allocated a)); lia.
  - rewrite Hpool.
    destruct (Z.gtb_spec (DynArray._size a + 1) (DynArray._allocated a)),
             (Z.ltb_spec (DynArray._size a) (DynArray._allocated a));
      try reflexivity; lia.
Qed.

End DynArrayFacts.

(** X13.  On a DynArray whose members agree (0 <= _size <= _allocated, the
    length of [_mem]) and small enough for [(_size + 1) * 2] to be an int,
    Push(t) adds one cell holding [t] after the cells in use, which keep
    their values, so that [operator[]] gives [t] at the old Size(); the
    capacity stays when a cell was left and becomes [(_size + 1) * 2]
    otherwise, and only then does the array leave [_pool]. *)
Theorem DynArray_Push_appends :
  forall (T : Type) (x : T) (a : DynArray.t T),
    DynArray.bounds a ->
    (DynArray._size a + 1) * 2 <= DynArray.INT_MAX ->
    exists a',
      DynArray.Push x a = Some a' /\
      DynArray.bounds a' /\
      DynArray.Size a' = DynArray.Size a + 1 /\
      DynArray.contents a' = DynArray.contents a ++ [Some x] /\
      DynArray.at_ (DynArray.Size a) a' = Some x /\
      DynArray.Capacity a'
      = (if DynArray.Size a <? DynArray.Capacity a then DynArray.Capacity a
         else (DynArray.Size a + 1) * 2) /\
      DynArray._mem_is_pool a'
      = (if DynArray.Size a <? DynArray.Capacity a then DynArray._mem_is_pool a
         else false).
Proof.
  intros T x a Hb Hmax.
  destruct (DynArray_Push_bounds T x a Hb Hmax)
    as (a' & HP & Hb' & Hs & Hc & Hn & _ & Ha & Hp).
  exists a'. unfold DynArray.Size, DynArray.Capacity.
  repeat (split; [assumption|]). split; [|split; assumption].
  unfold DynArray.at_. destruct Hb as ((H0 & _) & _).
  destruct (Z.geb_spec (DynArray._size a) 0); [|lia].
  destruct (Z.ltb_spec (DynArray._size a) (DynArray._size a')); [|lia].
  cbn [andb]. now rewrite Hn.
Qed.

(** A full array of two cells: the push moves it to a new array of six. *)
Lemma DynArray_Push_appends_witness :
  let a := DynArray.mk [Some 7; Some 8] true 2 2 in
  exists a',
    DynArray.Push 9 a = Some a' /\
    DynArray.bounds a' /\
    DynArray.Size a' = DynArray.Size a + 1 /\
    DynArray.contents a' = DynArray.contents a ++ [Some 9] /\
    DynArray.at_ (DynArray.Size a) a' = Some 9 /\
    DynArray.Capacity a'
    = (if DynArray.Size a <? DynArray.Capacity a then DynArray.Capacity a
       else (DynArray.Size a + 1) * 2) /\
    DynArray._mem_is_pool a'
    = (if DynArray.Size a <? DynArray.Capacity a then DynArray._mem_is_pool a
       else false).
Proof.
  intros a.
  refine (DynArray_Push_appends Z 9 a _ _).
  - unfold DynArray.bounds. simpl. lia.
  - vm_compute. discriminate.
Defined.

(** X14.  On such a DynArray, Pop() after Push(t) returns [t] and leaves the
    size and the cells in use as they were before the push.  Pop() on an
    empty array is undefined: it reads [_mem[-1]]. *)
Theorem DynArray_Pop_undoes_Push :
  forall (T : Type) (x : T) (a : DynArray.t T),
    DynArray.bounds a ->
    (DynArray._size a + 1) * 2 <= DynArray.INT_MAX ->
    (exists a1 a2,
       DynArray.Push x a = Some a1 /\
       DynArray.Pop a1 = Some (x, a2) /\
       DynArray.Size a2 = DynArray.Size a /\
       DynArray.contents a2 = DynArray.contents a) /\
    (DynArray.Empty a = true -> DynArray.Pop a = None).
Proof.
  intros T x a Hb Hmax. split.
  - destruct (DynArray_Push_bounds T x a Hb Hmax)
      as (a1 & HP & Hb1 & Hs & Hc & Hn & Hf & Ha & _).
    destruct Hb as ((H0 & _) & _).
    exists a1. eexists. split; [exact HP|].
    unfold DynArray.Pop. rewrite Hs.
    replace (DynArray._size a + 1 - 1) with (DynArray._size a) by lia.
    rewrite DynArray_int_Some
      by (unfold DynArray.INT_MIN, DynArray.INT_MAX in *; lia).
    destruct (Z.leb_spec 0 (DynArray._size a)); [|lia].
    rewrite Hn. split; [reflexivity|].
    unfold DynArray.Size, DynArray.contents in *.
    cbn [DynArray._size DynArray._mem]. split; [reflexivity | exact Hf].
  - unfold DynArray.Empty, DynArray.Pop. intros H. apply Z.eqb_eq in H. rewrite H.
    reflexivity.
Qed.

(** The array a new DynArray<T, 2> becomes after one push. *)
Lemma DynArray_Pop_undoes_Push_witness :
  let a := DynArray.mk [Some 7; None] true 2 1 in
  (exists a1 a2,
     DynArray.Push 9 a = Some a1 /\
     DynArray.Pop a1 = Some (9, a2) /\
     DynArray.Size a2 = DynArray.Size a /\
     DynArray.contents a2 = DynArray.contents a) /\
  (DynArray.Empty a = true -> DynArray.Pop a = None).
Proof.
  intros a.
  refine (DynArray_Pop_undoes_Push Z 9 a _ _).
  - unfold DynArray.bounds. simpl. lia.
  - vm_compute. discriminate.
Defined.

(** X15.  On such a DynArray, PushArr(count) with [count >= 0] returns the
    position after the cells in use (the old Size()) and adds [count] cells
    after them without touching them; PopArr(count) then gives back the
    size and the cells in use.  PopArr of more cells than the array holds
    fails its assertion. *)
Theorem DynArray_PopArr_undoes_PushArr :
  forall (T : Type) (count : Z) (a : DynArray.t T),
    DynArray.bounds a ->
    0 <= count ->
    (DynArray._size a + count) * 2 <= DynArray.INT_MAX ->
    (exists a1 a2,
       DynArray.PushArr count a = Some (DynArray.Size a, a1) /\
       DynArray.bounds a1 /\
       DynArray.Size a1 = DynArray.Size a + count /\
       firstn (Z.to_nat (DynArray.Size a)) (DynArray.contents a1) = DynArray.contents a /\
       DynArray.PopArr count a1 = Some a2 /\
       DynArray.Size a2 = DynArray.Size a /\
       DynArray.contents a2 = DynArray.contents a) /\
    (DynArray.Size a < count -> DynArray.PopArr count a = None).
Proof.
  intros T count a Hb Hcount Hmax. pose proof Hb as ((H0 & Hsa) & Hl). split.
  - unfold DynArray.PushArr.
    rewrite DynArray_int_Some by (unfold DynArray.INT_MIN, DynArray.INT_MAX in *; lia).
    destruct (DynArray_EnsureCapacity_bounds T (DynArray._size a + count) a Hb)
      as (a1 & -> & (Hs1 & Hl1) & Hsz & Hc & Hcap & _); [lia | lia |].
    destruct (Z.leb_spec 0 (DynArray._size a1)); [|lia].
    destruct (Z.leb_spec (DynArray._size a1) (Z.of_nat (List.length (DynArray._mem a1))));
      [|lia].
    cbn [andb].
    exists (DynArray.mk (DynArray._mem a1) (DynArray._mem_is_pool a1)
              (DynArray._allocated a1) (DynArray._size a1 + count)),
      (DynArray.mk (DynArray._mem a1) (DynArray._mem_is_pool a1)
         (DynArray._allocated a1) (DynArray._size a1)).
    unfold DynArray.Size, DynArray.PopArr, DynArray.bounds, DynArray.contents in *.
    cbn [DynArray._size DynArray._allocated DynArray._mem DynArray._mem_is_pool].
    destruct (Z.geb_spec (DynArray._size a1 + count) count); [|lia].
    replace (DynArray._size a1 + count - count) with (DynArray._size a1) by lia.
    rewrite DynArray_int_Some by (unfold DynArray.INT_MIN, DynArray.INT_MAX in *; lia).
    rewrite Hsz.
    split; [reflexivity|]. split; [lia|]. split; [reflexivity|].
    split; [|split; [reflexivity|]].
    + rewrite firstn_firstn.
      replace (Init.Nat.min (Z.to_nat (DynArray._size a))
                 (Z.to_nat (DynArray._size a + count)))
        with (Z.to_nat (DynArray._size a)) by lia.
      rewrite Hsz in Hc. exact Hc.
    + split; [reflexivity|]. rewrite Hsz in Hc. exact Hc.
  - intros Hlt. unfold DynArray.PopArr, DynArray.Size in *.
    destruct (Z.geb_spec (DynArray._size a) count); [lia | reflexivity].
Qed.

(** Three cells asked of an array that has room for one more. *)
Lemma DynArray_PopArr_undoes_PushArr_witness :
  let a := DynArray.mk [Some 7; None] true 2 1 in
  (exists a1 a2,
     DynArray.PushArr 3 a = Some (DynArray.Size a, a1) /\
     DynArray.bounds a1 /\
     DynArray.Size a1 = DynArray.Size a + 3 /\
     firstn (Z.to_nat (DynArray.Size a)) (DynArray.contents a1) = DynArray.contents a /\
     DynArray.PopArr 3 a1 = Some a2 /\
     DynArray.Size a2 = DynArray.Size a /\
     DynArray.contents a2 = DynArray.contents a) /\
  (DynArray.Size a < 3 -> DynArray.PopArr 3 a = None).
Proof.
  intros a.
  refine (DynArray_PopArr_undoes_PushArr Z 3 a _ _ _).
  - unfold DynArray.bounds. simpl. lia.
  - lia.
  - vm_compute. discriminate.
Defined.

(** ** MemPoolT: blocks and free list *)

Section BlocksFacts.

Variable SIZE : Z.

Lemma Blocks_assign_Some {A : Type} (l : list A) (i : nat) (v : A) :
  (i < List.length l)%nat ->
  exists l',
    Blocks.assign l i v = Some l' /\
    List.length l' = List.length l /\
    nth_error l' i = Some v /\
    (forall j, j <> i -> nth_error l' j = nth_error l j).
Proof.
  revert i; induction l as [|c l IH]; intros [|i] H; simpl in *; try lia.
  - exists (v :: l). repeat split; auto. intros [|j] Hj; [contradiction | reflexivity].
  - destruct (IH i) as (l' & -> & Hlen & Hnth & Hother); [lia|].
    exists (c :: l'). simpl. repeat split; auto.
    intros [|j] Hj; [reflexivity|]. simpl. apply Hother. congruence.
Qed.

Lemma Blocks_assign_Forall {A : Type} (P : A -> Prop) (l l' : list A) (i : nat) (v : A) :
  Blocks.assign l i v = Some l' -> Forall P l -> P v -> Forall P l'.
Proof.
  revert i l'; induction l as [|c l IH]; intros [|i] l' H Hall Hv; simpl in *;
    try discriminate.
  - injection H as <-. inversion Hall; subst. now constructor.
  - destruct (Blocks.assign l i v) as [r|] eqn:E; [|discriminate].
    injection H as <-. inversion Hall; subst. constructor; [assumption|].
    now apply (IH i).
Qed.

Lemma Blocks_read_next_chunk_of (h : list (list Blocks.Chunk)) (p : nat * nat) q :
  Forall (fun chunk => List.length chunk = Blocks.COUNT SIZE) h ->
  Blocks.read_next h p = Some q -> Blocks.chunk_of SIZE h p.
Proof.
  intros Hall H. unfold Blocks.read_next in H.
  destruct (nth_error h (fst p)) as [chunk|] eqn:E1; [|discriminate].
  destruct (nth_error chunk (snd p)) as [c|] eqn:E2; [|discriminate].
  split.
  - apply nth_error_Some. congruence.
  - rewrite Forall_forall in Hall. rewrite <- (Hall chunk).
    + apply nth_error_Some. congruence.
    + eapply nth_error_In. exact E1.
Qed.

(** What a write to a chunk of a block does to the reads. *)
Lemma Blocks_write_Some (h : list (list Blocks.Chunk)) (p : nat * nat) (v : Blocks.Chunk) :
  Forall (fun chunk => List.length chunk = Blocks.COUNT SIZE) h ->
  Blocks.chunk_of SIZE h p ->
  exists h',
    Blocks.write h p v = Some h' /\
    List.length h' = List.length h /\
    Forall (fun chunk => List.length chunk = Blocks.COUNT SIZE) h' /\
    Blocks.read_next h' p
    = match v with Blocks.next q => Some q | Blocks.mem => None end /\
    (forall q, q <> p -> Blocks.read_next h' q = Blocks.read_next h q).
Proof.
  intros Hall [Hb Hi]. unfold Blocks.write.
  destruct (nth_error h (fst p)) as [chunk|] eqn:E1.
  2:{ apply nth_error_None in E1. lia. }
  assert (Hlen : List.length chunk = Blocks.COUNT SIZE).
  { rewrite Forall_forall in Hall. apply Hall. eapply nth_error_In. exact E1. }
  destruct (Blocks_assign_Some chunk (snd p) v) as (chunk' & -> & Hl1 & Hn1 & Ho1); [lia|].
  destruct (Blocks_assign_Some h (fst p) chunk' Hb) as (h' & Hh' & Hl2 & Hn2 & Ho2).
  exists h'. split; [exact Hh'|]. split; [exact Hl2|]. split; [|split].
  - eapply Blocks_assign_Forall; [exact Hh' | exact Hall | congruence].
  - unfold Blocks.read_next. rewrite Hn2, Hn1. reflexivity.
  - intros q Hq. unfold Blocks.read_next.
    destruct (Nat.eq_dec (fst q) (fst p)) as [Ef|Ef].
    + rewrite Ef, Hn2, E1. rewrite Ho1; [reflexivity|].
      intros Es. apply Hq. destruct p, q; simpl in *; congruence.
    + now rewrite (Ho2 _ Ef).
Qed.


Lemma Blocks_chain_reads (h h' : list (list Blocks.Chunk)) r l :
  Blocks.chain h r l ->
  (forall p, In p l -> Blocks.read_next h' p = Blocks.read_next h p) ->
  Blocks.chain h' r l.
Proof.
  induction 1 as [|p q l Hp _ IH]; intros Hsame; [constructor|].
  apply Blocks.chain_cons with (q := q).
  - rewrite Hsame; [exact Hp | now left].
  - apply IH. intros x Hx. apply Hsame. now right.
Qed.

Lemma Blocks_read_next_app (h : list (list Blocks.Chunk)) chunk (p : nat * nat) :
  (fst p < List.length h)%nat ->
  Blocks.read_next (h ++ [chunk]) p = Blocks.read_next h p.
Proof.
  intros H. unfold Blocks.read_next. now rewrite nth_error_app1.
Qed.

Lemma Blocks_linked_length (block : nat) :
  (0 < Blocks.COUNT SIZE)%nat ->
  List.length (Blocks.linked SIZE block) = Blocks.COUNT SIZE.
Proof.
  intros H. unfold Blocks.linked. rewrite length_app, length_map, length_seq.
  simpl. lia.
Qed.

Lemma Blocks_linked_nth (block i : nat) :
  (i < Blocks.COUNT SIZE)%nat ->
  nth_error (Blocks.linked SIZE block) i
  = Some (Blocks.next (if (S i <? Blocks.COUNT SIZE)%nat
                       then Some (block, S i) else None)).
Proof.
  intros Hi. unfold Blocks.linked.
  destruct (Nat.ltb_spec (S i) (Blocks.COUNT SIZE)) as [Hlt|Hge].
  - rewrite nth_error_app1 by (rewrite length_map, length_seq; lia).
    rewrite nth_error_map, nth_error_seq.
    destruct (Nat.ltb_spec i (Blocks.COUNT SIZE - 1)); [reflexivity | lia].
  - rewrite nth_error_app2 by (rewrite length_map, length_seq; lia).
    rewrite length_map, length_seq.
    replace (i - (Blocks.COUNT SIZE - 1))%nat with O by lia. reflexivity.
Qed.

Lemma Blocks_read_next_linked (h : list (list Blocks.Chunk)) (i : nat) :
  (i < Blocks.COUNT SIZE)%nat ->
  Blocks.read_next (h ++ [Blocks.linked SIZE (List.length h)]) (List.length h, i)
  = Some (if (S i <? Blocks.COUNT SIZE)%nat then Some (List.length h, S i) else None).
Proof.
  intros Hi. unfold Blocks.read_next. cbn [fst snd].
  rewrite nth_error_app2, Nat.sub_diag by lia. cbn [nth_error].
  now rewrite Blocks_linked_nth.
Qed.

Lemma Blocks_chain_linked (h : list (list Blocks.Chunk)) (k : nat) :
  forall i,
    (i + k = Blocks.COUNT SIZE)%nat ->
    Blocks.chain (h ++ [Blocks.linked SIZE (List.length h)])
      (if (i <? Blocks.COUNT SIZE)%nat then Some (List.length h, i) else None)
      (map (pair (List.length h)) (seq i k)).
Proof.
  induction k as [|k IH]; intros i Hi.
  - destruct (Nat.ltb_spec i (Blocks.COUNT SIZE)); [lia|]. constructor.
  - destruct (Nat.ltb_spec i (Blocks.COUNT SIZE)); [|lia].
    cbn [seq map]. econstructor.
    + apply Blocks_read_next_linked. lia.
    + apply IH. lia.
Qed.

Lemma Blocks_size_blockPtrs (p : Blocks.t) (free : list (nat * nat)) :
  Blocks.well_formed SIZE p free ->
  DynArray._size (Blocks._blockPtrs p) = Z.of_nat (List.length (Blocks.heap p)).
Proof.
  intros (_ & _ & _ & ((H0 & Hs) & Hl) & Hc & _).
  apply (f_equal (@List.length _)) in Hc. unfold DynArray.contents in Hc.
  rewrite length_map, length_seq, firstn_length_le in Hc by lia. lia.
Qed.

Lemma Blocks_COUNT_pos : 0 < SIZE <= 1024 -> (0 < Blocks.COUNT SIZE)%nat.
Proof.
  intros [H1 H2]. unfold Blocks.COUNT.
  assert (1 <= Z.quot 1024 SIZE); [|lia].
  rewrite Z.quot_div_nonneg by lia. apply Z.div_le_lower_bound; lia.
Qed.

Lemma Blocks_chunk_of_app (h : list (list Blocks.Chunk)) chunk (p : nat * nat) :
  Blocks.chunk_of SIZE h p -> Blocks.chunk_of SIZE (h ++ [chunk]) p.
Proof. intros [H1 H2]. split; [rewrite length_app; lia | exact H2]. Qed.

Lemma NoDup_map_pair (b : nat) (l : list nat) :
  NoDup l -> NoDup (map (pair b) l).
Proof.
  induction 1 as [|x l Hx _ IH]; simpl; constructor; [|exact IH].
  intros Hin. apply in_map_iff in Hin. destruct Hin as (y & Hy & Hin).
  injection Hy as ->. contradiction.
Qed.


(** Alloc on a pool with an empty free list. *)
Lemma Blocks_Alloc_grows (p : Blocks.t) :
  0 < SIZE <= 1024 ->
  Blocks.well_formed SIZE p [] ->
  (Z.of_nat (List.length (Blocks.heap p)) + 1) * 2 <= DynArray.INT_MAX ->
  exists p',
    Blocks.Alloc SIZE p = Some ((List.length (Blocks.heap p), O), p') /\
    Blocks.well_formed SIZE p'
      (map (pair (List.length (Blocks.heap p))) (seq 1 (Blocks.COUNT SIZE - 1))) /\
    Blocks.heap p'
    = Blocks.heap p ++ [Blocks.linked SIZE (List.length (Blocks.heap p))] /\
    Blocks.counters p' = MemPool.Alloc (Blocks.counters p).
Proof.
  intros HS Hwf Hmax. pose proof (Blocks_COUNT_pos HS) as Hpos.
  pose proof (Blocks_size_blockPtrs p [] Hwf) as Hsize.
  destruct Hwf as (Hch & Hnd & Hall & Hb & Hc & Hcur).
  inversion Hch as [Hroot|]; subst.
  destruct (DynArray_Push_bounds nat (List.length (Blocks.heap p))
              (Blocks._blockPtrs p) Hb)
    as (ptrs & HP & Hb' & Hs' & Hc' & _); [rewrite Hsize; exact Hmax|].
  unfold Blocks.Alloc. rewrite <- Hroot, HP.
  destruct (Nat.eqb_spec (Blocks.COUNT SIZE) 0) as [E|_]; [lia|].
  cbn [Blocks._root Blocks.heap Blocks._blockPtrs Blocks.counters].
  rewrite (Blocks_read_next_linked (Blocks.heap p) 0 Hpos).
  eexists. split; [reflexivity|]. split; [|split; reflexivity].
  unfold Blocks.well_formed.
  cbn [Blocks._root Blocks.heap Blocks._blockPtrs Blocks.counters].
  split; [|split; [|split; [|split; [|split]]]].
  - apply (Blocks_chain_linked (Blocks.heap p) (Blocks.COUNT SIZE - 1) 1). lia.
  - apply NoDup_map_pair, seq_NoDup.
  - apply Forall_app. split; [exact Hall|]. constructor; [|constructor].
    now apply Blocks_linked_length.
  - exact Hb'.
  - rewrite Hc', Hc, length_app. cbn [List.length].
    replace (List.length (Blocks.heap p) + 1)%nat
      with (S (List.length (Blocks.heap p))) by lia.
    rewrite seq_S, map_app. reflexivity.
  - unfold MemPool.Alloc. cbn [_currentAllocs]. rewrite Hcur.
    rewrite !length_app, length_map, length_seq. cbn [List.length]. nia.
Qed.

(** Alloc on a pool with a chunk in its free list. *)
Lemma Blocks_Alloc_takes (p : Blocks.t) (c : nat * nat) (free : list (nat * nat)) :
  Blocks.well_formed SIZE p (c :: free) ->
  exists p',
    Blocks.Alloc SIZE p = Some (c, p') /\
    Blocks.well_formed SIZE p' free /\
    Blocks.heap p' = Blocks.heap p /\
    Blocks.counters p' = MemPool.Alloc (Blocks.counters p).
Proof.
  intros (Hch & Hnd & Hall & Hb & Hc & Hcur).
  inversion Hch as [|c' q l Hread Hrest Hroot]; subst.
  unfold Blocks.Alloc. rewrite <- Hroot. cbv beta iota zeta. rewrite <- Hroot, Hread.
  eexists. split; [reflexivity|]. split; [|split; reflexivity].
  unfold Blocks.well_formed.
  cbn [Blocks._root Blocks.heap Blocks._blockPtrs Blocks.counters].
  inversion Hnd; subst.
  repeat (split; [assumption|]).
  unfold MemPool.Alloc. cbn [_currentAllocs]. rewrite Hcur. cbn [List.length]. lia.
Qed.

End BlocksFacts.

(** X16.  On a pool in the state Alloc and Free keep (the free list reached
    from [_root] has no chunk twice, every block is in [_blockPtrs] once),
    Alloc returns a chunk that no caller holds and takes it off the free
    list, so that every chunk held before is still held and differs from
    it; the counters move as [MemPool.Alloc] says.  It takes the first chunk
    of the free list when there is one, and makes a new block, linked chunk
    to chunk, only when the list is empty. *)
(** The pool for items of 512 bytes after one Alloc: two chunks a block,
    the first handed out. *)
Lemma Blocks_well_formed_one :
  Blocks.well_formed 512
    (Blocks.mk [[Blocks.next (Some (O, 1%nat)); Blocks.next None]]
       (DynArray.mk (Some O :: repeat None 9) true 10 1)
       (Some (O, 1%nat)) (mkMemPoolT 1 1 1 1))
    [(O, 1%nat)].
Proof.
  unfold Blocks.well_formed.
  cbn [Blocks._root Blocks.heap Blocks._blockPtrs Blocks.counters].
  split; [|split; [|split; [|split; [|split]]]].
  - apply Blocks.chain_cons with (q := None); [reflexivity | constructor].
  - constructor; [intros [] | constructor].
  - constructor; [reflexivity | constructor].
  - unfold DynArray.bounds. simpl. lia.
  - reflexivity.
  - reflexivity.
Qed.

Theorem MemPoolT_Alloc_takes_a_free_chunk :
  forall (SIZE : Z) (p : Blocks.t) (free : list (nat * nat)),
    0 < SIZE <= 1024 ->
    Blocks.well_formed SIZE p free ->
    (Z.of_nat (List.length (Blocks.heap p)) + 1) * 2 <= DynArray.INT_MAX ->
    exists c p' free',
      Blocks.Alloc SIZE p = Some (c, p') /\
      Blocks.well_formed SIZE p' free' /\
      ~ Blocks.live SIZE p free c /\
      Blocks.live SIZE p' free' c /\
      (forall x, Blocks.live SIZE p free x -> Blocks.live SIZE p' free' x /\ x <> c) /\
      Blocks.counters p' = MemPool.Alloc (Blocks.counters p) /\
      match free with
      | [] =>
          Blocks.heap p'
          = Blocks.heap p ++ [Blocks.linked SIZE (List.length (Blocks.heap p))]
      | first :: rest => c = first /\ free' = rest /\ Blocks.heap p' = Blocks.heap p
      end.
Proof.
  intros SIZE p free HS Hwf Hmax. pose proof (Blocks_COUNT_pos SIZE HS) as Hpos.
  destruct free as [|c free].
  - destruct (Blocks_Alloc_grows SIZE p HS Hwf Hmax) as (p' & HA & Hwf' & Hheap & Hcnt).
    exists (List.length (Blocks.heap p), O), p',
      (map (pair (List.length (Blocks.heap p))) (seq 1 (Blocks.COUNT SIZE - 1))).
    split; [exact HA|]. split; [exact Hwf'|].
    assert (Hnew : forall x, In x (map (pair (List.length (Blocks.heap p)))
                                     (seq 1 (Blocks.COUNT SIZE - 1))) ->
                             fst x = List.length (Blocks.heap p) /\ (1 <= snd x)%nat).
    { intros x Hx. apply in_map_iff in Hx. destruct Hx as (i & <- & Hi).
      apply in_seq in Hi. simpl. lia. }
    split; [|split; [|split; [|split]]].
    + intros [[Hlt _] _]. simpl in Hlt. lia.
    + split.
      * split; cbn [fst snd]; [rewrite Hheap, length_app; simpl; lia | exact Hpos].
      * intros Hin. apply Hnew in Hin. simpl in Hin. lia.
    + intros x [[Hx1 Hx2] _]. split; [split|].
      * rewrite Hheap. apply Blocks_chunk_of_app. now split.
      * intros Hin. apply Hnew in Hin. lia.
      * intros ->. simpl in Hx1. lia.
    + exact Hcnt.
    + exact Hheap.
  - destruct (Blocks_Alloc_takes SIZE p c free Hwf) as (p' & HA & Hwf' & Hheap & Hcnt).
    exists c, p', free. split; [exact HA|]. split; [exact Hwf'|].
    destruct Hwf as (Hch & Hnd & Hall & _). inversion Hnd; subst.
    inversion Hch; subst.
    split; [|split; [|split; [|split]]].
    + intros [_ Hn]. apply Hn. now left.
    + split; [|assumption]. rewrite Hheap.
      eapply Blocks_read_next_chunk_of; eauto.
    + intros x [Hx Hn]. split; [split|].
      * now rewrite Hheap.
      * intros Hin. apply Hn. now right.
      * intros ->. apply Hn. now left.
    + exact Hcnt.
    + auto.
Qed.

(** A pool of two chunks a block, one of them handed out. *)
Lemma MemPoolT_Alloc_takes_a_free_chunk_witness :
  let p := Blocks.mk [[Blocks.next (Some (O, 1%nat)); Blocks.next None]]
             (DynArray.mk (Some O :: repeat None 9) true 10 1)
             (Some (O, 1%nat)) (mkMemPoolT 1 1 1 1) in
  exists c p' free',
    Blocks.Alloc 512 p = Some (c, p') /\
    Blocks.well_formed 512 p' free' /\
    ~ Blocks.live 512 p [(O, 1%nat)] c /\
    Blocks.live 512 p' free' c /\
    (forall x, Blocks.live 512 p [(O, 1%nat)] x -> Blocks.live 512 p' free' x /\ x <> c) /\
    Blocks.counters p' = MemPool.Alloc (Blocks.counters p) /\
    (c = (O, 1%nat) /\ free' = [] /\ Blocks.heap p' = Blocks.heap p).
Proof.
  intros p.
  refine (MemPoolT_Alloc_takes_a_free_chunk 512 p [(O, 1%nat)] _ _ _).
  - lia.
  - apply Blocks_well_formed_one.
  - vm_compute. discriminate.
Defined.

Section BlocksFree.

Variable SIZE : Z.

(** Free of a chunk in use. *)
Lemma Blocks_Free_live (p : Blocks.t) (free : list (nat * nat)) (c : nat * nat) :
  Blocks.well_formed SIZE p free ->
  Blocks.live SIZE p free c ->
  exists p1,
    Blocks.Free (Some c) p = Some p1 /\
    Blocks.well_formed SIZE p1 (c :: free) /\
    List.length (Blocks.heap p1) = List.length (Blocks.heap p) /\
    Blocks.read_next (Blocks.heap p1) c = Some (Blocks._root p) /\
    Blocks._blockPtrs p1 = Blocks._blockPtrs p /\
    Blocks.counters p1 = MemPool.Free (Blocks.counters p).
Proof.
  intros (Hch & Hnd & Hall & Hb & Hc & Hcur) [Hc1 Hc2].
  destruct (Blocks_write_Some SIZE (Blocks.heap p) c Blocks.mem Hall Hc1)
    as (h1 & Hw1 & Hl1 & Hall1 & _ & Ho1).
  assert (Hc1' : Blocks.chunk_of SIZE h1 c).
  { destruct Hc1 as [Ha Hb']. split; [rewrite Hl1; exact Ha | exact Hb']. }
  destruct (Blocks_write_Some SIZE h1 c (Blocks.next (Blocks._root p)) Hall1 Hc1')
    as (h2 & Hw2 & Hl2 & Hall2 & Hr2 & Ho2).
  unfold Blocks.Free. rewrite Hw1, Hw2.
  eexists. split; [reflexivity|].
  cbn [Blocks.heap Blocks._blockPtrs Blocks.counters].
  split; [|split; [congruence | split; [exact Hr2 | split; reflexivity]]].
  unfold Blocks.well_formed.
  cbn [Blocks._root Blocks.heap Blocks._blockPtrs Blocks.counters].
  split; [|split; [|split; [|split; [|split]]]].
  - apply Blocks.chain_cons with (q := Blocks._root p); [exact Hr2|].
    apply (Blocks_chain_reads (Blocks.heap p)); [exact Hch|].
    intros x Hx. rewrite Ho2, Ho1; [reflexivity | |]; intros ->; contradiction.
  - now constructor.
  - exact Hall2.
  - exact Hb.
  - rewrite Hc. now rewrite Hl2, Hl1.
  - unfold MemPool.Free. cbn [_currentAllocs List.length]. rewrite Hcur, Hl2, Hl1. lia.
Qed.


End BlocksFree.

(** X17.  Free of a chunk that is in use puts it at the head of the free
    list, and the next Alloc returns that same chunk: after the two calls
    [_root], the free list, the number of blocks and [_currentAllocs] are
    what they were.  No block is made while a freed chunk is available. *)
Theorem MemPoolT_Alloc_reuses_the_freed_chunk :
  forall (SIZE : Z) (p : Blocks.t) (free : list (nat * nat)) (c : nat * nat),
    Blocks.well_formed SIZE p free ->
    Blocks.live SIZE p free c ->
    exists p1 p2,
      Blocks.Free (Some c) p = Some p1 /\
      Blocks.well_formed SIZE p1 (c :: free) /\
      Blocks.Alloc SIZE p1 = Some (c, p2) /\
      Blocks.well_formed SIZE p2 free /\
      Blocks._root p2 = Blocks._root p /\
      List.length (Blocks.heap p2) = List.length (Blocks.heap p) /\
      _currentAllocs (Blocks.counters p2) = _currentAllocs (Blocks.counters p).
Proof.
  intros SIZE p free c Hwf Hlive.
  destruct (Blocks_Free_live SIZE p free c Hwf Hlive)
    as (p1 & HF & Hwf1 & Hl1 & Hr1 & Hp1 & Hc1).
  destruct (Blocks_Alloc_takes SIZE p1 c free Hwf1) as (p2 & HA & Hwf2 & Hh2 & Hc2).
  exists p1, p2. repeat (split; [assumption|]).
  split; [|split].
  - unfold Blocks.Alloc in HA.
    destruct Hwf1 as (Hch & _). inversion Hch as [|c' q l Hread Hrest Hroot]; subst.
    rewrite <- Hroot in HA. cbv beta iota zeta in HA. rewrite <- Hroot, Hread in HA.
    injection HA as <-. cbn [Blocks._root]. congruence.
  - congruence.
  - rewrite Hc2, Hc1. unfold MemPool.Alloc, MemPool.Free. cbn [_currentAllocs]. lia.
Qed.

(** X18.  For an item size between 1 and 1024, a new pool is in the state
    Alloc and Free keep, and from there on, as long as Free is given chunks
    that are in use: [0 <= _currentAllocs <= _maxAllocs <= _nAllocs], and
    the blocks made are exactly those the high-water mark needs, their
    chunks numbering at least [_maxAllocs] and less than
    [_maxAllocs + COUNT]. *)
(** The chunk handed out by the first Alloc of a pool of two chunks a
    block. *)
Lemma MemPoolT_Alloc_reuses_the_freed_chunk_witness :
  let p := Blocks.mk [[Blocks.next (Some (O, 1%nat)); Blocks.next None]]
             (DynArray.mk (Some O :: repeat None 9) true 10 1)
             (Some (O, 1%nat)) (mkMemPoolT 1 1 1 1) in
  exists p1 p2,
    Blocks.Free (Some (O, O)) p = Some p1 /\
    Blocks.well_formed 512 p1 [(O, O); (O, 1%nat)] /\
    Blocks.Alloc 512 p1 = Some ((O, O), p2) /\
    Blocks.well_formed 512 p2 [(O, 1%nat)] /\
    Blocks._root p2 = Blocks._root p /\
    List.length (Blocks.heap p2) = List.length (Blocks.heap p) /\
    _currentAllocs (Blocks.counters p2) = _currentAllocs (Blocks.counters p).
Proof.
  intros p.
  refine (MemPoolT_Alloc_reuses_the_freed_chunk 512 p [(O, 1%nat)] (O, O) _ _).
  - apply Blocks_well_formed_one.
  - split.
    + split; simpl; [lia | vm_compute; lia].
    + intros [H|[]]. discriminate.
Defined.



Section BlocksDestructor.

Variable SIZE : Z.

Lemma Blocks_deleted_all (p : Blocks.t) (free : list (nat * nat)) :
  Blocks.well_formed SIZE p free ->
  forall n i,
    (i + n = List.length (Blocks.heap p))%nat ->
    Blocks.deleted (Blocks._blockPtrs p) (Z.of_nat i) n = Some (seq i n).
Proof.
  intros Hwf. pose proof (Blocks_size_blockPtrs SIZE p free Hwf) as Hsize.
  destruct Hwf as (_ & _ & _ & ((H0 & Hs) & Hl) & Hc & _).
  induction n as [|n IH]; intros i Hi; [reflexivity|].
  cbn [Blocks.deleted seq]. unfold DynArray.at_.
  destruct (Z.geb_spec (Z.of_nat i) 0); [|lia].
  destruct (Z.ltb_spec (Z.of_nat i) (DynArray._size (Blocks._blockPtrs p))); [|lia].
  cbn [andb]. rewrite Nat2Z.id.
  assert (Hnth : nth_error (DynArray._mem (Blocks._blockPtrs p)) i = Some (Some i)).
  { pose proof (f_equal (fun l => nth_error l i) Hc) as E. cbv beta in E.
    unfold DynArray.contents in E. rewrite nth_error_firstn in E.
    destruct (Nat.ltb_spec i (Z.to_nat (DynArray._size (Blocks._blockPtrs p)))); [|lia].
    rewrite E, nth_error_map, nth_error_seq.
    destruct (Nat.ltb_spec i (List.length (Blocks.heap p))); [reflexivity | lia]. }
  rewrite Hnth.
  replace (Z.of_nat i + 1) with (Z.of_nat (S i)) by lia.
  rewrite IH by lia. reflexivity.
Qed.

End BlocksDestructor.

(** X19.  The destructor of a pool in the state Alloc and Free keep deletes
    every block the pool has made, each of them once, in the order they
    were made. *)
Theorem MemPoolT_destructor_deletes_every_block_once :
  forall (SIZE : Z) (p : Blocks.t) (free : list (nat * nat)),
    Blocks.well_formed SIZE p free ->
    Blocks.destructor p = Some (seq 0 (List.length (Blocks.heap p))).
Proof.
  intros SIZE p free Hwf. unfold Blocks.destructor, DynArray.Size.
  rewrite (Blocks_size_blockPtrs SIZE p free Hwf), Nat2Z.id.
  exact (Blocks_deleted_all SIZE p free Hwf (List.length (Blocks.heap p)) O eq_refl).
Qed.

(** The pool of one block. *)
Lemma MemPoolT_destructor_deletes_every_block_once_witness :
  Blocks.destructor
    (Blocks.mk [[Blocks.next (Some (O, 1%nat)); Blocks.next None]]
       (DynArray.mk (Some O :: repeat None 9) true 10 1)
       (Some (O, 1%nat)) (mkMemPoolT 1 1 1 1))
  = Some (seq 0 1).
Proof.
  refine (MemPoolT_destructor_deletes_every_block_once 512 _ [(O, 1%nat)] _).
  apply Blocks_well_formed_one.
Defined.

(** ** The child chain *)

Lemma Chain_read_assign_same (h : Chain.Heap) (p : nat) (n : Chain.Node) v :
  Chain.read h p = Some n -> Chain.read (Chain.assign h p v) p = v.
Proof.
  unfold Chain.read. revert p; induction h as [|c h IH]; intros [|p] H; simpl in *;
    try discriminate.
  - destruct v; reflexivity.
  - now apply IH.
Qed.

Lemma Chain_read_assign_other (h : Chain.Heap) (p q : nat) v :
  p <> q -> Chain.read (Chain.assign h p v) q = Chain.read h q.
Proof.
  unfold Chain.read. revert p q; induction h as [|c h IH]; intros [|p] [|q] H;
    simpl in *; try reflexivity; try congruence.
  apply IH. congruence.
Qed.

Lemma Chain_update_Some (h : Chain.Heap) (p : nat) (n : Chain.Node) f :
  Chain.read h p = Some n ->
  Chain.update p f h = Some (Chain.assign h p (Some (f n))).
Proof. intros H. unfold Chain.update. now rewrite H. Qed.

(** A heap that differs from another at [p] only. *)
Lemma Chain_siblings_frame (h h' : Chain.Heap) (parent : nat) :
  forall cs prev last,
    Chain.siblings h parent prev cs last ->
    (forall c, In c cs -> Chain.read h' c = Chain.read h c) ->
    Chain.siblings h' parent prev cs last.
Proof.
  induction cs as [|c cs IH]; intros prev last H Hsame; simpl in *; [exact H|].
  destruct H as (n & Hn & Hp & Hv & Hx & Hrest).
  exists n. rewrite Hsame by now left. repeat split; auto.
Qed.

Lemma Chain_read_lt (h : Chain.Heap) (p : nat) (n : Chain.Node) :
  Chain.read h p = Some n -> (p < List.length h)%nat.
Proof.
  unfold Chain.read. intros H. apply nth_error_Some.
  destruct (nth_error h p); [discriminate | discriminate].
Qed.

Lemma Chain_length_assign (h : Chain.Heap) (p : nat) v :
  List.length (Chain.assign h p v) = List.length h.
Proof. revert p; induction h as [|c h IH]; intros [|p]; simpl; auto. Qed.

Lemma Chain_read_assign_at (h : Chain.Heap) (p : nat) (n : Chain.Node) :
  (p < List.length h)%nat -> Chain.read (Chain.assign h p (Some n)) p = Some n.
Proof.
  unfold Chain.read. revert p; induction h as [|c h IH]; intros [|p] H; simpl in *;
    try lia; [reflexivity|]. apply IH. lia.
Qed.

Lemma Chain_read_freed (h : Chain.Heap) (p : nat) :
  Chain.read (Chain.assign h p None) p = None.
Proof.
  unfold Chain.read. revert p; induction h as [|c h IH]; intros [|p]; simpl;
    try reflexivity. apply IH.
Qed.

Ltac chain_read :=
  repeat first
    [ rewrite Chain_read_assign_other by congruence
    | rewrite Chain_read_assign_at by (rewrite ?Chain_length_assign; assumption) ].

Ltac chain_update :=
  unfold Chain.update at 1; chain_read;
  repeat match goal with
         | H : Chain.read _ _ = Some _ |- _ => rewrite H
         end;
  cbv beta iota.

Lemma Chain_InsertEndChild_last (h : Chain.Heap) (this node last : nat) t l n :
  Chain.read h this = Some t ->
  Chain.read h last = Some l ->
  Chain.read h node = Some n ->
  Chain._lastChild t = Some last ->
  Chain._firstChild t <> None ->
  Chain._next l = None ->
  this <> node -> this <> last -> last <> node ->
  exists h',
    Chain.InsertEndChild this node h = Some h' /\
    Chain.read h' this = Some (Chain.set_lastChild (Some node) t) /\
    Chain.read h' last = Some (Chain.set_next (Some node) l) /\
    Chain.read h' node
    = Some (Chain.mkNode (Some this) (Chain._firstChild n) (Chain._lastChild n)
              (Some last) None) /\
    (forall x, x <> this -> x <> last -> x <> node -> Chain.read h' x = Chain.read h x).
Proof.
  intros Ht Hl Hn Hlast Hfirst Hnext H1 H2 H3.
  pose proof (Chain_read_lt _ _ _ Ht) as Lt.
  pose proof (Chain_read_lt _ _ _ Hl) as Ll.
  pose proof (Chain_read_lt _ _ _ Hn) as Ln.
  unfold Chain.InsertEndChild. rewrite Ht, Hlast, Hl, Hnext.
  destruct (Chain._firstChild t) as [f|] eqn:Hf; [|contradiction].
  cbn [Chain.is_null negb andb].
  do 5 chain_update.
  eexists. split; [reflexivity|]. repeat split.
  - chain_read. reflexivity.
  - chain_read. reflexivity.
  - chain_read. reflexivity.
  - intros x Hx1 Hx2 Hx3. chain_read. reflexivity.
Qed.

Lemma Chain_InsertEndChild_first (h : Chain.Heap) (this node : nat) t n :
  Chain.read h this = Some t ->
  Chain.read h node = Some n ->
  Chain._lastChild t = None ->
  Chain._firstChild t = None ->
  this <> node ->
  exists h',
    Chain.InsertEndChild this node h = Some h' /\
    Chain.read h' this
    = Some (Chain.set_firstChild (Some node) (Chain.set_lastChild (Some node) t)) /\
    Chain.read h' node
    = Some (Chain.mkNode (Some this) (Chain._firstChild n) (Chain._lastChild n)
              None None) /\
    (forall x, x <> this -> x <> node -> Chain.read h' x = Chain.read h x).
Proof.
  intros Ht Hn Hlast Hfirst H1.
  pose proof (Chain_read_lt _ _ _ Ht) as Lt.
  pose proof (Chain_read_lt _ _ _ Hn) as Ln.
  unfold Chain.InsertEndChild. rewrite Ht, Hlast, Hfirst.
  cbn [Chain.is_null].
  do 5 chain_update.
  eexists. split; [reflexivity|]. repeat split.
  - chain_read. reflexivity.
  - chain_read. reflexivity.
  - intros x Hx1 Hx2. chain_read. reflexivity.
Qed.

(** The last child of a chain that is not empty. *)
Lemma Chain_siblings_last (h : Chain.Heap) (parent : nat) :
  forall cs prev last c,
    Chain.siblings h parent prev (c :: cs) last ->
    exists l n,
      last = Some l /\ In l (c :: cs) /\ Chain.read h l = Some n /\
      Chain._next n = None.
Proof.
  induction cs as [|c' cs IH]; intros prev last c H.
  - destruct H as (n & Hn & Hp & Hv & Hx & Hrest). simpl in Hrest, Hx.
    exists c, n. repeat split; auto. now left.
  - destruct H as (n & Hn & Hp & Hv & Hx & Hrest).
    destruct (IH _ _ _ Hrest) as (l & nl & Hl & Hin & Hr & Hnx).
    exists l, nl. repeat split; auto. now right.
Qed.

(** The chain after the last child has been given a next sibling. *)
Lemma Chain_siblings_snoc (h h' : Chain.Heap) (parent node l : nat) ln n' :
  Chain.read h l = Some ln ->
  Chain.read h' l = Some (Chain.set_next (Some node) ln) ->
  Chain.read h' node = Some n' ->
  Chain._parent n' = Some parent ->
  Chain._prev n' = Some l ->
  Chain._next n' = None ->
  forall cs prev,
    Chain.siblings h parent prev cs (Some l) ->
    cs <> [] ->
    NoDup cs ->
    ~ In node cs ->
    (forall x, In x cs -> x <> l -> Chain.read h' x = Chain.read h x) ->
    Chain.siblings h' parent prev (cs ++ [node]) (Some node).
Proof.
  intros Hl Hl' Hn' Hp' Hv' Hx'.
  induction cs as [|c cs IH]; intros prev H Hne Hnd Hnin Hsame; [contradiction|].
  destruct H as (n & Hn & Hp & Hv & Hx & Hrest).
  cbn [app Chain.siblings]. inversion Hnd as [|? ? Hc Hnd']; subst.
  destruct cs as [|c' cs].
  - simpl in Hrest. injection Hrest as <-.
    rewrite Hl in Hn. injection Hn as <-.
    exists (Chain.set_next (Some node) ln). repeat split; auto.
    cbn [app Chain.siblings]. exists n'. repeat split; auto.
  - assert (Hcl : c <> l).
    { destruct (Chain_siblings_last _ _ _ _ _ _ Hrest) as (l' & _ & El & Hin & _).
      injection El as <-. intros ->. contradiction. }
    exists n. rewrite (Hsame c (or_introl eq_refl) Hcl). repeat split; auto.
    apply IH; auto.
    + discriminate.
    + intros Hin. apply Hnin. now right.
    + intros x Hx0 Hxl. apply Hsame; [now right | exact Hxl].
Qed.

(** X20.  When the pointers of a node [this] give the chain [cs] (first
    child, next siblings, last child, with the matching previous-sibling and
    parent pointers), InsertEndChild of a node that is neither [this] nor in
    [cs] passes its assertions and leaves the chain [cs] followed by the
    node, whose parent is now [this]; the node keeps its own children, and
    no node outside [this], [cs] and the node is written. *)
Theorem InsertEndChild_appends_to_the_chain :
  forall (h : Chain.Heap) (this node : nat) (cs : list nat) (n : Chain.Node),
    Chain.children h this cs ->
    Chain.read h node = Some n ->
    node <> this ->
    ~ In node cs ->
    exists h' n',
      Chain.InsertEndChild this node h = Some h' /\
      Chain.children h' this (cs ++ [node]) /\
      Chain.read h' node = Some n' /\
      Chain._parent n' = Some this /\
      Chain._firstChild n' = Chain._firstChild n /\
      Chain._lastChild n' = Chain._lastChild n /\
      (forall x, x <> this -> x <> node -> ~ In x cs -> Chain.read h' x = Chain.read h x).
Proof.
  intros h this node cs n (t & Ht & Hfirst & Hsib & Hnd & Hthis) Hn Hneq Hnin.
  assert (Hnd' : NoDup (cs ++ [node])).
  { apply NoDup_app.
    - exact Hnd.
    - constructor; [intros Hin; destruct Hin | constructor].
    - intros x Hx Hin. destruct Hin as [<-|[]]. contradiction. }
  assert (Hthis' : ~ In this (cs ++ [node])).
  { intros Hin. apply in_app_or in Hin. destruct Hin as [Hin|[E|[]]]; [contradiction|].
    now apply Hneq. }
  destruct cs as [|c cs].
  - simpl in Hsib, Hfirst.
    destruct (Chain_InsertEndChild_first h this node t n Ht Hn Hsib Hfirst)
      as (h' & HI & Rt & Rn & Ro); [congruence|].
    eexists h', _. split; [exact HI|]. split; [|split; [exact Rn|]].
    + eexists. split; [exact Rt|]. split; [reflexivity|].
      split; [|split; assumption].
      cbn [app Chain.siblings]. eexists. split; [exact Rn|]. repeat split.
    + repeat split. intros x H1 H2 _. now apply Ro.
  - destruct (Chain_siblings_last _ _ _ _ _ _ Hsib) as (l & ln & Hlast & Hin & Hl & Hnext).
    assert (Hl1 : this <> l) by (intros ->; contradiction).
    assert (Hl2 : l <> node) by (intros ->; contradiction).
    destruct (Chain_InsertEndChild_last h this node l t ln n Ht Hl Hn Hlast)
      as (h' & HI & Rt & Rl & Rn & Ro); auto; try congruence.
    { rewrite Hfirst. discriminate. }
    eexists h', _. split; [exact HI|]. split; [|split; [exact Rn|]].
    + eexists. split; [exact Rt|]. split; [exact Hfirst|].
      split; [|split; assumption].
      cbn [Chain.set_lastChild Chain._lastChild].
      rewrite Hlast in Hsib.
      apply (Chain_siblings_snoc h h' this node l ln _ Hl Rl Rn eq_refl eq_refl eq_refl
               (c :: cs) None Hsib); [discriminate | exact Hnd | exact Hnin |].
      intros x Hx Hxl. apply Ro; auto; intros ->; contradiction.
    + repeat split. intros x H1 H2 H3. apply Ro; auto. intros ->. contradiction.
Qed.

Lemma Chain_ptr_eqb_spec (a b : ptr) : reflect (a = b) (ptr_eqb a b).
Proof.
  destruct a as [i|], b as [j|]; simpl; try (constructor; congruence).
  destruct (Nat.eqb_spec i j); constructor; congruence.
Qed.

(** What Unlink does to the heap. *)
Lemma Chain_Unlink_effect (h : Chain.Heap) (this child : nat) t c :
  Chain.read h this = Some t ->
  Chain.read h child = Some c ->
  Chain._parent c = Some this ->
  this <> child ->
  (forall p, Chain._prev c = Some p ->
             p <> this /\ p <> child /\ Chain.read h p <> None) ->
  (forall x, Chain._next c = Some x ->
             x <> this /\ x <> child /\ Chain.read h x <> None) ->
  (Chain._prev c <> None -> Chain._prev c <> Chain._next c) ->
  exists h',
    Chain.Unlink this child h = Some h' /\
    List.length h' = List.length h /\
    Chain.read h' this
    = Some (let t1 := if ptr_eqb (Some child) (Chain._firstChild t)
                      then Chain.set_firstChild (Chain._next c) t else t in
            if ptr_eqb (Some child) (Chain._lastChild t1)
            then Chain.set_lastChild (Chain._prev c) t1 else t1) /\
    Chain.read h' child = Some (Chain.set_parent None c) /\
    (forall x, x <> this -> x <> child ->
       Chain.read h' x
       = match Chain.read h x with
         | Some n =>
             Some (if ptr_eqb (Some x) (Chain._prev c)
                   then Chain.set_next (Chain._next c) n
                   else if ptr_eqb (Some x) (Chain._next c)
                        then Chain.set_prev (Chain._prev c) n
                        else n)
         | None => None
         end).
Proof.
  intros Ht Hc Hp Hne Hprev Hnext Hpn.
  pose proof (Chain_read_lt _ _ _ Ht) as Lt.
  pose proof (Chain_read_lt _ _ _ Hc) as Lc.
  unfold Chain.Unlink. rewrite Hc, Hp.
  destruct (Chain_ptr_eqb_spec (Some this) (Some this)) as [_|E]; [|congruence].
  rewrite Ht. cbv zeta.
  set (t1 := if ptr_eqb (Some child) (Chain._firstChild t)
             then Chain.set_firstChild (Chain._next c) t else t).
  set (t2 := if ptr_eqb (Some child) (Chain._lastChild t1)
             then Chain.set_lastChild (Chain._prev c) t1 else t1).
  (* _firstChild *)
  assert (HA : exists h1,
             (if ptr_eqb (Some child) (Chain._firstChild t)
              then Chain.update this (Chain.set_firstChild (Chain._next c)) h
              else Some h) = Some h1 /\
             List.length h1 = List.length h /\
             Chain.read h1 this = Some t1 /\
             (forall x, x <> this -> Chain.read h1 x = Chain.read h x)).
  { subst t1. destruct (ptr_eqb (Some child) (Chain._firstChild t)).
    - rewrite (Chain_update_Some _ _ _ _ Ht). eexists. split; [reflexivity|].
      split; [apply Chain_length_assign|]. split.
      + now apply Chain_read_assign_at.
      + intros x Hx. apply Chain_read_assign_other. congruence.
    - exists h. auto. }
  destruct HA as (h1 & -> & L1 & R1 & O1). rewrite R1.
  rewrite (O1 child) by congruence. rewrite Hc.
  (* _lastChild *)
  assert (HB : exists h2,
             (if ptr_eqb (Some child) (Chain._lastChild t1)
              then Chain.update this (Chain.set_lastChild (Chain._prev c)) h1
              else Some h1) = Some h2 /\
             List.length h2 = List.length h /\
             Chain.read h2 this = Some t2 /\
             (forall x, x <> this -> Chain.read h2 x = Chain.read h x)).
  { subst t2. destruct (ptr_eqb (Some child) (Chain._lastChild t1)).
    - rewrite (Chain_update_Some _ _ _ _ R1). eexists. split; [reflexivity|].
      split; [now rewrite Chain_length_assign|]. split.
      + apply Chain_read_assign_at. lia.
      + intros x Hx. rewrite Chain_read_assign_other by congruence. now apply O1.
    - exists h1. auto. }
  destruct HB as (h2 & -> & L2 & R2 & O2).
  rewrite (O2 child) by congruence. rewrite Hc.
  (* _prev->_next *)
  assert (HC : exists h3,
             match Chain._prev c with
             | Some prev => Chain.update prev (Chain.set_next (Chain._next c)) h2
             | None => Some h2
             end = Some h3 /\
             List.length h3 = List.length h /\
             Chain.read h3 this = Some t2 /\
             Chain.read h3 child = Some c /\
             (forall x, x <> this -> x <> child ->
                Chain.read h3 x
                = match Chain.read h x with
                  | Some n => Some (if ptr_eqb (Some x) (Chain._prev c)
                                    then Chain.set_next (Chain._next c) n else n)
                  | None => None
                  end)).
  { destruct (Chain._prev c) as [p|] eqn:Ep.
    - destruct (Hprev p eq_refl) as (Hp1 & Hp2 & Hp3).
      destruct (Chain.read h p) as [pn|] eqn:Rp; [|contradiction].
      assert (Rp2 : Chain.read h2 p = Some pn) by (rewrite O2; assumption).
      rewrite (Chain_update_Some _ _ _ _ Rp2). eexists. split; [reflexivity|].
      split; [now rewrite Chain_length_assign|].
      split; [rewrite Chain_read_assign_other by congruence; exact R2|].
      split; [rewrite Chain_read_assign_other by congruence;
              rewrite O2 by congruence; exact Hc|].
      intros x Hx1 Hx2. destruct (Chain_ptr_eqb_spec (Some x) (Some p)) as [E|E].
      + injection E as ->. rewrite Rp. apply Chain_read_assign_at.
        rewrite L2. eapply Chain_read_lt; eauto.
      + rewrite Chain_read_assign_other by congruence. rewrite O2 by assumption.
        destruct (Chain.read h x); reflexivity.
    - exists h2. split; [reflexivity|]. split; [exact L2|]. split; [exact R2|].
      split; [rewrite O2 by congruence; exact Hc|].
      intros x Hx1 Hx2. rewrite O2 by assumption.
      destruct (Chain.read h x); reflexivity. }
  destruct HC as (h3 & -> & L3 & R3 & C3 & O3). rewrite C3.
  (* _next->_prev *)
  assert (HD : exists h4,
             match Chain._next c with
             | Some next => Chain.update next (Chain.set_prev (Chain._prev c)) h3
             | None => Some h3
             end = Some h4 /\
             List.length h4 = List.length h /\
             Chain.read h4 this = Some t2 /\
             Chain.read h4 child = Some c /\
             (forall x, x <> this -> x <> child ->
                Chain.read h4 x
                = match Chain.read h x with
                  | Some n => Some (if ptr_eqb (Some x) (Chain._prev c)
                                    then Chain.set_next (Chain._next c) n
                                    else if ptr_eqb (Some x) (Chain._next c)
                                         then Chain.set_prev (Chain._prev c) n
                                         else n)
                  | None => None
                  end)).
  { destruct (Chain._next c) as [nx|] eqn:En.
    - destruct (Hnext nx eq_refl) as (Hn1 & Hn2 & Hn3).
      destruct (Chain.read h nx) as [nn|] eqn:Rn; [|contradiction].
      assert (Hpx : ptr_eqb (Some nx) (Chain._prev c) = false).
      { destruct (Chain_ptr_eqb_spec (Some nx) (Chain._prev c)) as [E|E];
          [|reflexivity].
        exfalso. apply Hpn; congruence. }
      assert (Rn3 : Chain.read h3 nx = Some nn).
      { rewrite O3 by assumption. now rewrite Rn, Hpx. }
      rewrite (Chain_update_Some _ _ _ _ Rn3). eexists. split; [reflexivity|].
      split; [now rewrite Chain_length_assign|].
      split; [rewrite Chain_read_assign_other by congruence; exact R3|].
      split; [rewrite Chain_read_assign_other by congruence; exact C3|].
      intros x Hx1 Hx2. destruct (Chain_ptr_eqb_spec (Some x) (Some nx)) as [E|E].
      + injection E as ->. rewrite Rn, Hpx. apply Chain_read_assign_at.
        rewrite L3. eapply Chain_read_lt; eauto.
      + rewrite Chain_read_assign_other by congruence. rewrite O3 by assumption.
        destruct (Chain.read h x); [|reflexivity].
        destruct (ptr_eqb (Some x) (Chain._prev c)); reflexivity.
    - exists h3. split; [reflexivity|]. split; [exact L3|]. split; [exact R3|].
      split; [exact C3|].
      intros x Hx1 Hx2. rewrite O3 by assumption.
      destruct (Chain.read h x); [|reflexivity].
      destruct (ptr_eqb (Some x) (Chain._prev c)); reflexivity. }
  destruct HD as (h4 & -> & L4 & R4 & C4 & O4).
  rewrite (Chain_update_Some _ _ _ _ C4). eexists. split; [reflexivity|].
  split; [now rewrite Chain_length_assign|].
  split; [rewrite Chain_read_assign_other by congruence; exact R4|].
  split; [apply Chain_read_assign_at; lia|].
  intros x Hx1 Hx2. rewrite Chain_read_assign_other by congruence. now apply O4.
Qed.

Lemma Chain_siblings_read (h : Chain.Heap) (parent : nat) :
  forall cs prev last x,
    Chain.siblings h parent prev cs last -> In x cs ->
    exists n, Chain.read h x = Some n /\ Chain._parent n = Some parent.
Proof.
  induction cs as [|c cs IH]; intros prev last x H Hin; [destruct Hin|].
  destruct H as (n & Hn & Hp & _ & _ & Hrest).
  destruct Hin as [<-|Hin]; [eauto | eapply IH; eauto].
Qed.

(** The chain without [child], in a heap where the sibling before [child]
    has the next sibling of [child], and the sibling after has the previous
    one. *)
Lemma Chain_siblings_remove (h h' : Chain.Heap) (parent child : nat) c post last :
  Chain.read h child = Some c ->
  forall pre prev,
    Chain.siblings h parent prev (pre ++ child :: post) last ->
    NoDup (pre ++ child :: post) ->
    (forall x, prev = Some x -> ~ In x (pre ++ child :: post)) ->
    (forall x, In x (pre ++ post) ->
       Chain.read h' x
       = match Chain.read h x with
         | Some n =>
             Some (if ptr_eqb (Some x) (Chain._prev c)
                   then Chain.set_next (Chain._next c) n
                   else if ptr_eqb (Some x) (Chain._next c)
                        then Chain.set_prev (Chain._prev c) n
                        else n)
         | None => None
         end) ->
    Chain.siblings h' parent prev (pre ++ post)
      (match post with [] => Chain._prev c | _ :: _ => last end) /\
    Chain._prev c = hd prev (map Some (rev pre)) /\
    Chain._next c = hd_error post /\
    Chain._parent c = Some parent.
Proof.
  intros Hc. induction pre as [|a pre IH]; intros prev H Hnd Hprev Hreads.
  - cbn [app rev map hd] in *.
    destruct H as (n & Hn & Hp & Hv & Hx & Hrest).
    rewrite Hc in Hn. injection Hn as <-.
    split; [|auto].
    destruct post as [|nx post]; [exact Hv|].
    destruct Hrest as (nn & Hnn & Hpn & Hvn & Hxn & Hrest).
    inversion Hnd as [|? ? Hc1 Hnd1]; subst. inversion Hnd1 as [|? ? Hn1 Hnd2]; subst.
    cbn [Chain.siblings]. eexists. rewrite (Hreads nx (or_introl eq_refl)), Hnn.
    split; [reflexivity|].
    assert (E1 : ptr_eqb (Some nx) (Chain._prev c) = false).
    { destruct (Chain_ptr_eqb_spec (Some nx) (Chain._prev c)) as [E|E]; [|reflexivity].
      exfalso. apply (Hprev nx); [congruence | right; now left]. }
    assert (E2 : ptr_eqb (Some nx) (Chain._next c) = true).
    { rewrite Hx. simpl. apply Nat.eqb_refl. }
    rewrite E1, E2. cbn [Chain.set_prev Chain._parent Chain._prev Chain._next].
    repeat split; auto.
    apply (Chain_siblings_frame h); [exact Hrest|].
    intros x Hin. rewrite (Hreads x (or_intror Hin)).
    destruct (Chain_siblings_read _ _ _ _ _ _ Hrest Hin) as (xn & -> & _).
    assert (E3 : ptr_eqb (Some x) (Chain._prev c) = false).
    { destruct (Chain_ptr_eqb_spec (Some x) (Chain._prev c)) as [E|E]; [|reflexivity].
      exfalso. apply (Hprev x); [congruence | right; now right]. }
    assert (E4 : ptr_eqb (Some x) (Chain._next c) = false).
    { rewrite Hx. simpl. apply Nat.eqb_neq. intros ->. contradiction. }
    now rewrite E3, E4.
  - cbn [app] in *. destruct H as (an & Han & Hp & Hv & Hx & Hrest).
    inversion Hnd as [|? ? Ha Hnd']; subst.
    destruct (IH (Some a) Hrest Hnd') as (Hsib & Hpc & Hnc & Hparent).
    { intros x E. injection E as <-. exact Ha. }
    { intros x Hin. apply Hreads. now right. }
    split; [|split; [|auto]].
    + cbn [Chain.siblings]. eexists. rewrite (Hreads a (or_introl eq_refl)), Han.
      split; [reflexivity|].
      destruct pre as [|b pre].
      * cbn [rev map hd app] in *.
        assert (E1 : ptr_eqb (Some a) (Chain._prev c) = true).
        { rewrite Hpc. simpl. apply Nat.eqb_refl. }
        rewrite E1. cbn [Chain.set_next Chain._parent Chain._prev Chain._next].
        repeat split; auto.
      * assert (Hin : exists y, Chain._prev c = Some y /\ In y (b :: pre)).
        { rewrite Hpc. destruct (rev (b :: pre)) as [|y r] eqn:Er.
          - apply (f_equal (@List.length _)) in Er. rewrite length_rev in Er.
            discriminate.
          - exists y. split; [reflexivity|]. apply in_rev. rewrite Er. now left. }
        destruct Hin as (y & Ey & Hy).
        assert (E1 : ptr_eqb (Some a) (Chain._prev c) = false).
        { rewrite Ey. simpl. apply Nat.eqb_neq. intros ->. apply Ha.
          apply in_or_app. now left. }
        assert (E2 : ptr_eqb (Some a) (Chain._next c) = false).
        { rewrite Hnc. destruct post as [|nx post]; [reflexivity|]. simpl.
          apply Nat.eqb_neq. intros ->. apply Ha. apply in_or_app. right.
          right. now left. }
        rewrite E1, E2. repeat split; auto.
    + rewrite Hpc. cbn [rev]. rewrite map_app.
      destruct (map Some (rev pre)); reflexivity.
Qed.

Lemma Chain_siblings_last_ptr (h : Chain.Heap) (parent : nat) :
  forall cs prev last,
    Chain.siblings h parent prev cs last -> last = hd prev (map Some (rev cs)).
Proof.
  induction cs as [|c cs IH]; intros prev last H; [exact H|].
  destruct H as (n & _ & _ & _ & _ & Hrest). apply IH in Hrest. rewrite Hrest.
  cbn [rev]. rewrite map_app. destruct (map Some (rev cs)); reflexivity.
Qed.

Lemma Chain_siblings_middle (h : Chain.Heap) (parent child : nat) post last :
  forall pre prev,
    Chain.siblings h parent prev (pre ++ child :: post) last ->
    exists c,
      Chain.read h child = Some c /\
      Chain._parent c = Some parent /\
      Chain._prev c = hd prev (map Some (rev pre)) /\
      Chain._next c = hd_error post.
Proof.
  induction pre as [|a pre IH]; intros prev H.
  - destruct H as (n & Hn & Hp & Hv & Hx & _). exists n. auto.
  - destruct H as (_ & _ & _ & _ & _ & Hrest).
    destruct (IH _ Hrest) as (c & Hc & Hp & Hv & Hx). exists c.
    repeat split; auto. rewrite Hv. cbn [rev]. rewrite map_app.
    destruct (map Some (rev pre)); reflexivity.
Qed.

Lemma Chain_hd_rev_In (l : list nat) (x : nat) :
  hd None (map Some (rev l)) = Some x -> In x l.
Proof.
  intros H. apply in_rev. destruct (rev l) as [|y r]; [discriminate|].
  injection H as ->. now left.
Qed.

Lemma Chain_Unlink_children (h : Chain.Heap) (this child : nat) (pre post : list nat) :
  Chain.children h this (pre ++ child :: post) ->
  exists h' c c',
    Chain.Unlink this child h = Some h' /\
    Chain.children h' this (pre ++ post) /\
    Chain.read h child = Some c /\
    Chain.read h' child = Some c' /\
    c' = Chain.set_parent None c /\
    (forall x, x <> this -> ~ In x (pre ++ child :: post) ->
               Chain.read h' x = Chain.read h x) /\
    (forall x, x <> this ->
       match Chain.read h x with
       | Some n =>
           exists n', Chain.read h' x = Some n' /\
                      Chain._firstChild n' = Chain._firstChild n /\
                      Chain._lastChild n' = Chain._lastChild n
       | None => Chain.read h' x = None
       end) /\
    (exists t t',
       Chain.read h this = Some t /\ Chain.read h' this = Some t' /\
       Chain._parent t' = Chain._parent t /\ Chain._prev t' = Chain._prev t /\
       Chain._next t' = Chain._next t).
Proof.
  intros (t & Ht & Hfirst & Hsib & Hnd & Hthis).
  destruct (Chain_siblings_middle _ _ _ _ _ _ _ Hsib) as (c & Hc & Hp & Hv & Hx).
  pose proof (NoDup_remove _ _ _ Hnd) as [Hnd' Hchild].
  assert (Hne : this <> child).
  { intros ->. apply Hthis. apply in_or_app. right. now left. }
  assert (Hprev : forall p, Chain._prev c = Some p ->
                            In p pre /\ p <> this /\ p <> child /\ Chain.read h p <> None).
  { intros p E. rewrite Hv in E. apply Chain_hd_rev_In in E.
    assert (Hin : In p (pre ++ child :: post)) by (apply in_or_app; now left).
    split; [exact E|]. split; [intros ->; contradiction|]. split.
    - intros ->. apply Hchild. apply in_or_app. now left.
    - destruct (Chain_siblings_read _ _ _ _ _ _ Hsib Hin) as (n & -> & _). discriminate. }
  assert (Hnext : forall x, Chain._next c = Some x ->
                            In x post /\ x <> this /\ x <> child /\ Chain.read h x <> None).
  { intros x E. rewrite Hx in E. destruct post as [|y post]; [discriminate|].
    injection E as ->.
    assert (Hin : In x (pre ++ child :: x :: post)).
    { apply in_or_app. right. right. now left. }
    split; [now left|]. split; [intros ->; contradiction|]. split.
    - intros ->. apply Hchild. apply in_or_app. right. now left.
    - destruct (Chain_siblings_read _ _ _ _ _ _ Hsib Hin) as (n & -> & _). discriminate. }
  destruct (Chain_Unlink_effect h this child t c Ht Hc Hp Hne)
    as (h' & HU & Hlen & Rt & Rc & Ro).
  { intros p E. destruct (Hprev p E) as (_ & H1 & H2 & H3). auto. }
  { intros x E. destruct (Hnext x E) as (_ & H1 & H2 & H3). auto. }
  { intros Hnn E. destruct (Chain._prev c) as [p|] eqn:Ep; [|contradiction].
    destruct (Hprev p eq_refl) as (Hp1 & _). symmetry in E.
    destruct (Hnext p E) as (Hp2 & _).
    apply NoDup_remove_1 in Hnd.
    assert (Hsplit : exists l1 l2, pre = l1 ++ p :: l2) by now apply in_split.
    destruct Hsplit as (l1 & l2 & ->). rewrite <- app_assoc in Hnd. cbn [app] in Hnd.
    apply NoDup_remove_2 in Hnd. apply Hnd. apply in_or_app. right.
    apply in_or_app. now right. }
  exists h', c, (Chain.set_parent None c).
  split; [exact HU|].
  split; [|split; [exact Hc|split; [exact Rc|split; [reflexivity|split; [|split]]]]].
  3:{ intros x Hxt. destruct (Nat.eq_dec x child) as [->|Hxc].
      - rewrite Hc. eexists. split; [exact Rc|]. split; reflexivity.
      - rewrite (Ro x Hxt Hxc). destruct (Chain.read h x) as [n|]; [|reflexivity].
        eexists. split; [reflexivity|].
        destruct (ptr_eqb (Some x) (Chain._prev c));
          [|destruct (ptr_eqb (Some x) (Chain._next c))]; split; reflexivity. }
  3:{ eexists. eexists. split; [exact Ht|]. split; [exact Rt|]. cbv zeta.
      destruct (ptr_eqb (Some child) (Chain._firstChild t));
        cbn [Chain.set_firstChild Chain._lastChild];
        destruct (ptr_eqb (Some child) (Chain._lastChild t)); repeat split. }
  - destruct (Chain_siblings_remove h h' this child c post (Chain._lastChild t) Hc
                pre None Hsib Hnd) as (Hsib' & _).
    { intros x E. discriminate. }
    { intros x Hin. apply Ro.
      - intros ->. apply Hthis. apply in_app_or in Hin. apply in_or_app.
        destruct Hin; [now left | right; now right].
      - intros ->. contradiction. }
    eexists. split; [exact Rt|].
    pose proof (Chain_siblings_last_ptr _ _ _ _ _ Hsib) as Hlast.
    rewrite rev_app_distr in Hlast. cbn [rev] in Hlast.
    rewrite <- app_assoc, map_app in Hlast. cbn [app map] in Hlast.
    assert (E1 : ptr_eqb (Some child) (Chain._firstChild t)
                 = match pre with [] => true | _ :: _ => false end).
    { rewrite Hfirst. destruct pre as [|a pre]; simpl; [apply Nat.eqb_refl|].
      apply Nat.eqb_neq. intros ->. apply Hchild. now left. }
    assert (E2 : ptr_eqb (Some child) (Chain._lastChild t)
                 = match post with [] => true | _ :: _ => false end).
    { rewrite Hlast. destruct post as [|y post]; simpl; [apply Nat.eqb_refl|].
      destruct (map Some (rev post ++ [y])) as [|z r] eqn:Er.
      - apply (f_equal (@List.length _)) in Er.
        rewrite length_map, length_app in Er. simpl in Er. lia.
      - cbn [app hd].
        assert (Hz : In z (map Some (rev post ++ [y]))) by (rewrite Er; now left).
        apply in_map_iff in Hz. destruct Hz as (w & <- & Hw).
        simpl. apply Nat.eqb_neq. intros ->. apply Hchild.
        apply in_or_app. right. apply in_app_or in Hw.
        destruct Hw as [Hw|[<-|[]]]; [right; now apply in_rev | now left]. }
    assert (Hthis' : ~ In this (pre ++ post)).
    { intros Hin. apply Hthis. apply in_app_or in Hin. apply in_or_app.
      destruct Hin; [now left | right; now right]. }
    cbv zeta. rewrite E1.
    destruct pre as [|a pre]; cbv iota; cbn [Chain.set_firstChild Chain._lastChild];
      rewrite E2; destruct post as [|y post]; cbv iota;
      cbn [Chain.set_firstChild Chain.set_lastChild Chain._lastChild
             Chain._firstChild app hd_error] in *;
      (split; [auto | split; [exact Hsib' | split; [exact Hnd' | exact Hthis']]]).
  - intros x H1 H2. rewrite (Ro x H1).
    2:{ intros ->. apply H2. apply in_or_app. right. now left. }
    destruct (Chain.read h x) as [n|]; [|reflexivity].
    assert (E1 : ptr_eqb (Some x) (Chain._prev c) = false).
    { destruct (Chain_ptr_eqb_spec (Some x) (Chain._prev c)) as [E|E]; [|reflexivity].
      exfalso. symmetry in E. destruct (Hprev x E) as (Hin & _). apply H2.
      apply in_or_app. now left. }
    assert (E2 : ptr_eqb (Some x) (Chain._next c) = false).
    { destruct (Chain_ptr_eqb_spec (Some x) (Chain._next c)) as [E|E]; [|reflexivity].
      exfalso. symmetry in E. destruct (Hnext x E) as (Hin & _). apply H2.
      apply in_or_app. right. now right. }
    now rewrite E1, E2.
Qed.

(** A node at 0 whose only child is 1, and a new node at 2. *)
Lemma InsertEndChild_appends_to_the_chain_witness :
  let h := [Some (Chain.mkNode None (Some 1%nat) (Some 1%nat) None None);
            Some (Chain.mkNode (Some O) None None None None);
            Some Chain.new] in
  exists h' n',
    Chain.InsertEndChild 0 2 h = Some h' /\
    Chain.children h' 0 ([1%nat] ++ [2%nat]) /\
    Chain.read h' 2 = Some n' /\
    Chain._parent n' = Some O /\
    Chain._firstChild n' = Chain._firstChild Chain.new /\
    Chain._lastChild n' = Chain._lastChild Chain.new /\
    (forall x, x <> O -> x <> 2%nat -> ~ In x [1%nat] ->
               Chain.read h' x = Chain.read h x).
Proof.
  intros h.
  refine (InsertEndChild_appends_to_the_chain h 0 2 [1%nat] Chain.new _ _ _ _).
  - eexists. split; [reflexivity|]. split; [reflexivity|]. split; [|split].
    + cbn [Chain.siblings]. eexists. repeat split.
    + constructor; [intros [] | constructor].
    + simpl. lia.
  - reflexivity.
  - lia.
  - simpl. lia.
Defined.

(** X21.  When the pointers of [this] give a chain in which [child]
    occurs, Unlink(child) passes its assertion and leaves the chain without
    [child], the other children in their order; [child] has lost its parent
    pointer and nothing else, and no node outside [this] and the chain is
    written. *)
Theorem Unlink_removes_the_child :
  forall (h : Chain.Heap) (this child : nat) (pre post : list nat),
    Chain.children h this (pre ++ child :: post) ->
    exists h' c,
      Chain.Unlink this child h = Some h' /\
      Chain.children h' this (pre ++ post) /\
      Chain.read h child = Some c /\
      Chain.read h' child = Some (Chain.set_parent None c) /\
      (forall x, x <> this -> ~ In x (pre ++ child :: post) ->
                 Chain.read h' x = Chain.read h x).
Proof.
  intros h this child pre post H.
  destruct (Chain_Unlink_children h this child pre post H)
    as (h' & c & c' & HU & Hch & Hc & Hc' & -> & Ho & _).
  exists h', c. auto.
Qed.

(** ** DeleteChildren *)

Lemma Chain_shape_unfold (h : Chain.Heap) (a : nat) (k : list Chain.Tree) :
  Chain.shape h (Chain.T a k)
  <-> Chain.children h a (map Chain.root k) /\ Forall (Chain.shape h) k.
Proof.
  cbn [Chain.shape].
  assert (H : forall l,
             (fix all (l : list Chain.Tree) : Prop :=
                match l with
                | [] => True
                | x :: l' => Chain.shape h x /\ all l'
                end) l <-> Forall (Chain.shape h) l).
  { induction l as [|x l IH]; split; intros Hl.
    - constructor.
    - exact I.
    - destruct Hl as [Hx Hl]. constructor; [exact Hx | now apply IH].
    - inversion Hl; subst. split; [assumption | now apply IH]. }
  now rewrite H.
Qed.

Lemma Chain_root_in_nodes (t : Chain.Tree) : In (Chain.root t) (Chain.nodes t).
Proof. destruct t. now left. Qed.

Lemma Chain_roots_in_nodes (k : list Chain.Tree) (x : nat) :
  In x (map Chain.root k) -> In x (flat_map Chain.nodes k).
Proof.
  intros H. apply in_map_iff in H. destruct H as (t & <- & Ht).
  apply in_flat_map. exists t. split; [exact Ht | apply Chain_root_in_nodes].
Qed.

(** The chain of a node in a heap that agrees on the node's two child
    pointers and on its children. *)
Lemma Chain_children_frame (h h' : Chain.Heap) (a : nat) (cs : list nat) :
  Chain.children h a cs ->
  (match Chain.read h a with
   | Some n =>
       exists n', Chain.read h' a = Some n' /\
                  Chain._firstChild n' = Chain._firstChild n /\
                  Chain._lastChild n' = Chain._lastChild n
   | None => Chain.read h' a = None
   end) ->
  (forall c, In c cs -> Chain.read h' c = Chain.read h c) ->
  Chain.children h' a cs.
Proof.
  intros (t & Ht & Hf & Hs & Hnd & Ha) Hroot Hsame. rewrite Ht in Hroot.
  destruct Hroot as (t' & Ht' & Ef & El).
  exists t'. split; [exact Ht'|]. split; [congruence|]. rewrite El.
  split; [|auto]. now apply (Chain_siblings_frame h).
Qed.

Lemma Chain_shape_frame (n : nat) :
  forall (h h' : Chain.Heap) (t : Chain.Tree),
    (List.length (Chain.nodes t) <= n)%nat ->
    Chain.shape h t ->
    (match Chain.read h (Chain.root t) with
     | Some n =>
         exists n', Chain.read h' (Chain.root t) = Some n' /\
                    Chain._firstChild n' = Chain._firstChild n /\
                    Chain._lastChild n' = Chain._lastChild n
     | None => Chain.read h' (Chain.root t) = None
     end) ->
    (forall x, In x (Chain.nodes t) -> x <> Chain.root t ->
               Chain.read h' x = Chain.read h x) ->
    NoDup (Chain.nodes t) ->
    Chain.shape h' t.
Proof.
  induction n as [|n IH]; intros h h' [a k] Hn Hs Hroot Hsame Hnd.
  { simpl in Hn. lia. }
  apply Chain_shape_unfold in Hs. destruct Hs as [Hch Hk].
  apply Chain_shape_unfold. cbn [Chain.root Chain.nodes] in *.
  inversion Hnd as [|? ? Ha Hnd']; subst.
  split.
  - apply (Chain_children_frame h); [exact Hch | exact Hroot |].
    intros c Hc. apply Hsame; [right; now apply Chain_roots_in_nodes|].
    intros ->. apply Ha. now apply Chain_roots_in_nodes.
  - assert (Hall : forall l,
               Forall (Chain.shape h) l ->
               (List.length (flat_map Chain.nodes l) <= n)%nat ->
               (forall x, In x (flat_map Chain.nodes l) ->
                          Chain.read h' x = Chain.read h x) ->
               NoDup (flat_map Chain.nodes l) ->
               Forall (Chain.shape h') l).
    { induction 1 as [|t l Ht Hl IHl]; intros Hlen Hsm Hndl; [constructor|].
      cbn [flat_map] in *. rewrite length_app in Hlen. constructor.
      - apply (IH h); [lia | exact Ht | | |].
        + rewrite Hsm by (apply in_or_app; left; apply Chain_root_in_nodes).
          destruct (Chain.read h (Chain.root t)); [|reflexivity]. eauto.
        + intros x Hx _. apply Hsm. apply in_or_app. now left.
        + now apply NoDup_app_remove_r in Hndl.
      - apply IHl.
        + lia.
        + intros x Hx. apply Hsm. apply in_or_app. now right.
        + now apply NoDup_app_remove_l in Hndl. }
    apply Hall; [exact Hk | cbn [List.length] in Hn; lia | | exact Hnd'].
    intros x Hx. apply Hsame; [now right|]. intros ->. contradiction.
Qed.

Lemma Chain_shapes_frame (h h' : Chain.Heap) :
  forall l,
    Forall (Chain.shape h) l ->
    NoDup (flat_map Chain.nodes l) ->
    (forall x, In x (flat_map Chain.nodes l) ->
       match Chain.read h x with
       | Some n =>
           exists n', Chain.read h' x = Some n' /\
                      Chain._firstChild n' = Chain._firstChild n /\
                      Chain._lastChild n' = Chain._lastChild n
       | None => Chain.read h' x = None
       end) ->
    (forall x, In x (flat_map Chain.nodes l) -> ~ In x (map Chain.root l) ->
               Chain.read h' x = Chain.read h x) ->
    Forall (Chain.shape h') l.
Proof.
  induction 1 as [|t l Ht Hl IH]; intros Hnd Hkeep Hsame; [constructor|].
  cbn [flat_map map] in *.
  assert (Hdis : forall x, In x (Chain.nodes t) -> ~ In x (flat_map Chain.nodes l)).
  { intros x Hx Hx'. apply NoDup_app_remove_l in Hnd as Hnd2.
    clear -Hnd Hx Hx'. induction (Chain.nodes t) as [|y ys IHy]; [destruct Hx|].
    cbn [app] in Hnd. inversion Hnd; subst. destruct Hx as [->|Hx].
    - apply H1. apply in_or_app. now right.
    - now apply IHy. }
  constructor.
  - apply (Chain_shape_frame _ h h' t (le_n _) Ht).
    + apply Hkeep. apply in_or_app. left. apply Chain_root_in_nodes.
    + intros x Hx Hxr. apply Hsame; [apply in_or_app; now left|].
      intros [E|Hin]; [congruence|].
      apply (Hdis x Hx). now apply Chain_roots_in_nodes.
    + now apply NoDup_app_remove_r in Hnd.
  - apply IH.
    + now apply NoDup_app_remove_l in Hnd.
    + intros x Hx. apply Hkeep. apply in_or_app. now right.
    + intros x Hx Hxr. apply Hsame; [apply in_or_app; now right|].
      intros [E|Hin]; [|contradiction].
      apply (Hdis x); [rewrite <- E; apply Chain_root_in_nodes | exact Hx].
Qed.

Lemma Chain_DeleteChildren_leaf (h : Chain.Heap) (a : nat) t fuel freed :
  Chain.read h a = Some t ->
  Chain._firstChild t = None ->
  exists h',
    Chain.DeleteChildren (S fuel) a (h, freed) = Some (h', freed) /\
    Chain.read h' a
    = Some (Chain.mkNode (Chain._parent t) None None (Chain._prev t) (Chain._next t)) /\
    (forall x, x <> a -> Chain.read h' x = Chain.read h x).
Proof.
  intros Ht Hf. pose proof (Chain_read_lt _ _ _ Ht) as Lt.
  cbn [Chain.DeleteChildren fst snd]. rewrite Ht, Hf.
  do 2 chain_update.
  eexists. split; [reflexivity|]. split.
  - chain_read. reflexivity.
  - intros x Hx. chain_read. reflexivity.
Qed.

Lemma Chain_NoDup_app_disjoint (l1 l2 : list nat) (x : nat) :
  NoDup (l1 ++ l2) -> In x l1 -> ~ In x l2.
Proof.
  induction l1 as [|y l1 IH]; intros Hnd Hx Hx2; [destruct Hx|].
  cbn [app] in Hnd. inversion Hnd; subst. destruct Hx as [->|Hx].
  - apply H1. apply in_or_app. now right.
  - now apply IH.
Qed.

Lemma Chain_Delete (n : nat) :
  (forall h a k freed fuel,
     (List.length (flat_map Chain.nodes k) <= n)%nat ->
     Chain.shape h (Chain.T a k) ->
     NoDup (Chain.nodes (Chain.T a k)) ->
     (2 * List.length (flat_map Chain.nodes k) + 1 <= fuel)%nat ->
     exists h' t,
       Chain.DeleteChildren fuel a (h, freed)
       = Some (h', freed ++ flat_map Chain.postorder k) /\
       Chain.read h a = Some t /\
       Chain.read h' a
       = Some (Chain.mkNode (Chain._parent t) None None
                 (Chain._prev t) (Chain._next t)) /\
       (forall x, In x (flat_map Chain.nodes k) -> Chain.read h' x = None) /\
       (forall x, ~ In x (Chain.nodes (Chain.T a k)) ->
                  Chain.read h' x = Chain.read h x)) /\
  (forall h a k freed fuel c,
     (List.length (Chain.nodes (Chain.T a k)) <= n)%nat ->
     Chain.shape h (Chain.T a k) ->
     NoDup (Chain.nodes (Chain.T a k)) ->
     Chain.read h a = Some c ->
     Chain._parent c = None ->
     (2 * List.length (Chain.nodes (Chain.T a k)) <= fuel)%nat ->
     exists h',
       Chain.DeleteNode fuel a (h, freed)
       = Some (h', freed ++ Chain.postorder (Chain.T a k)) /\
       (forall x, In x (Chain.nodes (Chain.T a k)) -> Chain.read h' x = None) /\
       (forall x, ~ In x (Chain.nodes (Chain.T a k)) ->
                  Chain.read h' x = Chain.read h x)).
Proof.
  induction n as [|n [IHC IHN]].
  { split.
    - intros h a k freed fuel Hn Hs Hnd Hfuel.
      destruct k as [|[b kb] k]; [|simpl in Hn; lia].
      apply Chain_shape_unfold in Hs. destruct Hs as [(t & Ht & Hf & _) _].
      destruct fuel as [|fuel]; [simpl in Hfuel; lia|].
      destruct (Chain_DeleteChildren_leaf h a t fuel freed Ht Hf) as (h' & HD & Ra & Ro).
      exists h', t. cbn [flat_map]. rewrite app_nil_r.
      repeat split; auto.
      + intros x [].
      + intros x Hx. apply Ro. intros ->. apply Hx. now left.
    - intros h a k freed fuel c Hn. simpl in Hn. lia. }
  assert (DN : forall h a k freed fuel c,
             (List.length (Chain.nodes (Chain.T a k)) <= S n)%nat ->
             Chain.shape h (Chain.T a k) ->
             NoDup (Chain.nodes (Chain.T a k)) ->
             Chain.read h a = Some c ->
             Chain._parent c = None ->
             (2 * List.length (Chain.nodes (Chain.T a k)) <= fuel)%nat ->
             exists h',
               Chain.DeleteNode fuel a (h, freed)
               = Some (h', freed ++ Chain.postorder (Chain.T a k)) /\
               (forall x, In x (Chain.nodes (Chain.T a k)) -> Chain.read h' x = None) /\
               (forall x, ~ In x (Chain.nodes (Chain.T a k)) ->
                          Chain.read h' x = Chain.read h x)).
  { intros h a k freed fuel c Hn Hs Hnd Hc Hp Hfuel.
    cbn [Chain.nodes List.length] in Hn, Hfuel.
    destruct fuel as [|fuel]; [lia|].
    destruct (IHC h a k freed fuel) as (h1 & t & HD & Ht & Ra & Rk & Ro);
      [lia | exact Hs | exact Hnd | lia |].
    rewrite Hc in Ht. injection Ht as <-.
    cbn [Chain.DeleteNode]. rewrite HD. cbn [fst snd]. rewrite Ra.
    cbn [Chain._parent]. rewrite Hp.
    eexists. split; [cbn [Chain.postorder]; now rewrite app_assoc|].
    cbn [Chain.nodes]. inversion Hnd as [|? ? Ha Hnd']; subst. split.
    - intros x [<-|Hx]; [apply Chain_read_freed|].
      rewrite Chain_read_assign_other by (intros ->; contradiction). now apply Rk.
    - intros x Hx. rewrite Chain_read_assign_other.
      + apply Ro. exact Hx.
      + intros ->. apply Hx. now left. }
  split; [|exact DN].
  intros h a k freed fuel Hn Hs Hnd Hfuel.
  destruct k as [|[b kb] rest].
  { apply Chain_shape_unfold in Hs. destruct Hs as [(t & Ht & Hf & _) _].
    destruct fuel as [|fuel]; [simpl in Hfuel; lia|].
    destruct (Chain_DeleteChildren_leaf h a t fuel freed Ht Hf) as (h' & HD & Ra & Ro).
    exists h', t. cbn [flat_map]. rewrite app_nil_r.
    repeat split; auto.
    - intros x [].
    - intros x Hx. apply Ro. intros ->. apply Hx. now left. }
  apply Chain_shape_unfold in Hs. destruct Hs as [Hch Hk].
  inversion Hk as [|? ? Hsb Hrest]; subst.
  cbn [Chain.nodes flat_map map Chain.root List.length] in *.
  rewrite length_app in Hn, Hfuel. cbn [List.length] in Hn, Hfuel.
  inversion Hnd as [|? ? Ha Hnd0]; subst.
  assert (Hnd1 : NoDup ((b :: flat_map Chain.nodes kb) ++ flat_map Chain.nodes rest))
    by exact Hnd0.
  assert (Hndb : NoDup (b :: flat_map Chain.nodes kb))
    by now apply NoDup_app_remove_r in Hnd1.
  assert (Hndr : NoDup (flat_map Chain.nodes rest))
    by now apply NoDup_app_remove_l in Hnd1.
  assert (Hdis : forall x, In x (b :: flat_map Chain.nodes kb) ->
                           ~ In x (flat_map Chain.nodes rest)).
  { intros x Hx. now apply (Chain_NoDup_app_disjoint _ _ x Hnd1). }
  assert (Ha' : ~ In a ((b :: flat_map Chain.nodes kb) ++ flat_map Chain.nodes rest))
    by exact Ha.
  assert (Ha_b : ~ In a (b :: flat_map Chain.nodes kb)).
  { intros Hin. apply Ha'. apply in_or_app. now left. }
  assert (Ha_r : ~ In a (flat_map Chain.nodes rest)).
  { intros Hin. apply Ha'. apply in_or_app. now right. }
  destruct fuel as [|fuel]; [lia|].
  destruct (Chain_Unlink_children h a b [] (map Chain.root rest) Hch)
    as (h1 & c & c' & HU & Hch1 & Hc & Hc1 & -> & Ho & Hkeep & (t & t1 & Ht & Ht1 & E1 & E2 & E3)).
  cbn [app] in *.
  assert (Hfirst : Chain._firstChild t = Some b).
  { destruct Hch as (t0 & Ht0 & Hf0 & _). rewrite Ht in Ht0. injection Ht0 as <-.
    exact Hf0. }
  (* the first child, unlinked *)
  assert (Hsb1 : Chain.shape h1 (Chain.T b kb)).
  { apply (Chain_shape_frame _ h h1 (Chain.T b kb) (le_n _) Hsb).
    - cbn [Chain.root]. apply Hkeep. intros ->. apply Ha_b. now left.
    - cbn [Chain.root Chain.nodes]. intros x Hx Hxb. apply Ho.
      + intros ->. contradiction.
      + intros [E|Hin]; [congruence|].
        apply (Hdis x Hx). now apply Chain_roots_in_nodes.
    - exact Hndb. }
  destruct (DN h1 b kb freed fuel (Chain.set_parent None c))
    as (h2 & HN & Rb & Rob); [cbn [Chain.nodes List.length]; lia | exact Hsb1 |
                              exact Hndb | exact Hc1 | reflexivity |
                              cbn [Chain.nodes List.length]; lia |].
  cbn [Chain.nodes] in Rb, Rob.
  (* the other children *)
  assert (Hs2 : Chain.shape h2 (Chain.T a rest)).
  { apply Chain_shape_unfold. split.
    - apply (Chain_children_frame h1); [exact Hch1 | |].
      + rewrite (Rob a Ha_b). rewrite Ht1. eauto.
      + intros x Hx. apply Rob. intros Hin.
        apply (Hdis x Hin). now apply Chain_roots_in_nodes.
    - apply (Chain_shapes_frame h h2 rest Hrest Hndr).
      + intros x Hx. rewrite (Rob x) by (intros Hin; now apply (Hdis x Hin)).
        apply Hkeep. intros ->. contradiction.
      + intros x Hx Hxr. rewrite (Rob x) by (intros Hin; now apply (Hdis x Hin)).
        apply Ho.
        * intros ->. contradiction.
        * intros [E|Hin]; [|contradiction].
          apply (Hdis b); [now left | now rewrite E]. }
  destruct (IHC h2 a rest (freed ++ Chain.postorder (Chain.T b kb)) fuel)
    as (h3 & t2 & HD & Ht2 & Ra & Rk & Ro3);
    [lia | exact Hs2 | constructor; assumption | lia |].
  rewrite (Rob a Ha_b), Ht1 in Ht2. injection Ht2 as <-.
  exists h3, t.
  split.
  { cbn [Chain.DeleteChildren fst snd]. rewrite Ht, Hfirst, HU, HN, HD.
    cbn [flat_map]. now rewrite app_assoc. }
  split; [exact Ht|]. split; [rewrite Ra, E1, E2, E3; reflexivity|].
  split.
  - intros x Hx.
    assert (Hx' : In x ((b :: flat_map Chain.nodes kb) ++ flat_map Chain.nodes rest))
      by exact Hx.
    apply in_app_or in Hx'. destruct Hx' as [Hx'|Hx']; [|now apply Rk].
    clear Hx. rename Hx' into Hx.
    rewrite Ro3; [now apply Rb|].
    cbn [Chain.nodes]. intros [<-|Hin]; [contradiction | now apply (Hdis x Hx)].
  - intros x Hx.
    assert (Hxa : x <> a) by (intros ->; apply Hx; now left).
    assert (Hx' : ~ In x (a :: (b :: flat_map Chain.nodes kb)
                                   ++ flat_map Chain.nodes rest)) by exact Hx.
    assert (Hxb : ~ In x (b :: flat_map Chain.nodes kb)).
    { intros Hin. apply Hx'. right. apply in_or_app. now left. }
    assert (Hxr : ~ In x (flat_map Chain.nodes rest)).
    { intros Hin. apply Hx'. right. apply in_or_app. now right. }
    rewrite Ro3 by (cbn [Chain.nodes]; intros [E|Hin]; [congruence | contradiction]).
    rewrite (Rob x Hxb). apply Ho; [exact Hxa|].
    intros [E|Hin]; [apply Hxb; now left|].
    apply Hxr. now apply Chain_roots_in_nodes.
Qed.

(** X22.  When the heap holds a tree of nodes under [this], all distinct,
    DeleteChildren comes to an end without touching a node that has been
    given back: it gives back to their pools all the nodes under [this],
    each of them once, the children of a node before the node and siblings
    first to last; [this] is left with an empty chain, and the nodes outside
    the tree are as they were. *)
Theorem DeleteChildren_frees_the_subtree :
  forall (h : Chain.Heap) (this : nat) (kids : list Chain.Tree)
         (freed : list nat) (fuel : nat),
    Chain.shape h (Chain.T this kids) ->
    NoDup (Chain.nodes (Chain.T this kids)) ->
    (2 * List.length (flat_map Chain.nodes kids) + 1 <= fuel)%nat ->
    exists h',
      Chain.DeleteChildren fuel this (h, freed)
      = Some (h', freed ++ flat_map Chain.postorder kids) /\
      Chain.children h' this [] /\
      (forall x, In x (flat_map Chain.nodes kids) -> Chain.read h' x = None) /\
      (forall x, ~ In x (Chain.nodes (Chain.T this kids)) ->
                 Chain.read h' x = Chain.read h x).
Proof.
  intros h this kids freed fuel Hs Hnd Hfuel.
  destruct (proj1 (Chain_Delete (List.length (flat_map Chain.nodes kids)))
              h this kids freed fuel (le_n _) Hs Hnd Hfuel)
    as (h' & t & HD & Ht & Rt & Rk & Ro).
  exists h'. split; [exact HD|]. split; [|split; assumption].
  eexists. split; [exact Rt|]. cbn [Chain._firstChild Chain._lastChild hd_error].
  split; [reflexivity|]. split; [reflexivity|]. split; [constructor | intros []].
Qed.

(** A node at 0 with the children 1 and 3, and 2 the child of 1. *)
Lemma Chain_example_shape :
  Chain.shape
    [Some (Chain.mkNode None (Some 1%nat) (Some 3%nat) None None);
     Some (Chain.mkNode (Some O) (Some 2%nat) (Some 2%nat) None (Some 3%nat));
     Some (Chain.mkNode (Some 1%nat) None None None None);
     Some (Chain.mkNode (Some O) None None (Some 1%nat) None)]
    (Chain.T 0 [Chain.T 1 [Chain.T 2 []]; Chain.T 3 []]).
Proof.
  assert (Hnd : forall a b : nat, a <> b -> NoDup [a; b]).
  { intros a b H. constructor; [intros [E|[]]; congruence|].
    constructor; [intros [] | constructor]. }
  assert (Hnd1 : forall a : nat, NoDup [a]).
  { intros a. constructor; [intros [] | constructor]. }
  cbn [Chain.shape map Chain.root]. unfold Chain.children.
  repeat split.
  - eexists. split; [reflexivity|]. split; [reflexivity|].
    split; [|split; [apply Hnd; lia | simpl; lia]].
    cbn [Chain.siblings]. eexists. repeat split.
    eexists. repeat split.
  - eexists. split; [reflexivity|]. split; [reflexivity|].
    split; [|split; [apply Hnd1 | simpl; lia]].
    cbn [Chain.siblings]. eexists. repeat split.
  - eexists. split; [reflexivity|]. split; [reflexivity|].
    split; [reflexivity|]. split; [constructor | intros []].
  - eexists. split; [reflexivity|]. split; [reflexivity|].
    split; [reflexivity|]. split; [constructor | intros []].
Qed.

(** The first child of the node at 0 is unlinked; the node at 3 is left. *)
Lemma Unlink_removes_the_child_witness :
  let h := [Some (Chain.mkNode None (Some 1%nat) (Some 3%nat) None None);
            Some (Chain.mkNode (Some O) (Some 2%nat) (Some 2%nat) None (Some 3%nat));
            Some (Chain.mkNode (Some 1%nat) None None None None);
            Some (Chain.mkNode (Some O) None None (Some 1%nat) None)] in
  exists h' c,
    Chain.Unlink 0 1 h = Some h' /\
    Chain.children h' 0 ([] ++ [3%nat]) /\
    Chain.read h 1 = Some c /\
    Chain.read h' 1 = Some (Chain.set_parent None c) /\
    (forall x, x <> O -> ~ In x ([] ++ 1%nat :: [3%nat]) ->
               Chain.read h' x = Chain.read h x).
Proof.
  intros h.
  refine (Unlink_removes_the_child h 0 1 [] [3%nat] _).
  exact (proj1 (proj1 (Chain_shape_unfold _ _ _) Chain_example_shape)).
Defined.

(** The same heap: the nodes at 2, 1 and 3 are given back, in this order. *)
Lemma DeleteChildren_frees_the_subtree_witness :
  let h := [Some (Chain.mkNode None (Some 1%nat) (Some 3%nat) None None);
            Some (Chain.mkNode (Some O) (Some 2%nat) (Some 2%nat) None (Some 3%nat));
            Some (Chain.mkNode (Some 1%nat) None None None None);
            Some (Chain.mkNode (Some O) None None (Some 1%nat) None)] in
  exists h',
    Chain.DeleteChildren 9 0 (h, [])
    = Some (h', [] ++ [2; 1; 3]%nat) /\
    Chain.children h' 0 [] /\
    (forall x, In x [1; 2; 3]%nat -> Chain.read h' x = None) /\
    (forall x, ~ In x [0; 1; 2; 3]%nat -> Chain.read h' x = Chain.read h x).
Proof.
  intros h.
  refine (DeleteChildren_frees_the_subtree h 0
            [Chain.T 1 [Chain.T 2 []]; Chain.T 3 []] [] 9 _ _ _).
  - apply Chain_example_shape.
  - repeat constructor; simpl; lia.
  - simpl. lia.
Defined.

(** ** The DEBUG counters of untracked allocations *)

Lemma Untracked_Alloc (v v' : Variant) (d : JsonDocument) :
  Untracked v (with_pool v' MemPool.Alloc d)
  = Untracked v d + one_if (Variant_eqb v v').
Proof.
  destruct d as [cs e0 a b bf [] [] [] [] [] [] log], v, v';
    cbn -[Z.add Z.sub]; lia.
Qed.

Lemma Untracked_SetTracked (v v' : Variant) (d : JsonDocument) :
  Untracked v (with_pool v' MemPool.SetTracked d)
  = Untracked v d - one_if (Variant_eqb v v').
Proof.
  destruct d as [cs e0 a b bf [] [] [] [] [] [] log], v, v';
    cbn -[Z.add Z.sub]; lia.
Qed.

Lemma Untracked_Free (v v' : Variant) (d : JsonDocument) :
  Untracked v (with_pool v' MemPool.Free d) = Untracked v d.
Proof. destruct d, v, v'; reflexivity. Qed.

Lemma Untracked_SetError (v : Variant) e s1 s2 (d : JsonDocument) :
  Untracked v (SetError_doc e s1 s2 d) = Untracked v d.
Proof.
  destruct d as [cs e0 a b bf po pa pe pn ps pr log]. unfold Untracked. simpl.
  destruct (JsonError_eqb e0 JSON_NO_ERROR), v; reflexivity.
Qed.

Lemma Untracked_with_buffer (v : Variant) buf (d : JsonDocument) :
  Untracked v (with_buffer buf d) = Untracked v d.
Proof. destruct d, v; reflexivity. Qed.

Lemma Untracked_with_children (v : Variant) cs (d : JsonDocument) :
  Untracked v (with_children cs d) = Untracked v d.
Proof. destruct d, v; reflexivity. Qed.

Lemma Untracked_InitDocument (v : Variant) (d : JsonDocument) :
  Untracked v (InitDocument d) = Untracked v d.
Proof. destruct d, v; reflexivity. Qed.

Lemma Untracked_DeleteChildren (v : Variant) (cs : list JsonNode) :
  Forall (fun c => forall d, Untracked v (DeleteNode_pools c d) = Untracked v d) cs ->
  forall d, Untracked v (DeleteChildren_pools cs d) = Untracked v d.
Proof.
  induction 1 as [|c cs Hc _ IH]; intros d; [reflexivity|].
  cbn [DeleteChildren_pools fold_left].
  fold (DeleteChildren_pools cs (DeleteNode_pools c d)). now rewrite IH, Hc.
Qed.

Lemma Untracked_DeleteNode (v : Variant) (node : JsonNode) :
  forall d, Untracked v (DeleteNode_pools node d) = Untracked v d.
Proof.
  induction node as [t|f i|sp|cs IH|cs IH|cs IH] using JsonNode_tree_ind; intros d;
    rewrite DeleteNode_pools_unfold, Untracked_Free; cbn [FirstChildren];
    try reflexivity; now apply Untracked_DeleteChildren.
Qed.

(** One step of the run of a computation that has returned: the first
    operation is taken off, and what it did to the document is recorded. *)
Ltac run_prim E :=
  lazymatch type of E with
  | deref _ _ = Ok _ => apply deref_Ok in E; destruct E as [-> _]
  | SkipWhiteSpace _ _ = Ok _ => apply SkipWhiteSpace_Ok in E; destruct E as [-> _]
  | bytes_from _ _ = Ok _ => apply bytes_from_Ok in E; destruct E as [-> _]
  | lift _ _ = Ok _ => apply lift_Ok in E; destruct E as [_ ->]
  | modify _ _ = Ok _ => apply modify_Ok in E; subst
  | SetError _ _ _ _ = Ok _ => apply modify_Ok in E; subst
  | Alloc _ _ = Ok _ => apply modify_Ok in E; subst
  | SetTracked _ _ = Ok _ => apply modify_Ok in E; subst
  | DeleteNode _ _ = Ok _ => apply modify_Ok in E; subst
  | store _ _ _ = Ok _ =>
      let buf := fresh "buf" in
      apply store_Ok in E; destruct E as (buf & _ & _ & ->)
  | _ => idtac
  end.

Ltac run_step H :=
  lazymatch type of H with
  | ret _ _ = Ok _ => inv_ret H
  | (if ?b then _ else _) _ = Ok _ => destruct b
  | (match ?j with Some _ => _ | None => _ end) _ = Ok _ => destruct j
  | (let '(_, _) := ?x in _) _ = Ok _ => destruct x
  | (match ?x with (_, _) => _ end) _ = Ok _ => destruct x
  | bind _ _ _ = Ok _ =>
      let a := fresh "a" in
      let d1 := fresh "d" in
      let E := fresh "E" in
      apply bind_Ok in H; destruct H as (a & d1 & E & H); run_prim E
  end.

Ltac run H := repeat run_step H.

Ltac run_all :=
  repeat match goal with
         | E : bind _ _ _ = Ok _ |- _ => progress run E
         | E : ret _ _ = Ok _ |- _ => inv_ret E
         end.

Ltac tracked_done :=
  let v := fresh "v" in
  intros v;
  repeat match goal with
         | H : tracked _ _ |- _ => specialize (H v)
         end;
  cbn [pool_of] in *;
  repeat match goal with
         | H : pool_of _ = _ |- _ => rewrite H in *; clear H
         end;
  rewrite ?Untracked_SetError, ?Untracked_with_buffer, ?Untracked_DeleteNode,
    ?Untracked_SetTracked, ?Untracked_Alloc in *;
  try lia.

Lemma JsonString_ParseDeep_tracked sp json d sp' r d' :
  JsonString_ParseDeep sp json d = Ok ((sp', r), d') -> tracked d d'.
Proof.
  unfold JsonString_ParseDeep. intros H. cbv zeta in H. run H; tracked_done.
Qed.

Lemma JsonReserved_ParseDeep_tracked t json d t' r d' :
  JsonReserved_ParseDeep t json d = Ok ((t', r), d') -> tracked d d'.
Proof.
  unfold JsonReserved_ParseDeep. intros H. cbv zeta in H. run H; tracked_done.
Qed.

Lemma JsonNumber_ParseDeep_tracked this json d this' r d' :
  JsonNumber_ParseDeep this json d = Ok ((this', r), d') -> tracked d d'.
Proof.
  unfold JsonNumber_ParseDeep. intros H. run H; tracked_done.
Qed.

Lemma Identify_tracked json d json' node d' :
  Identify json d = Ok ((json', node), d') ->
  match node with
  | Some n => d' = with_pool (pool_of n) MemPool.Alloc d /\ json' <> None
  | None => d' = d
  end.
Proof.
  unfold Identify. intros H. run H; try reflexivity; now split.
Qed.

Ltac tracked_calls HP HE IHN IHO IHA :=
  repeat match goal with
         | E : Identify _ _ = Ok _ |- _ =>
             apply Identify_tracked in E; cbn beta iota in E;
             lazymatch type of E with
             | match ?o with Some _ => _ | None => _ end =>
                 destruct o; [destruct E as [E ?]|]; try congruence; subst
             | _ /\ _ => destruct E as [E _]; subst
             | _ => subst
             end
         | E : JsonReserved_ParseDeep _ _ _ = Ok _ |- _ =>
             apply JsonReserved_ParseDeep_tracked in E
         | E : JsonNumber_ParseDeep _ _ _ = Ok _ |- _ =>
             apply JsonNumber_ParseDeep_tracked in E
         | E : JsonString_ParseDeep _ _ _ = Ok _ |- _ =>
             apply JsonString_ParseDeep_tracked in E
         | E : JsonObject_ParseElement _ _ _ _ = Ok _ |- _ => apply HE in E
         | E : ParseDeep _ _ _ _ = Ok _ |- _ => apply HP in E; destruct E as [? ?]
         | E : NodeParseDeep _ _ _ _ = Ok _ |- _ => apply IHN in E
         | E : ObjectWhile _ _ _ _ = Ok _ |- _ => apply IHO in E
         | E : ArrayWhile _ _ _ _ = Ok _ |- _ => apply IHA in E
         end.

Lemma parse_tracked (fuel : nat) :
  (forall this json d this' r d',
     NodeParseDeep fuel this json d = Ok ((this', r), d') -> tracked d d') /\
  (forall node json d node' r d',
     ParseDeep fuel node json d = Ok ((node', r), d') -> tracked d d') /\
  (forall this json d this' r d',
     ObjectWhile fuel this json d = Ok ((this', r), d') -> tracked d d') /\
  (forall this json d this' r d',
     ArrayWhile fuel this json d = Ok ((this', r), d') -> tracked d d').
Proof.
  induction fuel as [|fuel (IHN & IHP & IHO & IHA)].
  { repeat split; intros; discriminate. }
  assert (HP : forall node json d node' r d',
             ParseDeep fuel node json d = Ok ((node', r), d') ->
             tracked d d' /\ pool_of node' = pool_of node).
  { intros node json d node' r d' H. split; [now apply IHP in H|].
    apply (proj1 (proj2 (parse_posts VObject _))) in H.
    now destruct H as (_ & _ & _ & H). }
  assert (HE : forall this json d this' r d',
             JsonObject_ParseElement (ParseDeep fuel) this json d = Ok ((this', r), d') ->
             tracked d d').
  { intros this json d this' r d' H.
    unfold JsonObject_ParseElement, CreatElement, InsertEndChild in H. run H; run_all.
    all: tracked_calls HP HP IHN IHO IHA; tracked_done. }
  split; [|split; [|split]].
  - intros this json d this' r d' H. cbn [NodeParseDeep] in H.
    unfold JsonNode_ParseDeep_body, InsertEndChild in H. run H; run_all.
    all: tracked_calls HP HE IHN IHO IHA; tracked_done.
  - intros node json d node' r d' H. cbn [ParseDeep] in H.
    destruct node;
      unfold JsonElement_ParseDeep, JsonObject_ParseDeep, JsonArray_ParseDeep in H;
      cbv zeta in H; run H; run_all.
    all: tracked_calls HP HE IHN IHO IHA; tracked_done.
  - intros this json d this' r d' H. cbn [ObjectWhile] in H.
    unfold JsonObject_ParseDeep_while in H; cbv zeta in H; run H; run_all.
    all: tracked_calls HP HE IHN IHO IHA; tracked_done.
  - intros this json d this' r d' H. cbn [ArrayWhile] in H.
    unfold JsonArray_ParseDeep_while in H; cbv zeta in H; run H; run_all.
    all: tracked_calls HP HE IHN IHO IHA; tracked_done.
Qed.

Lemma Untracked_Parse_cleared (v : Variant) (d0 : JsonDocument) :
  Untracked v (Parse_cleared d0) = Untracked v d0.
Proof.
  unfold Parse_cleared.
  rewrite Untracked_InitDocument, Untracked_with_children.
  apply Untracked_DeleteChildren, Forall_forall. intros c _.
  apply Untracked_DeleteNode.
Qed.

Lemma Parse_tracked json len d0 e d :
  Parse json len d0 = Ok (e, d) -> tracked d0 d.
Proof.
  intros H v. apply Parse_Ok in H. destruct H as [_ H].
  destruct H as [-> | [(mem & n & buf & _ & _ & _ & ->) |
                       (mem & n & buf & this & r & d' & _ & _ & _ & Hrun & ->)]].
  - now rewrite Untracked_SetError, Untracked_Parse_cleared.
  - unfold Parse_entry.
    now rewrite Untracked_SetError, Untracked_with_buffer, Untracked_Parse_cleared.
  - apply (proj1 (parse_tracked _)) in Hrun. rewrite Untracked_with_children, Hrun.
    unfold Parse_entry. now rewrite Untracked_with_buffer, Untracked_Parse_cleared.
Qed.

Lemma Parse_no_leak json len d0 e d :
  no_leak d0 -> Parse json len d0 = Ok (e, d) -> no_leak d.
Proof.
  intros Hd0 H v. apply Parse_Ok in H. destruct H as [_ H].
  destruct H as [-> | [(mem & n & buf & _ & _ & _ & ->) |
                       (mem & n & buf & this & r & d' & _ & _ & _ & Hrun & ->)]].
  - rewrite CurrentAllocs_SetError, doc_children_SetError,
      doc_children_Parse_cleared.
    now apply CurrentAllocs_Parse_cleared.
  - unfold Parse_entry.
    rewrite CurrentAllocs_SetError, doc_children_SetError,
      CurrentAllocs_with_buffer, doc_children_with_buffer,
      doc_children_Parse_cleared.
    now apply CurrentAllocs_Parse_cleared.
  - apply (proj1 (parse_posts v _)) in Hrun. destruct Hrun as (_ & _ & Hb & _).
    unfold Parse_entry in Hb. rewrite CurrentAllocs_with_buffer in Hb.
    rewrite (CurrentAllocs_Parse_cleared v d0 Hd0) in Hb. simpl in Hb.
    rewrite CurrentAllocs_with_children, doc_children_with_children. lia.
Qed.

Lemma JsonDocument_destructor_balanced (d : JsonDocument) :
  no_leak d -> (forall v, Untracked v d = 0) ->
  exists d', JsonDocument_destructor d = Some d' /\
             forall v, CurrentAllocs v d' = 0.
Proof.
  intros Hl Hu. unfold JsonDocument_destructor. cbv zeta.
  set (d' := with_buffer None _).
  assert (Hc : forall v, CurrentAllocs v d' = 0).
  { intros v. unfold d'.
    rewrite CurrentAllocs_with_buffer, CurrentAllocs_with_children,
      CurrentAllocs_DeleteChildren, (Hl v). lia. }
  assert (Hn : forall v, Untracked v d' = 0).
  { intros v. unfold d'.
    rewrite Untracked_with_buffer, Untracked_with_children,
      Untracked_DeleteChildren; [apply Hu|].
    apply Forall_forall. intros c _. apply Untracked_DeleteNode. }
  exists d'. split; [|exact Hc].
  destruct (JsonError_eqb _ _); [|reflexivity].
  rewrite (proj2 (forallb_forall _ _)); [reflexivity|].
  intros v _. apply Z.eqb_eq.
  change (CurrentAllocs v d' = Untracked v d'). now rewrite Hc, Hn.
Qed.

(** X23.  Every node that Parse allocates is marked as tracked before Parse
    returns, whether it is linked into the tree or deleted after a failure:
    on a document whose pools hold the nodes of its tree and nothing else
    and have no untracked allocation (a new document, or one left by an
    earlier Parse), the untracked count of every pool is 0 again after
    Parse, the pools still hold the nodes of the tree and nothing else, and
    the destructor of the DEBUG build passes its assertions and leaves no
    live allocation in any pool. *)
Theorem Parse_leaves_nothing_untracked :
  forall json len d0 e d,
    no_leak d0 ->
    (forall v, Untracked v d0 = 0) ->
    Parse json len d0 = Ok (e, d) ->
    (forall v, Untracked v d = 0) /\
    no_leak d /\
    exists d', JsonDocument_destructor d = Some d' /\
               forall v, CurrentAllocs v d' = 0.
Proof.
  intros json len d0 e d Hl Hu H.
  assert (Hu' : forall v, Untracked v d = 0).
  { intros v. now rewrite (Parse_tracked _ _ _ _ _ H v). }
  assert (Hl' : no_leak d) by now apply (Parse_no_leak json len d0 e).
  split; [exact Hu'|]. split; [exact Hl'|].
  now apply JsonDocument_destructor_balanced.
Qed.

(** A text whose second member fails in a Reserved inside an Array: the
    Reserved, the Array, the Element and the Object under construction
    are deleted with all they hold, and no pool has an untracked
    allocation. *)
Lemma Parse_leaves_nothing_untracked_witness :
  exists e d,
    Parse (Some ((cstr "{" ++ quoted "a" ++ cstr ":1," ++ quoted "b"
                    ++ cstr ": [tru]}") ++ [NUL])) None JsonDocument_new
    = Ok (e, d) /\
    (forall v, Untracked v d = 0) /\ no_leak d /\
    exists d', JsonDocument_destructor d = Some d' /\
               forall v, CurrentAllocs v d' = 0.
Proof.
  destruct (Parse (Some ((cstr "{" ++ quoted "a" ++ cstr ":1," ++ quoted "b"
                            ++ cstr ": [tru]}") ++ [NUL])) None JsonDocument_new)
    as [[e d]|c|] eqn:E; [|vm_compute in E; discriminate..].
  exists e, d. split; [reflexivity|].
  refine (Parse_leaves_nothing_untracked _ _ _ e d no_leak_new _ E).
  intros []; reflexivity.
Defined.

(** ** Parse does not read the pools *)

Lemma same_but_pools_sym d d' : same_but_pools d d' -> same_but_pools d' d.
Proof. intros (A1 & A2 & A3 & A4). repeat split; congruence. Qed.

Lemma pool_blind_ret {A} (a : A) : pool_blind (ret a).
Proof. intros d1 d2 H. split; [reflexivity | exact H]. Qed.

Lemma pool_blind_bind {A B} (m : M A) (k : A -> M B) :
  pool_blind m -> (forall a, pool_blind (k a)) -> pool_blind (bind m k).
Proof.
  intros Hm Hk d1 d2 H. specialize (Hm d1 d2 H). unfold bind, same_result in *.
  destruct (m d1) as [[a1 e1]|f1|], (m d2) as [[a2 e2]|f2|]; try easy.
  destruct Hm as [-> Hm]. now apply Hk.
Qed.

Lemma pool_blind_modify (f : JsonDocument -> JsonDocument) :
  (forall d, same_but_pools d (f d)) -> pool_blind (modify f).
Proof.
  intros Hf d1 d2 H. split; [reflexivity|].
  eapply same_but_pools_trans; [|apply Hf].
  eapply same_but_pools_trans; [|exact H].
  apply same_but_pools_sym, Hf.
Qed.

Lemma pool_blind_Alloc v : pool_blind (Alloc v).
Proof. apply pool_blind_modify. intros d. apply same_but_pools_with_pool. Qed.

Lemma pool_blind_SetTracked v : pool_blind (SetTracked v).
Proof. apply pool_blind_modify. intros d. apply same_but_pools_with_pool. Qed.

Lemma pool_blind_DeleteNode node : pool_blind (DeleteNode node).
Proof. apply pool_blind_modify. intros d. apply same_but_pools_DeleteNode. Qed.

Lemma pool_blind_SetError e s1 s2 : pool_blind (SetError e s1 s2).
Proof.
  intros d1 d2 (H1 & H2 & H3 & H4). split; [reflexivity|].
  destruct d1 as [cs e1 a1 b1 bf po pa pe pn ps pr log],
           d2 as [cs' e2 a2 b2 bf' po' pa' pe' pn' ps' pr' log'].
  cbn in H1, H2, H3, H4. injection H3 as -> -> ->. subst.
  cbn. destruct (JsonError_eqb e1 JSON_NO_ERROR); repeat split.
Qed.

Lemma pool_blind_with_buffer buf : pool_blind (modify (with_buffer buf)).
Proof.
  intros d1 d2 (H1 & H2 & H3 & H4). split; [reflexivity|].
  destruct d1, d2. cbn in *. repeat split; assumption.
Qed.

Lemma pool_blind_with_children cs : pool_blind (modify (with_children cs)).
Proof.
  intros d1 d2 (H1 & H2 & H3 & H4). split; [reflexivity|].
  destruct d1, d2. cbn in *. repeat split; assumption.
Qed.

Lemma pool_blind_lift {A} (r : result A) : pool_blind (lift r).
Proof. intros d1 d2 H. unfold lift. destruct r; cbn; auto. Qed.

Lemma pool_blind_out_of_fuel {A} : pool_blind (@out_of_fuel A).
Proof. intros d1 d2 H. exact I. Qed.

Lemma pool_blind_deref p : pool_blind (deref p).
Proof.
  intros d1 d2 H. unfold deref. rewrite (proj1 (proj2 H)).
  destruct p as [i|]; [|reflexivity].
  destruct (_charBuffer d1) as [buf|]; [|reflexivity].
  destruct (nth_error buf i); cbn; auto.
Qed.

Lemma pool_blind_bytes_from p : pool_blind (bytes_from p).
Proof.
  intros d1 d2 H. unfold bytes_from. rewrite (proj1 (proj2 H)).
  destruct p as [i|]; [|reflexivity].
  destruct (_charBuffer d1) as [buf|]; [|reflexivity].
  destruct (skipn i buf); cbn; auto.
Qed.

Lemma pool_blind_SkipWhiteSpace p : pool_blind (SkipWhiteSpace p).
Proof.
  intros d1 d2 H. unfold SkipWhiteSpace. rewrite (proj1 (proj2 H)).
  destruct p as [i|]; [|destruct (_charBuffer d1); cbn; auto].
  destruct (_charBuffer d1) as [buf|]; [|reflexivity].
  now apply pool_blind_lift.
Qed.

Lemma pool_blind_store p v : pool_blind (store p v).
Proof.
  intros d1 d2 H. unfold store. rewrite (proj1 (proj2 H)).
  destruct (_charBuffer d1) as [buf|]; [|reflexivity].
  destruct (p <? List.length buf)%nat; [|reflexivity].
  now apply pool_blind_with_buffer.
Qed.

Ltac blind_step :=
  lazymatch goal with
  | |- pool_blind (bind _ _) => apply pool_blind_bind; [|intros ?]
  | |- pool_blind (ret _) => apply pool_blind_ret
  | |- pool_blind (lift _) => apply pool_blind_lift
  | |- pool_blind (deref _) => apply pool_blind_deref
  | |- pool_blind (bytes_from _) => apply pool_blind_bytes_from
  | |- pool_blind (SkipWhiteSpace _) => apply pool_blind_SkipWhiteSpace
  | |- pool_blind (store _ _) => apply pool_blind_store
  | |- pool_blind (SetError _ _ _) => apply pool_blind_SetError
  | |- pool_blind (Alloc _) => apply pool_blind_Alloc
  | |- pool_blind (SetTracked _) => apply pool_blind_SetTracked
  | |- pool_blind (DeleteNode _) => apply pool_blind_DeleteNode
  | |- pool_blind out_of_fuel => apply pool_blind_out_of_fuel
  | |- pool_blind (if ?b then _ else _) => destruct b
  | |- pool_blind (match ?j with Some _ => _ | None => _ end) => destruct j
  | |- pool_blind (match ?x with (_, _) => _ end) => destruct x
  end.

Ltac blind := repeat blind_step; auto.

Lemma pool_blind_Identify json : pool_blind (Identify json).
Proof. unfold Identify. blind. Qed.

Lemma pool_blind_JsonReserved_ParseDeep t json :
  pool_blind (JsonReserved_ParseDeep t json).
Proof. unfold JsonReserved_ParseDeep. cbv zeta. blind. Qed.

Lemma pool_blind_JsonNumber_ParseDeep this json :
  pool_blind (JsonNumber_ParseDeep this json).
Proof. unfold JsonNumber_ParseDeep. cbv zeta. blind. Qed.

Lemma pool_blind_JsonString_ParseDeep sp json :
  pool_blind (JsonString_ParseDeep sp json).
Proof. unfold JsonString_ParseDeep. cbv zeta. blind. Qed.

Lemma parse_pool_blind (fuel : nat) :
  (forall this json, pool_blind (NodeParseDeep fuel this json)) /\
  (forall node json, pool_blind (ParseDeep fuel node json)) /\
  (forall this json, pool_blind (ObjectWhile fuel this json)) /\
  (forall this json, pool_blind (ArrayWhile fuel this json)).
Proof.
  induction fuel as [|fuel (IHN & IHP & IHO & IHA)].
  { repeat split; intros; apply pool_blind_out_of_fuel. }
  pose proof pool_blind_Identify as HI.
  pose proof pool_blind_JsonReserved_ParseDeep as HR.
  pose proof pool_blind_JsonNumber_ParseDeep as HN.
  pose proof pool_blind_JsonString_ParseDeep as HS.
  assert (HE : forall this json,
             pool_blind (JsonObject_ParseElement (ParseDeep fuel) this json)).
  { intros this json.
    unfold JsonObject_ParseElement, CreatElement, InsertEndChild. blind. }
  split; [|split; [|split]].
  - intros this json. cbn [NodeParseDeep].
    unfold JsonNode_ParseDeep_body, InsertEndChild. blind.
  - intros node json. cbn [ParseDeep].
    destruct node;
      unfold JsonElement_ParseDeep, JsonObject_ParseDeep, JsonArray_ParseDeep;
      cbv zeta; blind.
  - intros this json. cbn [ObjectWhile].
    unfold JsonObject_ParseDeep_while; cbv zeta; blind.
  - intros this json. cbn [ArrayWhile].
    unfold JsonArray_ParseDeep_while; cbv zeta; blind.
Qed.

Lemma same_but_pools_Parse_cleared d0 d0' :
  same_but_pools (Parse_cleared d0) (Parse_cleared d0').
Proof.
  unfold Parse_cleared.
  destruct (DeleteChildren_pools (doc_children d0) d0)
    as [cs e a b bf po pa pe pn ps pr log],
    (DeleteChildren_pools (doc_children d0') d0')
    as [cs' e' a' b' bf' po' pa' pe' pn' ps' pr' log'].
  repeat split.
Qed.

Lemma bind_modify {B} (f : JsonDocument -> JsonDocument) (k : unit -> M B) d :
  bind (modify f) k d = k tt (f d).
Proof. reflexivity. Qed.

Lemma pool_blind_returned : pool_blind (fun d => Ok (_errorID d, d)).
Proof.
  intros d1 d2 H. split; [|exact H].
  symmetry. now apply same_but_pools_errorID.
Qed.

(** X24.  Parse does not depend on what the document held before: run on
    any two documents with the same arguments, it faults in both in the
    same way or returns in both, and then with the same status and leaving
    the same tree, the same buffer, the same error code and error strings
    and the same sequence of SetError calls.  Only the counters of the
    pools keep a trace of the earlier use, so a document can be reused for
    one text after another. *)
Theorem Parse_ignores_the_previous_document :
  forall json len d0 d0',
    same_result (Parse json len d0) (Parse json len d0').
Proof.
  intros json len d0 d0'. unfold Parse. cbv zeta.
  rewrite !bind_modify. fold (Parse_cleared d0) (Parse_cleared d0').
  pose proof pool_blind_returned as Hret.
  pose proof pool_blind_with_buffer as Hbuf.
  pose proof pool_blind_with_children as Hcs.
  match goal with
  | |- same_result (?m _) _ =>
      assert (H : pool_blind m); [|apply H, same_but_pools_Parse_cleared]
  end.
  blind. apply (proj1 (parse_pool_blind _)).
Qed.

(** ** The Strings of the tree and the text *)

Lemma strings_of_list_app a b :
  strings_of_list (a ++ b) = strings_of_list a ++ strings_of_list b.
Proof. apply flat_map_app. Qed.

Lemma span_nil p b r :
  (forall q, r = Some q -> (p <= q)%nat) -> span p [] b r b.
Proof.
  intros H. split; [intros i _; reflexivity|]. split; [|constructor].
  intros q Hq. split; [now apply H | reflexivity].
Qed.

Lemma span_one p p1 a a1 b r r1 b' :
  span p1 a1 b r1 b' -> (p <= p1)%nat ->
  (forall x, r = Some x -> exists q, r1 = Some q /\ (q <= x)%nat) ->
  incl a a1 -> span p a b r b'.
Proof.
  intros (Hf & Hr & Hs) Hp Hx Ha. split; [|split].
  - intros i Hi. apply Hf. lia.
  - intros x Hq. destruct (Hx x Hq) as (q & -> & Hqx).
    destruct (Hr q eq_refl) as [Hle Ht]. split; [lia|].
    intros i Hi. apply Ht. lia.
  - apply Forall_forall. intros sp Hin. apply Ha in Hin.
    rewrite Forall_forall in Hs. destruct (Hs sp Hin) as (s & f & H1 & H2 & H3).
    exists s, f. split; [exact H1|]. split; [lia|].
    intros x Hq. destruct (Hx x Hq) as (q & -> & Hqx).
    specialize (H3 q eq_refl). lia.
Qed.

Lemma span_seq p a b p1 a1 q1 b1 a2 r b2 :
  span p1 a1 b (Some q1) b1 -> (p <= p1)%nat ->
  span q1 a2 b1 r b2 -> incl a (a1 ++ a2) ->
  span p a b r b2.
Proof.
  intros (Hf1 & Hr1 & Hs1) Hp (Hf2 & Hr2 & Hs2) Ha.
  destruct (Hr1 q1 eq_refl) as [Hle1 Ht1].
  split; [|split].
  - intros i Hi. rewrite Hf2 by lia. apply Hf1. lia.
  - intros q Hq. destruct (Hr2 q Hq) as [Hle2 Ht2]. split; [lia|].
    intros i Hi. rewrite Ht2 by lia. apply Ht1. lia.
  - apply Forall_forall. intros sp Hin. apply Ha, in_app_or in Hin.
    rewrite Forall_forall in Hs1, Hs2. destruct Hin as [Hin|Hin].
    + destruct (Hs1 sp Hin) as (s & f & (E1 & E2 & Hsf & Ho & Hc & Hn & Hm) & Hps & Hfq).
      specialize (Hfq q1 eq_refl).
      exists s, f. split; [|split; [lia|]].
      * repeat split; try assumption; try lia.
        -- rewrite Hf2 by lia. exact Hn.
        -- intros i Hi. rewrite Hf2 by lia. now apply Hm.
      * intros q Hq. destruct (Hr2 q Hq) as [Hle2 _]. lia.
    + destruct (Hs2 sp Hin) as (s & f & (E1 & E2 & Hsf & Ho & Hc & Hn & Hm) & Hps & Hfq).
      exists s, f. split; [|split; [lia | exact Hfq]].
      repeat split; try assumption; try lia.
      * rewrite <- Ht1 by lia. exact Ho.
      * rewrite <- Ht1 by lia. exact Hc.
      * intros i Hi. rewrite Hm by lia. apply Ht1. lia.
Qed.

Lemma span_failed p b b' : frame p b b' -> span p [] b None b'.
Proof. intros H. split; [exact H|]. split; [discriminate | constructor]. Qed.

Lemma charBuffer_DeleteNode node d :
  _charBuffer (DeleteNode_pools node d) = _charBuffer d.
Proof. now destruct (same_but_pools_DeleteNode node d) as (_ & H & _). Qed.

Lemma Identify_span json d json' node d' :
  Identify json d = Ok ((json', node), d') ->
  _charBuffer d' = _charBuffer d /\
  (forall q, json' = Some q -> (pos json <= q)%nat) /\
  forall n, node = Some n ->
    FirstChildren n = [] /\
    (exists q, json' = Some q) /\
    forall sp0, n = JsonString sp0 ->
      exists q, json' = Some (S q) /\ (pos json <= q)%nat /\
                byte_of (_charBuffer d) q = Some DQUOTE.
Proof.
  unfold Identify. intros H. bind_inv H as j d1 E.
  apply SkipWhiteSpace_Ok in E. destruct E as [-> Hj].
  destruct json as [p|].
  2:{ subst j. inv_ret H. repeat split; discriminate. }
  destruct Hj as (q & -> & Hpq).
  bind_inv H as c d1 E.
  apply deref_Ok in E. destruct E as [-> (i & buf & Hi & Hbuf & Hc & Hlt)].
  inversion Hi; subst i; clear Hi. cbn [pos].
  destruct (c =? NUL).
  { inv_ret H. repeat split; try discriminate. intros q' Hq'. inversion Hq'; lia. }
  destruct ((c =? ch "n") || (c =? ch "t") || (c =? ch "f")).
  { minv H. inv_ret H. inv_modify. rewrite charBuffer_pool.
    split; [reflexivity|]. split; [intros q' Hq'; inversion Hq'; lia|].
    intros n Hn. inversion Hn; subst n.
    split; [reflexivity|]. split; [eauto | discriminate]. }
  destruct (Z.eqb_spec c DQUOTE) as [->|_].
  { minv H. inv_ret H. inv_modify. rewrite charBuffer_pool.
    split; [reflexivity|]. split; [intros q' Hq'; inversion Hq'; lia|].
    intros n Hn. inversion Hn; subst n. split; [reflexivity|].
    split; [cbn; eauto|].
    intros sp0 _. exists q. rewrite Hbuf. cbn [byte_of].
    repeat split; [f_equal; lia | lia | exact Hc]. }
  destruct (c =? ch "{").
  { minv H. inv_ret H. inv_modify. rewrite charBuffer_pool.
    split; [reflexivity|]. split; [intros q' Hq'; inversion Hq'; lia|].
    intros n Hn. inversion Hn; subst n.
    split; [reflexivity|]. split; [cbn; eauto | discriminate]. }
  destruct (c =? ch "[").
  { minv H. inv_ret H. inv_modify. rewrite charBuffer_pool.
    split; [reflexivity|]. split; [intros q' Hq'; inversion Hq'; lia|].
    intros n Hn. inversion Hn; subst n.
    split; [reflexivity|]. split; [cbn; eauto | discriminate]. }
  destruct ((c =? ch "-") || isdigit c).
  { minv H. inv_ret H. inv_modify. rewrite charBuffer_pool.
    split; [reflexivity|]. split; [intros q' Hq'; inversion Hq'; lia|].
    intros n Hn. inversion Hn; subst n.
    split; [reflexivity|]. split; [eauto | discriminate]. }
  inv_ret H. repeat split; try discriminate. intros q' Hq'. inversion Hq'; lia.
Qed.

Lemma byte_of_list_set buf p c i :
  (p < List.length buf)%nat ->
  byte_of (Some (list_set buf p c)) i
  = if (i =? p)%nat then Some c else byte_of (Some buf) i.
Proof.
  intros Hp. cbn [byte_of]. rewrite nth_error_list_set.
  destruct (Nat.eqb_spec i p) as [->|Hne].
  - destruct (nth_error buf p) eqn:E; [reflexivity|].
    apply nth_error_None in E. lia.
  - reflexivity.
Qed.

Lemma JsonString_ParseDeep_span sp json d sp' r d' :
  JsonString_ParseDeep sp json d = Ok ((sp', r), d') ->
  string_leaf (pos json) (_charBuffer d) r (_charBuffer d') (JsonString sp').
Proof.
  unfold JsonString_ParseDeep. intros H.
  bind_inv H as s d1 E. apply bytes_from_Ok in E.
  destruct E as [-> (i & buf & -> & Hbuf & -> & _)]. cbn [pos].
  bind_inv H as p d1 E. apply lift_Ok in E. destruct E as [E ->].
  apply (JsonString_scan_stop _ _ i p (le_n _)) in E. destruct E as [Hle Hstop].
  rewrite nth_error_skipn in Hstop. replace (i + (p - i))%nat with p in Hstop by lia.
  bind_inv H as c d1 E'. apply deref_Ok in E'.
  destruct E' as [-> (p' & buf' & Hp' & Hbuf' & Hc & _)].
  inversion Hp'; subst p'. rewrite Hbuf in Hbuf'. inversion Hbuf'; subst buf'.
  destruct (Z.eqb_spec c NUL) as [Hz|Hnz].
  - minv H. inv_ret H. inv_modify. rewrite charBuffer_SetError.
    split; [intros j _; reflexivity | discriminate].
  - bind_inv H as u d1 E'. apply store_Ok in E'.
    destruct E' as (buf2 & Hbuf2 & Hlt & ->).
    rewrite Hbuf in Hbuf2. inversion Hbuf2; subst buf2.
    inv_ret H. rewrite charBuffer_buffer, Hbuf.
    assert (Hq : nth_error buf p = Some DQUOTE).
    { destruct Hstop as [Hs|Hs]; [exact Hs | congruence]. }
    split.
    + intros j Hj. rewrite byte_of_list_set by exact Hlt.
      destruct (Nat.eqb_spec j p); [lia | reflexivity].
    + intros q Hq'. inversion Hq'; subst q. exists p.
      split; [reflexivity|]. split; [exact Hle|]. split; [lia|].
      split; [exact Hq|]. split.
      * rewrite byte_of_list_set by exact Hlt. now rewrite Nat.eqb_refl.
      * intros j Hj. rewrite byte_of_list_set by exact Hlt.
        destruct (Nat.eqb_spec j p); [contradiction | reflexivity].
Qed.

(** The run of a computation that has returned, the moves of the cursor
    being kept. *)
Ltac srun_prim E :=
  lazymatch type of E with
  | deref _ _ = Ok _ =>
      apply deref_Ok in E; destruct E as [-> (? & ? & E & _)];
      try (injection E as E); try subst
  | SkipWhiteSpace _ _ = Ok _ =>
      apply SkipWhiteSpace_Ok in E; destruct E as [-> E]; cbn [ptr_add] in E;
      try match type of E with
          | match ?p with Some _ => _ | None => _ end => destruct p
          end;
      first [destruct E as (? & -> & ?) | subst]
  | bytes_from _ _ = Ok _ => apply bytes_from_Ok in E; destruct E as [-> _]
  | lift _ _ = Ok _ => apply lift_Ok in E; destruct E as [_ ->]
  | modify _ _ = Ok _ => apply modify_Ok in E; subst
  | SetError _ _ _ _ = Ok _ => apply modify_Ok in E; subst
  | Alloc _ _ = Ok _ => apply modify_Ok in E; subst
  | SetTracked _ _ = Ok _ => apply modify_Ok in E; subst
  | DeleteNode _ _ = Ok _ => apply modify_Ok in E; subst
  | _ => idtac
  end.

Ltac srun_step H :=
  lazymatch type of H with
  | ret _ _ = Ok _ => inv_ret H
  | (if ?b then _ else _) _ = Ok _ => destruct b
  | (match ?j with Some _ => _ | None => _ end) _ = Ok _ => destruct j
  | (let '(_, _) := ?x in _) _ = Ok _ => destruct x
  | (match ?x with (_, _) => _ end) _ = Ok _ => destruct x
  | bind _ _ _ = Ok _ =>
      let a := fresh "a" in
      let d1 := fresh "d" in
      let E := fresh "E" in
      apply bind_Ok in H; destruct H as (a & d1 & E & H); srun_prim E
  end.

Ltac srun H :=
  repeat srun_step H;
  repeat match goal with
         | E : bind _ _ _ = Ok _ |- _ => progress (repeat srun_step E)
         | E : ret _ _ = Ok _ |- _ => inv_ret E
         end.

Lemma JsonReserved_ParseDeep_span t json d t' r d' :
  JsonReserved_ParseDeep t json d = Ok ((t', r), d') ->
  span (pos json) [] (_charBuffer d) r (_charBuffer d').
Proof.
  intros H.
  assert (Hb : _charBuffer d' = _charBuffer d).
  { unfold JsonReserved_ParseDeep in H. cbv zeta in H. srun H;
      rewrite ?charBuffer_SetError; reflexivity. }
  rewrite Hb. apply span_nil. intros q Hq.
  apply (JsonReserved_ParseDeep_Ok VObject) in H. destruct H as (_ & Hc & _).
  destruct (Hc q Hq) as (p & -> & Hlt). cbn [pos]. lia.
Qed.

Lemma JsonNumber_ParseDeep_span this json d this' r d' :
  JsonNumber_ParseDeep this json d = Ok ((this', r), d') ->
  span (pos json) [] (_charBuffer d) r (_charBuffer d').
Proof.
  intros H.
  assert (Hb : _charBuffer d' = _charBuffer d).
  { unfold JsonNumber_ParseDeep in H. srun H;
      rewrite ?charBuffer_SetError; reflexivity. }
  rewrite Hb. apply span_nil. intros q Hq.
  apply (JsonNumber_ParseDeep_Ok VObject) in H. destruct H as (_ & Hc & _).
  destruct (Hc q Hq) as (p & -> & Hlt). cbn [pos]. lia.
Qed.

(** The String linked after an opening quote at [q]. *)
Lemma span_string p q b r b' node' :
  (p <= q)%nat -> byte_of b q = Some DQUOTE ->
  string_leaf (S q) b r b' node' ->
  span p (linked r node') b r b'.
Proof.
  intros Hpq Hq (Hf & Hr). split; [|split].
  - intros i Hi. apply Hf. lia.
  - intros q' Hq'. destruct (Hr q' Hq') as (f & _ & Hle & -> & _ & _ & Hm).
    split; [lia|]. intros i Hi. apply Hm. lia.
  - destruct r as [q'|]; [|constructor]. cbn [linked].
    destruct (Hr q' eq_refl) as (f & -> & Hle & -> & Hc & Hn & Hm).
    cbn [strings_of]. constructor; [|constructor].
    exists (S q), f. split; [|split; [lia|]].
    + repeat split; try assumption; try lia.
      * cbn [Nat.sub]. now rewrite Nat.sub_0_r.
      * intros i Hi. apply Hm. lia.
    + intros q' Hq'. inversion Hq'. lia.
Qed.

Ltac incl_solve :=
  first
    [ apply incl_refl
    | let sp := fresh "sp" in
      let Hin := fresh "Hin" in
      intros sp Hin; cbn [linked] in *;
      rewrite ?strings_of_list_app in *;
      cbn [strings_of_list flat_map strings_of app] in *;
      rewrite ?app_nil_r in *; rewrite ?in_app_iff in *;
      fold strings_of_list in *; tauto ].

Ltac cursor := cbn [pos ptr_add] in *; lia.

Ltac cursor_le :=
  let x := fresh "x" in
  let Hx := fresh "Hx" in
  intros x Hx;
  first [ discriminate Hx
        | inversion Hx; subst; eexists; split; [reflexivity | cursor]
        | eexists; split; [eassumption | lia] ].

Ltac buffers :=
  repeat first [ rewrite charBuffer_pool in *
               | rewrite charBuffer_SetError in *
               | rewrite charBuffer_DeleteNode in * ].

Ltac span_chain :=
  first
    [ apply span_nil;
      let q := fresh "q" in
      let Hq := fresh "Hq" in
      intros q Hq; inversion Hq; subst; cursor
    | eapply span_one; [eassumption | cursor | cursor_le | incl_solve]
    | eapply span_seq; [eassumption | cursor | span_chain | incl_solve] ].

Ltac span_close :=
  buffers;
  eexists;
  (split;
   [ first [ reflexivity | symmetry; apply app_nil_r
           | rewrite <- ?app_assoc; reflexivity ]
   | span_chain ]).

Ltac span_calls HPI HP HE IHN IHO IHA :=
  repeat match goal with
         | E : Identify _ _ = Ok (None, Some _, _) |- _ =>
             apply Identify_span in E; destruct E as (_ & _ & E);
             destruct (E _ eq_refl) as (_ & (? & ?) & _); discriminate
         | E1 : Identify _ _ = Ok (_, Some _, _),
           E2 : ParseDeep _ _ _ _ = Ok _ |- _ =>
             pose proof (HPI _ _ _ _ _ _ _ _ E1 E2); clear E1 E2
         | E : Identify _ _ = Ok _ |- _ =>
             apply Identify_span in E; destruct E as (E & ? & _);
             rewrite E in *; clear E
         | H : forall q, Some _ = Some q -> _ |- _ => specialize (H _ eq_refl)
         | E : ParseDeep _ (JsonElement []) _ _ = Ok _ |- _ =>
             apply HP in E; [|reflexivity]; cbv beta iota in E
         | E : JsonObject_ParseElement _ _ _ _ = Ok _ |- _ =>
             apply HE in E; destruct E as (? & -> & E)
         | E : NodeParseDeep _ _ _ _ = Ok _ |- _ =>
             apply IHN in E; destruct E as (? & -> & E)
         | E : ObjectWhile _ _ _ _ = Ok _ |- _ =>
             let Ej := fresh "Ej" in
             apply IHO in E; destruct E as ((? & Ej) & ? & -> & E);
             first [injection Ej as Ej; subst | subst]
         | E : ArrayWhile _ _ _ _ = Ok _ |- _ =>
             let Ej := fresh "Ej" in
             apply IHA in E; destruct E as ((? & Ej) & ? & -> & E);
             first [injection Ej as Ej; subst | subst]
         end.

Lemma span_linked p node' this' b r b' :
  strings_of node' = strings_of_list this' ->
  (exists added, this' = [] ++ added /\ span p (strings_of_list added) b r b') ->
  span p (linked r node') b r b'.
Proof.
  intros Hs (added & -> & H). eapply span_one; [exact H | lia | |].
  - intros x ->. eauto.
  - destruct r; cbn [linked]; [|apply incl_nil_l].
    rewrite Hs. apply incl_refl.
Qed.

Lemma parse_spans (fuel : nat) :
  (forall this json d this' r d',
     NodeParseDeep fuel this json d = Ok ((this', r), d') ->
     exists added, this' = this ++ added /\
       span (pos json) (strings_of_list added) (_charBuffer d) r (_charBuffer d')) /\
  (forall node json d node' r d',
     ParseDeep fuel node json d = Ok ((node', r), d') ->
     FirstChildren node = [] ->
     match node with
     | JsonString _ =>
         string_leaf (pos json) (_charBuffer d) r (_charBuffer d') node'
     | _ => span (pos json) (linked r node') (_charBuffer d) r (_charBuffer d')
     end) /\
  (forall this json d this' r d',
     ObjectWhile fuel this json d = Ok ((this', r), d') ->
     (exists p, json = Some p) /\
     exists added, this' = this ++ added /\
       span (pos json) (strings_of_list added) (_charBuffer d) r (_charBuffer d')) /\
  (forall this json d this' r d',
     ArrayWhile fuel this json d = Ok ((this', r), d') ->
     (exists p, json = Some p) /\
     exists added, this' = this ++ added /\
       span (pos json) (strings_of_list added) (_charBuffer d) r (_charBuffer d')).
Proof.
  induction fuel as [|fuel (IHN & IHP & IHO & IHA)].
  { repeat split; intros; discriminate. }
  assert (HPI : forall json d json1 node d1 node' r d2,
             Identify json d = Ok ((json1, Some node), d1) ->
             ParseDeep fuel node json1 d1 = Ok ((node', r), d2) ->
             span (pos json) (linked r node') (_charBuffer d) r (_charBuffer d2)).
  { intros json d json1 node d1 node' r d2 E1 E2.
    apply Identify_span in E1. destruct E1 as (Hb & Hcur & Hnode).
    destruct (Hnode node eq_refl) as (Hfc & (q & ->) & Hstr). rewrite <- Hb.
    specialize (Hcur q eq_refl).
    apply IHP in E2; [|exact Hfc]. cbn [pos] in E2.
    destruct node as [t|f i|sp0|cs|cs|cs];
      try (eapply span_one; [exact E2 | exact Hcur | cursor_le | apply incl_refl]).
    destruct (Hstr sp0 eq_refl) as (q0 & Hq0 & Hle & Hbyte).
    inversion Hq0; subst q. rewrite <- Hb in Hbyte.
    now apply (span_string _ q0). }
  assert (HE : forall this json d this' r d',
             JsonObject_ParseElement (ParseDeep fuel) this json d = Ok ((this', r), d') ->
             exists added, this' = this ++ added /\
               span (pos json) (strings_of_list added) (_charBuffer d) r (_charBuffer d')).
  { intros this json d this' r d' H.
    unfold JsonObject_ParseElement, CreatElement, InsertEndChild in H. srun H.
    all: span_calls HPI IHP IHP IHN IHO IHA.
    all: span_close. }
  split; [|split; [|split]].
  - intros this json d this' r d' H. cbn [NodeParseDeep] in H.
    unfold JsonNode_ParseDeep_body, InsertEndChild in H. srun H.
    all: span_calls HPI IHP HE IHN IHO IHA.
    all: span_close.
  - intros node json d node' r d' H Hfc. cbn [ParseDeep] in H.
    destruct node as [t|f i|sp0|cs|cs|cs]; cbn [FirstChildren] in Hfc; subst.
    + bind_inv H as x d1 E. destruct x as [t' r']. inv_ret H.
      apply JsonReserved_ParseDeep_span in E.
      eapply span_one; [exact E | lia | cursor_le | intros sp; destruct r'; exact (fun H => H)].
    + bind_inv H as x d1 E. destruct x as [[f' i'] r']. inv_ret H.
      apply JsonNumber_ParseDeep_span in E.
      eapply span_one; [exact E | lia | cursor_le | intros sp; destruct r'; exact (fun H => H)].
    + bind_inv H as x d1 E. destruct x as [sp' r']. inv_ret H.
      now apply JsonString_ParseDeep_span in E.
    + bind_inv H as x d1 E. destruct x as [this' r']. inv_ret H.
      eapply span_linked; [reflexivity|].
      unfold JsonElement_ParseDeep in E; cbv zeta in E; srun E.
      all: span_calls HPI IHP HE IHN IHO IHA.
      all: span_close.
    + bind_inv H as x d1 E. destruct x as [this' r']. inv_ret H.
      eapply span_linked; [reflexivity|].
      unfold JsonObject_ParseDeep in E; cbv zeta in E; srun E.
      all: span_calls HPI IHP HE IHN IHO IHA.
      all: span_close.
    + bind_inv H as x d1 E. destruct x as [this' r']. inv_ret H.
      eapply span_linked; [reflexivity|].
      unfold JsonArray_ParseDeep in E; cbv zeta in E; srun E.
      all: span_calls HPI IHP HE IHN IHO IHA.
      all: span_close.
  - intros this json d this' r d' H. cbn [ObjectWhile] in H.
    unfold JsonObject_ParseDeep_while in H; cbv zeta in H; srun H.
    all: span_calls HPI IHP HE IHN IHO IHA.
    all: (split; [eauto|]); span_close.
  - intros this json d this' r d' H. cbn [ArrayWhile] in H.
    unfold JsonArray_ParseDeep_while in H; cbv zeta in H; srun H.
    all: span_calls HPI IHP HE IHN IHO IHA.
    all: (split; [eauto|]); span_close.
Qed.

Lemma c_string_at_prefix (k : nat) :
  forall l l',
    (forall i, (i < k)%nat -> nth_error l i = nth_error l' i) ->
    nth_error l k = Some NUL ->
    c_string_at l = c_string_at (firstn k l').
Proof.
  induction k as [|k IH]; intros l l' Hpre Hk.
  - destruct l as [|c l]; [discriminate|]. cbn in Hk. injection Hk as ->.
    reflexivity.
  - destruct l as [|c l]; [discriminate|]. cbn in Hk.
    assert (H0 := Hpre O (Nat.lt_0_succ k)). cbn in H0.
    destruct l' as [|c' l']; [discriminate|]. cbn in H0. injection H0 as <-.
    cbn [firstn c_string_at]. destruct (c =? NUL); [reflexivity|].
    f_equal. apply IH; [|exact Hk].
    intros i Hi. apply (Hpre (S i)). lia.
Qed.

Lemma byte_of_copy mem n i :
  (n <= List.length mem)%nat -> (i < n)%nat ->
  byte_of (Some (firstn n mem ++ [NUL])) i = nth_error mem i.
Proof.
  intros Hn Hi. cbn [byte_of].
  rewrite nth_error_app1 by (rewrite firstn_length_le by exact Hn; exact Hi).
  rewrite nth_error_firstn. destruct (Nat.ltb_spec i n); [reflexivity | lia].
Qed.

Lemma byte_of_copy_end mem n :
  (n <= List.length mem)%nat ->
  byte_of (Some (firstn n mem ++ [NUL])) n = Some NUL.
Proof.
  intros Hn. cbn [byte_of].
  rewrite nth_error_app2 by (rewrite firstn_length_le by exact Hn; lia).
  rewrite firstn_length_le by exact Hn. now rewrite Nat.sub_diag.
Qed.

Lemma Parse_strings mem len d0 e d n sp :
  Parse (Some mem) len d0 = Ok (e, d) ->
  Parse_length mem len = Ok n ->
  In sp (strings_of_list (doc_children d)) ->
  (n <= List.length mem)%nat /\
  exists s f,
    string_span (Some (firstn n mem ++ [NUL])) (_charBuffer d) sp s f.
Proof.
  intros H Hn Hin. apply Parse_Ok in H. destruct H as [_ H].
  destruct H as [-> | [(mem1 & n1 & buf & Hm & Hn1 & Hbuf & ->) |
                       (mem1 & n1 & buf & this & r & d' & Hm & Hn1 & Hbuf & Hrun & ->)]].
  - rewrite doc_children_SetError, doc_children_Parse_cleared in Hin. destruct Hin.
  - unfold Parse_entry in Hin.
    rewrite doc_children_SetError, doc_children_with_buffer,
      doc_children_Parse_cleared in Hin. destruct Hin.
  - injection Hm as <-. rewrite Hn in Hn1. injection Hn1 as <-.
    apply copy_buffer_Ok in Hbuf. destruct Hbuf as [Hb Hl].
    assert (Hle : (n <= List.length mem)%nat).
    { rewrite Hb, length_app, length_firstn in Hl. cbn in Hl. lia. }
    split; [exact Hle|].
    apply (proj1 (parse_spans _)) in Hrun. destruct Hrun as (added & -> & _ & _ & Hs).
    rewrite doc_children_with_children in Hin. cbn [app] in Hin.
    rewrite Forall_forall in Hs. destruct (Hs sp Hin) as (s & f & Hsp & _).
    rewrite charBuffer_Parse_entry, Hb in Hsp.
    rewrite charBuffer_with_children. eauto.
Qed.

(** X25.  Every String of the tree a Parse call leaves, key or value at any
    depth, with or without an error, lies between two double quotes of the
    text: _start points to the byte after a double quote, _end to a later
    double quote, which the buffer has as a NUL, and GetStr() gives the
    bytes of the text between the two up to the first NUL among them, the
    escape sequences as they were written.  No later String and no later
    write of the parser has touched them. *)
Theorem Parse_strings_keep_the_text :
  forall mem len d0 e d n sp,
    Parse (Some mem) len d0 = Ok (e, d) ->
    Parse_length mem len = Ok n ->
    In sp (strings_of_list (doc_children d)) ->
    exists s f buf,
      _start sp = Some s /\ _end sp = Some f /\
      (1 <= s <= f)%nat /\ (f < n)%nat /\
      nth_error mem (s - 1) = Some DQUOTE /\
      nth_error mem f = Some DQUOTE /\
      _charBuffer d = Some buf /\
      nth_error buf f = Some NUL /\
      StrPair_GetStr buf sp = c_string_at (firstn (f - s) (skipn s mem)).
Proof.
  intros mem len d0 e d n sp H Hn Hin.
  destruct (Parse_strings _ _ _ _ _ _ _ H Hn Hin)
    as (Hle & s & f & Es & Ef & Hsf & Ho & Hc & Hz & Hm).
  assert (Hfn : (f < n)%nat).
  { destruct (Nat.lt_trichotomy f n) as [Hlt|[->|Hgt]]; [exact Hlt| |].
    - rewrite byte_of_copy_end in Hc by exact Hle. discriminate.
    - cbn [byte_of] in Hc.
      assert (Hlt : (f < List.length (firstn n mem ++ [NUL]))%nat).
      { apply nth_error_Some. now rewrite Hc. }
      rewrite length_app, firstn_length_le in Hlt by exact Hle. cbn in Hlt. lia. }
  rewrite byte_of_copy in Ho, Hc by lia.
  destruct (_charBuffer d) as [buf|] eqn:Hbuf; [|discriminate].
  exists s, f, buf. repeat split; try assumption; try lia.
  unfold StrPair_GetStr. rewrite Es, Ef. cbn [ptr_eqb].
  destruct (Nat.eqb_spec s f) as [->|Hne].
  { now rewrite Nat.sub_diag. }
  apply c_string_at_prefix.
  - intros i Hi. rewrite !nth_error_skipn.
    rewrite <- (byte_of_copy mem n) by lia. apply (Hm (s + i)%nat). lia.
  - rewrite nth_error_skipn. replace (s + (f - s))%nat with f by lia. exact Hz.
Qed.

(** The value [ab] of the text [{"k":["ab","c"]}]. *)
Lemma Parse_strings_keep_the_text_witness :
  let mem := (cstr "{" ++ quoted "k" ++ cstr ":[" ++ quoted "ab" ++ cstr ","
                ++ quoted "c" ++ cstr "]}") ++ [NUL] in
  let sp := mkStrPair (Some 7%nat) (Some 9%nat) in
  exists e d,
    Parse (Some mem) None JsonDocument_new = Ok (e, d) /\
    exists s f buf,
      _start sp = Some s /\ _end sp = Some f /\
      (1 <= s <= f)%nat /\ (f < 16)%nat /\
      nth_error mem (s - 1) = Some DQUOTE /\
      nth_error mem f = Some DQUOTE /\
      _charBuffer d = Some buf /\
      nth_error buf f = Some NUL /\
      StrPair_GetStr buf sp = c_string_at (firstn (f - s) (skipn s mem)).
Proof.
  intros mem sp.
  destruct (Parse (Some mem) None JsonDocument_new) as [[e d]|c|] eqn:E;
    [|vm_compute in E; discriminate..].
  exists e, d. split; [reflexivity|].
  refine (Parse_strings_keep_the_text mem None JsonDocument_new e d 16 sp E _ _).
  - vm_compute. reflexivity.
  - assert (E2 := E). vm_compute in E2. injection E2 as _ <-.
    vm_compute. right. left. reflexivity.
Defined.

(** ** Texts that start no value, objects that start with no key *)

Lemma bind_Crash {A B} (m : M A) (k : A -> M B) d f :
  m d = Crash f -> bind m k d = Crash f.
Proof. unfold bind. now intros ->. Qed.

Lemma SkipWhiteSpace_over d pre ws c tail :
  _charBuffer d = Some (pre ++ ws ++ c :: tail) ->
  forallb JsonUtil.IsWhiteSpace ws = true ->
  JsonUtil.IsWhiteSpace c = false ->
  SkipWhiteSpace (Some (List.length pre)) d
  = Ok (Some (List.length pre + List.length ws)%nat, d).
Proof.
  intros Hbuf Hws Hc. unfold SkipWhiteSpace, JsonUtil.SkipWhiteSpace, lift.
  rewrite Hbuf, skipn_middle. now rewrite SkipWhiteSpace_loop_blank.
Qed.

Lemma deref_over d pre ws c tail :
  _charBuffer d = Some (pre ++ ws ++ c :: tail) ->
  deref (Some (List.length pre + List.length ws)%nat) d = Ok (c, d).
Proof.
  intros Hbuf. apply (deref_nth d _ _ c Hbuf).
  rewrite app_assoc, <- length_app. apply nth_error_middle.
Qed.

(** Parse of a text with a byte that is not whitespace: the copy is made
    and [ParseDeep] runs on it. *)
Lemma Parse_text_enters ws c more rest d0 :
  forallb JsonUtil.IsWhiteSpace ws = true ->
  JsonUtil.IsWhiteSpace c = false ->
  (c =? NUL) = false ->
  forallb (fun x => negb (x =? NUL)) more = true ->
  Parse (Some ((ws ++ c :: more) ++ NUL :: rest)) None d0
  = match NodeParseDeep (parse_fuel ((ws ++ c :: more) ++ [NUL])) [] (Some O)
            (Parse_entry d0 ((ws ++ c :: more) ++ [NUL])) with
    | Ok ((this, _), d') => Ok (_errorID d', with_children this d')
    | Crash f => Crash f
    | OutOfFuel => OutOfFuel
    end.
Proof.
  intros Hws Hc Hz Hmore.
  set (text := ws ++ c :: more).
  assert (Hall : forallb (fun x => negb (x =? NUL)) text = true).
  { unfold text. rewrite forallb_app. cbn [forallb]. rewrite Hz, Hmore.
    rewrite andb_true_r. cbn [negb andb].
    revert Hws. apply forallb_impl. intros x Hx.
    now rewrite (IsWhiteSpace_not_NUL x Hx). }
  assert (H0 : exists c0, read_mem (text ++ NUL :: rest) 0 = Ok c0 /\ (c0 =? NUL) = false).
  { unfold text. destruct ws as [|w ws]; cbn.
    - eauto.
    - exists w. split; [reflexivity|]. cbn in Hws. apply andb_prop in Hws.
      now apply IsWhiteSpace_not_NUL. }
  destruct H0 as (c0 & H0 & Hc0).
  assert (Hlen : strlen (text ++ NUL :: rest) = Ok (List.length text)).
  { unfold strlen. now rewrite strlen_from_app. }
  assert (Hskip : JsonUtil.SkipWhiteSpace (text ++ NUL :: rest) (Some O)
                  = Ok (Some (List.length ws))).
  { unfold JsonUtil.SkipWhiteSpace, text. cbn [skipn]. rewrite <- app_assoc.
    cbn [app]. rewrite SkipWhiteSpace_loop_blank; [reflexivity | exact Hws | exact Hc]. }
  assert (Hread : read_mem (text ++ NUL :: rest) (List.length ws) = Ok c).
  { unfold text. rewrite <- app_assoc. cbn [app]. apply read_mem_app. }
  unfold Parse. cbv zeta. unfold bind at 1 2. unfold modify at 1 2.
  fold (Parse_cleared d0).
  unfold bind at 1. unfold lift at 1. rewrite H0, Hc0.
  unfold bind at 1. unfold lift at 1. rewrite Hlen.
  unfold bind at 1. unfold lift at 1. rewrite copy_buffer_whole.
  unfold bind at 1. unfold modify at 1. fold (Parse_entry d0 (text ++ [NUL])).
  unfold bind at 1. unfold lift at 1. rewrite Hskip.
  unfold bind at 1. unfold lift at 1. rewrite Hread, Hz.
  unfold bind at 1.
  destruct (NodeParseDeep _ _ _ _) as [[[this r] d']| |]; try reflexivity.
  unfold bind, modify. now rewrite errorID_with_children.
Qed.

Lemma starts_value_false c :
  starts_value c = false ->
  (c =? ch "n") || (c =? ch "t") || (c =? ch "f") = false /\
  (c =? DQUOTE) = false /\ (c =? ch "{") = false /\ (c =? ch "[") = false /\
  (c =? ch "-") || isdigit c = false.
Proof.
  unfold starts_value. intros H.
  apply orb_false_elim in H. destruct H as [H Hd].
  apply orb_false_elim in H. destruct H as [H Hm].
  apply orb_false_elim in H. destruct H as [H Ha].
  apply orb_false_elim in H. destruct H as [H Ho].
  apply orb_false_elim in H. destruct H as [H Hq].
  repeat split; try assumption. now rewrite Hm, Hd.
Qed.

Lemma Identify_no_value d pre ws c tail :
  _charBuffer d = Some (pre ++ ws ++ c :: tail) ->
  forallb JsonUtil.IsWhiteSpace ws = true ->
  JsonUtil.IsWhiteSpace c = false ->
  starts_value c = false ->
  Identify (Some (List.length pre)) d
  = Ok ((Some (List.length pre + List.length ws)%nat, None), d).
Proof.
  intros Hbuf Hws Hc Hv. unfold Identify.
  rewrite (bind_eq _ _ _ _ _ (SkipWhiteSpace_over d pre ws c tail Hbuf Hws Hc)).
  cbv beta iota.
  rewrite (bind_eq _ _ _ _ _ (deref_over d pre ws c tail Hbuf)).
  destruct (c =? NUL); [reflexivity|].
  destruct (starts_value_false c Hv) as (H1 & H2 & H3 & H4 & H5).
  now rewrite H1, H2, H3, H4, H5.
Qed.

Lemma first_byte ws c more :
  forallb JsonUtil.IsWhiteSpace ws = true ->
  (c =? NUL) = false ->
  exists c0, nth_error ((ws ++ c :: more) ++ [NUL]) 0 = Some c0 /\ (c0 =? NUL) = false.
Proof.
  intros Hws Hz. destruct ws as [|w ws]; cbn.
  - eauto.
  - exists w. split; [reflexivity|]. cbn in Hws. apply andb_prop in Hws.
    now apply IsWhiteSpace_not_NUL.
Qed.

(** X26.  A text whose first byte after the leading whitespace starts no
    value (it is not one of n, t, f, a double quote, an opening brace or
    bracket, a minus sign or a digit) is not rejected: Parse returns
    JSON_NO_ERROR and leaves the Document without children, whatever
    follows that byte. *)
Theorem Parse_text_that_starts_no_value :
  forall ws c more rest d0,
    forallb JsonUtil.IsWhiteSpace ws = true ->
    JsonUtil.IsWhiteSpace c = false ->
    (c =? NUL) = false ->
    starts_value c = false ->
    forallb (fun x => negb (x =? NUL)) more = true ->
    status (Parse (Some ((ws ++ c :: more) ++ NUL :: rest)) None d0)
      = Some JSON_NO_ERROR /\
    tree (Parse (Some ((ws ++ c :: more) ++ NUL :: rest)) None d0) = Some [].
Proof.
  intros ws c more rest d0 Hws Hc Hz Hv Hmore.
  rewrite (Parse_text_enters ws c more rest d0 Hws Hc Hz Hmore).
  set (buf := (ws ++ c :: more) ++ [NUL]).
  set (d := Parse_entry d0 buf).
  assert (Hbuf : _charBuffer d = Some ([] ++ ws ++ c :: more ++ [NUL])).
  { unfold d. rewrite charBuffer_Parse_entry. unfold buf.
    now rewrite <- app_assoc. }
  destruct (first_byte ws c more Hws Hz) as (c0 & H0 & Hc0).
  assert (Hrun : NodeParseDeep (parse_fuel buf) [] (Some O) d
                 = Ok (([], Some (List.length ws)), d)).
  { destruct (parse_fuel_S2 buf) as (fuel & ->).
    cbn [NodeParseDeep]. unfold JsonNode_ParseDeep_body.
    assert (Hd0 : deref (Some O) d = Ok (c0, d)).
    { apply (deref_nth d buf); [|exact H0].
      unfold d. apply charBuffer_Parse_entry. }
    rewrite (bind_eq _ _ _ _ _ Hd0), Hc0.
    rewrite (bind_eq _ _ _ _ _ (Identify_no_value d [] ws c _ Hbuf Hws Hc Hv)).
    reflexivity. }
  rewrite Hrun. unfold status, tree, d.
  now rewrite errorID_Parse_entry, doc_children_with_children.
Qed.

(** The text [hello], and the text of a closing brace. *)
Lemma Parse_text_that_starts_no_value_witness :
  (status (Parse (Some (([] ++ ch "h" :: cstr "ello") ++ NUL :: [])) None JsonDocument_new)
     = Some JSON_NO_ERROR /\
   tree (Parse (Some (([] ++ ch "h" :: cstr "ello") ++ NUL :: [])) None JsonDocument_new)
     = Some []) /\
  (status (Parse (Some (([32] ++ ch "}" :: []) ++ NUL :: [])) None JsonDocument_new)
     = Some JSON_NO_ERROR /\
   tree (Parse (Some (([32] ++ ch "}" :: []) ++ NUL :: [])) None JsonDocument_new)
     = Some []).
Proof.
  split.
  - apply (Parse_text_that_starts_no_value [] (ch "h") (cstr "ello") [] JsonDocument_new);
      reflexivity.
  - apply (Parse_text_that_starts_no_value [32] (ch "}") [] [] JsonDocument_new);
      reflexivity.
Defined.

Lemma parse_fuel_S4 buf :
  buf <> [] -> exists fuel, parse_fuel buf = S (S (S (S fuel))).
Proof.
  intros H. destruct buf as [|x buf]; [contradiction|].
  exists (2 + 3 * List.length buf)%nat. unfold parse_fuel. cbn [List.length]. lia.
Qed.

Lemma Identify_at_brace d pre ws tail :
  _charBuffer d = Some (pre ++ ws ++ ch "{" :: tail) ->
  forallb JsonUtil.IsWhiteSpace ws = true ->
  Identify (Some (List.length pre)) d
  = Ok ((Some (List.length pre + List.length ws + 1)%nat, Some (JsonObject [])),
        with_pool VObject MemPool.Alloc d).
Proof.
  intros Hbuf Hws. unfold Identify.
  rewrite (bind_eq _ _ _ _ _ (SkipWhiteSpace_over d pre ws _ tail Hbuf Hws eq_refl)).
  cbv beta iota.
  rewrite (bind_eq _ _ _ _ _ (deref_over d pre ws _ tail Hbuf)).
  reflexivity.
Qed.

(** The first member of an object starts with a byte that is not a double
    quote: the Element fails, [ParseElement] returns a null pointer, and
    the test of the [while] reads through it. *)
Lemma ParseDeep_object_without_key fuel d pre ws c tail :
  _charBuffer d = Some (pre ++ ws ++ c :: tail) ->
  forallb JsonUtil.IsWhiteSpace ws = true ->
  JsonUtil.IsWhiteSpace c = false ->
  (c =? NUL) = false -> (c =? DQUOTE) = false -> (c =? ch "}") = false ->
  ParseDeep (S (S (S fuel))) (JsonObject []) (Some (List.length pre)) d
  = Crash NullDeref.
Proof.
  intros Hbuf Hws Hc Hz Hq Hb. cbn [ParseDeep].
  apply bind_Crash. unfold JsonObject_ParseDeep.
  rewrite (bind_eq _ _ _ _ _ (SkipWhiteSpace_over d pre ws c tail Hbuf Hws Hc)).
  cbv beta iota.
  rewrite (bind_eq _ _ _ _ _ (deref_over d pre ws c tail Hbuf)).
  rewrite Hz, Hb.
  set (q := (List.length pre + List.length ws)%nat).
  set (d1 := with_pool VElement MemPool.Alloc d).
  assert (Hd1 : deref (Some q) d1 = Ok (c, d1)).
  { apply (deref_over d1 pre ws c tail). unfold d1. now rewrite charBuffer_pool. }
  assert (HP : ParseDeep (S (S fuel)) (JsonElement []) (Some q) d1
               = Ok ((JsonElement [], None),
                     SetError_doc JSON_ERROR_PARSING_ELEMENT None None d1)).
  { cbn [ParseDeep]. unfold JsonElement_ParseDeep. cbv zeta. unfold bind at 1.
    rewrite (bind_eq _ _ _ _ _ Hd1), Hq. reflexivity. }
  set (d2 := SetError_doc JSON_ERROR_PARSING_ELEMENT None None d1) in *.
  assert (HE : JsonObject_ParseElement (ParseDeep (S (S fuel))) [] (Some q) d
               = Ok (([], None),
                     SetError_doc JSON_ERROR_PARSING_ELEMENT None None
                       (DeleteNode_pools (JsonElement [])
                          (with_pool VElement MemPool.SetTracked d2)))).
  { unfold JsonObject_ParseElement.
    assert (HC : CreatElement d = Ok (JsonElement [], d1)) by reflexivity.
    rewrite (bind_eq _ _ _ _ _ HC), (bind_eq _ _ _ _ _ HP). reflexivity. }
  rewrite (bind_eq _ _ _ _ _ HE). reflexivity.
Qed.

(** X27.  A text whose first value is an object whose first member does
    not start with a double quote (the byte after the opening brace and
    the whitespace is neither a double quote nor a closing brace, as in
    [{1}] or [{a:1}]) makes Parse read through a null pointer: the Element
    fails, ParseElement returns nullptr with JSON_ERROR_PARSING_ELEMENT
    recorded, and JsonObject::ParseDeep tests [*json] of that pointer. *)
Theorem Parse_object_without_key_faults :
  forall ws ws' c more rest d0,
    forallb JsonUtil.IsWhiteSpace ws = true ->
    forallb JsonUtil.IsWhiteSpace ws' = true ->
    JsonUtil.IsWhiteSpace c = false ->
    (c =? NUL) = false -> (c =? DQUOTE) = false -> (c =? ch "}") = false ->
    forallb (fun x => negb (x =? NUL)) more = true ->
    Parse (Some ((ws ++ ch "{" :: ws' ++ c :: more) ++ NUL :: rest)) None d0
    = Crash NullDeref.
Proof.
  intros ws ws' c more rest d0 Hws Hws' Hc Hz Hq Hb Hmore.
  assert (Hall : forallb (fun x => negb (x =? NUL)) (ws' ++ c :: more) = true).
  { rewrite forallb_app. cbn [forallb]. rewrite Hz, Hmore.
    rewrite andb_true_r. cbn [negb andb].
    revert Hws'. apply forallb_impl. intros x Hx.
    now rewrite (IsWhiteSpace_not_NUL x Hx). }
  rewrite (Parse_text_enters ws (ch "{") (ws' ++ c :: more) rest d0 Hws eq_refl eq_refl Hall).
  set (buf := (ws ++ ch "{" :: ws' ++ c :: more) ++ [NUL]).
  set (d := Parse_entry d0 buf).
  assert (Hbuf : _charBuffer d = Some ([] ++ ws ++ ch "{" :: ws' ++ c :: more ++ [NUL])).
  { unfold d. rewrite charBuffer_Parse_entry. unfold buf.
    rewrite <- app_assoc. cbn [app]. now rewrite <- app_assoc. }
  destruct (first_byte ws (ch "{") (ws' ++ c :: more) Hws eq_refl) as (c0 & H0 & Hc0).
  assert (Hrun : NodeParseDeep (parse_fuel buf) [] (Some O) d = Crash NullDeref).
  { destruct (parse_fuel_S4 buf) as (fuel & ->).
    { unfold buf. now destruct ws. }
    cbn [NodeParseDeep]. unfold JsonNode_ParseDeep_body.
    assert (Hd0 : deref (Some O) d = Ok (c0, d)).
    { apply (deref_nth d buf); [|exact H0].
      unfold d. apply charBuffer_Parse_entry. }
    rewrite (bind_eq _ _ _ _ _ Hd0), Hc0.
    rewrite (bind_eq _ _ _ _ _ (Identify_at_brace d [] ws _ Hbuf Hws)).
    cbv beta iota. apply bind_Crash.
    set (d1 := with_pool VObject MemPool.Alloc d).
    match goal with
    | |- ParseDeep _ _ (Some ?n) _ = _ =>
        replace n with (List.length (ws ++ [ch "{"]))
          by (rewrite length_app; cbn; lia)
    end.
    apply (ParseDeep_object_without_key fuel d1 (ws ++ [ch "{"]) ws' c (more ++ [NUL]));
      try assumption.
    unfold d1. rewrite charBuffer_pool, Hbuf. cbn [app].
    now rewrite <- app_assoc. }
  now rewrite Hrun.
Qed.

(** The texts [{1}] and [ { a:1}]. *)
Lemma Parse_object_without_key_faults_witness :
  Parse (Some (([] ++ ch "{" :: [] ++ ch "1" :: cstr "}") ++ NUL :: []))
    None JsonDocument_new = Crash NullDeref /\
  Parse (Some (([32] ++ ch "{" :: [32] ++ ch "a" :: cstr ":1}") ++ NUL :: []))
    None JsonDocument_new = Crash NullDeref.
Proof.
  split.
  - apply (Parse_object_without_key_faults [] [] (ch "1") (cstr "}") [] JsonDocument_new);
      reflexivity.
  - apply (Parse_object_without_key_faults [32] [32] (ch "a") (cstr ":1}") [] JsonDocument_new);
      reflexivity.
Defined.

(** X28.  In an object, a member after a comma must start with its double
    quote right after the comma: JsonObject::ParseDeep skips no whitespace
    there.  When the loop of JsonObject::ParseDeep is at a comma and the
    next byte is not a double quote (a space, as in [{"a":1, "b":2}],
    included), the Element created for the member is deleted again, the
    loop returns nullptr with the children as they were, and
    JSON_ERROR_PARSING_ELEMENT (twice) and JSON_ERROR_OBJECT_MISMATCH are
    passed to SetError in this order; the buffer and the live allocations
    are unchanged. *)
Theorem Object_member_must_follow_its_comma :
  forall fuel this p d buf c,
    _charBuffer d = Some buf ->
    nth_error buf p = Some (ch ",") ->
    nth_error buf (S p) = Some c ->
    (c =? DQUOTE) = false ->
    exists d',
      ObjectWhile (S (S fuel)) this (Some p) d = Ok ((this, None), d') /\
      SetError_calls d'
      = SetError_calls d ++ [JSON_ERROR_PARSING_ELEMENT; JSON_ERROR_PARSING_ELEMENT;
                             JSON_ERROR_OBJECT_MISMATCH] /\
      _charBuffer d' = Some buf /\
      doc_children d' = doc_children d /\
      (forall v, CurrentAllocs v d' = CurrentAllocs v d) /\
      (_errorID d = JSON_NO_ERROR -> _errorID d' = JSON_ERROR_PARSING_ELEMENT).
Proof.
  intros fuel this p d buf c Hbuf Hp Hc Hq.
  set (d1 := with_pool VElement MemPool.Alloc d).
  set (d2 := SetError_doc JSON_ERROR_PARSING_ELEMENT None None d1).
  set (d3 := SetError_doc JSON_ERROR_PARSING_ELEMENT None None
               (DeleteNode_pools (JsonElement [])
                  (with_pool VElement MemPool.SetTracked d2))).
  exists (SetError_doc JSON_ERROR_OBJECT_MISMATCH None None d3).
  split.
  - cbn [ObjectWhile]. unfold JsonObject_ParseDeep_while.
    rewrite (bind_eq _ _ _ _ _ (deref_nth d buf p _ Hbuf Hp)).
    change (ch "," =? ch ",") with true. cbv beta iota zeta. cbn [ptr_add].
    assert (Hd1 : deref (Some (p + 1)%nat) d1 = Ok (c, d1)).
    { apply (deref_nth d1 buf); [unfold d1; now rewrite charBuffer_pool|].
      now rewrite Nat.add_1_r. }
    assert (HP : ParseDeep (S fuel) (JsonElement []) (Some (p + 1)%nat) d1
                 = Ok ((JsonElement [], None), d2)).
    { cbn [ParseDeep]. unfold JsonElement_ParseDeep. cbv zeta. unfold bind at 1.
      rewrite (bind_eq _ _ _ _ _ Hd1), Hq. reflexivity. }
    assert (HE : JsonObject_ParseElement (ParseDeep (S fuel)) this (Some (p + 1)%nat) d
                 = Ok ((this, None), d3)).
    { unfold JsonObject_ParseElement.
      assert (HC : CreatElement d = Ok (JsonElement [], d1)) by reflexivity.
      rewrite (bind_eq _ _ _ _ _ HC), (bind_eq _ _ _ _ _ HP). reflexivity. }
    rewrite (bind_eq _ _ _ _ _ HE). reflexivity.
  - unfold d3, d2, d1. clear d1 d2 d3.
    assert (Hcur : forall v,
               CurrentAllocs v
                 (SetError_doc JSON_ERROR_OBJECT_MISMATCH None None
                    (SetError_doc JSON_ERROR_PARSING_ELEMENT None None
                       (DeleteNode_pools (JsonElement [])
                          (with_pool VElement MemPool.SetTracked
                             (SetError_doc JSON_ERROR_PARSING_ELEMENT None None
                                (with_pool VElement MemPool.Alloc d))))))
               = CurrentAllocs v d).
    { intros v.
      rewrite !CurrentAllocs_SetError, CurrentAllocs_DeleteNode,
        CurrentAllocs_SetTracked, CurrentAllocs_SetError, CurrentAllocs_Alloc,
        count_unfold.
      cbn [pool_of FirstChildren count_list]. lia. }
    destruct d as [cs e0 a b bf po pa pe pn ps pr log]. cbn in Hbuf. subst bf.
    split; [|split; [|split; [|split]]].
    + destruct e0; cbn; rewrite <- !app_assoc; reflexivity.
    + destruct e0; reflexivity.
    + destruct e0; reflexivity.
    + exact Hcur.
    + cbn. intros ->. reflexivity.
Qed.

(** The comma of [{"a":1, "b":2}], at index 6 of the buffer as the parser
    has it there (the closing quote of the key is a NUL). *)
Lemma Object_member_must_follow_its_comma_witness :
  let buf := cstr "{" ++ [DQUOTE] ++ cstr "a" ++ [NUL] ++ cstr ":1, "
               ++ quoted "b" ++ cstr ":2}" ++ [NUL] in
  let d := with_buffer (Some buf) JsonDocument_new in
  exists d',
    ObjectWhile 2 [] (Some 6%nat) d = Ok (([], None), d') /\
    SetError_calls d'
    = SetError_calls d ++ [JSON_ERROR_PARSING_ELEMENT; JSON_ERROR_PARSING_ELEMENT;
                           JSON_ERROR_OBJECT_MISMATCH] /\
    _charBuffer d' = Some buf /\
    doc_children d' = doc_children d /\
    (forall v, CurrentAllocs v d' = CurrentAllocs v d) /\
    (_errorID d = JSON_NO_ERROR -> _errorID d' = JSON_ERROR_PARSING_ELEMENT).
Proof.
  intros buf d.
  apply (Object_member_must_follow_its_comma O [] 6%nat d buf 32); reflexivity.
Defined.

(** ** The length argument of Parse *)

Lemma SkipWhiteSpace_loop_off_the_end (ws : list Z) :
  forallb JsonUtil.IsWhiteSpace ws = true ->
  forall p, JsonUtil.SkipWhiteSpace_loop ws p = Crash (OutOfBounds (p + List.length ws)).
Proof.
  intros Hall. induction ws as [|w ws IH]; intros p; cbn.
  - now rewrite Nat.add_0_r.
  - cbn in Hall. apply andb_prop in Hall. destruct Hall as [Hw Hall].
    rewrite Hw, (IH Hall). do 2 f_equal. lia.
Qed.

Lemma strlen_from_off_the_end (s : list Z) :
  forallb (fun c => negb (c =? NUL)) s = true ->
  forall p, strlen_from s p = Crash (OutOfBounds (p + List.length s)).
Proof.
  intros Hall. induction s as [|c s IH]; intros p; cbn.
  - now rewrite Nat.add_0_r.
  - cbn in Hall. apply andb_prop in Hall. destruct Hall as [Hc Hall].
    apply negb_true_iff in Hc. rewrite Hc, (IH Hall). do 2 f_equal. lia.
Qed.

(** X29.  The length argument of Parse bounds the copy, not the reads of
    the empty-document test, which scans the caller's text itself for a
    byte that is not whitespace.  On a block of whitespace bytes that is
    not NUL-terminated, Parse reads the byte after the block, also when
    [len] is given and is at most the size of the block. *)
Theorem Parse_reads_the_text_past_len :
  forall w ws len d0,
    forallb JsonUtil.IsWhiteSpace (w :: ws) = true ->
    (forall n, len = Some n -> (n <= List.length (w :: ws))%nat) ->
    Parse (Some (w :: ws)) len d0 = Crash (OutOfBounds (List.length (w :: ws))).
Proof.
  intros w ws len d0 Hws Hlen.
  assert (Hw : (w =? NUL) = false).
  { cbn in Hws. apply andb_prop in Hws. now apply IsWhiteSpace_not_NUL. }
  unfold Parse. cbv zeta. unfold bind at 1 2. unfold modify at 1 2.
  unfold bind at 1. unfold lift at 1.
  replace (read_mem (w :: ws) 0) with (Ok w) by reflexivity. rewrite Hw.
  unfold bind at 1. unfold lift at 1.
  destruct len as [n|].
  - unfold bind at 1. unfold lift at 1. unfold copy_buffer.
    destruct (Nat.leb_spec n (List.length (w :: ws))) as [_|Hgt];
      [|specialize (Hlen n eq_refl); lia].
    unfold bind at 1. unfold modify at 1.
    unfold bind at 1. unfold lift at 1.
    unfold JsonUtil.SkipWhiteSpace. cbn [skipn].
    now rewrite (SkipWhiteSpace_loop_off_the_end (w :: ws) Hws).
  - unfold strlen. rewrite strlen_from_off_the_end; [reflexivity|].
    revert Hws. apply forallb_impl. intros x Hx.
    now rewrite (IsWhiteSpace_not_NUL x Hx).
Qed.

(** Two spaces, with [len] 2 and with [len] 1. *)
Lemma Parse_reads_the_text_past_len_witness :
  Parse (Some [32; 32]) (Some 2%nat) JsonDocument_new = Crash (OutOfBounds 2) /\
  Parse (Some [32; 32]) (Some 1%nat) JsonDocument_new = Crash (OutOfBounds 2).
Proof.
  split.
  - apply (Parse_reads_the_text_past_len 32 [32] (Some 2%nat) JsonDocument_new).
    + reflexivity.
    + intros n Hn. injection Hn as <-. cbn. lia.
  - apply (Parse_reads_the_text_past_len 32 [32] (Some 1%nat) JsonDocument_new).
    + reflexivity.
    + intros n Hn. injection Hn as <-. cbn. lia.
Defined.
